(** * Expression lowering of the Rust front end: a shallow embedding

    This development embeds the parts of [gcc/rust/backend/rust-compile-expr.cc]
    that turn type-checked HIR expressions into GENERIC trees, and states the
    properties of the lowering as theorems over that embedding:

    - the tuple-match decomposition ([organize_tuple_patterns],
      [simplify_tuple_match]);
    - direct match lowering ([CompileExpr::visit (HIR::MatchExpr &)]);
    - integer-literal materialisation ([compile_integer_literal]);
    - the adjustment engine ([resolve_adjustements] and its helpers);
    - dynamic dispatch ([get_fn_addr_from_dyn], [get_receiver_from_dyn]);
    - dereference lowering ([CompileExpr::visit (HIR::DereferenceExpr &)]).

    Conventions.  A [rust_assert] that fails, [gcc_unreachable] and
    [rust_fatal_error] end the compilation: they are the outcome [Abort].
    So is undefined behaviour of the C++ code: an access outside a vector, a
    cast to the wrong class, the use of a variable that was never assigned.
    Deep copies ([clone_pattern], [clone_expr], copy constructors) are the
    identity on values; where the code compares or orders objects by their
    address the address is kept next to the value.  The debugging output of
    the code ([printf]) is not part of the model. *)

From Stdlib Require Import String Ascii ZArith Bool Lia Arith PeanoNat List Permutation.
Import ListNotations.

Set Implicit Arguments.
Set Warnings "-register-all,-automation".


(** ** Outcomes of a lowering routine *)

Inductive outcome (A : Type) : Type :=
| Ok (a : A)
| Abort
| OutOfFuel.

Arguments Ok {A} a.
Arguments Abort {A}.
Arguments OutOfFuel {A}.

Definition obind {A B : Type} (o : outcome A) (k : A -> outcome B) : outcome B :=
  match o with
  | Ok a => k a
  | Abort => Abort
  | OutOfFuel => OutOfFuel
  end.

Definition rust_assert (b : bool) : outcome unit :=
  if b then Ok tt else Abort.

Definition Location := nat.
Definition UNKNOWN_LOCATION : Location := 0.
Definition NodeMapping := nat.

(** ** HIR: patterns, expressions, match arms *)

Module HIR.

Inductive TuplePatternItemType := MULTIPLE | RANGED.

Inductive TuplePatternItems (P : Type) : Type :=
| TuplePatternItemsMultiple (patterns : list P)
| TuplePatternItemsRanged (lower upper : list P).

Arguments TuplePatternItemsMultiple {P} patterns.
Arguments TuplePatternItemsRanged {P} lower upper.

Inductive Pattern : Type :=
| WildcardPattern
| LiteralPattern (lit : Z)
| IdentifierPattern (name : string)
| RangePattern (lower upper : Z)
| TuplePattern (mappings : NodeMapping) (items : TuplePatternItems Pattern)
               (locus : Location).

Inductive PatternType := PT_LITERAL | PT_IDENTIFIER | PT_WILDCARD | PT_RANGE | PT_TUPLE.

Definition get_pattern_type (p : Pattern) : PatternType :=
  match p with
  | WildcardPattern => PT_WILDCARD
  | LiteralPattern _ => PT_LITERAL
  | IdentifierPattern _ => PT_IDENTIFIER
  | RangePattern _ _ => PT_RANGE
  | TuplePattern _ _ _ => PT_TUPLE
  end.

Definition items_pattern_type {P} (i : TuplePatternItems P) : TuplePatternItemType :=
  match i with
  | TuplePatternItemsMultiple _ => MULTIPLE
  | TuplePatternItemsRanged _ _ => RANGED
  end.

Record MatchArm_ (E : Type) : Type := mkMatchArm
  { get_patterns : list Pattern;
    arm_locus : Location;
    get_guard : option E }.

Record MatchCase_ (E : Type) : Type := mkMatchCase
  { case_mappings : NodeMapping;
    get_arm : MatchArm_ E;
    get_expr : E }.

Inductive Expr : Type :=
| LiteralExpr (mappings : NodeMapping) (lit : Z)
| PathInExpression (mappings : NodeMapping)
| TupleExpr (mappings : NodeMapping) (tuple_elems : list Expr) (locus : Location)
| MatchExprNode (mappings : NodeMapping) (scrutinee : Expr)
                (cases : list (MatchCase_ Expr)) (locus : Location).

Definition MatchArm := MatchArm_ Expr.
Definition MatchCase := MatchCase_ Expr.

Record MatchExpr : Type := mkMatchExpr
  { get_mappings : NodeMapping;
    get_scrutinee_expr : Expr;
    get_match_cases : list MatchCase;
    get_locus : Location }.

Inductive ExprType := ET_Lit | ET_Path | ET_Tuple | ET_Match.

Definition get_expression_type (e : Expr) : ExprType :=
  match e with
  | LiteralExpr _ _ => ET_Lit
  | PathInExpression _ => ET_Path
  | TupleExpr _ _ _ => ET_Tuple
  | MatchExprNode _ _ _ _ => ET_Match
  end.

Definition is_tuple_expr (e : Expr) : bool :=
  match e with TupleExpr _ _ _ => true | _ => false end.

Definition expr_mappings (e : Expr) : NodeMapping :=
  match e with
  | LiteralExpr m _ => m
  | PathInExpression m => m
  | TupleExpr m _ _ => m
  | MatchExprNode m _ _ _ => m
  end.

Definition expr_locus (e : Expr) : Location :=
  match e with
  | TupleExpr _ _ l => l
  | MatchExprNode _ _ _ l => l
  | _ => UNKNOWN_LOCATION
  end.

(** [MatchExpr::clone_expr]: the match as an expression node. *)
Definition clone_expr (m : MatchExpr) : Expr :=
  MatchExprNode (get_mappings m) (get_scrutinee_expr m) (get_match_cases m)
                (get_locus m).

End HIR.

Import HIR.

(** ** The map of [organize_tuple_patterns]

    The code keeps a [std::map<std::unique_ptr<HIR::Pattern>,
    std::vector<HIR::MatchCase>>].  Its keys are owning pointers and the map
    orders and compares them with [operator<] of [std::unique_ptr], that is by
    the address of the pattern object.  A key is therefore an address
    together with the pattern stored there; the entries are kept in
    increasing order of address, which is the order in which the map is
    iterated. *)

Definition addr := nat.
Definition PatternPtr : Type := (addr * Pattern)%type.
Definition PatternMap : Type := list (PatternPtr * list MatchCase).

(** [map.find (first)] *)
Fixpoint map_find (k : addr) (m : PatternMap) : bool :=
  match m with
  | [] => false
  | ((a, _), _) :: m' => if Nat.eqb a k then true else map_find k m'
  end.

(** [search->second.push_back (new_case)] *)
Fixpoint map_push_back (k : addr) (c : MatchCase) (m : PatternMap) : PatternMap :=
  match m with
  | [] => []
  | ((a, p), v) :: m' =>
      if Nat.eqb a k then ((a, p), v ++ [c]) :: m'
      else ((a, p), v) :: map_push_back k c m'
  end.

(** [map[std::move (first)] = { new_case }] for a key that is not in the map *)
Fixpoint map_insert (k : PatternPtr) (v : list MatchCase) (m : PatternMap) : PatternMap :=
  match m with
  | [] => [(k, v)]
  | ((a, p), w) :: m' =>
      if Nat.ltb (fst k) a then (k, v) :: ((a, p), w) :: m'
      else ((a, p), w) :: map_insert k v m'
  end.

Definition map_keys (m : PatternMap) : list addr := map (fun e => fst (fst e)) m.

Section TupleMatch.

(** The allocator: [new_addr n] is the address at which the [n]-th cloned
    first element (the key handed to the map) is allocated.  The state of the
    decomposition is the number of keys allocated so far.  Objects that are
    alive together have different addresses: the properties that depend on
    it take [new_addr] injective. *)
Variable new_addr : nat -> addr.

(** One iteration of the loop of [organize_tuple_patterns].  A tuple pattern
    always has its items here, so that [rust_assert
    (ref.has_tuple_pattern_items ())] holds. *)
Definition organize_case (st : PatternMap * nat) (match_case : MatchCase)
  : outcome (PatternMap * nat) :=
  let '(map, n) := st in
  let case_arm := get_arm match_case in
  match get_patterns case_arm with
  | [] => Abort (* get_patterns ()[0] on an empty vector *)
  | pat :: _ =>
      match pat with
      | WildcardPattern => Ok (map, n) (* continue *)
      | TuplePattern ref_mappings items ref_locus =>
          match items with
          | TuplePatternItemsMultiple items_ref =>
              match items_ref with
              | [] => Abort (* get_patterns ()[0] on an empty vector *)
              | first :: patterns =>
                  let result_pattern :=
                    match patterns with
                    | [p] => p
                    | _ => TuplePattern ref_mappings
                             (TuplePatternItemsMultiple patterns) ref_locus
                    end in
                  let new_arm := mkMatchArm [result_pattern] UNKNOWN_LOCATION None in
                  let new_case :=
                    mkMatchCase (case_mappings match_case) new_arm
                                (get_expr match_case) in
                  let first_ptr := (new_addr n, first) in
                  if map_find (fst first_ptr) map
                  then Ok (map_push_back (fst first_ptr) new_case map, S n)
                  else Ok (map_insert first_ptr [new_case] map, S n)
              end
          | TuplePatternItemsRanged _ _ => Ok (map, n)
          end
      | _ => Abort (* rust_assert (pat->get_pattern_type () == TUPLE) *)
      end
  end.

Fixpoint organize_loop (cases : list MatchCase) (st : PatternMap * nat)
  : outcome (PatternMap * nat) :=
  match cases with
  | [] => Ok st
  | c :: cases' => obind (organize_case st c) (organize_loop cases')
  end.

Definition organize_tuple_patterns (expr : MatchExpr) (n : nat)
  : outcome (PatternMap * nat) :=
  obind (rust_assert (is_tuple_expr (get_scrutinee_expr expr))) (fun _ =>
  organize_loop (get_match_cases expr) ([], n)).

(** The scrutinee handed to the inner matches: the tail of the tuple,
    re-wrapped as a tuple unless exactly one element remains. *)
Definition remaining_of (ref_mappings : NodeMapping) (tail : list Expr)
                        (ref_locus : Location) : Expr :=
  match tail with
  | [e] => e
  | _ => TupleExpr ref_mappings tail ref_locus
  end.

(** The loop of [simplify_tuple_match] over the map, in the order of the
    map's iterator: one outer case per key, whose body is the inner match
    over the tail, itself simplified by [simplify]. *)
Definition outer_cases (simplify : MatchExpr -> nat -> outcome (MatchExpr * nat))
                       (expr : MatchExpr) (remaining : Expr)
  : PatternMap -> nat -> outcome (list MatchCase * nat) :=
  fix iter (entries : PatternMap) (n : nat) : outcome (list MatchCase * nat) :=
    match entries with
    | [] => Ok ([], n)
    | ((_, first), second) :: entries' =>
        let inner_match :=
          mkMatchExpr (get_mappings expr) remaining second (get_locus expr) in
        obind (simplify inner_match n) (fun '(inner_match', n') =>
        let outer_arm := mkMatchArm [first] (get_locus expr) None in
        let inner_expr := clone_expr inner_match' in
        let outer_case := mkMatchCase (get_mappings expr) outer_arm inner_expr in
        obind (iter entries' n') (fun '(cases, n'') =>
        Ok (outer_case :: cases, n'')))
    end.

Fixpoint simplify_tuple_match (fuel : nat) (expr : MatchExpr) (n : nat)
  : outcome (MatchExpr * nat) :=
  match get_scrutinee_expr expr with
  | TupleExpr ref_mappings elems ref_locus =>
      match fuel with
      | O => OutOfFuel
      | S fuel' =>
          obind (rust_assert (Nat.ltb 1 (length elems))) (fun _ =>
          match elems with
          | [] => Abort
          | head :: tail =>
              let remaining := remaining_of ref_mappings tail ref_locus in
              obind (organize_tuple_patterns expr n) (fun '(map, n1) =>
              obind (outer_cases (simplify_tuple_match fuel') expr remaining map n1)
                (fun '(cases, n2) =>
              Ok (mkMatchExpr (get_mappings expr) head cases (get_locus expr), n2)))
          end)
      end
  | _ => Ok (expr, n)
  end.

End TupleMatch.

(** ** Size of a scrutinee: the measure of the recursion *)

Fixpoint expr_size (e : Expr) : nat :=
  match e with
  | TupleExpr _ elems _ =>
      S ((fix sizes (l : list Expr) : nat :=
            match l with
            | [] => 0
            | x :: l' => expr_size x + sizes l'
            end) elems)
  | _ => 1
  end.

Definition tuple_arity (e : Expr) : option nat :=
  match e with
  | TupleExpr _ elems _ => Some (length elems)
  | _ => None
  end.

(** ** A reference semantics of matching

    Values are integers and tuples.  An environment gives every expression
    that is not a tuple expression its value, and says whether a guard holds;
    a tuple expression evaluates to the tuple of the values of its
    elements. *)

Inductive value : Type :=
| VInt (z : Z)
| VTuple (vs : list value).

Definition forallb2 {A B : Type} (f : A -> B -> bool) : list A -> list B -> bool :=
  fix go (l1 : list A) (l2 : list B) : bool :=
    match l1, l2 with
    | [], [] => true
    | a :: l1', b :: l2' => f a b && go l1' l2'
    | _, _ => false
    end.

Fixpoint matches (p : Pattern) (v : value) : bool :=
  match p with
  | WildcardPattern => true
  | IdentifierPattern _ => true
  | LiteralPattern z =>
      match v with VInt z' => Z.eqb z z' | VTuple _ => false end
  | RangePattern lo hi =>
      match v with VInt z => Z.leb lo z && Z.leb z hi | VTuple _ => false end
  | TuplePattern _ (TuplePatternItemsMultiple ps) _ =>
      match v with
      | VTuple vs => forallb2 matches ps vs
      | VInt _ => false
      end
  | TuplePattern _ (TuplePatternItemsRanged lower upper) _ =>
      match v with
      | VTuple vs =>
          Nat.leb (length lower + length upper) (length vs)
          && forallb2 matches lower (firstn (length lower) vs)
          && forallb2 matches upper (skipn (length vs - length upper) vs)
      | VInt _ => false
      end
  end.

Record Env : Type := mkEnv
  { value_of : Expr -> value;
    guard_holds : Expr -> bool }.

Fixpoint eval (env : Env) (e : Expr) : value :=
  match e with
  | TupleExpr _ elems _ => VTuple (map (eval env) elems)
  | _ => value_of env e
  end.

Definition arm_matches (env : Env) (arm : MatchArm) (v : value) : bool :=
  existsb (fun p => matches p v) (get_patterns arm)
  && match get_guard arm with
     | None => true
     | Some g => guard_holds env g
     end.

(** The reference, table-driven matcher: the first case, in source order,
    one of whose alternatives matches the value of the scrutinee. *)
Definition reference_match (env : Env) (m : MatchExpr) : option MatchCase :=
  find (fun c => arm_matches env (get_arm c) (eval env (get_scrutinee_expr m)))
       (get_match_cases m).

(** Evaluation of a (nested) match: the arm body that control reaches.  A
    match whose selected body is again a match goes on matching; a match none
    of whose cases is selected reaches nothing. *)
Fixpoint reach (env : Env) (e : Expr) : option Expr :=
  match e with
  | MatchExprNode _ scrutinee cases _ =>
      (fix first_match (l : list (MatchCase_ Expr)) : option Expr :=
         match l with
         | [] => None
         | c :: l' =>
             if arm_matches env (get_arm c) (eval env scrutinee)
             then reach env (get_expr c)
             else first_match l'
         end) cases
  | _ => Some e
  end.

Definition reference_reach (env : Env) (m : MatchExpr) : option Expr :=
  match reference_match env m with
  | Some c => reach env (get_expr c)
  | None => None
  end.

(** ** Examples *)

Module Examples.

Definition tuple_pat (ps : list Pattern) : Pattern :=
  TuplePattern 0 (TuplePatternItemsMultiple ps) 0.

Definition kase (id : NodeMapping) (p : Pattern) (body : Z) : MatchCase :=
  mkMatchCase id (mkMatchArm [p] 0 None) (LiteralExpr (200 + id) body).

Definition x := PathInExpression 1.
Definition y := PathInExpression 2.
Definition z := PathInExpression 3.

(** [match (x, y) { (1, 2) => 10, (1, 3) => 20, _ => 30 }] *)
Definition scenario1 : MatchExpr :=
  mkMatchExpr 100 (TupleExpr 101 [x; y] 0)
    [ kase 1 (tuple_pat [LiteralPattern 1; LiteralPattern 2]) 10;
      kase 2 (tuple_pat [LiteralPattern 1; LiteralPattern 3]) 20;
      kase 3 WildcardPattern 30 ] 0.

(** [match (x, y) { (1, 2) => 10, (1, 3) => 20 }] *)
Definition shared_first : MatchExpr :=
  mkMatchExpr 100 (TupleExpr 101 [x; y] 0)
    [ kase 1 (tuple_pat [LiteralPattern 1; LiteralPattern 2]) 10;
      kase 2 (tuple_pat [LiteralPattern 1; LiteralPattern 3]) 20 ] 0.

(** [match (x, (y, z, x)) { (1, (2, 3, 4)) => 10 }] *)
Definition nested_last : MatchExpr :=
  mkMatchExpr 100 (TupleExpr 101 [x; TupleExpr 102 [y; z; x] 0] 0)
    [ kase 1 (tuple_pat [LiteralPattern 1;
                         tuple_pat [LiteralPattern 2; LiteralPattern 3;
                                    LiteralPattern 4]]) 10 ] 0.

(** [match (x, y, z) { (1, 2, 3) => 10, (2, 2, 3) => 20, (3, _, 7) => 30 }] *)
Definition disjoint3 : MatchExpr :=
  mkMatchExpr 100 (TupleExpr 101 [x; y; z] 0)
    [ kase 1 (tuple_pat [LiteralPattern 1; LiteralPattern 2; LiteralPattern 3]) 10;
      kase 2 (tuple_pat [LiteralPattern 2; LiteralPattern 2; LiteralPattern 3]) 20;
      kase 3 (tuple_pat [LiteralPattern 3; WildcardPattern; LiteralPattern 7]) 30 ] 0.

Definition env_of (vx vy vz : Z) : Env :=
  mkEnv (fun e => match e with
                  | PathInExpression 1 => VInt vx
                  | PathInExpression 2 => VInt vy
                  | PathInExpression 3 => VInt vz
                  | LiteralExpr _ k => VInt k
                  | _ => VInt 0
                  end)
        (fun _ => true).

(** Two allocators: addresses that grow, and addresses that grow by pairs
    with the two addresses of each pair handed out in decreasing order. *)
Definition bump_up (n : nat) : addr := n.
Definition swapped (n : nat) : addr := if Nat.even n then S n else pred n.

End Examples.

(** ** Notions used to state the properties of the decomposition *)

(** What one match case contributes to the map: nothing when its first
    pattern is a wildcard or a ranged tuple pattern, else the first element
    of its tuple pattern and the case over the remaining elements. *)
Definition case_entry (match_case : MatchCase)
  : outcome (option (Pattern * MatchCase)) :=
  match get_patterns (get_arm match_case) with
  | WildcardPattern :: _ => Ok None
  | TuplePattern _ (TuplePatternItemsRanged _ _) _ :: _ => Ok None
  | TuplePattern ref_mappings (TuplePatternItemsMultiple (first :: patterns)) ref_locus :: _ =>
      let result_pattern :=
        match patterns with
        | [p] => p
        | _ => TuplePattern ref_mappings (TuplePatternItemsMultiple patterns) ref_locus
        end in
      Ok (Some (first,
                mkMatchCase (case_mappings match_case)
                            (mkMatchArm [result_pattern] UNKNOWN_LOCATION None)
                            (get_expr match_case)))
  | _ => Abort
  end.

Definition kept_entry (match_case : MatchCase) : list (Pattern * list MatchCase) :=
  match case_entry match_case with
  | Ok (Some (first, new_case)) => [(first, [new_case])]
  | _ => []
  end.

(** The map without its addresses: key patterns and case vectors, in the
    order of iteration. *)
Definition contents (m : PatternMap) : list (Pattern * list MatchCase) :=
  map (fun e => (snd (fst e), snd e)) m.

Definition first_pattern_is_wildcard (c : MatchCase) : bool :=
  match get_patterns (get_arm c) with
  | WildcardPattern :: _ => true
  | _ => false
  end.

(** The case with only the first alternative of its arm. *)
Definition only_first_alternative (c : MatchCase) : MatchCase :=
  mkMatchCase (case_mappings c)
    (mkMatchArm (firstn 1 (get_patterns (get_arm c)))
                (arm_locus (get_arm c)) (get_guard (get_arm c)))
    (get_expr c).

Definition with_cases (m : MatchExpr) (cases : list MatchCase) : MatchExpr :=
  mkMatchExpr (get_mappings m) (get_scrutinee_expr m) cases (get_locus m).

Definition injective (f : nat -> addr) : Prop :=
  forall i j, f i = f j -> i = j.

(** Keys of the map were all handed out by the allocator before step [n]. *)
Definition keys_before (new_addr : nat -> addr) (n : nat) (m : PatternMap) : Prop :=
  forall a, In a (map_keys m) -> exists i, i < n /\ a = new_addr i.

(** A pattern follows the shape of a scrutinee when, wherever the
    decomposition meets a tuple expression, the pattern is a tuple pattern
    with as many (at least two) elements. *)
Fixpoint shaped (e : Expr) (p : Pattern) : bool :=
  match e with
  | TupleExpr _ elems _ =>
      match p with
      | TuplePattern _ (TuplePatternItemsMultiple ps) _ =>
          (fix shaped_tuple (es : list Expr) (ps : list Pattern) : bool :=
             match es, ps with
             | [_; e2], [_; p2] => shaped e2 p2
             | _ :: ((_ :: _ :: _) as tail), _ :: ((_ :: _ :: _) as rest) =>
                 shaped_tuple tail rest
             | _, _ => false
             end) elems ps
      | _ => false
      end
  | _ => true
  end.

Definition first_of (p : Pattern) : Pattern :=
  match p with
  | TuplePattern _ (TuplePatternItemsMultiple (first :: _)) _ => first
  | _ => p
  end.

(** A case the decomposition handles in full: one alternative, no guard, a
    pattern that follows the shape of the scrutinee. *)
Definition plain_case (scrutinee : Expr) (c : MatchCase) : Prop :=
  exists p, get_patterns (get_arm c) = [p]
            /\ get_guard (get_arm c) = None
            /\ shaped scrutinee p = true.

Definition case_first (c : MatchCase) : Pattern :=
  match get_patterns (get_arm c) with
  | p :: _ => first_of p
  | [] => WildcardPattern
  end.

Definition disjoint_patterns (p q : Pattern) : Prop :=
  forall v, matches p v = true -> matches q v = true -> False.

(** The inner loop of [reach], on its own. *)
Fixpoint first_reach (env : Env) (v : value) (l : list MatchCase) : option Expr :=
  match l with
  | [] => None
  | c :: l' =>
      if arm_matches env (get_arm c) v then reach env (get_expr c)
      else first_reach env v l'
  end.

(** A branch of an outer match: the pattern tried on the head of the
    scrutinee, and what is reached once it has matched. *)
Definition branch : Type := (Pattern * option Expr)%type.

Definition pick (v : value) (l : list branch) : option Expr :=
  match find (fun b => matches (fst b) v) l with
  | Some b => snd b
  | None => None
  end.

Definition entry_branch (env : Env) (remaining : Expr)
                        (e : Pattern * list MatchCase) : branch :=
  (fst e, first_reach env (eval env remaining) (snd e)).

(** * Lowering to GENERIC *)

(** ** Resolved types *)

Module TyTy.

Inductive TypeKind :=
| INFER | ADT | STR | REF | POINTER | PARAM | ARRAY | SLICE | FNDEF | FNPTR
| TUPLE | BOOL | CHAR | INT | UINT | FLOAT | USIZE | ISIZE | NEVER
| PLACEHOLDER | PROJECTION | DYNAMIC | CLOSURE | ERROR.

Definition TypeKind_eqb (a b : TypeKind) : bool :=
  match a, b with
  | INFER, INFER | ADT, ADT | STR, STR | REF, REF | POINTER, POINTER
  | PARAM, PARAM | ARRAY, ARRAY | SLICE, SLICE | FNDEF, FNDEF | FNPTR, FNPTR
  | TUPLE, TUPLE | BOOL, BOOL | CHAR, CHAR | INT, INT | UINT, UINT
  | FLOAT, FLOAT | USIZE, USIZE | ISIZE, ISIZE | NEVER, NEVER
  | PLACEHOLDER, PLACEHOLDER | PROJECTION, PROJECTION | DYNAMIC, DYNAMIC
  | CLOSURE, CLOSURE | ERROR, ERROR => true
  | _, _ => false
  end.

Record FnType : Type := mkFnType
  { get_id : nat;
    fn_name : string;
    has_subsititions_defined : bool }.

(** A resolved type.  [BaseTy] is a type of which only the kind and the name
    matter here; the kinds whose contents the lowering reads have a
    constructor of their own. *)
Inductive BaseType : Type :=
| BaseTy (kind : TypeKind) (name : string)
| ADTType (name : string) (is_enum : bool) (number_of_variants : nat)
| ReferenceType (base : BaseType)
| FnDefType (fn : FnType)
| DynamicObjectType (object_items : list (nat * BaseType)).

Definition get_kind (t : BaseType) : TypeKind :=
  match t with
  | BaseTy k _ => k
  | ADTType _ _ _ => ADT
  | ReferenceType _ => REF
  | FnDefType _ => FNDEF
  | DynamicObjectType _ => DYNAMIC
  end.

Definition get_name (t : BaseType) : string :=
  match t with
  | BaseTy _ n => n
  | ADTType n _ _ => n
  | ReferenceType _ => "&"
  | FnDefType f => fn_name f
  | DynamicObjectType _ => "dyn"
  end.

(** A type of kind [REF] is a [ReferenceType], with the type referred to. *)
Definition reference_has_base (t : BaseType) : bool :=
  match t with
  | BaseTy REF _ => false
  | _ => true
  end.

(** A trait item of a dynamic object: the item and its type. *)
Definition TraitItemReference : Type := (nat * BaseType)%type.
Definition get_tyty (item : TraitItemReference) : BaseType := snd item.

End TyTy.

(** ** Trees *)

Module GENERIC.

Inductive tree : Type :=
| error_mark_node
| NULL_TREE
| void_type_node
| INTEGER_TYPE (precision : nat) (unsigned : bool)
| REAL_TYPE (precision : nat)
| POINTER_TYPE (to : tree)
| REFERENCE_TYPE (to : tree)
| ARRAY_TYPE (elem : tree) (domain_type : tree) (domain_min domain_max : Z)
| RECORD_TYPE (lang_flag_0 : bool) (fields : list tree)
| FUNCTION_TYPE (result : tree)
| INTEGER_CST (type : tree) (value : Z)
| VALUE (type : tree) (uid : nat)
| FUNCTION_DECL (type : tree) (uid : nat)
| VAR_DECL (type : tree) (uid : nat)
| LABEL_DECL (uid : nat)
| ADDR_EXPR (type : tree) (operand : tree)
| INDIRECT_REF (type : tree) (operand : tree) (notrap : bool)
| COMPONENT_REF (operand : tree) (index : nat)
| ARRAY_REF (type : tree) (array : tree) (index : tree)
| OBJ_TYPE_REF (type : tree) (expr : tree) (object : tree) (token : tree)
| CALL_EXPR (fn : tree) (args : list tree)
| CONSTRUCTOR (type : tree) (elts : list tree)
| DECL_EXPR (decl : tree)
| MODIFY_EXPR (lhs rhs : tree)
| GOTO_EXPR (locus : Location) (label : tree)
| LABEL_EXPR (label : tree)
| CASE_LABEL_EXPR (low : tree) (label : tree)
| SWITCH_EXPR (locus : Location) (type : tree) (cond body : tree)
| BIND_EXPR (uid : nat) (body : list tree).

Definition size_type_node : tree := INTEGER_TYPE 64 true.

(** [TREE_TYPE]: the type of an expression; of a pointer, reference or array
    type, the type pointed to or the element type; of a function type, the
    type returned.  The type of [error_mark_node] is [error_mark_node]. *)
Fixpoint TREE_TYPE (t : tree) : tree :=
  match t with
  | error_mark_node => error_mark_node
  | POINTER_TYPE to => to
  | REFERENCE_TYPE to => to
  | ARRAY_TYPE elem _ _ _ => elem
  | FUNCTION_TYPE result => result
  | INTEGER_CST type _ => type
  | VALUE type _ => type
  | FUNCTION_DECL type _ => type
  | VAR_DECL type _ => type
  | ADDR_EXPR type _ => type
  | INDIRECT_REF type _ _ => type
  | COMPONENT_REF operand index =>
      match TREE_TYPE operand with
      | RECORD_TYPE _ fields => nth index fields error_mark_node
      | _ => error_mark_node
      end
  | ARRAY_REF type _ _ => type
  | OBJ_TYPE_REF type _ _ _ => type
  | CALL_EXPR fn _ =>
      match TREE_TYPE fn with
      | FUNCTION_TYPE result => result
      | POINTER_TYPE (FUNCTION_TYPE result) => result
      | _ => error_mark_node
      end
  | CONSTRUCTOR type _ => type
  | _ => NULL_TREE
  end.

(** Modelled from the spec: the macro [SLICE_TYPE_P] of [rust-tree.h], which
    is not among the sources: the type is the fat-pointer (slice)
    representation, a record type that carries the slice flag. *)
Definition SLICE_TYPE_P (t : tree) : bool :=
  match t with
  | RECORD_TYPE flag _ => flag
  | _ => false
  end.

Definition TYPE_PRECISION (t : tree) : nat :=
  match t with
  | INTEGER_TYPE p _ => p
  | REAL_TYPE p => p
  | _ => 0
  end.

Definition TYPE_UNSIGNED (t : tree) : bool :=
  match t with
  | INTEGER_TYPE _ u => u
  | POINTER_TYPE _ => true
  | REFERENCE_TYPE _ => true
  | _ => false
  end.

(** Modelled from the spec: [get_type_static_bounds] of the middle end, which
    is not among the sources: the least and the greatest value of an integer
    type of the given bit width and signedness. *)
Definition type_min (t : tree) : Z :=
  if TYPE_UNSIGNED t then 0%Z
  else (- 2 ^ (Z.of_nat (TYPE_PRECISION t) - 1))%Z.

Definition type_max (t : tree) : Z :=
  if TYPE_UNSIGNED t then (2 ^ Z.of_nat (TYPE_PRECISION t) - 1)%Z
  else (2 ^ (Z.of_nat (TYPE_PRECISION t) - 1) - 1)%Z.

Definition get_type_static_bounds (t : tree) : Z * Z := (type_min t, type_max t).

(** Reduction of an integer to the values of a type of [precision] bits:
    [wi::ext], and the wrap-around of [mpz_get_double_int (type, val, true)]. *)
Definition wi_ext (v : Z) (precision : nat) (unsigned : bool) : Z :=
  let m := (2 ^ Z.of_nat precision)%Z in
  if unsigned then (v mod m)%Z
  else ((v + m / 2) mod m - m / 2)%Z.

Definition to_uhwi (v : Z) : Z := (v mod 2 ^ 64)%Z.

Definition mpz_get_double_int (type : tree) (val : Z) (wrap : bool) : Z :=
  if wrap then wi_ext val (TYPE_PRECISION type) (TYPE_UNSIGNED type) else val.

Definition double_int_to_tree (type : tree) (cst : Z) : tree := INTEGER_CST type cst.

Definition build_int_cst (type : tree) (v : Z) : tree := INTEGER_CST type v.

Definition build_reference_type (to : tree) : tree := REFERENCE_TYPE to.

End GENERIC.

Import GENERIC.

Definition Bvariable := tree.

(** ** The backend

    The lowering builds its trees through the methods of the [Backend]
    interface ([rust-gcc.cc] is not among the sources), and takes addresses
    with [address_expression] of the base class of the compilers.  A method
    that creates a declaration (a label, a temporary, a block) creates a new
    object at every call: it is given the number of that object. *)

Class Backend : Type :=
  { indirect_expression : tree -> tree -> bool -> Location -> tree;
    struct_field_expression : tree -> nat -> Location -> tree;
    call_expression : tree -> list tree -> tree -> Location -> tree;
    constructor_expression : tree -> bool -> list tree -> Z -> Location -> tree;
    var_expression : Bvariable -> Location -> tree;
    assignment_statement : tree -> tree -> Location -> tree;
    label : tree -> string -> Location -> nat -> tree;
    label_definition_statement : tree -> tree;
    temporary_variable :
      tree -> tree -> tree -> tree -> bool -> Location -> nat -> Bvariable * tree;
    block : tree -> tree -> list Bvariable -> Location -> Location -> nat -> tree;
    block_add_statements : tree -> list tree -> tree;
    unit_expression : tree;
    address_expression : tree -> tree -> Location -> tree }.

(** The backend that builds the trees themselves. *)
#[local] Instance tree_backend : Backend :=
  { indirect_expression type e known_valid _ := INDIRECT_REF type e known_valid;
    struct_field_expression s index _ := COMPONENT_REF s index;
    call_expression fn args _ _ := CALL_EXPR fn args;
    constructor_expression type _ vals _ _ := CONSTRUCTOR type vals;
    var_expression var _ := var;
    assignment_statement lhs rhs _ := MODIFY_EXPR lhs rhs;
    label _ _ _ uid := LABEL_DECL uid;
    label_definition_statement l := LABEL_EXPR l;
    temporary_variable _ _ type _ _ _ uid :=
      (VAR_DECL type uid, DECL_EXPR (VAR_DECL type uid));
    block _ _ _ _ _ uid := BIND_EXPR uid [];
    block_add_statements b stmts :=
      match b with
      | BIND_EXPR uid body => BIND_EXPR uid (body ++ stmts)
      | _ => b
      end;
    unit_expression := INTEGER_CST (INTEGER_TYPE 32 false) 0;
    address_expression e ptrtype _ := ADDR_EXPR ptrtype e }.

(** ** The compilation context *)

Inductive diagnostic : Type :=
| error_at (locus : Location) (message : string)
| sorry_at (locus : Location) (message : string).

Record fncontext : Type := mkFncontext
  { fndecl : tree;
    ret_addr : tree }.

(** Modelled from the spec: the compilation context ([rust-compile-context.h]
    is not among the sources): the stack of the blocks being filled, each
    with the statements added to it so far, the stack of the functions being
    compiled, and the diagnostics reported.  [next_uid] numbers the
    declarations created, [next_key] the keys allocated by the match
    decomposition. *)
Record Context : Type := mkContext
  { scope_stack : list (tree * list tree);
    fn_stack : list fncontext;
    diagnostics : list diagnostic;
    next_uid : nat;
    next_key : nat }.

Definition M (A : Type) : Type := Context -> outcome (A * Context).

Definition ret {A : Type} (a : A) : M A := fun ctx => Ok (a, ctx).

Definition bind {A B : Type} (m : M A) (k : A -> M B) : M B :=
  fun ctx =>
    match m ctx with
    | Ok (a, ctx') => k a ctx'
    | Abort => Abort
    | OutOfFuel => OutOfFuel
    end.

Definition abort {A : Type} : M A := fun _ => Abort.

Declare Scope lowering_scope.
Delimit Scope lowering_scope with lowering.
Notation "x <- m ;; k" := (bind m (fun x => k))
  (at level 61, m at next level, right associativity) : lowering_scope.
Notation "m ;;; k" := (bind m (fun _ => k))
  (at level 61, right associativity) : lowering_scope.
Open Scope lowering_scope.

Definition assert_ (b : bool) : M unit := if b then ret tt else abort.

Definition report (d : diagnostic) : M unit :=
  fun ctx => Ok (tt, mkContext (scope_stack ctx) (fn_stack ctx)
                               (diagnostics ctx ++ [d])
                               (next_uid ctx) (next_key ctx)).

Definition with_diagnostic (ctx : Context) (d : diagnostic) : Context :=
  mkContext (scope_stack ctx) (fn_stack ctx) (diagnostics ctx ++ [d])
            (next_uid ctx) (next_key ctx).

Definition rust_error_at (locus : Location) (message : string) : M unit :=
  report (error_at locus message).

Definition fresh_uid : M nat :=
  fun ctx => Ok (next_uid ctx,
                 mkContext (scope_stack ctx) (fn_stack ctx) (diagnostics ctx)
                           (S (next_uid ctx)) (next_key ctx)).

Definition peek_fn : M fncontext :=
  fun ctx => match fn_stack ctx with
             | f :: _ => Ok (f, ctx)
             | [] => Abort
             end.

Definition peek_enclosing_scope : M tree :=
  fun ctx => match scope_stack ctx with
             | (b, _) :: _ => Ok (b, ctx)
             | [] => Ok (NULL_TREE, ctx)
             end.

Definition push_block (b : tree) : M unit :=
  fun ctx => Ok (tt, mkContext ((b, []) :: scope_stack ctx) (fn_stack ctx)
                               (diagnostics ctx) (next_uid ctx) (next_key ctx)).

Definition add_statements (stmts : list tree) : M unit :=
  fun ctx => match stmts, scope_stack ctx with
             | [], _ => Ok (tt, ctx)
             | _, (b, l) :: rest =>
                 Ok (tt, mkContext ((b, l ++ stmts) :: rest) (fn_stack ctx)
                                   (diagnostics ctx) (next_uid ctx) (next_key ctx))
             | _, [] => Abort
             end.

Definition add_statement (stmt : tree) : M unit := add_statements [stmt].

Definition pop_block `{Backend} : M tree :=
  fun ctx => match scope_stack ctx with
             | (b, l) :: rest =>
                 Ok (block_add_statements b l,
                     mkContext rest (fn_stack ctx) (diagnostics ctx)
                               (next_uid ctx) (next_key ctx))
             | [] => Abort
             end.

(** Modelled from the spec: a lowering routine that is called here but not
    embedded ([CompileExpr::Compile] on a subexpression, the compilers of
    patterns and of implementation items, which are not among the sources or
    lead out of the part embedded).  Its side effects are limited to
    appending statements to the currently active block, to reporting
    diagnostics and to creating declarations: it is what it returns, the
    statements it appends, the diagnostics it reports and the number of
    declarations after it, as a function of the number of declarations
    before it. *)
Definition Emitter (A : Type) : Type :=
  nat -> outcome (A * list tree * list diagnostic * nat).

Definition emit {A : Type} (e : Emitter A) : M A :=
  fun ctx =>
    match e (next_uid ctx) with
    | Ok (a, stmts, reports, uid') =>
        bind (add_statements stmts) (fun _ => ret a)
             (mkContext (scope_stack ctx) (fn_stack ctx)
                        (diagnostics ctx ++ reports) uid' (next_key ctx))
    | Abort => Abort
    | OutOfFuel => OutOfFuel
    end.

(** [appended ctx ctx' stmts]: from [ctx] to [ctx'] the statements [stmts]
    were added to the current block, and no block or function was entered or
    left. *)
Definition appended (ctx ctx' : Context) (stmts : list tree) : Prop :=
  fn_stack ctx' = fn_stack ctx
  /\ match scope_stack ctx with
     | (b, l) :: rest => scope_stack ctx' = (b, l ++ stmts) :: rest
     | [] => stmts = [] /\ scope_stack ctx' = []
     end.

(** The block that [peek_enclosing_scope] returns. *)
Definition enclosing_scope_of (ctx : Context) : tree :=
  match scope_stack ctx with
  | (b, _) :: _ => b
  | [] => NULL_TREE
  end.


(** [runs d d' m]: started in a function, with [d] blocks open, [m] returns,
    still in a function and with [d'] blocks open. *)
Definition at_depth (d : nat) (ctx : Context) : Prop :=
  length (scope_stack ctx) = d /\ fn_stack ctx <> [].

Definition runs {A : Type} (d d' : nat) (m : M A) : Prop :=
  forall ctx, at_depth d ctx ->
              exists a ctx', m ctx = Ok (a, ctx') /\ at_depth d' ctx'.

(** An emitter that returns whatever the number of declarations. *)
Definition total {A : Type} (e : Emitter A) : Prop :=
  forall uid, exists a stmts reports uid', e uid = Ok (a, stmts, reports, uid').

(** [compiled compile e r]: [r] is a value and the statements that the
    compiler returns for [e], from some number of declarations. *)
Definition compiled {E : Type} (compile : E -> Emitter tree) (e : E)
                    (r : tree * list tree) : Prop :=
  exists uid reports uid', compile e uid = Ok (fst r, snd r, reports, uid').

Definition runs_to {A : Type} (d d' : nat) (P : A -> Prop) (m : M A) : Prop :=
  forall ctx, at_depth d ctx ->
              exists a ctx', m ctx = Ok (a, ctx') /\ at_depth d' ctx' /\ P a.

(** ** Literals *)

Module Literal.

Inductive LitType := CHAR | STRING | BYTE | BYTE_STRING | INT | FLOAT | BOOL | ERROR.

Definition LitType_eqb (a b : LitType) : bool :=
  match a, b with
  | CHAR, CHAR | STRING, STRING | BYTE, BYTE | BYTE_STRING, BYTE_STRING
  | INT, INT | FLOAT, FLOAT | BOOL, BOOL | ERROR, ERROR => true
  | _, _ => false
  end.

Record LiteralExprNode : Type := mkLiteralExprNode
  { get_lit_type : LitType;
    as_string : string;
    get_locus : Location }.

Definition isspace (c : ascii) : bool :=
  let n := nat_of_ascii c in
  Nat.eqb n 32 || (Nat.leb 9 n && Nat.leb n 13).

Definition digit_value (c : ascii) : option Z :=
  let n := nat_of_ascii c in
  if Nat.leb 48 n && Nat.leb n 57 then Some (Z.of_nat (n - 48)) else None.

Fixpoint skip_spaces (s : string) : string :=
  match s with
  | String c s' => if isspace c then skip_spaces s' else s
  | EmptyString => s
  end.

Fixpoint digits (s : string) (acc : Z) : option Z :=
  match s with
  | EmptyString => Some acc
  | String c s' =>
      if isspace c then digits s' acc
      else match digit_value c with
           | Some d => digits s' (10 * acc + d)%Z
           | None => None
           end
  end.

(** Modelled from the spec: [mpz_init_set_str (ival, str, 10)] of GMP, which
    parses the literal with arbitrary precision: white space before the
    number and between its digits is skipped, a ['-'] may precede the digits,
    the first character of the number must be a digit and every other
    character must be a digit or white space.  [None] is the result [-1]. *)
Definition mpz_init_set_str (str : string) : option Z :=
  let s := skip_spaces str in
  let '(negative, s) :=
    match s with
    | String "-"%char s' => (true, s')
    | _ => (false, s)
    end in
  match s with
  | EmptyString => None
  | String c _ =>
      match digit_value c with
      | None => None
      | Some _ =>
          match digits s 0 with
          | Some v => Some (if negative then (- v)%Z else v)
          | None => None
          end
      end
  end.

End Literal.

Section LiteralLowering.

Import TyTy.

(** [TyTyResolveCompile::compile]: the tree of a resolved type. *)
Variable TyTyResolveCompile_compile : BaseType -> tree.

(** The directives [%<] and [%>] of the formats of diagnostics: the opening
    and the closing quotation mark of the locale. *)
Variable open_quote close_quote : string.

Definition compile_integer_literal (expr : Literal.LiteralExprNode)
                                   (tyty : BaseType) : M tree :=
  assert_ (Literal.LitType_eqb (Literal.get_lit_type expr) Literal.INT) ;;;
  let literal_value := Literal.as_string expr in
  let type := TyTyResolveCompile_compile tyty in
  match Literal.mpz_init_set_str literal_value with
  | None =>
      rust_error_at (Literal.get_locus expr) "bad number in literal" ;;;
      ret error_mark_node
  | Some ival =>
      let '(type_min, type_max) := get_type_static_bounds type in
      if Z.ltb ival type_min || Z.gtb ival type_max
      then
        rust_error_at (Literal.get_locus expr)
          ("integer overflows the respective type "
           ++ open_quote ++ get_name tyty ++ close_quote) ;;;
        ret error_mark_node
      else ret (double_int_to_tree type (mpz_get_double_int type ival true))
  end.

End LiteralLowering.

(** ** The adjustment engine *)

Module Adjustment.

Inductive AdjustmentType :=
| ERROR | IMM_REF | MUT_REF | DEREF | DEREF_MUT | INDIRECTION | UNSIZE.

Definition AdjustmentType_eqb (a b : AdjustmentType) : bool :=
  match a, b with
  | ERROR, ERROR | IMM_REF, IMM_REF | MUT_REF, MUT_REF | DEREF, DEREF
  | DEREF_MUT, DEREF_MUT | INDIRECTION, INDIRECTION | UNSIZE, UNSIZE => true
  | _, _ => false
  end.

Record t : Type := mkAdjustment
  { get_type : AdjustmentType;
    get_expected : TyTy.BaseType;
    get_deref_operator_fn : option TyTy.FnType;
    get_deref_hir_item : nat;
    get_deref_adjustment_type : AdjustmentType }.

Definition is_deref_adjustment (a : t) : bool := AdjustmentType_eqb (get_type a) DEREF.
Definition is_deref_mut_adjustment (a : t) : bool :=
  AdjustmentType_eqb (get_type a) DEREF_MUT.
Definition has_operator_overload (a : t) : bool :=
  match get_deref_operator_fn a with Some _ => true | None => false end.

Definition is_borrow (a : t) : bool :=
  AdjustmentType_eqb (get_type a) IMM_REF || AdjustmentType_eqb (get_type a) MUT_REF.

End Adjustment.

Section Adjustments.

Import TyTy.
Context `{Backend}.

Variable TyTyResolveCompile_compile : BaseType -> tree.

(** [CompileInherentImplItem::Compile (item, ctx, concrete, true, locus)] *)
Variable CompileInherentImplItem_Compile :
  nat -> option FnType -> bool -> Location -> Emitter tree.

Definition resolve_deref_adjustment (adjustment : Adjustment.t) (expression : tree)
                                    (locus : Location) : M tree :=
  assert_ (Adjustment.is_deref_adjustment adjustment
           || Adjustment.is_deref_mut_adjustment adjustment) ;;;
  assert_ (Adjustment.has_operator_overload adjustment) ;;;
  match Adjustment.get_deref_operator_fn adjustment with
  | None => abort
  | Some lookup =>
      let resolved_item := Adjustment.get_deref_hir_item adjustment in
      fn_address <-
        (if negb (has_subsititions_defined lookup)
         then emit (CompileInherentImplItem_Compile resolved_item None true locus)
         else emit (CompileInherentImplItem_Compile resolved_item (Some lookup)
                                                    true locus)) ;;
      let needs_borrow :=
        negb (Adjustment.AdjustmentType_eqb
                (Adjustment.get_deref_adjustment_type adjustment) Adjustment.ERROR) in
      let adjusted_argument :=
        if needs_borrow
        then address_expression expression
               (build_reference_type (TREE_TYPE expression)) locus
        else expression in
      ret (call_expression fn_address [adjusted_argument] NULL_TREE locus)
  end.

Definition resolve_indirection_adjustment (adjustment : Adjustment.t)
                                          (expression : tree) (locus : Location)
  : tree :=
  let expected_type := TyTyResolveCompile_compile (Adjustment.get_expected adjustment) in
  indirect_expression expected_type expression true locus.

Definition resolve_unsized_adjustment (adjustment : Adjustment.t) (expression : tree)
                                      (locus : Location) : M tree :=
  let expr_type := TREE_TYPE expression in
  match expr_type with
  | ARRAY_TYPE _ domain_type domain_min domain_max =>
      assert_ (TypeKind_eqb (get_kind (Adjustment.get_expected adjustment)) SLICE) ;;;
      let fat_pointer := TyTyResolveCompile_compile (Adjustment.get_expected adjustment) in
      let data :=
        address_expression expression
          (build_reference_type (TREE_TYPE expression)) locus in
      let array_size :=
        to_uhwi (wi_ext (domain_max - domain_min + 1)
                        (TYPE_PRECISION domain_type)
                        (TYPE_UNSIGNED domain_type)) in
      let size := build_int_cst size_type_node array_size in
      ret (constructor_expression fat_pointer false [data; size] (-1) locus)
  | _ => abort (* rust_assert (TREE_CODE (expr_type) == ARRAY_TYPE) *)
  end.

Fixpoint resolve_adjustements (adjustments : list Adjustment.t) (expression : tree)
                              (locus : Location) : M tree :=
  match adjustments with
  | [] => ret expression
  | adjustment :: adjustments' =>
      let e := expression in
      match Adjustment.get_type adjustment with
      | Adjustment.ERROR => ret error_mark_node
      | Adjustment.IMM_REF | Adjustment.MUT_REF =>
          let e :=
            if negb (SLICE_TYPE_P (TREE_TYPE e))
            then
              let ptrtype :=
                TyTyResolveCompile_compile (Adjustment.get_expected adjustment) in
              address_expression e ptrtype locus
            else e in
          resolve_adjustements adjustments' e locus
      | Adjustment.DEREF | Adjustment.DEREF_MUT =>
          e <- resolve_deref_adjustment adjustment e locus ;;
          resolve_adjustements adjustments' e locus
      | Adjustment.INDIRECTION =>
          resolve_adjustements adjustments'
            (resolve_indirection_adjustment adjustment e locus) locus
      | Adjustment.UNSIZE =>
          e <- resolve_unsized_adjustment adjustment e locus ;;
          resolve_adjustements adjustments' e locus
      end
  end.

End Adjustments.

(** ** Dynamic dispatch *)

Section DynamicDispatch.

Import TyTy.
Context `{Backend}.

(** [TyTyResolveCompile::compile (ctx, ty, trait_object_mode)] *)
Variable TyTyResolveCompile_compile : BaseType -> bool -> tree.

(** The loop of [get_fn_addr_from_dyn]: the item found, if any, and the value
    of [offs] when the loop is left.  An item whose type is not a function
    definition fails the assertion of the loop. *)
Fixpoint find_object_item (items : list TraitItemReference) (fntype : FnType)
                          (offs : nat)
  : outcome (option TraitItemReference * nat) :=
  match items with
  | [] => Ok (None, offs)
  | item :: items' =>
      match get_tyty item with
      | FnDefType ft =>
          if Nat.eqb (get_id ft) (get_id fntype)
          then Ok (Some item, offs)
          else find_object_item items' fntype (S offs)
      | _ => Abort
      end
  end.

(** The receiver after "any indirection sorted out". *)
Definition indirect_receiver (receiver : BaseType) (receiver_ref : tree)
                             (expr_locus : Location) : outcome tree :=
  if TypeKind_eqb (get_kind receiver) REF
  then
    match receiver with
    | ReferenceType indirect_ty =>
        let indrect_compiled_tyty := TyTyResolveCompile_compile indirect_ty false in
        Ok (indirect_expression indrect_compiled_tyty receiver_ref true expr_locus)
    | _ => Abort
    end
  else Ok receiver_ref.

Definition get_fn_addr_from_dyn (dyn : list TraitItemReference) (receiver : BaseType)
                                (fntype : FnType) (receiver_ref : tree)
                                (expr_locus : Location) : outcome tree :=
  obind (find_object_item dyn fntype 0) (fun '(ref, offs) =>
  match ref with
  | None => Ok error_mark_node
  | Some _ =>
      obind (indirect_receiver receiver receiver_ref expr_locus) (fun receiver_ref =>
      let expected_fntype := TyTyResolveCompile_compile (FnDefType fntype) true in
      let idx := build_int_cst size_type_node (Z.of_nat offs) in
      let vtable_ptr := struct_field_expression receiver_ref 1 expr_locus in
      let vtable_array_access :=
        ARRAY_REF (TREE_TYPE (TREE_TYPE vtable_ptr)) vtable_ptr idx in
      let vcall := OBJ_TYPE_REF expected_fntype vtable_array_access receiver_ref idx in
      Ok vcall)
  end).

Definition get_receiver_from_dyn (dyn : list TraitItemReference) (receiver : BaseType)
                                 (fntype : FnType) (receiver_ref : tree)
                                 (expr_locus : Location) : outcome tree :=
  obind (indirect_receiver receiver receiver_ref expr_locus) (fun receiver_ref =>
  Ok (struct_field_expression receiver_ref 0 expr_locus)).

End DynamicDispatch.

(** ** Dereference expressions *)

Record DereferenceExpr : Type := mkDereferenceExpr
  { deref_mappings : NodeMapping;
    deref_expr : Expr;
    deref_locus : Location }.

Section Dereference.

Import TyTy.
Context `{Backend}.

Variable lookup_type : NodeMapping -> option BaseType.
Variable lookup_operator_overload : NodeMapping -> option FnType.
Variable TyTyResolveCompile_compile : BaseType -> tree.
Variable CompileExpr_Compile : Expr -> Emitter tree.

(** [resolve_operator_overload (DEREF, expr, main_expr, nullptr, expr.get_expr (),
    nullptr)]: the call of the overloaded operator, taken as it is. *)
Variable resolve_operator_overload_deref : DereferenceExpr -> tree -> Emitter tree.

Definition visit_DereferenceExpr (expr : DereferenceExpr) : M tree :=
  match lookup_type (deref_mappings expr) with
  | None => abort (* rust_fatal_error *)
  | Some tyty =>
      main_expr <- emit (CompileExpr_Compile (deref_expr expr)) ;;
      main_expr <-
        (match lookup_operator_overload (deref_mappings expr) with
         | Some _ =>
             operator_overload_call <-
               emit (resolve_operator_overload_deref expr main_expr) ;;
             ret operator_overload_call
         | None => ret main_expr
         end) ;;
      let expected_type := TyTyResolveCompile_compile tyty in
      if SLICE_TYPE_P (TREE_TYPE main_expr) && SLICE_TYPE_P expected_type
      then ret main_expr
      else
        let known_valid := true in
        ret (indirect_expression expected_type main_expr known_valid
                                 (deref_locus expr))
  end.

End Dereference.

(** ** Match expressions *)

Section MatchLowering.

Import TyTy.
Context `{Backend}.

Variable new_addr : nat -> addr.
Variable lookup_type : NodeMapping -> option BaseType.
Variable is_primitive_type_kind : TypeKind -> bool.
Variable is_unit : BaseType -> bool.
Variable TyTyResolveCompile_compile : BaseType -> tree.
Variable CompileExpr_Compile : Expr -> Emitter tree.
Variable CompilePatternCaseLabelExpr_Compile : Pattern -> tree -> Emitter tree.
Variable CompilePatternBindings_Compile : Pattern -> tree -> Emitter unit.

(** [simplify_tuple_match], run on the keys of the context. *)
Definition simplify (expr : MatchExpr) : M MatchExpr :=
  fun ctx =>
    match simplify_tuple_match new_addr (expr_size (get_scrutinee_expr expr))
                               expr (next_key ctx) with
    | Ok (m, k) =>
        Ok (m, mkContext (scope_stack ctx) (fn_stack ctx) (diagnostics ctx)
                         (next_uid ctx) k)
    | Abort => Abort
    | OutOfFuel => OutOfFuel
    end.

Fixpoint compile_patterns (patterns : list Pattern) (case_label : tree)
                          (match_scrutinee_expr : tree) : M unit :=
  match patterns with
  | [] => ret tt
  | kase_pattern :: patterns' =>
      switch_kase_expr <-
        emit (CompilePatternCaseLabelExpr_Compile kase_pattern case_label) ;;
      add_statement switch_kase_expr ;;;
      emit (CompilePatternBindings_Compile kase_pattern match_scrutinee_expr) ;;;
      compile_patterns patterns' case_label match_scrutinee_expr
  end.

(** One iteration of the loop over the cases. *)
Definition compile_case (fndecl : tree) (tmp : option Bvariable) (end_label : tree)
                        (match_scrutinee_expr : tree) (kase : MatchCase) : M unit :=
  let kase_arm := get_arm kase in
  assert_ (Nat.ltb 0 (length (get_patterns kase_arm))) ;;;
  let arm_locus := arm_locus kase_arm in
  uid <- fresh_uid ;;
  let case_label := label fndecl EmptyString arm_locus uid in
  compile_patterns (get_patterns kase_arm) case_label match_scrutinee_expr ;;;
  kase_expr_tree <- emit (CompileExpr_Compile (get_expr kase)) ;;
  (match tmp with
   | Some tmp =>
       let result_reference := var_expression tmp arm_locus in
       let assignment :=
         assignment_statement result_reference kase_expr_tree arm_locus in
       add_statement assignment
   | None => ret tt
   end) ;;;
  let goto_end_label := GOTO_EXPR arm_locus end_label in
  add_statement goto_end_label.

Fixpoint compile_cases (fndecl : tree) (tmp : option Bvariable) (end_label : tree)
                       (match_scrutinee_expr : tree) (cases : list MatchCase)
  : M unit :=
  match cases with
  | [] => ret tt
  | kase :: cases' =>
      compile_case fndecl tmp end_label match_scrutinee_expr kase ;;;
      compile_cases fndecl tmp end_label match_scrutinee_expr cases'
  end.

(** [CompileExpr::visit (HIR::MatchExpr &)].  [translated] is the result
    register of the visitor when the method is entered; the value returned is
    the register when it is left. *)
Definition visit_MatchExpr (expr : MatchExpr) (translated : tree) : M tree :=
  match lookup_type (expr_mappings (get_scrutinee_expr expr)) with
  | None => ret error_mark_node
  | Some scrutinee_expr_tyty =>
      let scrutinee_kind := get_kind scrutinee_expr_tyty in
      assert_ ((is_primitive_type_kind scrutinee_kind
                && negb (TypeKind_eqb scrutinee_kind NEVER))
               || TypeKind_eqb scrutinee_kind ADT
               || TypeKind_eqb scrutinee_kind TUPLE) ;;;
      (if TypeKind_eqb scrutinee_kind ADT
       then
         match scrutinee_expr_tyty with
         | ADTType _ is_enum number_of_variants =>
             assert_ is_enum ;;; assert_ (Nat.ltb 0 number_of_variants)
         | _ => abort
         end
       else if TypeKind_eqb scrutinee_kind FLOAT
       then report (sorry_at (get_locus expr)
                      "match on floating-point types is not yet supported")
       else ret tt) ;;;
      match lookup_type (get_mappings expr) with
      | None => ret error_mark_node
      | Some expr_tyty =>
          fnctx <- peek_fn ;;
          let needs_temp := negb (is_unit expr_tyty) in
          tmp <-
            (if needs_temp
             then
               enclosing_scope <- peek_enclosing_scope ;;
               let block_type := TyTyResolveCompile_compile expr_tyty in
               let is_address_taken := false in
               uid <- fresh_uid ;;
               let '(tmp, ret_var_stmt) :=
                 temporary_variable (fndecl fnctx) enclosing_scope block_type
                                    NULL_TREE is_address_taken (get_locus expr) uid in
               add_statement ret_var_stmt ;;;
               ret (Some tmp)
             else ret None) ;;
          match_scrutinee_expr <-
            emit (CompileExpr_Compile (get_scrutinee_expr expr)) ;;
          lowered <-
            (if is_primitive_type_kind scrutinee_kind
             then ret (expr, match_scrutinee_expr, match_scrutinee_expr)
             else if TypeKind_eqb scrutinee_kind ADT
             then
               let scrutinee_first_record_expr :=
                 struct_field_expression match_scrutinee_expr 0
                   (expr_locus (get_scrutinee_expr expr)) in
               ret (expr, match_scrutinee_expr,
                    struct_field_expression scrutinee_first_record_expr 0
                      (expr_locus (get_scrutinee_expr expr)))
             else if TypeKind_eqb scrutinee_kind TUPLE
             then
               match get_expression_type (get_scrutinee_expr expr) with
               | ET_Tuple =>
                   outer_match <- simplify expr ;;
                   match_scrutinee_expr <-
                     emit (CompileExpr_Compile (get_scrutinee_expr outer_match)) ;;
                   ret (outer_match, match_scrutinee_expr, match_scrutinee_expr)
               | ET_Path => abort (* the discriminant is left uninitialised *)
               | _ => abort (* gcc_unreachable *)
               end
             else abort (* gcc_unreachable *)) ;;
          let '(expr, match_scrutinee_expr, match_scrutinee_expr_qualifier_expr) :=
            lowered in
          let fndecl := fndecl fnctx in
          let end_label_locus := get_locus expr in
          uid <- fresh_uid ;;
          let end_label := label fndecl EmptyString end_label_locus uid in
          let end_label_decl_statement := label_definition_statement end_label in
          enclosing_scope <- peek_enclosing_scope ;;
          uid <- fresh_uid ;;
          let switch_body_block :=
            block fndecl enclosing_scope [] UNKNOWN_LOCATION UNKNOWN_LOCATION uid in
          push_block switch_body_block ;;;
          compile_cases fndecl tmp end_label match_scrutinee_expr
                        (get_match_cases expr) ;;;
          match_body <- pop_block ;;
          let match_expr_stmt :=
            SWITCH_EXPR (get_locus expr)
                        (TREE_TYPE match_scrutinee_expr_qualifier_expr)
                        match_scrutinee_expr_qualifier_expr match_body in
          add_statement match_expr_stmt ;;;
          add_statement end_label_decl_statement ;;;
          match tmp with
          | Some tmp => ret (var_expression tmp (get_locus expr))
          | None => ret translated
          end
      end
  end.

(** What the patterns of an arm add to the body of the switch: for every
    pattern, in order, the statements of the compiler of its case label, the
    case label that this compiler returned, and the statements of the
    compiler of its bindings. *)
Fixpoint patterns_segment (case_label match_scrutinee_expr : tree)
                          (patterns : list Pattern) (seg : list tree) : Prop :=
  match patterns with
  | [] => seg = []
  | kase_pattern :: patterns' =>
      exists switch_kase_expr label_stmts binding_stmts rest,
        seg = label_stmts ++ [switch_kase_expr] ++ binding_stmts ++ rest
        /\ (exists uid reports uid',
               CompilePatternCaseLabelExpr_Compile kase_pattern case_label uid
               = Ok (switch_kase_expr, label_stmts, reports, uid'))
        /\ (exists uid reports uid',
               CompilePatternBindings_Compile kase_pattern match_scrutinee_expr uid
               = Ok (tt, binding_stmts, reports, uid'))
        /\ patterns_segment case_label match_scrutinee_expr patterns' rest
  end.

(** What the lowering of one case adds to the body of the switch: the
    statements of its patterns, under a label of its own, the statements of
    its result expression, then the assignment of the compiled result to the
    temporary when there is one, then the jump to the end label; nothing
    else. *)
Definition case_segment (fndecl : tree) (tmp : option Bvariable) (end_label : tree)
                        (match_scrutinee_expr : tree)
                        (kase : MatchCase) (seg : list tree) : Prop :=
  exists (uid : nat) (pattern_stmts : list tree) (kase_expr_tree : tree)
         (expr_stmts : list tree),
    seg = pattern_stmts
          ++ expr_stmts
          ++ match tmp with
             | Some tmp =>
                 [assignment_statement
                    (var_expression tmp (arm_locus (get_arm kase)))
                    kase_expr_tree (arm_locus (get_arm kase))]
             | None => []
             end
          ++ [GOTO_EXPR (arm_locus (get_arm kase)) end_label]
    /\ patterns_segment
         (label fndecl EmptyString (arm_locus (get_arm kase)) uid)
         match_scrutinee_expr (get_patterns (get_arm kase)) pattern_stmts
    /\ compiled CompileExpr_Compile (get_expr kase) (kase_expr_tree, expr_stmts).

End MatchLowering.

(** ** Examples of lowering *)

Module LoweringExamples.

Import TyTy.

Definition i8 : BaseType := BaseTy INT "i8".
Definition u8 : BaseType := BaseTy UINT "u8".
Definition i32 : BaseType := BaseTy INT "i32".
Definition unit_type : BaseType := BaseTy TUPLE "()".
Definition slice_of_i32 : BaseType := BaseTy SLICE "[i32]".

Definition i32_tree : tree := INTEGER_TYPE 32 false.
Definition slice_tree : tree :=
  RECORD_TYPE true [POINTER_TYPE i32_tree; size_type_node].

Definition compile_type (t : BaseType) : tree :=
  match t with
  | BaseTy INT "i8" => INTEGER_TYPE 8 false
  | BaseTy UINT "u8" => INTEGER_TYPE 8 true
  | BaseTy INT _ => i32_tree
  | BaseTy SLICE _ => slice_tree
  | BaseTy TUPLE _ => void_type_node
  | ReferenceType (BaseTy SLICE _) => slice_tree
  | ReferenceType _ => POINTER_TYPE i32_tree
  | FnDefType _ => POINTER_TYPE (FUNCTION_TYPE i32_tree)
  | _ => error_mark_node
  end.

Definition compile_type_mode (t : BaseType) (trait_object_mode : bool) : tree :=
  compile_type t.

Definition lit (s : string) : Literal.LiteralExprNode :=
  Literal.mkLiteralExprNode Literal.INT s 7.

Definition empty_context : Context :=
  mkContext [(BIND_EXPR 0 [], [])] [mkFncontext (FUNCTION_DECL (FUNCTION_TYPE i32_tree) 0) NULL_TREE]
            [] 1 0.

(** A value of slice type and a value of type [i32]. *)
Definition slice_value : tree := VALUE slice_tree 40.
Definition int_value : tree := VALUE i32_tree 41.

Definition borrow (expected : BaseType) : Adjustment.t :=
  Adjustment.mkAdjustment Adjustment.IMM_REF expected None 0 Adjustment.ERROR.
Definition indirection (expected : BaseType) : Adjustment.t :=
  Adjustment.mkAdjustment Adjustment.INDIRECTION expected None 0 Adjustment.ERROR.
Definition error_adjustment : Adjustment.t :=
  Adjustment.mkAdjustment Adjustment.ERROR (BaseTy ERROR "error") None 0 Adjustment.ERROR.

Definition compile_impl_item (item : nat) (concrete : option FnType)
                             (is_query : bool) (locus : Location) : Emitter tree :=
  fun uid => Ok (FUNCTION_DECL (FUNCTION_TYPE i32_tree) item, [], [], uid).

(** Every expression compiles to a value of type [i32], emits nothing and
    reports nothing;
    a path with mapping 9 compiles to the slice value. *)
Definition compile_expr (e : Expr) : Emitter tree :=
  fun uid =>
    match e with
    | PathInExpression m =>
        if Nat.eqb m 9 then Ok (slice_value, [], [], uid)
        else Ok (VALUE i32_tree m, [], [], uid)
    | LiteralExpr _ k => Ok (INTEGER_CST i32_tree k, [], [], uid)
    | _ => Ok (VALUE i32_tree (expr_mappings e), [], [], uid)
    end.

Definition compile_case_label (p : Pattern) (case_label : tree) : Emitter tree :=
  fun uid =>
    match p with
    | LiteralPattern k => Ok (CASE_LABEL_EXPR (INTEGER_CST i32_tree k) case_label, [], [], uid)
    | _ => Ok (CASE_LABEL_EXPR NULL_TREE case_label, [], [], uid)
    end.

Definition compile_bindings (p : Pattern) (scrutinee : tree) : Emitter unit :=
  fun uid => Ok (tt, [], [], uid).

Definition f1 : FnType := mkFnType 11 "first" false.
Definition f2 : FnType := mkFnType 12 "second" false.
Definition f3 : FnType := mkFnType 13 "third" false.

(** An overloaded dereference: every dereference is overloaded by [first],
    and the call of the operator is the call of a function that returns a
    value of type [result_type]; it emits nothing and reports nothing. *)
Definition overloaded (m : NodeMapping) : option FnType := Some f1.

Definition deref_call (result_type : tree) (expr : DereferenceExpr) (operand : tree)
  : Emitter tree :=
  fun uid =>
    Ok (CALL_EXPR (FUNCTION_DECL (FUNCTION_TYPE result_type) 11) [operand],
        [], [], uid).

Definition dyn_items : list TraitItemReference :=
  [(1, FnDefType f1); (2, FnDefType f2); (3, FnDefType f2)].

Definition fat_object : tree :=
  VALUE (RECORD_TYPE false [POINTER_TYPE void_type_node;
                            POINTER_TYPE (POINTER_TYPE (FUNCTION_TYPE i32_tree))]) 50.

Definition lookup_type (m : NodeMapping) : option BaseType :=
  match m with
  | 100 => Some i32
  | 300 => Some unit_type
  | 60 => Some slice_of_i32
  | _ => Some i32
  end.

Definition is_primitive_type_kind (k : TypeKind) : bool :=
  match k with
  | BOOL | CHAR | INT | UINT | ISIZE | USIZE | FLOAT | NEVER | STR => true
  | _ => false
  end.

Definition is_unit (t : BaseType) : bool :=
  match t with
  | BaseTy TUPLE "()" => true
  | _ => false
  end.

(** [match x { 1 => 10, 2 => 20 }], of type [i32] and of type unit. *)
Definition small_match (mappings : NodeMapping) : MatchExpr :=
  mkMatchExpr mappings (PathInExpression 1)
    [ Examples.kase 1 (LiteralPattern 1) 10;
      Examples.kase 2 (LiteralPattern 2) 20 ] 5.

End LoweringExamples.

(** * Further notions for the tuple-match decomposition *)

(** The case as the decomposition reads it: the first alternative of its arm,
    and no guard. *)
Definition first_alternative_unguarded (c : MatchCase) : MatchCase :=
  mkMatchCase (case_mappings c)
    (mkMatchArm (firstn 1 (get_patterns (get_arm c))) (arm_locus (get_arm c)) None)
    (get_expr c).

(** The first patterns that [organize_tuple_patterns] accepts: a wildcard,
    or a tuple pattern whose items are ranged or hold at least one pattern. *)
Definition decomposable (c : MatchCase) : bool :=
  match get_patterns (get_arm c) with
  | WildcardPattern :: _ => true
  | TuplePattern _ (TuplePatternItemsRanged _ _) _ :: _ => true
  | TuplePattern _ (TuplePatternItemsMultiple (_ :: _)) _ :: _ => true
  | _ => false
  end.

(** The pattern of an arm of the outer match. *)
Definition outer_pattern (c : MatchCase) : Pattern :=
  match get_patterns (get_arm c) with
  | p :: _ => p
  | [] => WildcardPattern
  end.

(** An arm of the outer match built for the match [expr]: one pattern, no
    guard, and as body a match that carries the mappings and the location of
    [expr]. *)
Definition outer_arm_of (expr : MatchExpr) (c : MatchCase) : Prop :=
  exists (first : Pattern) (inner : MatchExpr),
    get_arm c = mkMatchArm [first] (get_locus expr) None
    /\ case_mappings c = get_mappings expr
    /\ get_expr c = clone_expr inner
    /\ get_mappings inner = get_mappings expr
    /\ get_locus inner = get_locus expr.

Module MoreExamples.

(** [match (x, y) { (1, 2) | (7, 7) if g => 10, (2, 3) => 20 }] *)
Definition guarded : MatchExpr :=
  mkMatchExpr 100 (TupleExpr 101 [Examples.x; Examples.y] 0)
    [ mkMatchCase 1
        (mkMatchArm [Examples.tuple_pat [LiteralPattern 1; LiteralPattern 2];
                     Examples.tuple_pat [LiteralPattern 7; LiteralPattern 7]]
                    0 (Some (PathInExpression 50)))
        (LiteralExpr 201 10);
      Examples.kase 2 (Examples.tuple_pat [LiteralPattern 2; LiteralPattern 3]) 20 ] 0.

(** [match (x, y) { z => 10 }] *)
Definition bound_whole : MatchExpr :=
  mkMatchExpr 100 (TupleExpr 101 [Examples.x; Examples.y] 0)
    [ Examples.kase 1 (IdentifierPattern "z") 10 ] 0.

End MoreExamples.

(** * Further lowering routines of [rust-compile-expr.cc] *)

Definition build_pointer_type (to : tree) : tree := POINTER_TYPE to.

(** Modelled from the spec: the macros [TYPE_PTR_P] and [TYPE_REF_P] of
    [rust-tree.h], which is not among the sources: the type is a pointer
    type, and the type is a reference type. *)
Definition TYPE_PTR_P (t : tree) : bool :=
  match t with POINTER_TYPE _ => true | _ => false end.

Definition TYPE_REF_P (t : tree) : bool :=
  match t with REFERENCE_TYPE _ => true | _ => false end.

Definition is_error_mark_node (t : tree) : bool :=
  match t with error_mark_node => true | _ => false end.

Definition is_NULL_TREE (t : tree) : bool :=
  match t with NULL_TREE => true | _ => false end.

(** A routine that neither reads nor changes the context. *)
Definition lift {A : Type} (o : outcome A) : M A :=
  fun ctx => obind o (fun a => Ok (a, ctx)).

(** ** Borrow expressions *)

Record BorrowExpr : Type := mkBorrowExpr
  { borrow_mappings : NodeMapping;
    borrow_expr : Expr;
    borrow_locus : Location }.

Section Borrow.

Import TyTy.
Context `{Backend}.

Variable lookup_type : NodeMapping -> option BaseType.
Variable TyTyResolveCompile_compile : BaseType -> tree.
Variable CompileExpr_Compile : Expr -> Emitter tree.

(** [CompileExpr::visit (HIR::BorrowExpr &)]; [translated] is the result
    register on entry, the value returned the register on exit. *)
Definition visit_BorrowExpr (expr : BorrowExpr) (translated : tree) : M tree :=
  main_expr <- emit (CompileExpr_Compile (borrow_expr expr)) ;;
  if SLICE_TYPE_P (TREE_TYPE main_expr)
  then ret main_expr
  else
    match lookup_type (borrow_mappings expr) with
    | None => ret translated
    | Some tyty =>
        let ptrtype := TyTyResolveCompile_compile tyty in
        ret (address_expression main_expr ptrtype (borrow_locus expr))
    end.

End Borrow.

(** ** Range expressions *)

Record RangeFromToExpr : Type := mkRangeFromToExpr
  { range_from_to_mappings : NodeMapping;
    range_from_to_from : Expr;
    range_from_to_to : Expr;
    range_from_to_locus : Location }.

Record RangeFromToInclExpr : Type := mkRangeFromToInclExpr
  { range_incl_mappings : NodeMapping;
    range_incl_from : Expr;
    range_incl_to : Expr;
    range_incl_locus : Location }.

Section Ranges.

Import TyTy.
Context `{Backend}.

Variable lookup_type : NodeMapping -> option BaseType.
Variable TyTyResolveCompile_compile : BaseType -> tree.
Variable CompileExpr_Compile : Expr -> Emitter tree.

Definition visit_RangeFromToExpr (expr : RangeFromToExpr) : M tree :=
  from <- emit (CompileExpr_Compile (range_from_to_from expr)) ;;
  to <- emit (CompileExpr_Compile (range_from_to_to expr)) ;;
  if is_error_mark_node from || is_error_mark_node to
  then ret error_mark_node
  else
    match lookup_type (range_from_to_mappings expr) with
    | None => abort (* rust_assert (ok) *)
    | Some tyty =>
        let adt := TyTyResolveCompile_compile tyty in
        ret (constructor_expression adt false [from; to] (-1)
                                    (range_from_to_locus expr))
    end.

Definition visit_RangeFromToInclExpr (expr : RangeFromToInclExpr) : M tree :=
  from <- emit (CompileExpr_Compile (range_incl_from expr)) ;;
  to <- emit (CompileExpr_Compile (range_incl_to expr)) ;;
  if is_error_mark_node from || is_error_mark_node to
  then ret error_mark_node
  else
    match lookup_type (range_incl_mappings expr) with
    | None => abort (* rust_assert (ok) *)
    | Some tyty =>
        let adt := TyTyResolveCompile_compile tyty in
        ret (constructor_expression adt false [from; to] (-1)
                                    (range_incl_locus expr))
    end.

End Ranges.

(** ** The collaborators of the expression compiler

    The operators and the language items that overload them ([operator.h]
    and [rust-lang-item.h] are not among the sources), with the methods of
    the backend that take an operator. *)
Class Operators : Type :=
  { ArithmeticOrLogicalOperator : Type;
    NegationOperator : Type;
    ItemType : Type;
    OperatorToLangItem : ArithmeticOrLogicalOperator -> ItemType;
    CompoundAssignmentOperatorToLangItem : ArithmeticOrLogicalOperator -> ItemType;
    NegationOperatorToLangItem : NegationOperator -> ItemType;
    INDEX : ItemType;
    RustLangItem_ToString : ItemType -> string;
    arithmetic_or_logical_expression :
      ArithmeticOrLogicalOperator -> tree -> tree -> Location -> tree;
    negation_expression : NegationOperator -> tree -> Location -> tree;
    array_index_expression : tree -> tree -> Location -> tree }.

(** A candidate of the path probe, a trait item of a trait reference, a
    variant of an algebraic data type. *)
Record PathProbeCandidate : Type := mkPathProbeCandidate
  { is_impl_candidate : bool;
    candidate_ty : TyTy.BaseType;
    candidate_impl_item : nat }.

Record ResolverTraitItemReference : Type := mkResolverTraitItemReference
  { is_optional : bool;
    get_hir_trait_item : nat }.

Record VariantDef : Type := mkVariantDef
  { variant_get_id : nat;
    get_discriminant : Expr;
    variant_fields : list TyTy.BaseType }.

(** The tables of the type checker ([ctx->get_tyctx ()]), of the name
    resolver ([ctx->get_resolver ()]), of the mappings
    ([ctx->get_mappings ()]) and of the compilation context; a node mapping
    stands for each of its identifiers.  [lookup_definition] gives the parent
    of the definition; [lookup_location] is taken at the reference of a type
    ([lookup_location (expected->get_ty_ref ())]). *)
Class Tables : Type :=
  { lookup_type : NodeMapping -> option TyTy.BaseType;
    lookup_operator_overload : NodeMapping -> option TyTy.FnType;
    lookup_receiver : NodeMapping -> option TyTy.BaseType;
    lookup_autoderef_mappings : NodeMapping -> option (list Adjustment.t);
    lookup_variant_definition : NodeMapping -> option nat;
    lookup_trait_reference : nat -> option nat;
    trait_reference_lookup_hir_trait_item :
      nat -> nat -> option ResolverTraitItemReference;
    lookup_resolved_name : NodeMapping -> option nat;
    lookup_resolved_type : NodeMapping -> option nat;
    lookup_definition : nat -> option nat;
    UNKNOWN_NODEID : nat;
    lookup_node_to_hir : NodeMapping -> nat -> option nat;
    lookup_hir_implitem : NodeMapping -> nat -> option nat;
    lookup_hir_trait_item : NodeMapping -> nat -> option nat;
    lookup_trait_item_mapping : nat -> option nat;
    lookup_hir_item : NodeMapping -> nat -> option nat;
    lookup_location : TyTy.BaseType -> Location;
    lookup_const_decl : nat -> option tree;
    lookup_function_decl : nat -> option tree;
    lookup_var_decl : nat -> option Bvariable;
    lookup_pattern_binding : nat -> option tree }.

(** Methods of the resolved types that the type records here do not carry,
    and the path probe
    [Resolver::PathProbeType::Probe (root, segment, true, false, true)]. *)
Class TypeMethods : Type :=
  { get_ty_ref : TyTy.FnType -> nat;
    get_root : TyTy.BaseType -> TyTy.BaseType;
    ParamType_resolve : TyTy.BaseType -> TyTy.BaseType;
    is_unit : TyTy.BaseType -> bool;
    type_has_subsititions_defined : TyTy.BaseType -> bool;
    needs_generic_substitutions : TyTy.FnType -> bool;
    infer_substitions : TyTy.FnType -> Location -> TyTy.BaseType;
    unify : TyTy.BaseType -> TyTy.BaseType -> TyTy.BaseType;
    is_varadic : TyTy.FnType -> bool;
    num_params : TyTy.FnType -> nat;
    param_at : TyTy.FnType -> nat -> option TyTy.BaseType;
    fnptr_num_params : TyTy.BaseType -> nat;
    fnptr_param_at : TyTy.BaseType -> nat -> option TyTy.BaseType;
    get_variants : TyTy.BaseType -> list VariantDef;
    lookup_variant_by_id : TyTy.BaseType -> nat -> option (VariantDef * Z);
    PathProbeType_Probe : TyTy.BaseType -> string -> list PathProbeCandidate }.

(** The compilers of the other parts of the program:
    [TyTyResolveCompile::compile (ctx, ty, trait_object_mode)],
    [CompileExpr::Compile] on a subexpression,
    [CompileInherentImplItem::Compile (item, ctx)] and
    [CompileInherentImplItem::Compile (item, ctx, concrete)] with the other
    parameters at their default values, the same with all its parameters,
    [CompileTraitItem::Compile] and [CompileItem::compile],
    [HIRCompileBase::coercion_site (rvalue, actual, expected, lvalue_locus,
    rvalue_locus)] and [fold_expr]. *)
Class Compilers : Type :=
  { TyTyResolveCompile_compile : TyTy.BaseType -> bool -> tree;
    CompileExpr_Compile : Expr -> Emitter tree;
    CompileInherentImplItem_Compile_default :
      nat -> option TyTy.BaseType -> Emitter tree;
    CompileInherentImplItem_Compile :
      nat -> option TyTy.FnType -> bool -> Location -> Emitter tree;
    CompileTraitItem_Compile : nat -> TyTy.FnType -> bool -> Location -> Emitter tree;
    CompileItem_compile :
      nat -> option TyTy.BaseType -> bool -> Location -> Emitter tree;
    coercion_site :
      tree -> TyTy.BaseType -> TyTy.BaseType -> Location -> Location -> Emitter tree;
    fold_expr : tree -> tree }.

(** ** Method addresses, operator overloads, method calls *)

(** [HIR::OperatorExprMeta]: what [resolve_operator_overload] reads of the
    operator expression. *)
Record OperatorExprMeta : Type := mkOperatorExprMeta
  { meta_mappings : NodeMapping;
    meta_locus : Location }.

Record ArithmeticOrLogicalExpr (Op : Type) : Type := mkArithmeticOrLogicalExpr
  { arith_expr_type : Op;
    arith_lhs : Expr;
    arith_rhs : Expr;
    arith_mappings : NodeMapping;
    arith_locus : Location }.

Record CompoundAssignmentExpr (Op : Type) : Type := mkCompoundAssignmentExpr
  { compound_expr_type : Op;
    compound_left_expr : Expr;
    compound_right_expr : Expr;
    compound_mappings : NodeMapping;
    compound_locus : Location }.

Record NegationExpr (Op : Type) : Type := mkNegationExpr
  { negation_expr_type : Op;
    negation_expr : Expr;
    negation_mappings : NodeMapping;
    negation_locus : Location }.

Record ArrayIndexExpr : Type := mkArrayIndexExpr
  { index_array_expr : Expr;
    index_index_expr : Expr;
    index_mappings : NodeMapping;
    index_locus : Location }.

Record MethodCallExpr : Type := mkMethodCallExpr
  { method_receiver : Expr;
    method_name_mappings : NodeMapping;
    method_name_segment : string;
    method_arguments : list Expr;
    method_mappings : NodeMapping;
    method_locus : Location }.

Record CallExpr : Type := mkCallExpr
  { call_fnexpr : Expr;
    call_arguments : list Expr;
    call_mappings : NodeMapping;
    call_locus : Location }.

Record IdentifierExpr : Type := mkIdentifierExpr
  { ident_mappings : NodeMapping;
    ident_as_string : string;
    ident_locus : Location }.

Section MethodAddress.

Import TyTy.
Context `{Backend} `{Operators} `{Tables} `{TypeMethods} `{Compilers}.

Definition resolve_method_address (fntype : FnType) (ref : nat) (receiver : BaseType)
                                  (segment : string) (expr_mappings : NodeMapping)
                                  (expr_locus : Location) : M tree :=
  match lookup_function_decl (get_ty_ref fntype) with
  | Some fn =>
      ret (address_expression fn (build_pointer_type (TREE_TYPE fn)) expr_locus)
  | None =>
      match lookup_hir_implitem expr_mappings ref with
      | Some resolved_item =>
          if negb (has_subsititions_defined fntype)
          then emit (CompileInherentImplItem_Compile_default resolved_item None)
          else emit (CompileInherentImplItem_Compile_default resolved_item
                       (Some (FnDefType fntype)))
      | None =>
          match lookup_hir_trait_item expr_mappings ref with
          | None => abort (* trait_item->get_mappings () on a null pointer *)
          | Some trait_item =>
              match lookup_trait_item_mapping trait_item with
              | None => abort (* trait->get_mappings () on a null pointer *)
              | Some trait =>
                  match lookup_trait_reference trait with
                  | None => abort (* rust_assert (ok) *)
                  | Some trait_ref =>
                      let root := get_root receiver in
                      let candidates := PathProbeType_Probe root segment in
                      match candidates with
                      | [] =>
                          match trait_reference_lookup_hir_trait_item
                                  trait_ref trait_item with
                          | None => abort (* rust_assert (ok) *)
                          | Some trait_item_ref =>
                              assert_ (is_optional trait_item_ref) ;;;
                              emit (CompileTraitItem_Compile
                                      (get_hir_trait_item trait_item_ref)
                                      fntype true expr_locus)
                          end
                      | candidate :: _ =>
                          assert_ (Nat.eqb (length candidates) 1) ;;;
                          assert_ (is_impl_candidate candidate) ;;;
                          match candidate_ty candidate with
                          | FnDefType candidate_call =>
                              let impl_item := candidate_impl_item candidate in
                              if negb (has_subsititions_defined candidate_call)
                              then emit (CompileInherentImplItem_Compile_default
                                           impl_item None)
                              else
                                let monomorphized :=
                                  if needs_generic_substitutions candidate_call
                                  then
                                    let infer_impl_call :=
                                      infer_substitions candidate_call expr_locus in
                                    unify infer_impl_call (FnDefType fntype)
                                  else FnDefType candidate_call in
                                emit (CompileInherentImplItem_Compile_default
                                        impl_item (Some monomorphized))
                          | _ => abort (* rust_assert (... == FNDEF) *)
                          end
                      end
                  end
              end
          end
      end
  end.

(** [resolve_operator_overload]; a null [rhs] is [NULL_TREE]. *)
Definition resolve_operator_overload (lang_item_type : ItemType)
                                     (expr : OperatorExprMeta) (lhs rhs : tree)
                                     (lhs_expr : Expr) : M tree :=
  match lookup_operator_overload (meta_mappings expr) with
  | None => abort (* rust_assert (is_op_overload) *)
  | Some fntype =>
      match lookup_resolved_name (meta_mappings expr) with
      | None => abort (* rust_assert (ok) *)
      | Some resolved_node_id =>
          match lookup_node_to_hir (meta_mappings expr) resolved_node_id with
          | None => abort (* rust_assert (ok) *)
          | Some ref =>
              match lookup_receiver (meta_mappings expr) with
              | None => abort (* rust_assert (ok) *)
              | Some receiver =>
                  let is_generic_receiver :=
                    TypeKind_eqb (get_kind receiver) PARAM in
                  let receiver :=
                    if is_generic_receiver then ParamType_resolve receiver
                    else receiver in
                  let segment_name := RustLangItem_ToString lang_item_type in
                  fn_expr <-
                    resolve_method_address fntype ref receiver segment_name
                      (meta_mappings expr) (meta_locus expr) ;;
                  match lookup_autoderef_mappings (meta_mappings expr) with
                  | None => abort (* rust_assert (ok) *)
                  | Some adjustments =>
                      self <-
                        resolve_adjustements
                          (fun ty => TyTyResolveCompile_compile ty false)
                          CompileInherentImplItem_Compile
                          adjustments lhs (expr_locus lhs_expr) ;;
                      let args :=
                        self :: (if is_NULL_TREE rhs then [] else [rhs]) in
                      ret (call_expression fn_expr args NULL_TREE (meta_locus expr))
                  end
              end
          end
      end
  end.

Definition visit_ArithmeticOrLogicalExpr
             (expr : ArithmeticOrLogicalExpr ArithmeticOrLogicalOperator) : M tree :=
  let op := arith_expr_type expr in
  lhs <- emit (CompileExpr_Compile (arith_lhs expr)) ;;
  rhs <- emit (CompileExpr_Compile (arith_rhs expr)) ;;
  match lookup_operator_overload (arith_mappings expr) with
  | Some _ =>
      let lang_item_type := OperatorToLangItem (arith_expr_type expr) in
      resolve_operator_overload lang_item_type
        (mkOperatorExprMeta (arith_mappings expr) (arith_locus expr))
        lhs rhs (arith_lhs expr)
  | None => ret (arithmetic_or_logical_expression op lhs rhs (arith_locus expr))
  end.

Definition visit_CompoundAssignmentExpr
             (expr : CompoundAssignmentExpr ArithmeticOrLogicalOperator)
             (translated : tree) : M tree :=
  let op := compound_expr_type expr in
  lhs <- emit (CompileExpr_Compile (compound_left_expr expr)) ;;
  rhs <- emit (CompileExpr_Compile (compound_right_expr expr)) ;;
  match lookup_operator_overload (compound_mappings expr) with
  | Some _ =>
      let lang_item_type :=
        CompoundAssignmentOperatorToLangItem (compound_expr_type expr) in
      compound_assignment <-
        resolve_operator_overload lang_item_type
          (mkOperatorExprMeta (compound_mappings expr) (compound_locus expr))
          lhs rhs (compound_left_expr expr) ;;
      add_statement compound_assignment ;;;
      ret translated
  | None =>
      let operator_expr :=
        arithmetic_or_logical_expression op lhs rhs (compound_locus expr) in
      let assignment :=
        assignment_statement lhs operator_expr (compound_locus expr) in
      add_statement assignment ;;;
      ret translated
  end.

Definition visit_NegationExpr (expr : NegationExpr NegationOperator) : M tree :=
  let op := negation_expr_type expr in
  negated_expr <- emit (CompileExpr_Compile (negation_expr expr)) ;;
  let location := negation_locus expr in
  match lookup_operator_overload (negation_mappings expr) with
  | Some _ =>
      let lang_item_type := NegationOperatorToLangItem op in
      resolve_operator_overload lang_item_type
        (mkOperatorExprMeta (negation_mappings expr) (negation_locus expr))
        negated_expr NULL_TREE (negation_expr expr)
  | None => ret (negation_expression op negated_expr location)
  end.

Definition visit_ArrayIndexExpr (expr : ArrayIndexExpr) : M tree :=
  array_reference <- emit (CompileExpr_Compile (index_array_expr expr)) ;;
  index <- emit (CompileExpr_Compile (index_index_expr expr)) ;;
  match lookup_operator_overload (index_mappings expr) with
  | Some _ =>
      let lang_item_type := INDEX in
      operator_overload_call <-
        resolve_operator_overload lang_item_type
          (mkOperatorExprMeta (index_mappings expr) (index_locus expr))
          array_reference index (index_array_expr expr) ;;
      let actual_type := TREE_TYPE operator_overload_call in
      let can_indirect := TYPE_PTR_P actual_type || TYPE_REF_P actual_type in
      if negb can_indirect
      then ret operator_overload_call
      else
        match lookup_type (index_mappings expr) with
        | None => abort (* rust_assert (ok) *)
        | Some tyty =>
            let expected_type := TyTyResolveCompile_compile tyty false in
            ret (indirect_expression expected_type operator_overload_call true
                                     (index_locus expr))
        end
  | None =>
      match lookup_type (expr_mappings (index_array_expr expr)) with
      | None => abort (* rust_assert (ok) *)
      | Some array_expr_ty =>
          array_reference <-
            (if TypeKind_eqb (get_kind array_expr_ty) REF
             then
               match array_expr_ty with
               | ReferenceType tuple_type =>
                   let array_tyty := TyTyResolveCompile_compile tuple_type false in
                   ret (indirect_expression array_tyty array_reference true
                                            (index_locus expr))
               | _ => abort (* a reference type without its base *)
               end
             else ret array_reference) ;;
          ret (array_index_expression array_reference index (index_locus expr))
      end
  end.

(** The loop of [visit (HIR::MethodCallExpr &)] over the arguments: each is
    compiled and coerced to the type of the parameter after the receiver. *)
Fixpoint method_call_arguments (fntype : FnType) (arguments : list Expr) (i : nat)
                               (args : list tree) : M (list tree) :=
  match arguments with
  | [] => ret args
  | argument :: arguments' =>
      rvalue <- emit (CompileExpr_Compile argument) ;;
      match param_at fntype (i + 1) with
      | None => abort (* param_at outside the parameters *)
      | Some expected =>
          match lookup_type (expr_mappings argument) with
          | None => abort (* rust_assert (ok) *)
          | Some actual =>
              let lvalue_locus := lookup_location expected in
              let rvalue_locus := expr_locus argument in
              rvalue <-
                emit (coercion_site rvalue actual expected lvalue_locus
                                    rvalue_locus) ;;
              method_call_arguments fntype arguments' (S i) (args ++ [rvalue])
          end
      end
  end.

Definition visit_MethodCallExpr (expr : MethodCallExpr) (translated : tree)
  : M tree :=
  self <- emit (CompileExpr_Compile (method_receiver expr)) ;;
  match lookup_resolved_name (method_mappings expr) with
  | None =>
      rust_error_at (method_locus expr) "failed to lookup resolved MethodCall" ;;;
      ret translated
  | Some resolved_node_id =>
      match lookup_node_to_hir (method_mappings expr) resolved_node_id with
      | None => abort (* rust_fatal_error *)
      | Some ref =>
          match lookup_type (method_name_mappings expr) with
          | Some (FnDefType fntype) =>
              match lookup_receiver (method_mappings expr) with
              | None => abort (* rust_assert (ok) *)
              | Some receiver =>
                  let is_dyn_dispatch :=
                    TypeKind_eqb (get_kind (get_root receiver)) DYNAMIC in
                  let is_generic_receiver :=
                    TypeKind_eqb (get_kind receiver) PARAM in
                  let receiver :=
                    if is_generic_receiver then ParamType_resolve receiver
                    else receiver in
                  resolved <-
                    (if is_dyn_dispatch
                     then
                       match get_root receiver with
                       | DynamicObjectType dyn =>
                           fn_expr <-
                             lift (get_fn_addr_from_dyn TyTyResolveCompile_compile
                                     dyn receiver fntype self (method_locus expr)) ;;
                           self <-
                             lift (get_receiver_from_dyn TyTyResolveCompile_compile
                                     dyn receiver fntype self (method_locus expr)) ;;
                           ret (fn_expr, self)
                       | _ => abort (* the root is not a dynamic object *)
                       end
                     else
                       fn_expr <-
                         resolve_method_address fntype ref receiver
                           (method_name_segment expr) (method_mappings expr)
                           (method_locus expr) ;;
                       ret (fn_expr, self)) ;;
                  let '(fn_expr, self) := resolved in
                  match lookup_autoderef_mappings (method_mappings expr) with
                  | None => abort (* rust_assert (ok) *)
                  | Some adjustments =>
                      self <-
                        resolve_adjustements
                          (fun ty => TyTyResolveCompile_compile ty false)
                          CompileInherentImplItem_Compile
                          adjustments self (expr_locus (method_receiver expr)) ;;
                      args <-
                        method_call_arguments fntype (method_arguments expr) 0
                                              [self] ;;
                      ret (call_expression fn_expr args NULL_TREE
                                           (method_locus expr))
                  end
              end
          | _ => abort (* rust_assert (ok), rust_assert (... == FNDEF) *)
          end
      end
  end.

(** ** Call expressions *)

(** The loop over the arguments of a constructor: each is compiled and
    coerced to the type of the field of its position. *)
Fixpoint constructor_arguments (variant : VariantDef) (arguments : list Expr)
                               (i : nat) (acc : list tree) : M (list tree) :=
  match arguments with
  | [] => ret acc
  | argument :: arguments' =>
      rvalue <- emit (CompileExpr_Compile argument) ;;
      match nth_error (variant_fields variant) i with
      | None => abort (* get_field_at_index outside the fields *)
      | Some expected =>
          match lookup_type (expr_mappings argument) with
          | None => abort (* rust_assert (ok) *)
          | Some actual =>
              let lvalue_locus := lookup_location expected in
              let rvalue_locus := expr_locus argument in
              rvalue <-
                emit (coercion_site rvalue actual expected lvalue_locus
                                    rvalue_locus) ;;
              constructor_arguments variant arguments' (S i) (acc ++ [rvalue])
          end
      end
  end.

(** The lambda [get_parameter_tyty_at_index] of [visit (HIR::CallExpr &)]. *)
Definition get_parameter_tyty_at_index (base : BaseType) (index : nat)
  : outcome BaseType :=
  let is_fn :=
    TypeKind_eqb (get_kind base) FNDEF || TypeKind_eqb (get_kind base) FNPTR in
  obind (rust_assert is_fn) (fun _ =>
  if TypeKind_eqb (get_kind base) FNPTR
  then
    match fnptr_param_at base index with
    | Some result => Ok result
    | None => Abort (* param_at outside the parameters *)
    end
  else
    match base with
    | FnDefType fn =>
        match param_at fn index with
        | Some param => Ok param
        | None => Abort (* param_at outside the parameters *)
        end
    | _ => Abort (* a function type without its contents *)
    end).

(** The loop over the arguments of a function call. *)
Fixpoint function_arguments (tyty : BaseType) (is_varadic : bool)
                            (required_num_args : nat) (arguments : list Expr)
                            (i : nat) (args : list tree) : M (list tree) :=
  match arguments with
  | [] => ret args
  | argument :: arguments' =>
      rvalue <- emit (CompileExpr_Compile argument) ;;
      if is_varadic && Nat.leb required_num_args i
      then
        function_arguments tyty is_varadic required_num_args arguments' (S i)
                           (args ++ [rvalue])
      else
        expected <- lift (get_parameter_tyty_at_index tyty i) ;;
        match lookup_type (expr_mappings argument) with
        | None => abort (* rust_assert (ok) *)
        | Some actual =>
            let lvalue_locus := lookup_location expected in
            let rvalue_locus := expr_locus argument in
            rvalue <-
              emit (coercion_site rvalue actual expected lvalue_locus
                                  rvalue_locus) ;;
            function_arguments tyty is_varadic required_num_args arguments' (S i)
                               (args ++ [rvalue])
        end
  end.

Definition visit_CallExpr (expr : CallExpr) (translated : tree) : M tree :=
  match lookup_type (expr_mappings (call_fnexpr expr)) with
  | None =>
      rust_error_at (call_locus expr) "unknown type" ;;;
      ret translated
  | Some tyty =>
      let is_fn :=
        TypeKind_eqb (get_kind tyty) FNDEF || TypeKind_eqb (get_kind tyty) FNPTR in
      let is_adt_ctor := negb is_fn in
      if is_adt_ctor
      then
        assert_ (TypeKind_eqb (get_kind tyty) ADT) ;;;
        match tyty with
        | ADTType _ adt_is_enum number_of_variants =>
            let compiled_adt_type := TyTyResolveCompile_compile tyty false in
            resolved <-
              (if negb adt_is_enum
               then
                 assert_ (Nat.eqb number_of_variants 1) ;;;
                 match get_variants tyty with
                 | variant :: _ => ret (variant, (-1)%Z)
                 | [] => abort (* get_variants ().at (0) *)
                 end
               else
                 match lookup_variant_definition
                         (expr_mappings (call_fnexpr expr)) with
                 | None => abort (* rust_assert (ok) *)
                 | Some variant_id =>
                     match lookup_variant_by_id tyty variant_id with
                     | None => abort (* rust_assert (ok) *)
                     | Some found => ret found
                     end
                 end) ;;
            let '(variant, union_disriminator) := resolved in
            arguments <-
              constructor_arguments variant (call_arguments expr) 0 [] ;;
            ctor_arguments <-
              (if adt_is_enum
               then
                 let discrim_expr := get_discriminant variant in
                 discrim_expr_node <- emit (CompileExpr_Compile discrim_expr) ;;
                 let folded_discrim_expr := fold_expr discrim_expr_node in
                 let qualifier := folded_discrim_expr in
                 ret ([qualifier] ++ arguments)
               else ret arguments) ;;
            ret (constructor_expression compiled_adt_type adt_is_enum
                   ctor_arguments union_disriminator (call_locus expr))
        | _ => abort (* an algebraic data type without its contents *)
        end
      else
        fn_shape <-
          (if TypeKind_eqb (get_kind tyty) FNDEF
           then
             match tyty with
             | FnDefType fn => ret (is_varadic fn, num_params fn)
             | _ => abort (* a function type without its contents *)
             end
           else ret (false, fnptr_num_params tyty)) ;;
        let '(is_varadic, required_num_args) := fn_shape in
        args <-
          function_arguments tyty is_varadic required_num_args
                             (call_arguments expr) 0 [] ;;
        fn_address <- emit (CompileExpr_Compile (call_fnexpr expr)) ;;
        ret (call_expression fn_address args NULL_TREE (call_locus expr))
  end.

(** ** Identifier expressions *)

(** The first part of [visit (HIR::IdentifierExpr &)]: the node that the
    name refers to and whether it is a value, or the error reported. *)
Definition resolve_identifier (expr : IdentifierExpr)
  : sum string (nat * bool) :=
  let ast_node_id := ident_mappings expr in
  match lookup_resolved_name ast_node_id with
  | Some ref_node_id =>
      match lookup_definition ref_node_id with
      | None => inl "unknown reference for resolved name"%string
      | Some parent => inr (parent, true)
      end
  | None =>
      match lookup_resolved_type ast_node_id with
      | None =>
          inl ("Failed to lookup type reference for node: "
               ++ ident_as_string expr)%string
      | Some ref_node_id => inr (ref_node_id, false)
      end
  end.

(** [visit (HIR::IdentifierExpr &)]; [translated] is the result register on
    entry, the value returned the register on exit.  The flag [TREE_USED] of
    a declaration is not part of the trees. *)
Definition visit_IdentifierExpr (expr : IdentifierExpr) (translated : tree)
  : M tree :=
  match resolve_identifier expr with
  | inl message =>
      rust_error_at (ident_locus expr) message ;;;
      ret translated
  | inr (ref_node_id, is_value) =>
      if Nat.eqb ref_node_id UNKNOWN_NODEID
      then abort (* rust_fatal_error *)
      else
        match lookup_node_to_hir (ident_mappings expr) ref_node_id with
        | None =>
            rust_error_at (ident_locus expr) "reverse lookup failure" ;;;
            ret translated
        | Some ref =>
            match lookup_type ref with
            | None => abort (* rust_fatal_error *)
            | Some lookup =>
                let is_type_ref := negb is_value in
                if is_type_ref
                then
                  if is_unit lookup
                  then ret unit_expression
                  else abort (* gcc_unreachable *)
                else
                  match lookup_const_decl ref with
                  | Some decl => ret decl
                  | None =>
                      match lookup_function_decl ref with
                      | Some fn =>
                          ret (address_expression fn
                                 (build_pointer_type (TREE_TYPE fn))
                                 (ident_locus expr))
                      | None =>
                          match lookup_var_decl ref with
                          | Some var =>
                              ret (var_expression var (ident_locus expr))
                          | None =>
                              match lookup_pattern_binding ref with
                              | Some binding => ret binding
                              | None =>
                                  match lookup_hir_item (ident_mappings expr)
                                                        ref with
                                  | None => ret error_mark_node
                                  | Some resolved_item =>
                                      if negb (type_has_subsititions_defined
                                                 lookup)
                                      then emit (CompileItem_compile
                                                   resolved_item None true
                                                   (ident_locus expr))
                                      else emit (CompileItem_compile
                                                   resolved_item (Some lookup)
                                                   true (ident_locus expr))
                                  end
                              end
                          end
                      end
                  end
            end
        end
  end.

End MethodAddress.

(** ** String and byte-string literals *)

Section MoreLiterals.

Import TyTy.
Context `{Backend}.

(** [Backend::char_constant_expression], [string_constant_expression],
    [array_constructor_expression] *)
Variable char_constant_expression : ascii -> tree.
Variable string_constant_expression : string -> tree.
Variable array_constructor_expression :
  tree -> list nat -> list tree -> Location -> tree.

Variable lookup_builtin : string -> option BaseType.
Variable TyTyResolveCompile_compile : BaseType -> tree.

Definition compile_string_literal (expr : Literal.LiteralExprNode) (tyty : BaseType)
  : outcome tree :=
  let fat_pointer := TyTyResolveCompile_compile tyty in
  obind (rust_assert (Literal.LitType_eqb (Literal.get_lit_type expr) Literal.STRING))
        (fun _ =>
  let base := string_constant_expression (Literal.as_string expr) in
  let data :=
    address_expression base (build_pointer_type (TREE_TYPE base))
                       (Literal.get_locus expr) in
  match lookup_builtin "usize" with
  | None => Abort (* rust_assert (ok) *)
  | Some usize =>
      let type := TyTyResolveCompile_compile usize in
      let ival := Z.of_nat (String.length (Literal.as_string expr)) in
      let size := double_int_to_tree type (mpz_get_double_int type ival true) in
      Ok (constructor_expression fat_pointer false [data; size] (-1)
                                 (Literal.get_locus expr))
  end).

(** The loop of [compile_byte_string_literal] from position [i] on. *)
Fixpoint byte_string_elements (value_str : string) (i : nat)
                              (vals : list tree) (indexes : list nat)
  : list tree * list nat :=
  match value_str with
  | EmptyString => (vals, indexes)
  | String b rest =>
      let bb := char_constant_expression b in
      byte_string_elements rest (S i) (vals ++ [bb]) (indexes ++ [i])
  end.

Definition compile_byte_string_literal (expr : Literal.LiteralExprNode)
                                       (tyty : BaseType) : outcome tree :=
  obind (rust_assert (Literal.LitType_eqb (Literal.get_lit_type expr)
                                          Literal.BYTE_STRING)) (fun _ =>
  obind (rust_assert (TypeKind_eqb (get_kind tyty) REF)) (fun _ =>
  match tyty with
  | ReferenceType base_tyty =>
      obind (rust_assert (TypeKind_eqb (get_kind base_tyty) ARRAY)) (fun _ =>
      let array_tyty := base_tyty in
      let value_str := Literal.as_string expr in
      let '(vals, indexes) := byte_string_elements value_str 0 [] [] in
      let array_type := TyTyResolveCompile_compile array_tyty in
      let constructed :=
        array_constructor_expression array_type indexes vals
                                     (Literal.get_locus expr) in
      Ok (address_expression constructed (build_pointer_type array_type)
                             (Literal.get_locus expr)))
  | _ => Abort (* a reference type without its base *)
  end)).

End MoreLiterals.

(** ** Array expressions *)

Inductive ArrayElems : Type :=
| ArrayElemsValues (values : list Expr)
| ArrayElemsCopied (elem_to_copy num_copies : Expr).

Record ArrayExpr : Type := mkArrayExpr
  { array_mappings : NodeMapping;
    array_internal_elements : ArrayElems;
    array_locus : Location }.

Section Arrays.

Import TyTy.
Context `{Backend}.

Variable array_constructor_expression :
  tree -> list nat -> list tree -> Location -> tree.
Variable lookup_type : NodeMapping -> option BaseType.
Variable TyTyResolveCompile_compile : BaseType -> tree.
Variable CompileExpr_Compile : Expr -> Emitter tree.

(** [array_copied_expr (expr_locus, array_tyty, array_type, elems)], which is
    not embedded. *)
Variable array_copied_expr : Location -> BaseType -> tree -> Expr -> Expr -> M tree.

(** The loop of [array_value_expr] from position [i] on. *)
Fixpoint array_value_elements (values : list Expr) (i : nat)
                              (indexes : list nat) (constructor : list tree)
  : M (list nat * list tree) :=
  match values with
  | [] => ret (indexes, constructor)
  | elem :: values' =>
      translated_expr <- emit (CompileExpr_Compile elem) ;;
      array_value_elements values' (S i) (indexes ++ [i])
                           (constructor ++ [translated_expr])
  end.

Definition array_value_expr (expr_locus : Location) (array_tyty : BaseType)
                            (array_type : tree) (elems : list Expr) : M tree :=
  filled <- array_value_elements elems 0 [] [] ;;
  let '(indexes, constructor) := filled in
  ret (array_constructor_expression array_type indexes constructor expr_locus).

Definition visit_ArrayExpr (expr : ArrayExpr) : M tree :=
  match lookup_type (array_mappings expr) with
  | None => abort (* rust_fatal_error *)
  | Some tyty =>
      let array_type := TyTyResolveCompile_compile tyty in
      match array_type with
      | ARRAY_TYPE _ _ _ _ =>
          assert_ (TypeKind_eqb (get_kind tyty) ARRAY) ;;;
          match array_internal_elements expr with
          | ArrayElemsValues elems =>
              array_value_expr (array_locus expr) tyty array_type elems
          | ArrayElemsCopied elem_to_copy num_copies =>
              array_copied_expr (array_locus expr) tyty array_type
                                elem_to_copy num_copies
          end
      | _ => ret error_mark_node
      end
  end.

End Arrays.

(** * Notions used to state further properties of the lowering *)

(** An adjustment that is resolved without a call and without a look at the
    type of the expression: an error entry, a borrow or an indirection. *)
Definition call_free (a : Adjustment.t) : bool :=
  match Adjustment.get_type a with
  | Adjustment.ERROR | Adjustment.IMM_REF | Adjustment.MUT_REF
  | Adjustment.INDIRECTION => true
  | _ => false
  end.

(** The context after a collaborator has appended the statements [stmts] to
    the active block, reported [reports] and left [uid'] as the number of
    declarations. *)
Definition emitted (ctx : Context) (stmts : list tree) (reports : list diagnostic)
                   (uid' : nat) : Context :=
  mkContext
    (match stmts, scope_stack ctx with
     | _ :: _, (b, l) :: rest => (b, l ++ stmts) :: rest
     | _, stack => stack
     end)
    (fn_stack ctx) (diagnostics ctx ++ reports) uid' (next_key ctx).

(** A collaborator that reports nothing. *)
Definition silent {A : Type} (e : Emitter A) : Prop :=
  forall uid a stmts reports uid',
    e uid = Ok (a, stmts, reports, uid') -> reports = [].

(** [reported ctx ctx' reports]: from [ctx] to [ctx'] the diagnostics
    [reports] were added, and none was removed. *)
Definition reported (ctx ctx' : Context) (reports : list diagnostic) : Prop :=
  diagnostics ctx' = diagnostics ctx ++ reports.

(** A diagnostic among those that an emitter returns, from some number of
    declarations. *)
Definition reports_of {A : Type} (e : Emitter A) (d : diagnostic) : Prop :=
  exists uid a stmts reports uid',
    e uid = Ok (a, stmts, reports, uid') /\ In d reports.

(** [discreet P m]: whenever [m] returns it has only added diagnostics, and
    each of them satisfies [P]; [P] will say that the diagnostic is one of a
    collaborator that [m] calls. *)
Definition discreet {A : Type} (P : diagnostic -> Prop) (m : M A) : Prop :=
  forall ctx a ctx',
    m ctx = Ok (a, ctx') ->
    exists reports, reported ctx ctx' reports /\ Forall P reports.

(** A diagnostic of one of the compilers of the parts of a match. *)
Definition reported_by_compilers
             (compile_expr : Expr -> Emitter tree)
             (compile_case_label : Pattern -> tree -> Emitter tree)
             (compile_bindings : Pattern -> tree -> Emitter unit)
             (d : diagnostic) : Prop :=
  (exists e, reports_of (compile_expr e) d)
  \/ (exists p l, reports_of (compile_case_label p l) d)
  \/ (exists p s, reports_of (compile_bindings p s) d).

(** The compilers of the parts of a match report nothing. *)
Definition silent_compilers (compile_expr : Expr -> Emitter tree)
                            (compile_case_label : Pattern -> tree -> Emitter tree)
                            (compile_bindings : Pattern -> tree -> Emitter unit)
  : Prop :=
  (forall e, silent (compile_expr e))
  /\ (forall p l, silent (compile_case_label p l))
  /\ (forall p s, silent (compile_bindings p s)).

Section PassedArguments.

Context `{Tables} `{TypeMethods} `{Compilers}.

(** [coerced_to expected argument value]: [value] is what the coercion to
    the type [expected] makes of the compiled [argument]. *)
Definition coerced_to (expected : TyTy.BaseType) (argument : Expr) (value : tree)
  : Prop :=
  exists rvalue stmts actual uid stmts' reports uid',
    compiled CompileExpr_Compile argument (rvalue, stmts)
    /\ lookup_type (expr_mappings argument) = Some actual
    /\ coercion_site rvalue actual expected (lookup_location expected)
                     (expr_locus argument) uid
       = Ok (value, stmts', reports, uid').

(** The values are the arguments, each coerced to the type that
    [expected_at] gives for its position, counted from [i]. *)
Fixpoint coerced_arguments (expected_at : nat -> option TyTy.BaseType) (i : nat)
                           (arguments : list Expr) (values : list tree) : Prop :=
  match arguments, values with
  | [], [] => True
  | argument :: arguments', value :: values' =>
      (exists expected,
          expected_at i = Some expected /\ coerced_to expected argument value)
      /\ coerced_arguments expected_at (S i) arguments' values'
  | _, _ => False
  end.

(** The value passed for the argument at position [i] of a call of a
    function of type [tyty]: the compiled argument itself when the function
    is variadic and the position is past its parameters, else the compiled
    argument coerced to the type of the parameter of that position. *)
Definition passed_argument (tyty : TyTy.BaseType) (is_varadic : bool)
                           (required_num_args : nat) (i : nat)
                           (argument : Expr) (value : tree) : Prop :=
  if is_varadic && Nat.leb required_num_args i
  then exists stmts, compiled CompileExpr_Compile argument (value, stmts)
  else exists expected,
         get_parameter_tyty_at_index tyty i = Ok expected
         /\ coerced_to expected argument value.

Fixpoint passed_arguments (tyty : TyTy.BaseType) (is_varadic : bool)
                          (required_num_args : nat) (i : nat)
                          (arguments : list Expr) (values : list tree) : Prop :=
  match arguments, values with
  | [], [] => True
  | argument :: arguments', value :: values' =>
      passed_argument tyty is_varadic required_num_args i argument value
      /\ passed_arguments tyty is_varadic required_num_args (S i)
                          arguments' values'
  | _, _ => False
  end.

End PassedArguments.

(** The first element of a tuple expression. *)
Definition tuple_head (e : Expr) : Expr :=
  match e with
  | TupleExpr _ (head :: _) _ => head
  | _ => e
  end.

(** An item of a dynamic object that is a function other than [fntype]. *)
Definition other_function (fntype : TyTy.FnType) (item : TyTy.TraitItemReference)
  : Prop :=
  exists f, TyTy.get_tyty item = TyTy.FnDefType f
            /\ TyTy.get_id f <> TyTy.get_id fntype.

Module MoreLoweringExamples.

Import TyTy.

(** An array of four [i32], indexed from 0 to 3 by the size type. *)
Definition array4_tree : tree := ARRAY_TYPE LoweringExamples.i32_tree size_type_node 0 3.
Definition array4_value : tree := VALUE array4_tree 42.

Definition unsize (expected : BaseType) : Adjustment.t :=
  Adjustment.mkAdjustment Adjustment.UNSIZE expected None 0 Adjustment.ERROR.

(** The types of [match (x, y) { ... }] with mapping 101 for the tuple, and
    of a match on a floating-point [x]. *)
Definition lookup_type_tuple (m : NodeMapping) : option BaseType :=
  match m with
  | 101 => Some (BaseTy TUPLE "(i32, i32)")
  | _ => Some LoweringExamples.i32
  end.

Definition lookup_type_float (m : NodeMapping) : option BaseType :=
  match m with
  | 1 => Some (BaseTy FLOAT "f32")
  | _ => Some LoweringExamples.i32
  end.

(** Operators numbered by [nat]; the backend builds a call of the
    operator. *)
Definition operators : Operators :=
  {| ArithmeticOrLogicalOperator := nat;
     NegationOperator := nat;
     ItemType := nat;
     OperatorToLangItem := fun op => op;
     CompoundAssignmentOperatorToLangItem := fun op => 100 + op;
     NegationOperatorToLangItem := fun op => 200 + op;
     INDEX := 7;
     RustLangItem_ToString := fun _ => "item"%string;
     arithmetic_or_logical_expression :=
       fun op lhs rhs _ =>
         CALL_EXPR (VALUE (FUNCTION_TYPE LoweringExamples.i32_tree) op) [lhs; rhs];
     negation_expression :=
       fun op e _ =>
         CALL_EXPR (VALUE (FUNCTION_TYPE LoweringExamples.i32_tree) op) [e];
     array_index_expression :=
       fun array index _ => ARRAY_REF (TREE_TYPE (TREE_TYPE array)) array index |}.

Definition point : BaseType := ADTType "Point" false 1.
Definition option_i32 : BaseType := ADTType "Option" true 2.
Definition array_of_i32 : BaseType := BaseTy ARRAY "[i32; 4]".
Definition dyn_object : BaseType := DynamicObjectType LoweringExamples.dyn_items.

Definition some_variant : VariantDef :=
  mkVariantDef 1 (LiteralExpr 500 1) [LoweringExamples.i32; LoweringExamples.i32].

Definition first_decl : tree :=
  FUNCTION_DECL (FUNCTION_TYPE LoweringExamples.i32_tree) 11.

(** Mapping 70 is a reference to an array, 71 the function [first], 72 an
    enumeration, 73 a structure, 74 the variadic function [second]; the
    operator at mapping 80 is overloaded by [first], which is compiled
    already, and its receiver is borrowed and then fails to adjust; the
    receiver of the method call at mapping 90 is a reference to a dynamic
    object; the name at mapping 99 is not resolved; the name at mapping 30
    is the item 55, which is not compiled yet. *)
Definition tables : Tables :=
  {| lookup_type :=
       fun m =>
         match m with
         | 70 => Some (ReferenceType array_of_i32)
         | 71 => Some (FnDefType LoweringExamples.f1)
         | 72 => Some option_i32
         | 73 => Some point
         | 74 => Some (FnDefType LoweringExamples.f2)
         | 91 => Some (FnDefType LoweringExamples.f2)
         | _ => Some LoweringExamples.i32
         end;
     lookup_operator_overload :=
       fun m => match m with 80 => Some LoweringExamples.f1 | _ => None end;
     lookup_receiver :=
       fun m =>
         match m with
         | 90 => Some (ReferenceType dyn_object)
         | _ => Some LoweringExamples.i32
         end;
     lookup_autoderef_mappings :=
       fun m =>
         match m with
         | 80 => Some [LoweringExamples.borrow (ReferenceType LoweringExamples.i32);
                       LoweringExamples.error_adjustment]
         | _ => Some []
         end;
     lookup_variant_definition := fun _ => Some 1;
     lookup_trait_reference := fun _ => None;
     trait_reference_lookup_hir_trait_item := fun _ _ => None;
     lookup_resolved_name :=
       fun m => match m with 99 => None | _ => Some (1000 + m) end;
     lookup_resolved_type := fun _ => None;
     lookup_definition := fun n => Some n;
     UNKNOWN_NODEID := 0;
     lookup_node_to_hir := fun _ n => Some n;
     lookup_hir_implitem := fun _ _ => None;
     lookup_hir_trait_item := fun _ _ => None;
     lookup_trait_item_mapping := fun _ => None;
     lookup_hir_item :=
       fun _ n => match n with 1030 => Some 55 | _ => None end;
     lookup_location := fun _ => 0;
     lookup_const_decl :=
       fun n =>
         match n with
         | 1021 => Some (INTEGER_CST LoweringExamples.i32_tree 5)
         | _ => None
         end;
     lookup_function_decl :=
       fun n =>
         match n with
         | 11 => Some first_decl
         | 1021 => Some first_decl
         | 1022 => Some first_decl
         | _ => None
         end;
     lookup_var_decl := fun _ => None;
     lookup_pattern_binding := fun _ => None |}.

Definition type_methods : TypeMethods :=
  {| get_ty_ref := get_id;
     get_root :=
       fun t => match t with ReferenceType base => base | _ => t end;
     ParamType_resolve := fun t => t;
     is_unit := LoweringExamples.is_unit;
     type_has_subsititions_defined := fun _ => false;
     needs_generic_substitutions := fun _ => false;
     infer_substitions := fun f _ => FnDefType f;
     unify := fun a _ => a;
     is_varadic := fun f => Nat.eqb (get_id f) 12;
     num_params := fun _ => 1;
     param_at := fun _ _ => Some LoweringExamples.i32;
     fnptr_num_params := fun _ => 0;
     fnptr_param_at := fun _ _ => None;
     get_variants := fun _ => [some_variant];
     lookup_variant_by_id := fun _ _ => Some (some_variant, 1%Z);
     PathProbeType_Probe :=
       fun _ segment =>
         if String.eqb segment "twice"
         then [mkPathProbeCandidate true (FnDefType LoweringExamples.f1) 1;
               mkPathProbeCandidate true (FnDefType LoweringExamples.f2) 2]
         else if String.eqb segment "once"
         then [mkPathProbeCandidate true (FnDefType LoweringExamples.f1) 1]
         else [] |}.

(** The tables of above in which every method that is not an item of an
    implementation is the item 7 of the trait 3, whose reference 4 knows
    every item, each with a default body. *)
Definition trait_tables : Tables :=
  {| lookup_type := @lookup_type tables;
     lookup_operator_overload := @lookup_operator_overload tables;
     lookup_receiver := @lookup_receiver tables;
     lookup_autoderef_mappings := @lookup_autoderef_mappings tables;
     lookup_variant_definition := @lookup_variant_definition tables;
     lookup_trait_reference := fun _ => Some 4;
     trait_reference_lookup_hir_trait_item :=
       fun _ item => Some (mkResolverTraitItemReference true item);
     lookup_resolved_name := @lookup_resolved_name tables;
     lookup_resolved_type := @lookup_resolved_type tables;
     lookup_definition := @lookup_definition tables;
     UNKNOWN_NODEID := @UNKNOWN_NODEID tables;
     lookup_node_to_hir := @lookup_node_to_hir tables;
     lookup_hir_implitem := @lookup_hir_implitem tables;
     lookup_hir_trait_item := fun _ _ => Some 7;
     lookup_trait_item_mapping := fun _ => Some 3;
     lookup_hir_item := @lookup_hir_item tables;
     lookup_location := @lookup_location tables;
     lookup_const_decl := @lookup_const_decl tables;
     lookup_function_decl := @lookup_function_decl tables;
     lookup_var_decl := @lookup_var_decl tables;
     lookup_pattern_binding := @lookup_pattern_binding tables |}.

Definition compile_type_mode (t : BaseType) (trait_object_mode : bool) : tree :=
  match t with
  | BaseTy ARRAY _ => array4_tree
  | ReferenceType (BaseTy ARRAY _) => POINTER_TYPE array4_tree
  | ADTType _ _ _ => RECORD_TYPE false [LoweringExamples.i32_tree;
                                        LoweringExamples.i32_tree]
  | _ => LoweringExamples.compile_type t
  end.

Definition compile_type (t : BaseType) : tree := compile_type_mode t false.

(** Coercion wraps the value in a call of the conversion 77. *)
Definition coerce (rvalue : tree) (actual expected : BaseType)
                  (lvalue_locus rvalue_locus : Location) : Emitter tree :=
  fun uid =>
    Ok (CALL_EXPR (VALUE (FUNCTION_TYPE LoweringExamples.i32_tree) 77) [rvalue],
        [], [], uid).

(** The compilers of items return the declaration of the item and append
    nothing; the compiler of an item on demand also declares a variable and
    reports an error. *)
Definition compilers : Compilers :=
  {| TyTyResolveCompile_compile := compile_type_mode;
     CompileExpr_Compile := LoweringExamples.compile_expr;
     CompileInherentImplItem_Compile_default :=
       fun item _ uid =>
         Ok (FUNCTION_DECL (FUNCTION_TYPE LoweringExamples.i32_tree) item,
             [], [], uid);
     CompileInherentImplItem_Compile := LoweringExamples.compile_impl_item;
     CompileTraitItem_Compile :=
       fun item _ _ _ uid =>
         Ok (FUNCTION_DECL (FUNCTION_TYPE LoweringExamples.i32_tree) item,
             [], [], uid);
     CompileItem_compile :=
       fun item _ _ locus uid =>
         Ok (FUNCTION_DECL (FUNCTION_TYPE LoweringExamples.i32_tree) item,
             [DECL_EXPR (VAR_DECL LoweringExamples.i32_tree uid)],
             [error_at locus "unused variable"], S uid);
     coercion_site := coerce;
     fold_expr := fun t => t |}.

End MoreLoweringExamples.

(** * Properties of the tuple-match decomposition *)

Section OrganizeFacts.

Variable new_addr : nat -> addr.

Lemma organize_case_entry (m : PatternMap) (n : nat) (c : MatchCase) :
  organize_case new_addr (m, n) c =
  match case_entry c with
  | Ok None => Ok (m, n)
  | Ok (Some (first, new_case)) =>
      if map_find (new_addr n) m
      then Ok (map_push_back (new_addr n) new_case m, S n)
      else Ok (map_insert (new_addr n, first) [new_case] m, S n)
  | Abort => Abort
  | OutOfFuel => OutOfFuel
  end.
Proof.
  unfold organize_case, case_entry.
  destruct (get_patterns (get_arm c)) as [|pat pats]; [reflexivity|].
  destruct pat as [| | | |pm items loc]; try reflexivity.
  destruct items as [ps|lo up]; [|reflexivity].
  destruct ps as [|first patterns]; reflexivity.
Qed.

Lemma keys_before_nil (n : nat) : keys_before new_addr n [].
Proof. intros a []. Qed.

Lemma map_insert_keys (k : PatternPtr) (v : list MatchCase) (m : PatternMap) (a : addr) :
  In a (map_keys (map_insert k v m)) <-> a = fst k \/ In a (map_keys m).
Proof.
  induction m as [|[[b p] w] m IH]; simpl.
  - intuition.
  - destruct (Nat.ltb (fst k) b); simpl; [intuition|].
    rewrite IH. intuition.
Qed.

Lemma map_insert_contents (k : PatternPtr) (v : list MatchCase) (m : PatternMap) :
  Permutation (contents (map_insert k v m)) (contents m ++ [(snd k, v)]).
Proof.
  induction m as [|[[b p] w] m IH]; simpl.
  - apply Permutation_refl.
  - destruct (Nat.ltb (fst k) b); simpl.
    + change ((p, w) :: contents m ++ [(snd k, v)])
        with (((p, w) :: contents m) ++ [(snd k, v)]).
      apply Permutation_cons_append.
    + apply perm_skip, IH.
Qed.

Hypothesis new_addr_injective : injective new_addr.

Lemma fresh_key_not_found (n : nat) (m : PatternMap) :
  keys_before new_addr n m -> map_find (new_addr n) m = false.
Proof.
  intros Hk. induction m as [|[[b p] w] m IH]; simpl; [reflexivity|].
  destruct (Nat.eqb b (new_addr n)) eqn:E.
  - apply Nat.eqb_eq in E.
    destruct (Hk b) as [i [Hi Hb]]; [left; reflexivity|].
    rewrite Hb in E. apply new_addr_injective in E. lia.
  - apply IH. intros a Ha. apply Hk. right. exact Ha.
Qed.

(** The loop of [organize_tuple_patterns]: every case that is not dropped
    gets a key of its own. *)
Lemma organize_loop_contents (cases : list MatchCase) :
  forall (m : PatternMap) (n : nat),
    keys_before new_addr n m ->
    match organize_loop new_addr cases (m, n) with
    | Ok (m', n') =>
        keys_before new_addr n' m'
        /\ Permutation (contents m') (contents m ++ flat_map kept_entry cases)
        /\ Forall (fun c => case_entry c <> Abort) cases
    | Abort => Exists (fun c => case_entry c = Abort) cases
    | OutOfFuel => False
    end.
Proof.
  induction cases as [|c cases IH]; intros m n Hk; cbn [organize_loop flat_map].
  - rewrite app_nil_r. auto.
  - rewrite organize_case_entry. unfold kept_entry at 1.
    destruct (case_entry c) as [[[first new_case]|]| |] eqn:E; simpl.
    + rewrite (fresh_key_not_found Hk). cbn [obind].
      set (m1 := map_insert (new_addr n, first) [new_case] m).
      assert (Hk1 : keys_before new_addr (S n) m1).
      { intros a Ha. apply map_insert_keys in Ha. destruct Ha as [Ha|Ha].
        - exists n. split; [lia|exact Ha].
        - destruct (Hk a Ha) as [i [Hi Hai]]. exists i. split; [lia|exact Hai]. }
      specialize (IH m1 (S n) Hk1).
      destruct (organize_loop new_addr cases (m1, S n)) as [[m' n']| |];
        cbn [obind].
      * destruct IH as [Hk' [Hp Hf]]. split; [exact Hk'|]. split.
        -- eapply Permutation_trans; [exact Hp|].
           change ((first, [new_case]) :: flat_map kept_entry cases)
             with ([(first, [new_case])] ++ flat_map kept_entry cases).
           rewrite app_assoc. apply Permutation_app_tail.
           apply (map_insert_contents (new_addr n, first) [new_case] m).
        -- constructor; [congruence|exact Hf].
      * apply Exists_cons_tl. exact IH.
      * exact IH.
    + cbn [obind]. specialize (IH m n Hk).
      destruct (organize_loop new_addr cases (m, n)) as [[m' n']| |];
        cbn [obind].
      * destruct IH as [Hk' [Hp Hf]]. split; [exact Hk'|]. split; [exact Hp|].
        constructor; [congruence|exact Hf].
      * apply Exists_cons_tl. exact IH.
      * exact IH.
    + apply Exists_cons_hd. exact E.
    + unfold case_entry in E.
      destruct (get_patterns (get_arm c)) as [|[| | | |pm [[|f ps]|lo up] loc] pats];
        discriminate E.
Qed.

(** No key of the map ever holds more than one case. *)
Lemma organize_loop_singletons (cases : list MatchCase) (m m' : PatternMap) (n n' : nat) :
  keys_before new_addr n m ->
  Forall (fun e => length (snd e) = 1) (contents m) ->
  organize_loop new_addr cases (m, n) = Ok (m', n') ->
  Forall (fun e => length (snd e) = 1) (contents m').
Proof.
  intros Hk Hm Hrun.
  pose proof (organize_loop_contents cases Hk) as H. rewrite Hrun in H.
  destruct H as [_ [Hp _]].
  eapply Permutation_Forall; [apply Permutation_sym; exact Hp|].
  apply Forall_app. split; [exact Hm|].
  apply Forall_forall. intros e He. apply in_flat_map in He.
  destruct He as [c [_ He]]. unfold kept_entry in He.
  destruct (case_entry c) as [[[f nc]|]| |]; simpl in He; try contradiction.
  destruct He as [<-|[]]. reflexivity.
Qed.

End OrganizeFacts.

Section SimplifyFacts.

Variable new_addr : nat -> addr.

Lemma case_entry_fuel (c : MatchCase) : case_entry c <> OutOfFuel.
Proof.
  unfold case_entry.
  destruct (get_patterns (get_arm c)) as [|[| | | |pm [[|f ps]|lo up] loc] pats];
    discriminate.
Qed.

Lemma organize_loop_fuel (cases : list MatchCase) :
  forall st, organize_loop new_addr cases st <> OutOfFuel.
Proof.
  induction cases as [|c cases IH]; intros [m n]; cbn [organize_loop].
  - discriminate.
  - rewrite organize_case_entry.
    pose proof (case_entry_fuel c) as Hc.
    destruct (case_entry c) as [[[first new_case]|]| |];
      try discriminate; try contradiction; cbn [obind]; [|apply IH].
    destruct (map_find (new_addr n) m); cbn [obind]; apply IH.
Qed.

Lemma organize_tuple_patterns_fuel (expr : MatchExpr) (n : nat) :
  organize_tuple_patterns new_addr expr n <> OutOfFuel.
Proof.
  unfold organize_tuple_patterns, rust_assert.
  destruct (is_tuple_expr (get_scrutinee_expr expr)); cbn [obind];
    [apply organize_loop_fuel|discriminate].
Qed.

Lemma outer_cases_fuel (simplify : MatchExpr -> nat -> outcome (MatchExpr * nat))
      (expr : MatchExpr) (remaining : Expr) :
  (forall m n, get_scrutinee_expr m = remaining -> simplify m n <> OutOfFuel) ->
  forall entries n, outer_cases simplify expr remaining entries n <> OutOfFuel.
Proof.
  intros Hs entries. induction entries as [|[[a first] second] entries IH];
    intros n; cbn [outer_cases].
  - discriminate.
  - match goal with |- obind (simplify ?m n) _ <> _ =>
      pose proof (Hs m n eq_refl) as Hm; destruct (simplify m n) as [[m' n']| |]
    end; cbn [obind]; try discriminate; try contradiction.
    specialize (IH n').
    destruct (outer_cases simplify expr remaining entries n') as [[cs n'']| |];
      cbn [obind]; try discriminate; contradiction.
Qed.

Lemma expr_size_tuple (mappings : NodeMapping) (elems : list Expr) (locus : Location) :
  expr_size (TupleExpr mappings elems locus) = S (list_sum (map expr_size elems)).
Proof.
  simpl. f_equal.
  induction elems as [|e elems IH]; simpl; [reflexivity|].
  f_equal. exact IH.
Qed.

Lemma expr_size_pos (e : Expr) : 1 <= expr_size e.
Proof. destruct e; cbn [expr_size]; lia. Qed.

Lemma expr_size_remaining (mappings : NodeMapping) (head : Expr) (tail : list Expr)
      (locus : Location) :
  expr_size (remaining_of mappings tail locus)
  < expr_size (TupleExpr mappings (head :: tail) locus).
Proof.
  pose proof (expr_size_pos head).
  unfold remaining_of. destruct tail as [|e [|e' tail]];
    rewrite !expr_size_tuple; unfold list_sum; cbn [map fold_right]; lia.
Qed.

Lemma simplify_tuple_match_fuel :
  forall fuel expr n,
    expr_size (get_scrutinee_expr expr) <= fuel ->
    simplify_tuple_match new_addr fuel expr n <> OutOfFuel.
Proof.
  induction fuel as [|fuel IH]; intros expr n Hsize.
  - pose proof (expr_size_pos (get_scrutinee_expr expr)). lia.
  - cbn [simplify_tuple_match].
    destruct (get_scrutinee_expr expr) as [lm lit|id|rm elems rl|mm s cs ml] eqn:Es;
      try discriminate.
    unfold rust_assert. destruct (Nat.ltb 1 (length elems)); cbn [obind];
      [|discriminate].
    destruct elems as [|head tail]; [discriminate|].
    pose proof (organize_tuple_patterns_fuel expr n) as Ho.
    destruct (organize_tuple_patterns new_addr expr n) as [[map n1]| |];
      cbn [obind]; try discriminate; try contradiction.
    match goal with |- obind (outer_cases ?s ?e ?r ?m ?k) _ <> _ =>
      assert (Hc : outer_cases s e r m k <> OutOfFuel)
    end.
    { apply outer_cases_fuel. intros m k Hm. apply IH. rewrite Hm.
      pose proof (expr_size_remaining rm head tail rl). lia. }
    match goal with |- obind ?o _ <> _ => destruct o as [[cs n2]| |] end;
      cbn [obind]; try discriminate; contradiction.
Qed.

Lemma simplify_tuple_match_locus (fuel : nat) (expr m : MatchExpr) (n k : nat) :
  simplify_tuple_match new_addr fuel expr n = Ok (m, k) ->
  get_locus m = get_locus expr /\ get_mappings m = get_mappings expr.
Proof.
  destruct fuel as [|fuel]; cbn [simplify_tuple_match];
    destruct (get_scrutinee_expr expr) as [lm lit|id|rm elems rl|mm s cs ml];
    intros E; try discriminate E;
    try (inversion E; subst; split; reflexivity).
  destruct (rust_assert (Nat.ltb 1 (length elems))); cbn [obind] in E;
    try discriminate E.
  destruct elems as [|head tail]; [discriminate E|].
  destruct (organize_tuple_patterns new_addr expr n) as [[map n1]| |];
    cbn [obind] in E; try discriminate E.
  match type of E with
  | obind ?o _ = _ => destruct o as [[cases n2]| |]
  end; cbn [obind] in E; try discriminate E.
  inversion E; subst. split; reflexivity.
Qed.

End SimplifyFacts.

(** ** C1: keys of the grouping map *)

(** C1 (the code at the failing input).  No key of the map returned by
    [organize_tuple_patterns] ever holds more than one case: the keys are
    compared by the address of the freshly cloned pattern, which is never
    found in the map.  On [match (x, y) { (1, 2) => 10, (1, 3) => 20 }] the
    two cases have structurally equal first elements, yet the map has two
    keys, each the pattern [1] and each holding one case. *)
Theorem organize_tuple_patterns_separates_equal_firsts :
  forall new_addr : nat -> addr,
    injective new_addr ->
    (forall (expr : MatchExpr) (n n' : nat) (m : PatternMap),
        organize_tuple_patterns new_addr expr n = Ok (m, n') ->
        Forall (fun e => length (snd e) = 1) (contents m))
    /\ (forall n : nat,
         exists m : PatternMap,
           organize_tuple_patterns new_addr Examples.shared_first n
           = Ok (m, S (S n))
           /\ Permutation (contents m)
                [ (LiteralPattern 1,
                   [mkMatchCase 1
                      (mkMatchArm [LiteralPattern 2] UNKNOWN_LOCATION None)
                      (LiteralExpr 201 10)]);
                  (LiteralPattern 1,
                   [mkMatchCase 2
                      (mkMatchArm [LiteralPattern 3] UNKNOWN_LOCATION None)
                      (LiteralExpr 202 20)]) ]).
Proof.
  intros new_addr Hinj. split.
  - intros expr n n' m. unfold organize_tuple_patterns, rust_assert.
    destruct (is_tuple_expr (get_scrutinee_expr expr)); cbn [obind];
      [|discriminate].
    apply (organize_loop_singletons Hinj).
    + apply keys_before_nil.
    + constructor.
  - intros n.
    unfold organize_tuple_patterns, Examples.shared_first.
    cbn -[Nat.eqb Nat.ltb].
    destruct (Nat.eqb (new_addr n) (new_addr (S n))) eqn:E.
    + apply Nat.eqb_eq in E. apply Hinj in E. lia.
    + cbn -[Nat.ltb].
      destruct (Nat.ltb (new_addr (S n)) (new_addr n));
        eexists; (split; [reflexivity|]); cbn;
        [apply perm_swap|apply Permutation_refl].
Qed.

Lemma bump_up_injective : injective Examples.bump_up.
Proof. intros i j H. exact H. Qed.

Lemma swapped_injective : injective Examples.swapped.
Proof.
  intros i j. unfold Examples.swapped.
  destruct (Nat.even i) eqn:Ei, (Nat.even j) eqn:Ej; intros Hij.
  - lia.
  - apply Nat.even_spec in Ei. destruct Ei as [a ->].
    rewrite <- Nat.negb_odd in Ej. apply negb_false_iff, Nat.odd_spec in Ej.
    destruct Ej as [b ->]. lia.
  - apply Nat.even_spec in Ej. destruct Ej as [b ->].
    rewrite <- Nat.negb_odd in Ei. apply negb_false_iff, Nat.odd_spec in Ei.
    destruct Ei as [a ->]. lia.
  - rewrite <- Nat.negb_odd in Ei, Ej.
    apply negb_false_iff, Nat.odd_spec in Ei, Ej.
    destruct Ei as [a ->], Ej as [b ->]. lia.
Qed.

(** The map is iterated in the order of the addresses: with an allocator
    that hands out the second address below the first, the case inserted
    second comes first. *)
Example organize_tuple_patterns_address_order :
  exists m,
    organize_tuple_patterns Examples.swapped Examples.disjoint3 0 = Ok (m, 3)
    /\ map fst (contents m) = [LiteralPattern 2; LiteralPattern 1; LiteralPattern 3].
Proof. eexists. split; reflexivity. Qed.

Lemma organize_tuple_patterns_separates_equal_firsts_witness :
  exists m : PatternMap,
    organize_tuple_patterns Examples.bump_up Examples.shared_first 0 = Ok (m, 2)
    /\ Permutation (contents m)
         [ (LiteralPattern 1,
            [mkMatchCase 1 (mkMatchArm [LiteralPattern 2] UNKNOWN_LOCATION None)
                         (LiteralExpr 201 10)]);
           (LiteralPattern 1,
            [mkMatchCase 2 (mkMatchArm [LiteralPattern 3] UNKNOWN_LOCATION None)
                         (LiteralExpr 202 20)]) ].
Proof.
  destruct (organize_tuple_patterns_separates_equal_firsts bump_up_injective)
    as [_ H].
  exact (H 0).
Defined.

(** ** C5: wildcard arms and further alternatives *)

Section WildcardFacts.

Variable new_addr : nat -> addr.

Lemma organize_case_wildcard (st : PatternMap * nat) (c : MatchCase) :
  first_pattern_is_wildcard c = true -> organize_case new_addr st c = Ok st.
Proof.
  destruct st as [m n]. unfold first_pattern_is_wildcard, organize_case.
  destruct (get_patterns (get_arm c)) as [|[| | | |pm items loc] pats];
    intros H; try discriminate H. reflexivity.
Qed.

Lemma organize_loop_skips_wildcards (cases : list MatchCase) :
  forall st,
    organize_loop new_addr
      (filter (fun c => negb (first_pattern_is_wildcard c)) cases) st
    = organize_loop new_addr cases st.
Proof.
  induction cases as [|c cases IH]; intros st; cbn [filter organize_loop];
    [reflexivity|].
  destruct (first_pattern_is_wildcard c) eqn:E; cbn [negb organize_loop].
  - rewrite (organize_case_wildcard st c E). cbn [obind]. apply IH.
  - destruct (organize_case new_addr st c); cbn [obind]; auto.
Qed.

Lemma organize_case_only_first (st : PatternMap * nat) (c : MatchCase) :
  organize_case new_addr st (only_first_alternative c) = organize_case new_addr st c.
Proof.
  destruct st as [m n]. unfold organize_case, only_first_alternative; cbn.
  destruct (get_patterns (get_arm c)) as [|pat pats]; reflexivity.
Qed.

Lemma organize_loop_only_first (cases : list MatchCase) :
  forall st,
    organize_loop new_addr (map only_first_alternative cases) st
    = organize_loop new_addr cases st.
Proof.
  induction cases as [|c cases IH]; intros st; cbn [map organize_loop];
    [reflexivity|].
  rewrite organize_case_only_first.
  destruct (organize_case new_addr st c); cbn [obind]; auto.
Qed.

Lemma simplify_tuple_match_cases (fuel : nat) (expr : MatchExpr)
      (cases : list MatchCase) (n : nat) :
  is_tuple_expr (get_scrutinee_expr expr) = true ->
  organize_tuple_patterns new_addr (with_cases expr cases) n
  = organize_tuple_patterns new_addr expr n ->
  simplify_tuple_match new_addr fuel (with_cases expr cases) n
  = simplify_tuple_match new_addr fuel expr n.
Proof.
  intros Ht Ho. destruct fuel as [|fuel]; cbn [simplify_tuple_match];
    unfold with_cases at 1; cbn [get_scrutinee_expr];
    destruct (get_scrutinee_expr expr) as [lm lit|id|rm elems rl|mm s cs ml] eqn:Es;
    try discriminate Ht; [reflexivity|].
  destruct (rust_assert (Nat.ltb 1 (length elems))); cbn [obind]; try reflexivity.
  destruct elems as [|head tail]; [reflexivity|].
  rewrite Ho. reflexivity.
Qed.

End WildcardFacts.

(** C5.  Only the first alternative of an arm is looked at, and a case whose
    first pattern is a wildcard leaves the map as it was: the map, and for a
    tuple scrutinee the whole nested match, are those of the match without
    its wildcard cases. *)
Theorem wildcard_first_patterns_are_skipped :
  forall new_addr : nat -> addr,
    (forall st c,
        first_pattern_is_wildcard c = true ->
        organize_case new_addr st c = Ok st)
    /\ (forall expr n,
           organize_tuple_patterns new_addr
             (with_cases expr
                (filter (fun c => negb (first_pattern_is_wildcard c))
                        (get_match_cases expr))) n
           = organize_tuple_patterns new_addr expr n)
    /\ (forall fuel expr n,
           is_tuple_expr (get_scrutinee_expr expr) = true ->
           simplify_tuple_match new_addr fuel
             (with_cases expr
                (filter (fun c => negb (first_pattern_is_wildcard c))
                        (get_match_cases expr))) n
           = simplify_tuple_match new_addr fuel expr n)
    /\ (forall expr n,
           organize_tuple_patterns new_addr
             (with_cases expr (map only_first_alternative (get_match_cases expr))) n
           = organize_tuple_patterns new_addr expr n).
Proof.
  intros new_addr.
  assert (Hw : forall expr n,
             organize_tuple_patterns new_addr
               (with_cases expr
                  (filter (fun c => negb (first_pattern_is_wildcard c))
                          (get_match_cases expr))) n
             = organize_tuple_patterns new_addr expr n).
  { intros expr n. unfold organize_tuple_patterns, with_cases;
      cbn [get_scrutinee_expr get_match_cases].
    destruct (rust_assert (is_tuple_expr (get_scrutinee_expr expr)));
      cbn [obind]; try reflexivity.
    apply organize_loop_skips_wildcards. }
  split; [apply organize_case_wildcard|].
  split; [exact Hw|].
  split.
  - intros fuel expr n Ht. apply simplify_tuple_match_cases; [exact Ht|apply Hw].
  - intros expr n. unfold organize_tuple_patterns, with_cases;
      cbn [get_scrutinee_expr get_match_cases].
    destruct (rust_assert (is_tuple_expr (get_scrutinee_expr expr)));
      cbn [obind]; try reflexivity.
    apply organize_loop_only_first.
Qed.

Lemma wildcard_first_patterns_are_skipped_witness :
  organize_case Examples.bump_up ([], 0) (Examples.kase 3 WildcardPattern 30)
  = Ok ([], 0)
  /\ simplify_tuple_match Examples.bump_up 3
       (with_cases Examples.scenario1
          (filter (fun c => negb (first_pattern_is_wildcard c))
                  (get_match_cases Examples.scenario1))) 0
     = simplify_tuple_match Examples.bump_up 3 Examples.scenario1 0.
Proof.
  destruct (wildcard_first_patterns_are_skipped Examples.bump_up)
    as [H1 [_ [H3 _]]].
  split; [apply H1; reflexivity|apply H3; reflexivity].
Defined.

(** ** C6: termination of the decomposition *)

(** C6 (counterexample).  For [match (x, (y, z, x)) { (1, (2, 3, 4)) => 10 }]
    the scrutinee is a tuple of two elements and the scrutinee of the
    recursive invocation is the tuple [(y, z, x)] of three: its arity is not
    one less than the caller's. *)
Lemma recursive_scrutinee_arity_counterexample :
  exists mappings head tail locus,
    get_scrutinee_expr Examples.nested_last = TupleExpr mappings (head :: tail) locus
    /\ tuple_arity (get_scrutinee_expr Examples.nested_last) = Some 2
    /\ tuple_arity (remaining_of mappings tail locus) = Some 3
    /\ exists m n, simplify_tuple_match Examples.bump_up 6 Examples.nested_last 0
                   = Ok (m, n).
Proof.
  do 4 eexists. split; [reflexivity|]. split; [reflexivity|].
  split; [reflexivity|]. do 2 eexists. reflexivity.
Qed.

(** C6 (amended).  The decomposition terminates on every match: with fuel of
    at least the size of the scrutinee it never runs out of fuel.  A
    scrutinee that is not a tuple expression is the base case, returned as it
    is.  Otherwise the recursive invocations are on the inner matches over
    the tail of the scrutinee, which is strictly smaller: a tuple with one
    element less when two or more remain, the remaining element itself (of
    whatever shape) when one remains. *)
Theorem simplify_tuple_match_terminates :
  forall new_addr : nat -> addr,
    (forall fuel expr n,
        expr_size (get_scrutinee_expr expr) <= fuel ->
        simplify_tuple_match new_addr fuel expr n <> OutOfFuel)
    /\ (forall fuel expr n,
           is_tuple_expr (get_scrutinee_expr expr) = false ->
           simplify_tuple_match new_addr fuel expr n = Ok (expr, n))
    /\ (forall fuel expr n mappings head tail locus,
           get_scrutinee_expr expr = TupleExpr mappings (head :: tail) locus ->
           tail <> [] ->
           simplify_tuple_match new_addr (S fuel) expr n
           = obind (organize_tuple_patterns new_addr expr n) (fun '(map, n1) =>
             obind (outer_cases (simplify_tuple_match new_addr fuel) expr
                                (remaining_of mappings tail locus) map n1)
                   (fun '(cases, n2) =>
             Ok (mkMatchExpr (get_mappings expr) head cases (get_locus expr), n2))))
    /\ (forall mappings head tail locus,
           expr_size (remaining_of mappings tail locus)
           < expr_size (TupleExpr mappings (head :: tail) locus))
    /\ (forall mappings e locus, remaining_of mappings [e] locus = e)
    /\ (forall mappings tail locus,
           2 <= length tail ->
           tuple_arity (remaining_of mappings tail locus) = Some (length tail)).
Proof.
  intros new_addr.
  split; [apply simplify_tuple_match_fuel|].
  split.
  { intros fuel expr n Ht. destruct fuel; cbn [simplify_tuple_match];
      destruct (get_scrutinee_expr expr); try reflexivity; discriminate Ht. }
  split.
  { intros fuel expr n mappings head tail locus Es Ht.
    cbn [simplify_tuple_match]. rewrite Es.
    destruct tail as [|e tail]; [contradiction|]. reflexivity. }
  split; [apply expr_size_remaining|].
  split; [reflexivity|].
  intros mappings tail locus Hl.
  destruct tail as [|e [|e' tail]]; cbn in Hl; try lia. reflexivity.
Qed.

Lemma simplify_tuple_match_terminates_witness :
  simplify_tuple_match Examples.bump_up 6 Examples.nested_last 0 <> OutOfFuel
  /\ tuple_arity (remaining_of 101 [Examples.y; Examples.z] 0) = Some 2.
Proof.
  destruct (simplify_tuple_match_terminates Examples.bump_up)
    as [H1 [_ [_ [_ [_ H6]]]]].
  split.
  - apply H1. vm_compute. lia.
  - apply H6. simpl. lia.
Defined.

(** ** C2: what the nested match selects *)

Lemma reach_clone_expr (env : Env) (m : MatchExpr) :
  reach env (clone_expr m)
  = first_reach env (eval env (get_scrutinee_expr m)) (get_match_cases m).
Proof.
  unfold clone_expr. cbn [reach].
  induction (get_match_cases m) as [|c l IH]; cbn [first_reach]; [reflexivity|].
  destruct (arm_matches env (get_arm c) (eval env (get_scrutinee_expr m)));
    [reflexivity|exact IH].
Qed.

Lemma reference_reach_first_reach (env : Env) (m : MatchExpr) :
  reference_reach env m
  = first_reach env (eval env (get_scrutinee_expr m)) (get_match_cases m).
Proof.
  unfold reference_reach, reference_match.
  induction (get_match_cases m) as [|c l IH]; cbn [find first_reach]; [reflexivity|].
  destruct (arm_matches env (get_arm c) (eval env (get_scrutinee_expr m)));
    [reflexivity|exact IH].
Qed.

Lemma arm_matches_single (env : Env) (p : Pattern) (locus : Location) (v : value) :
  arm_matches env (mkMatchArm [p] locus None) v = matches p v.
Proof.
  unfold arm_matches. cbn. rewrite orb_false_r, andb_true_r. reflexivity.
Qed.

Lemma pick_cons (v : value) (b : branch) (l : list branch) :
  pick v (b :: l) = if matches (fst b) v then snd b else pick v l.
Proof. unfold pick. cbn [find]. destruct (matches (fst b) v); reflexivity. Qed.

Lemma pick_unique (v : value) (l : list branch) (b : branch) :
  ForallOrdPairs disjoint_patterns (map fst l) ->
  In b l -> matches (fst b) v = true -> pick v l = snd b.
Proof.
  induction l as [|a l IH]; intros Hd Hin Hm; [contradiction|].
  cbn [map] in Hd. inversion Hd as [|x xs Hax Hl]; subst.
  rewrite pick_cons. destruct (matches (fst a) v) eqn:Ea.
  - destruct Hin as [->|Hin]; [reflexivity|].
    exfalso. rewrite Forall_forall in Hax.
    apply (Hax (fst b) (in_map fst l b Hin) v Ea Hm).
  - destruct Hin as [->|Hin]; [congruence|]. apply IH; assumption.
Qed.

Lemma pick_none (v : value) (l : list branch) :
  (forall b, In b l -> matches (fst b) v = false) -> pick v l = None.
Proof.
  intros H. unfold pick.
  destruct (find (fun b => matches (fst b) v) l) as [b|] eqn:E; [|reflexivity].
  apply find_some in E. destruct E as [Hin Hm].
  rewrite (H b Hin) in Hm. discriminate.
Qed.

Lemma pick_permutation (v : value) (l l' : list branch) :
  Permutation l' l ->
  ForallOrdPairs disjoint_patterns (map fst l) ->
  pick v l' = pick v l.
Proof.
  intros Hp Hd.
  destruct (find (fun b => matches (fst b) v) l') as [b|] eqn:E.
  - unfold pick at 1. rewrite E. apply find_some in E. destruct E as [Hin Hm].
    symmetry. apply pick_unique; [exact Hd| |exact Hm].
    eapply Permutation_in; eassumption.
  - unfold pick at 1. rewrite E. symmetry. apply pick_none.
    intros b Hin. apply (find_none _ _ E).
    eapply Permutation_in; [apply Permutation_sym|]; eassumption.
Qed.

(** The shape of a plain case over a tuple scrutinee, and how its pattern
    splits into the first element and the rest. *)
Lemma plain_case_entry (rm : NodeMapping) (head : Expr) (tail : list Expr)
      (rl : Location) (c : MatchCase) :
  plain_case (TupleExpr rm (head :: tail) rl) c ->
  exists p1 rp,
    case_entry c
    = Ok (Some (p1, mkMatchCase (case_mappings c)
                      (mkMatchArm [rp] UNKNOWN_LOCATION None) (get_expr c)))
    /\ case_first c = p1
    /\ tail <> []
    /\ shaped (remaining_of rm tail rl) rp = true
    /\ forall env,
         arm_matches env (get_arm c) (eval env (TupleExpr rm (head :: tail) rl))
         = matches p1 (eval env head)
           && matches rp (eval env (remaining_of rm tail rl)).
Proof.
  intros [p [Hp [Hg Hs]]].
  destruct p as [| | | |pm [ps|lo up] loc]; cbn in Hs; try discriminate Hs.
  destruct tail as [|e2 [|e3 tail]]; [discriminate Hs| |].
  - destruct ps as [|p1 [|p2 [|p3 ps]]]; try discriminate Hs.
    exists p1, p2. unfold case_entry, case_first. rewrite Hp.
    split; [reflexivity|]. split; [reflexivity|]. split; [discriminate|].
    split; [exact Hs|]. intros env.
    unfold arm_matches. rewrite Hp, Hg. cbn.
    rewrite orb_false_r, !andb_true_r. reflexivity.
  - destruct ps as [|p1 [|p2 [|p3 ps]]]; try discriminate Hs.
    exists p1, (TuplePattern pm (TuplePatternItemsMultiple (p2 :: p3 :: ps)) loc).
    unfold case_entry, case_first. rewrite Hp.
    split; [reflexivity|]. split; [reflexivity|]. split; [discriminate|].
    split; [exact Hs|]. intros env.
    unfold arm_matches. rewrite Hp, Hg. cbn.
    rewrite orb_false_r, !andb_true_r. reflexivity.
Qed.

Section NestedMatch.

Variable new_addr : nat -> addr.

Lemma organize_single_case (mp : NodeMapping) (rm : NodeMapping) (elems : list Expr)
      (rl lc : Location) (c : MatchCase) (p1 : Pattern) (nc : MatchCase) (n : nat) :
  case_entry c = Ok (Some (p1, nc)) ->
  organize_tuple_patterns new_addr
    (mkMatchExpr mp (TupleExpr rm elems rl) [c] lc) n
  = Ok ([((new_addr n, p1), [nc])], S n).
Proof.
  intros E. unfold organize_tuple_patterns.
  cbn [get_scrutinee_expr get_match_cases is_tuple_expr rust_assert obind
       organize_loop].
  rewrite organize_case_entry, E. reflexivity.
Qed.

(** An inner match with a single plain case: its simplified form reaches the
    body of the case exactly when the pattern matches. *)
Lemma simplify_single_case :
  forall fuel remaining,
    expr_size remaining <= fuel ->
    forall c mp lc n,
      plain_case remaining c ->
      exists m' n',
        simplify_tuple_match new_addr fuel (mkMatchExpr mp remaining [c] lc) n
        = Ok (m', n')
        /\ forall env,
             reach env (clone_expr m')
             = first_reach env (eval env remaining) [c].
Proof.
  induction fuel as [|fuel IH]; intros remaining Hsize c mp lc n Hplain.
  - pose proof (expr_size_pos remaining). lia.
  - destruct remaining as [lm lit|id|rm elems rl|mm s cs ml];
      try (eexists; eexists; split; [reflexivity|];
           intros env; apply reach_clone_expr).
    destruct elems as [|head tail].
    { destruct Hplain as [p [_ [_ Hs]]].
      destruct p as [| | | |pm [ps|lo up] loc]; discriminate Hs. }
    destruct (plain_case_entry Hplain) as [p1 [rp [He [_ [Ht [Hs Hm]]]]]].
    cbn [simplify_tuple_match get_scrutinee_expr].
    assert (Hlen : Nat.ltb 1 (length (head :: tail)) = true).
    { destruct tail; [contradiction|reflexivity]. }
    rewrite Hlen. cbn [rust_assert obind].
    rewrite (organize_single_case mp rm (head :: tail) rl lc c n He).
    cbn [obind outer_cases get_mappings get_locus].
    set (nc := mkMatchCase (case_mappings c)
                 (mkMatchArm [rp] UNKNOWN_LOCATION None) (get_expr c)).
    assert (Hnc : plain_case (remaining_of rm tail rl) nc).
    { exists rp. repeat split. exact Hs. }
    assert (Hrem : expr_size (remaining_of rm tail rl) <= fuel).
    { pose proof (expr_size_remaining rm head tail rl). lia. }
    destruct (IH _ Hrem nc mp lc (S n) Hnc) as [inner [n' [Hrun Hreach]]].
    rewrite Hrun. cbn [obind].
    eexists; eexists; split; [reflexivity|].
    intros env. rewrite reach_clone_expr.
    cbn [get_scrutinee_expr get_match_cases first_reach get_arm get_expr].
    rewrite arm_matches_single, Hreach, Hm.
    cbn [first_reach]. unfold nc at 1. cbn [get_arm].
    rewrite arm_matches_single.
    destruct (matches p1 (eval env head)); cbn [andb]; [|reflexivity].
    destruct (matches rp (eval env (remaining_of rm tail rl))); reflexivity.
Qed.

(** The outer cases built from a map each of whose entries stems from a
    plain case. *)
Lemma outer_cases_plain (fuel : nat) (expr : MatchExpr) (head remaining : Expr) :
  expr_size remaining <= fuel ->
  forall entries n,
    Forall (fun e => exists nc, plain_case remaining nc /\ snd e = [nc]) entries ->
    exists cases n',
      outer_cases (simplify_tuple_match new_addr fuel) expr remaining entries n
      = Ok (cases, n')
      /\ forall env,
           first_reach env (eval env head) cases
           = pick (eval env head)
                  (map (entry_branch env remaining) (contents entries)).
Proof.
  intros Hsize entries.
  induction entries as [|[[a first] second] entries IH]; intros n Hall.
  - exists [], n. split; [reflexivity|]. intros env. reflexivity.
  - inversion Hall as [|e es He Hes]; subst.
    destruct He as [nc [Hplain Hsnd]]. cbn [snd] in Hsnd. subst second.
    cbn [outer_cases].
    destruct (simplify_single_case Hsize (get_mappings expr) (get_locus expr) n Hplain)
      as [inner [n1 [Hrun Hreach]]].
    rewrite Hrun. cbn [obind].
    destruct (IH n1 Hes) as [cases [n2 [Hrest Hpick]]].
    rewrite Hrest. cbn [obind].
    eexists; eexists; split; [reflexivity|].
    intros env. cbn [first_reach get_arm get_expr contents map].
    rewrite arm_matches_single, pick_cons.
    unfold entry_branch at 1. cbn [fst snd].
    rewrite Hreach. fold (contents entries). rewrite <- Hpick. reflexivity.
Qed.

End NestedMatch.

Lemma kept_entries_plain (rm : NodeMapping) (head : Expr) (tail : list Expr)
      (rl : Location) (cases : list MatchCase) :
  Forall (plain_case (TupleExpr rm (head :: tail) rl)) cases ->
  Forall (fun e => exists nc,
              plain_case (remaining_of rm tail rl) nc /\ snd e = [nc])
         (flat_map kept_entry cases)
  /\ map fst (flat_map kept_entry cases) = map case_first cases
  /\ Forall (fun c => case_entry c <> Abort) cases.
Proof.
  induction 1 as [|c cases Hc Hcs [IH1 [IH2 IH3]]]; cbn [flat_map map].
  - repeat split; constructor.
  - destruct (plain_case_entry Hc) as [p1 [rp [He [Hf [_ [Hs _]]]]]].
    unfold kept_entry at 1 3. rewrite He. cbn [app map fst].
    split; [|split].
    + constructor; [|exact IH1]. eexists. split; [|reflexivity].
      exists rp. repeat split. exact Hs.
    + rewrite Hf, IH2. reflexivity.
    + constructor; [congruence|exact IH3].
Qed.

Lemma first_reach_no_first (env : Env) (rm : NodeMapping) (head : Expr)
      (tail : list Expr) (rl : Location) (cases : list MatchCase) :
  Forall (plain_case (TupleExpr rm (head :: tail) rl)) cases ->
  Forall (fun p => matches p (eval env head) = false) (map case_first cases) ->
  first_reach env (eval env (TupleExpr rm (head :: tail) rl)) cases = None.
Proof.
  induction 1 as [|c cases Hc Hcs IH]; intros Hno; [reflexivity|].
  cbn [map] in Hno. inversion Hno as [|x xs Hx Hxs]; subst.
  destruct (plain_case_entry Hc) as [p1 [rp [_ [Hf [_ [_ Hm]]]]]].
  cbn [first_reach]. rewrite Hm. rewrite Hf in Hx. rewrite Hx. cbn [andb].
  apply IH. exact Hxs.
Qed.

Lemma reference_pick (env : Env) (rm : NodeMapping) (head : Expr)
      (tail : list Expr) (rl : Location) (cases : list MatchCase) :
  Forall (plain_case (TupleExpr rm (head :: tail) rl)) cases ->
  ForallOrdPairs disjoint_patterns (map case_first cases) ->
  first_reach env (eval env (TupleExpr rm (head :: tail) rl)) cases
  = pick (eval env head)
         (map (entry_branch env (remaining_of rm tail rl))
              (flat_map kept_entry cases)).
Proof.
  induction 1 as [|c cases Hc Hcs IH]; intros Hd; [reflexivity|].
  cbn [map] in Hd. inversion Hd as [|x xs Hx Hxs]; subst.
  destruct (plain_case_entry Hc) as [p1 [rp [He [Hf [_ [_ Hm]]]]]].
  cbn [first_reach flat_map]. unfold kept_entry at 1. rewrite He.
  cbn [app map]. rewrite pick_cons. unfold entry_branch at 1 2. cbn [fst snd].
  rewrite Hm. cbn [first_reach get_arm get_expr]. rewrite arm_matches_single.
  destruct (matches p1 (eval env head)) eqn:E1; cbn [andb].
  - destruct (matches rp (eval env (remaining_of rm tail rl))); [reflexivity|].
    apply first_reach_no_first; [exact Hcs|].
    rewrite Hf in Hx. eapply Forall_impl; [|exact Hx].
    intros q Hq. destruct (matches q (eval env head)) eqn:Eq; [|reflexivity].
    exfalso. exact (Hq _ E1 Eq).
  - apply IH. exact Hxs.
Qed.

(** C2 (counterexample).  On
    [match (x, y) { (1, 2) => 10, (1, 3) => 20, _ => 30 }] with [x = 5] and
    [y = 5] the reference matcher selects the third case, and the nested
    match, which has lost the wildcard case, selects none. *)
Lemma nested_match_loses_wildcard_case :
  exists m' n',
    simplify_tuple_match Examples.bump_up 3 Examples.scenario1 0 = Ok (m', n')
    /\ reach (Examples.env_of 5 5 0) (clone_expr m') = None
    /\ reference_reach (Examples.env_of 5 5 0) Examples.scenario1
       = Some (LiteralExpr 203 30).
Proof.
  eexists. eexists. split; [reflexivity|]. split; reflexivity.
Qed.

(** C2 (amended).  For a match on a tuple expression of at least two
    elements, all of whose cases are plain (one alternative, a tuple pattern
    that follows the shape of the scrutinee, no guard) and whose first
    elements are pairwise disjoint, [simplify_tuple_match] returns a nested
    match, and on every value of the scrutinee the nested match reaches the
    body of the case that the reference matcher selects. *)
Theorem nested_match_selects_reference_case :
  forall new_addr : nat -> addr,
    injective new_addr ->
    forall (expr : MatchExpr) rm head tail rl,
      get_scrutinee_expr expr = TupleExpr rm (head :: tail) rl ->
      tail <> [] ->
      Forall (plain_case (get_scrutinee_expr expr)) (get_match_cases expr) ->
      ForallOrdPairs disjoint_patterns (map case_first (get_match_cases expr)) ->
      forall fuel n,
        expr_size (get_scrutinee_expr expr) <= fuel ->
        exists m' n',
          simplify_tuple_match new_addr fuel expr n = Ok (m', n')
          /\ forall env, reach env (clone_expr m') = reference_reach env expr.
Proof.
  intros new_addr Hinj expr rm head tail rl Es Ht Hplain Hdis fuel n Hsize.
  rewrite Es in Hplain.
  destruct (kept_entries_plain Hplain) as [Hkept [Hfirsts Hok]].
  destruct fuel as [|fuel].
  { pose proof (expr_size_pos (get_scrutinee_expr expr)). lia. }
  cbn [simplify_tuple_match]. rewrite Es.
  assert (Hlen : Nat.ltb 1 (length (head :: tail)) = true).
  { destruct tail; [contradiction|reflexivity]. }
  rewrite Hlen. cbn [rust_assert obind].
  unfold organize_tuple_patterns. rewrite Es. cbn [is_tuple_expr rust_assert obind].
  pose proof (organize_loop_contents Hinj (get_match_cases expr)
                (keys_before_nil new_addr n)) as Horg.
  match type of Horg with
  | match ?o with _ => _ end =>
      match goal with
      | |- context [obind ?o' _] => change o' with o
      end;
      destruct o as [[m1 n1]| |]; [| |exfalso; exact Horg]
  end.
  2:{ exfalso. apply Exists_exists in Horg. destruct Horg as [c [Hin Hc]].
      rewrite Forall_forall in Hok. exact (Hok c Hin Hc). }
  destruct Horg as [_ [Hperm _]]. cbn [contents map app] in Hperm.
  cbn [obind].
  assert (Hrem : expr_size (remaining_of rm tail rl) <= fuel).
  { rewrite Es in Hsize. pose proof (expr_size_remaining rm head tail rl). lia. }
  assert (Hentries :
            Forall (fun e => exists nc,
                        plain_case (remaining_of rm tail rl) nc /\ snd e = [nc]) m1).
  { assert (Hc : Forall (fun e => exists nc,
                             plain_case (remaining_of rm tail rl) nc
                             /\ snd e = [nc]) (contents m1)).
    { eapply Permutation_Forall; [apply Permutation_sym; exact Hperm|exact Hkept]. }
    unfold contents in Hc. rewrite Forall_map in Hc. exact Hc. }
  destruct (outer_cases_plain new_addr expr head Hrem n1 Hentries)
    as [cases [n2 [Hrun Hpick]]].
  rewrite Hrun. cbn [obind].
  eexists; eexists; split; [reflexivity|].
  intros env. rewrite reach_clone_expr, reference_reach_first_reach.
  cbn [get_scrutinee_expr get_match_cases]. rewrite Es, Hpick.
  rewrite (reference_pick env Hplain); [|exact Hdis].
  apply pick_permutation.
  - apply Permutation_map. exact Hperm.
  - rewrite map_map. cbn [entry_branch fst].
    change (map (fun x => fst x) (flat_map kept_entry (get_match_cases expr)))
      with (map fst (flat_map kept_entry (get_match_cases expr))).
    rewrite Hfirsts. exact Hdis.
Qed.

Lemma literal_patterns_disjoint (a b : Z) :
  a <> b -> disjoint_patterns (LiteralPattern a) (LiteralPattern b).
Proof.
  intros Hab [z|vs] Ha Hb; cbn in Ha, Hb; [|discriminate].
  apply Z.eqb_eq in Ha, Hb. congruence.
Qed.

Lemma nested_match_selects_reference_case_witness :
  exists m' n',
    simplify_tuple_match Examples.bump_up 4 Examples.disjoint3 0 = Ok (m', n')
    /\ forall env,
         reach env (clone_expr m') = reference_reach env Examples.disjoint3.
Proof.
  apply (@nested_match_selects_reference_case Examples.bump_up bump_up_injective
           Examples.disjoint3 101 Examples.x [Examples.y; Examples.z] 0).
  - reflexivity.
  - discriminate.
  - repeat constructor; eexists; (split; [reflexivity|split; reflexivity]).
  - repeat constructor; apply literal_patterns_disjoint; discriminate.
  - vm_compute. lia.
Defined.

(** * Properties of the lowering routines *)

(** ** C3: integer literals *)

Lemma pow2_pos (n : Z) : (0 <= n -> 0 < 2 ^ n)%Z.
Proof. intros Hn. apply Z.pow_pos_nonneg; lia. Qed.

Lemma mpz_get_double_int_in_range (type : tree) (v : Z) :
  (type_min type <= v <= type_max type)%Z ->
  mpz_get_double_int type v true = v.
Proof.
  unfold type_min, type_max, mpz_get_double_int, wi_ext.
  set (p := Z.of_nat (TYPE_PRECISION type)).
  assert (Hp : (0 <= p)%Z) by (unfold p; lia).
  destruct (TYPE_UNSIGNED type); intros Hv.
  - apply Z.mod_small. lia.
  - destruct (Z.eq_dec p 0) as [Hz|Hz].
    + rewrite Hz in Hv. cbn in Hv. lia.
    + assert (Hm : (2 ^ p = 2 * 2 ^ (p - 1))%Z).
      { replace p with (Z.succ (p - 1)) at 1 by lia.
        apply Z.pow_succ_r. lia. }
      pose proof (@pow2_pos (p - 1)) as Hpos.
      rewrite Hm.
      replace (2 * 2 ^ (p - 1) / 2)%Z with (2 ^ (p - 1))%Z
        by (rewrite Z.mul_comm, Z.div_mul; lia).
      rewrite Z.mod_small; lia.
Qed.

(** C3.  A literal whose arbitrary-precision value is [ival] is materialised
    as the constant [ival] of the resolved type when [ival] lies in
    [[type_min, type_max]], bounds included, and nothing is reported; in
    every other case the error value is returned and the overflow is reported
    at the location of the literal, with the name of the type between the
    quotation marks of the locale.  Materialisation succeeds if and only if
    the value is within the bounds. *)
Theorem compile_integer_literal_bounds :
  forall (compile : TyTy.BaseType -> tree) (open_quote close_quote : string)
         (expr : Literal.LiteralExprNode)
         (tyty : TyTy.BaseType) (ival : Z) (ctx : Context),
    Literal.get_lit_type expr = Literal.INT ->
    Literal.mpz_init_set_str (Literal.as_string expr) = Some ival ->
    let materialise :=
      compile_integer_literal compile open_quote close_quote expr tyty in
    ((type_min (compile tyty) <= ival <= type_max (compile tyty))%Z ->
     materialise ctx = Ok (INTEGER_CST (compile tyty) ival, ctx))
    /\ (~ (type_min (compile tyty) <= ival <= type_max (compile tyty))%Z ->
        materialise ctx
        = Ok (error_mark_node,
              with_diagnostic ctx
                (error_at (Literal.get_locus expr)
                   ("integer overflows the respective type "
                    ++ open_quote ++ TyTy.get_name tyty ++ close_quote))))
    /\ ((exists c ctx', materialise ctx = Ok (INTEGER_CST (compile tyty) c, ctx'))
        <-> (type_min (compile tyty) <= ival <= type_max (compile tyty))%Z)
    /\ ((type_min (compile tyty) <= type_max (compile tyty))%Z ->
        (ival = type_min (compile tyty) \/ ival = type_max (compile tyty)) ->
        materialise ctx = Ok (INTEGER_CST (compile tyty) ival, ctx))
    /\ ((ival = type_min (compile tyty) - 1 \/ ival = type_max (compile tyty) + 1)%Z ->
        exists ctx', materialise ctx = Ok (error_mark_node, ctx')).
Proof.
  intros compile open_quote close_quote expr tyty ival ctx Hint Hparse materialise.
  assert (Hin : (type_min (compile tyty) <= ival <= type_max (compile tyty))%Z ->
                materialise ctx = Ok (INTEGER_CST (compile tyty) ival, ctx)).
  { intros Hr. unfold materialise, compile_integer_literal, bind, assert_.
    rewrite Hint. cbn [Literal.LitType_eqb ret]. rewrite Hparse.
    unfold get_type_static_bounds.
    replace (Z.ltb ival (type_min (compile tyty))) with false
      by (symmetry; apply Z.ltb_ge; lia).
    replace (Z.gtb ival (type_max (compile tyty))) with false
      by (symmetry; rewrite Z.gtb_ltb; apply Z.ltb_ge; lia).
    cbn [orb]. unfold ret, double_int_to_tree.
    rewrite mpz_get_double_int_in_range by exact Hr. reflexivity. }
  assert (Hout : ~ (type_min (compile tyty) <= ival <= type_max (compile tyty))%Z ->
                 materialise ctx
                 = Ok (error_mark_node,
                       with_diagnostic ctx
                         (error_at (Literal.get_locus expr)
                            ("integer overflows the respective type "
                             ++ open_quote ++ TyTy.get_name tyty ++ close_quote)))).
  { intros Hr. unfold materialise, compile_integer_literal, bind, assert_.
    rewrite Hint. cbn [Literal.LitType_eqb ret]. rewrite Hparse.
    unfold get_type_static_bounds.
    assert (Hb : Z.ltb ival (type_min (compile tyty))
                 || Z.gtb ival (type_max (compile tyty)) = true).
    { apply orb_true_iff. rewrite Z.gtb_ltb, !Z.ltb_lt. lia. }
    rewrite Hb. reflexivity. }
  split; [exact Hin|]. split; [exact Hout|].
  split; [split|split].
  - intros [c [ctx' Hrun]].
    destruct (Z_le_dec (type_min (compile tyty)) ival) as [H1|H1];
      destruct (Z_le_dec ival (type_max (compile tyty))) as [H2|H2];
      try (split; assumption);
      rewrite Hout in Hrun by lia; discriminate Hrun.
  - intros Hr. exists ival, ctx. apply Hin. exact Hr.
  - intros Hne Hb. apply Hin. lia.
  - intros Hb. eexists. apply Hout. lia.
Qed.

Lemma compile_integer_literal_bounds_witness :
  compile_integer_literal LoweringExamples.compile_type "'" "'"
    (LoweringExamples.lit "127") LoweringExamples.i8 LoweringExamples.empty_context
  = Ok (INTEGER_CST (INTEGER_TYPE 8 false) 127, LoweringExamples.empty_context)
  /\ compile_integer_literal LoweringExamples.compile_type "'" "'"
       (LoweringExamples.lit "-128") LoweringExamples.i8 LoweringExamples.empty_context
     = Ok (INTEGER_CST (INTEGER_TYPE 8 false) (-128), LoweringExamples.empty_context)
  /\ compile_integer_literal LoweringExamples.compile_type "'" "'"
       (LoweringExamples.lit "128") LoweringExamples.i8 LoweringExamples.empty_context
     = Ok (error_mark_node,
           with_diagnostic LoweringExamples.empty_context
             (error_at 7 "integer overflows the respective type 'i8'"))
  /\ compile_integer_literal LoweringExamples.compile_type "'" "'"
       (LoweringExamples.lit "-129") LoweringExamples.i8 LoweringExamples.empty_context
     = Ok (error_mark_node,
           with_diagnostic LoweringExamples.empty_context
             (error_at 7 "integer overflows the respective type 'i8'")).
Proof.
  split; [|split; [|split]].
  - destruct (compile_integer_literal_bounds LoweringExamples.compile_type "'" "'"
                (LoweringExamples.lit "127") LoweringExamples.i8 (ival := 127)
                LoweringExamples.empty_context eq_refl eq_refl) as [H _].
    apply H. vm_compute. split; discriminate.
  - destruct (compile_integer_literal_bounds LoweringExamples.compile_type "'" "'"
                (LoweringExamples.lit "-128") LoweringExamples.i8 (ival := (-128))
                LoweringExamples.empty_context eq_refl eq_refl) as [H _].
    apply H. vm_compute. split; discriminate.
  - destruct (compile_integer_literal_bounds LoweringExamples.compile_type "'" "'"
                (LoweringExamples.lit "128") LoweringExamples.i8 (ival := 128)
                LoweringExamples.empty_context eq_refl eq_refl) as [_ [H _]].
    apply H. vm_compute. intros [_ H1]. apply H1. reflexivity.
  - destruct (compile_integer_literal_bounds LoweringExamples.compile_type "'" "'"
                (LoweringExamples.lit "-129") LoweringExamples.i8 (ival := (-129))
                LoweringExamples.empty_context eq_refl eq_refl) as [_ [H _]].
    apply H. vm_compute. intros [H1 _]. apply H1. reflexivity.
Defined.

(** ** C4 and C9: the adjustment engine *)

Section AdjustmentFacts.

Context `{Backend}.
Variable compile : TyTy.BaseType -> tree.
Variable compile_impl :
  nat -> option TyTy.FnType -> bool -> Location -> Emitter tree.

Lemma bind_assoc (A B C : Type) (m : M A) (k : A -> M B) (h : B -> M C)
      (ctx : Context) :
  bind (bind m k) h ctx = bind m (fun a => bind (k a) h) ctx.
Proof.
  unfold bind. destruct (m ctx) as [[a ctx']| |]; reflexivity.
Qed.

Lemma bind_ext (A B : Type) (m : M A) (k k' : A -> M B) (ctx : Context) :
  (forall a c, k a c = k' a c) -> bind m k ctx = bind m k' ctx.
Proof.
  intros Hk. unfold bind. destruct (m ctx) as [[a ctx']| |]; auto.
Qed.

(** The head of the list is applied first and the rest goes on from its
    result. *)
Lemma resolve_adjustements_cons (a : Adjustment.t) (rest : list Adjustment.t)
      (e : tree) (locus : Location) (ctx : Context) :
  Adjustment.get_type a <> Adjustment.ERROR ->
  resolve_adjustements compile compile_impl (a :: rest) e locus ctx
  = bind (resolve_adjustements compile compile_impl [a] e locus) (fun e' => resolve_adjustements compile compile_impl rest e' locus) ctx.
Proof.
  intros Ha. cbn [resolve_adjustements].
  destruct (Adjustment.get_type a); try contradiction; try reflexivity;
    rewrite bind_assoc; apply bind_ext; intros; reflexivity.
Qed.

Lemma resolve_adjustements_app (l1 l2 : list Adjustment.t) :
  Forall (fun a => Adjustment.get_type a <> Adjustment.ERROR) l1 ->
  forall e locus ctx,
    resolve_adjustements compile compile_impl (l1 ++ l2) e locus ctx
    = bind (resolve_adjustements compile compile_impl l1 e locus) (fun e' => resolve_adjustements compile compile_impl l2 e' locus) ctx.
Proof.
  induction 1 as [|a l1 Ha Hl1 IH]; intros e locus ctx.
  - cbn [app resolve_adjustements]. reflexivity.
  - cbn [app].
    rewrite (resolve_adjustements_cons a (l1 ++ l2) e locus ctx Ha).
    unfold bind at 2.
    rewrite (resolve_adjustements_cons a l1 e locus ctx Ha).
    unfold bind.
    destruct (resolve_adjustements compile compile_impl [a] e locus ctx)
      as [[e1 c1]| |]; try reflexivity.
    apply IH.
Qed.

Lemma resolve_adjustements_error (pre post : list Adjustment.t) (a : Adjustment.t) :
  Adjustment.get_type a = Adjustment.ERROR ->
  forall e locus ctx,
    resolve_adjustements compile compile_impl (pre ++ a :: post) e locus ctx
    = bind (resolve_adjustements compile compile_impl pre e locus) (fun _ => ret error_mark_node) ctx.
Proof.
  intros Ha. induction pre as [|b pre IH]; intros e locus ctx.
  - cbn [app resolve_adjustements]. rewrite Ha. reflexivity.
  - cbn [app resolve_adjustements].
    destruct (Adjustment.get_type b); try reflexivity; try apply IH;
      rewrite bind_assoc; apply bind_ext; intros; apply IH.
Qed.

End AdjustmentFacts.

(** C4.  The adjustments are applied from left to right: the list without
    an error entry is the sequence of its steps.  A borrow of a value whose
    type is the slice representation returns the value as it is; a borrow of
    any other value takes its address at the compiled expected type of the
    adjustment. *)
Theorem resolve_adjustements_borrow :
  forall (B : Backend) (compile : TyTy.BaseType -> tree)
         (compile_impl : nat -> option TyTy.FnType -> bool -> Location -> Emitter tree),
    (forall l1 l2 e locus ctx,
        Forall (fun a => Adjustment.get_type a <> Adjustment.ERROR) l1 ->
        resolve_adjustements compile compile_impl (l1 ++ l2) e locus ctx
        = bind (resolve_adjustements compile compile_impl l1 e locus)
               (fun e' => resolve_adjustements compile compile_impl l2 e' locus) ctx)
    /\ (forall a e locus ctx,
           Adjustment.is_borrow a = true ->
           SLICE_TYPE_P (TREE_TYPE e) = true ->
           resolve_adjustements compile compile_impl [a] e locus ctx = Ok (e, ctx))
    /\ (forall a e locus ctx,
           Adjustment.is_borrow a = true ->
           SLICE_TYPE_P (TREE_TYPE e) = false ->
           resolve_adjustements compile compile_impl [a] e locus ctx
           = Ok (address_expression e (compile (Adjustment.get_expected a)) locus,
                 ctx)).
Proof.
  intros B compile compile_impl.
  split; [|split].
  - intros l1 l2 e locus ctx Hl1. apply resolve_adjustements_app. exact Hl1.
  - intros a e locus ctx Ha Hs. unfold Adjustment.is_borrow in Ha.
    cbn [resolve_adjustements].
    destruct (Adjustment.get_type a); try discriminate Ha;
      rewrite Hs; reflexivity.
  - intros a e locus ctx Ha Hs. unfold Adjustment.is_borrow in Ha.
    cbn [resolve_adjustements].
    destruct (Adjustment.get_type a); try discriminate Ha;
      rewrite Hs; reflexivity.
Qed.

Lemma resolve_adjustements_borrow_witness :
  resolve_adjustements LoweringExamples.compile_type LoweringExamples.compile_impl_item
    [LoweringExamples.borrow (TyTy.ReferenceType LoweringExamples.slice_of_i32)]
    LoweringExamples.slice_value 3 LoweringExamples.empty_context
  = Ok (LoweringExamples.slice_value, LoweringExamples.empty_context)
  /\ resolve_adjustements LoweringExamples.compile_type
       LoweringExamples.compile_impl_item
       [LoweringExamples.borrow (TyTy.ReferenceType LoweringExamples.i32)]
       LoweringExamples.int_value 3 LoweringExamples.empty_context
     = Ok (ADDR_EXPR (POINTER_TYPE LoweringExamples.i32_tree)
                     LoweringExamples.int_value,
           LoweringExamples.empty_context).
Proof.
  destruct (resolve_adjustements_borrow tree_backend LoweringExamples.compile_type
              LoweringExamples.compile_impl_item) as [_ [H2 H3]].
  split.
  - apply H2; reflexivity.
  - apply (H3 (LoweringExamples.borrow (TyTy.ReferenceType LoweringExamples.i32)));
      reflexivity.
Defined.

(** C9.  An adjustment of type [ERROR] ends the engine: whatever follows it
    in the list, the result is that of the adjustments before it, with the
    error value in place of the value they produced; no adjustment after the
    entry is applied to the value or acts on the context.  So whenever a list
    with such an entry returns, it returns the error value. *)
Theorem resolve_adjustements_error_exit :
  forall (B : Backend) (compile : TyTy.BaseType -> tree)
         (compile_impl : nat -> option TyTy.FnType -> bool -> Location -> Emitter tree),
    (forall pre a post e locus ctx,
        Adjustment.get_type a = Adjustment.ERROR ->
        resolve_adjustements compile compile_impl (pre ++ a :: post) e locus ctx
        = bind (resolve_adjustements compile compile_impl pre e locus)
               (fun _ => ret error_mark_node) ctx)
    /\ (forall a post e locus ctx,
           Adjustment.get_type a = Adjustment.ERROR ->
           resolve_adjustements compile compile_impl (a :: post) e locus ctx
           = Ok (error_mark_node, ctx))
    /\ (forall l a e locus ctx t ctx',
           In a l ->
           Adjustment.get_type a = Adjustment.ERROR ->
           resolve_adjustements compile compile_impl l e locus ctx = Ok (t, ctx') ->
           t = error_mark_node).
Proof.
  intros B compile compile_impl.
  split; [|split].
  - intros pre a post e locus ctx Ha. apply resolve_adjustements_error. exact Ha.
  - intros a post e locus ctx Ha. cbn [resolve_adjustements]. rewrite Ha.
    reflexivity.
  - intros l a e locus ctx t ctx' Hin Ha Hrun.
    apply in_split in Hin. destruct Hin as [pre [post ->]].
    rewrite (resolve_adjustements_error compile compile_impl pre post a Ha) in Hrun.
    unfold bind in Hrun.
    destruct (resolve_adjustements compile compile_impl pre e locus ctx)
      as [[t0 c0]| |]; try discriminate Hrun.
    unfold ret in Hrun. congruence.
Qed.

Lemma resolve_adjustements_error_exit_witness :
  resolve_adjustements LoweringExamples.compile_type LoweringExamples.compile_impl_item
    ([LoweringExamples.borrow (TyTy.ReferenceType LoweringExamples.i32)]
     ++ LoweringExamples.error_adjustment
     :: [LoweringExamples.indirection LoweringExamples.i32])
    LoweringExamples.int_value 3 LoweringExamples.empty_context
  = Ok (error_mark_node, LoweringExamples.empty_context).
Proof.
  destruct (resolve_adjustements_error_exit tree_backend LoweringExamples.compile_type
              LoweringExamples.compile_impl_item) as [H1 _].
  rewrite H1; reflexivity.
Defined.

(** ** C7: dynamic dispatch *)

Section DynFacts.

Import TyTy.

Lemma find_object_item_found (pre post : list TraitItemReference)
      (item : TraitItemReference) (ft fntype : FnType) (offs : nat) :
  Forall (fun i => exists f, get_tyty i = FnDefType f /\ get_id f <> get_id fntype) pre ->
  get_tyty item = FnDefType ft ->
  get_id ft = get_id fntype ->
  find_object_item (pre ++ item :: post) fntype offs
  = Ok (Some item, offs + length pre).
Proof.
  intros Hpre Hitem Hid. revert offs.
  induction Hpre as [|i pre [f [Hf Hne]] Hpre IH]; intros offs.
  - cbn [app find_object_item length]. rewrite Hitem.
    apply Nat.eqb_eq in Hid. rewrite Hid. f_equal. f_equal. lia.
  - cbn [app find_object_item length]. rewrite Hf.
    apply Nat.eqb_neq in Hne. rewrite Hne. rewrite IH. f_equal. f_equal. lia.
Qed.

Lemma find_object_item_absent (items : list TraitItemReference) (fntype : FnType)
      (offs : nat) :
  Forall (fun i => exists f, get_tyty i = FnDefType f /\ get_id f <> get_id fntype)
         items ->
  find_object_item items fntype offs = Ok (None, offs + length items).
Proof.
  intros Hall. revert offs.
  induction Hall as [|i items [f [Hf Hne]] Hall IH]; intros offs.
  - cbn [find_object_item length]. f_equal. f_equal. lia.
  - cbn [find_object_item length]. rewrite Hf.
    apply Nat.eqb_neq in Hne. rewrite Hne. rewrite IH. f_equal. f_equal. lia.
Qed.

End DynFacts.

(** C7.  The slot of a dynamically dispatched method is the position, from
    zero, of the first item of the object whose function type has the
    identity of the resolved method; the call is the slot of that index in
    the table read from field 1 of the receiver, and the receiver passed is
    field 0 of the receiver, both taken after an indirection when the type of
    the receiver is a reference.  When no item has that identity the address
    is the error value. *)
Theorem dynamic_dispatch_slot :
  forall (B : Backend) (compile : TyTy.BaseType -> bool -> tree)
         (receiver : TyTy.BaseType) (fntype : TyTy.FnType)
         (receiver_ref : tree) (locus : Location),
    let self :=
      match receiver with
      | TyTy.ReferenceType base =>
          indirect_expression (compile base false) receiver_ref true locus
      | _ => receiver_ref
      end in
    TyTy.reference_has_base receiver = true ->
    (forall pre item ft post,
        Forall (fun i => exists f, TyTy.get_tyty i = TyTy.FnDefType f
                                   /\ TyTy.get_id f <> TyTy.get_id fntype) pre ->
        TyTy.get_tyty item = TyTy.FnDefType ft ->
        TyTy.get_id ft = TyTy.get_id fntype ->
        get_fn_addr_from_dyn compile (pre ++ item :: post) receiver fntype
                             receiver_ref locus
        = let idx := build_int_cst size_type_node (Z.of_nat (length pre)) in
          let vtable_ptr := struct_field_expression self 1 locus in
          Ok (OBJ_TYPE_REF (compile (TyTy.FnDefType fntype) true)
                (ARRAY_REF (TREE_TYPE (TREE_TYPE vtable_ptr)) vtable_ptr idx)
                self idx))
    /\ (forall items,
           Forall (fun i => exists f, TyTy.get_tyty i = TyTy.FnDefType f
                                      /\ TyTy.get_id f <> TyTy.get_id fntype) items ->
           get_fn_addr_from_dyn compile items receiver fntype receiver_ref locus
           = Ok error_mark_node)
    /\ (forall items,
           get_receiver_from_dyn compile items receiver fntype receiver_ref locus
           = Ok (struct_field_expression self 0 locus)).
Proof.
  intros B compile receiver fntype receiver_ref locus self Hwf.
  assert (Hind : indirect_receiver compile receiver receiver_ref locus = Ok self).
  { unfold indirect_receiver, self.
    destruct receiver as [k n|n en nv|base|f|items]; cbn [TyTy.get_kind TyTy.TypeKind_eqb];
      try reflexivity.
    destruct k; try reflexivity. discriminate Hwf. }
  split; [|split].
  - intros pre item ft post Hpre Hitem Hid.
    unfold get_fn_addr_from_dyn.
    rewrite (@find_object_item_found pre post item ft fntype 0 Hpre Hitem Hid).
    cbn [obind Nat.add]. rewrite Hind. reflexivity.
  - intros items Hall. unfold get_fn_addr_from_dyn.
    rewrite (@find_object_item_absent items fntype 0 Hall). reflexivity.
  - intros items. unfold get_receiver_from_dyn. rewrite Hind. reflexivity.
Qed.

Lemma dynamic_dispatch_slot_witness :
  get_fn_addr_from_dyn LoweringExamples.compile_type_mode LoweringExamples.dyn_items
    (TyTy.ReferenceType (TyTy.DynamicObjectType LoweringExamples.dyn_items))
    LoweringExamples.f2 LoweringExamples.fat_object 3
  = Ok (let self :=
          INDIRECT_REF error_mark_node LoweringExamples.fat_object true in
        let vtable_ptr := COMPONENT_REF self 1 in
        let idx := INTEGER_CST size_type_node 1 in
        OBJ_TYPE_REF (POINTER_TYPE (FUNCTION_TYPE LoweringExamples.i32_tree))
          (ARRAY_REF (TREE_TYPE (TREE_TYPE vtable_ptr)) vtable_ptr idx) self idx)
  /\ get_fn_addr_from_dyn LoweringExamples.compile_type_mode LoweringExamples.dyn_items
       (TyTy.ReferenceType (TyTy.DynamicObjectType LoweringExamples.dyn_items))
       LoweringExamples.f3 LoweringExamples.fat_object 3
     = Ok error_mark_node.
Proof.
  split.
  - destruct (dynamic_dispatch_slot tree_backend LoweringExamples.compile_type_mode
                (TyTy.ReferenceType (TyTy.DynamicObjectType LoweringExamples.dyn_items))
                LoweringExamples.f2 LoweringExamples.fat_object 3) as [H1 _].
    + reflexivity.
    + apply (H1 [(1, TyTy.FnDefType LoweringExamples.f1)]
                (2, TyTy.FnDefType LoweringExamples.f2) LoweringExamples.f2
                [(3, TyTy.FnDefType LoweringExamples.f2)]).
      * repeat constructor. exists LoweringExamples.f1. split; [reflexivity|discriminate].
      * reflexivity.
      * reflexivity.
  - destruct (dynamic_dispatch_slot tree_backend LoweringExamples.compile_type_mode
                (TyTy.ReferenceType (TyTy.DynamicObjectType LoweringExamples.dyn_items))
                LoweringExamples.f3 LoweringExamples.fat_object 3) as [_ [H2 _]].
    + reflexivity.
    + apply H2. repeat constructor; eexists; (split; [reflexivity|discriminate]).
Defined.

(** ** C10: dereference expressions *)

(** C10 (counterexample).  The dereference, of slice type, of an operand
    whose compiled value has slice type, overloaded: the operand is not the
    result.  When the call of the overloaded operator is of pointer type the
    result is the indirection of the call; when it is of slice type the
    result is the call. *)
Lemma visit_DereferenceExpr_overloaded_slice_operand :
  SLICE_TYPE_P (TREE_TYPE LoweringExamples.slice_value) = true
  /\ SLICE_TYPE_P (LoweringExamples.compile_type LoweringExamples.slice_of_i32) = true
  /\ LoweringExamples.compile_expr (PathInExpression 9) 1
     = Ok (LoweringExamples.slice_value, [], [], 1)
  /\ visit_DereferenceExpr LoweringExamples.lookup_type LoweringExamples.overloaded
       LoweringExamples.compile_type LoweringExamples.compile_expr
       (LoweringExamples.deref_call (POINTER_TYPE LoweringExamples.slice_tree))
       (mkDereferenceExpr 60 (PathInExpression 9) 4) LoweringExamples.empty_context
     = Ok (INDIRECT_REF LoweringExamples.slice_tree
             (CALL_EXPR
                (FUNCTION_DECL
                   (FUNCTION_TYPE (POINTER_TYPE LoweringExamples.slice_tree)) 11)
                [LoweringExamples.slice_value]) true,
           LoweringExamples.empty_context)
  /\ visit_DereferenceExpr LoweringExamples.lookup_type LoweringExamples.overloaded
       LoweringExamples.compile_type LoweringExamples.compile_expr
       (LoweringExamples.deref_call LoweringExamples.slice_tree)
       (mkDereferenceExpr 60 (PathInExpression 9) 4) LoweringExamples.empty_context
     = Ok (CALL_EXPR
             (FUNCTION_DECL (FUNCTION_TYPE LoweringExamples.slice_tree) 11)
             [LoweringExamples.slice_value],
           LoweringExamples.empty_context)
  /\ INDIRECT_REF LoweringExamples.slice_tree
       (CALL_EXPR
          (FUNCTION_DECL
             (FUNCTION_TYPE (POINTER_TYPE LoweringExamples.slice_tree)) 11)
          [LoweringExamples.slice_value]) true
     <> LoweringExamples.slice_value
  /\ CALL_EXPR (FUNCTION_DECL (FUNCTION_TYPE LoweringExamples.slice_tree) 11)
               [LoweringExamples.slice_value]
     <> LoweringExamples.slice_value.
Proof.
  repeat split; try reflexivity; discriminate.
Qed.

(** C10 (amended).  Let the value dereferenced be the compiled operand or,
    when the dereference is overloaded, the result of the call of the
    overloaded operator on it.  When the type of that value and the compiled type of the
    expression are both the slice representation the value is the result, as
    it is; otherwise the result is the indirection of the value at the
    compiled type of the expression, marked known valid. *)
Theorem visit_DereferenceExpr_slice :
  forall (B : Backend)
         (lookup_type : NodeMapping -> option TyTy.BaseType)
         (lookup_operator_overload : NodeMapping -> option TyTy.FnType)
         (compile : TyTy.BaseType -> tree)
         (compile_expr : Expr -> Emitter tree)
         (overload : DereferenceExpr -> tree -> Emitter tree)
         (expr : DereferenceExpr) (tyty : TyTy.BaseType),
    lookup_type (deref_mappings expr) = Some tyty ->
    let visit :=
      visit_DereferenceExpr lookup_type lookup_operator_overload compile
                            compile_expr overload expr in
    let lowered (main_expr : tree) :=
      if SLICE_TYPE_P (TREE_TYPE main_expr) && SLICE_TYPE_P (compile tyty)
      then main_expr
      else indirect_expression (compile tyty) main_expr true (deref_locus expr) in
    (forall ctx operand ctx1,
        lookup_operator_overload (deref_mappings expr) = None ->
        emit (compile_expr (deref_expr expr)) ctx = Ok (operand, ctx1) ->
        visit ctx = Ok (lowered operand, ctx1)
        /\ (SLICE_TYPE_P (TREE_TYPE operand) = true ->
            SLICE_TYPE_P (compile tyty) = true ->
            visit ctx = Ok (operand, ctx1)))
    /\ (forall ctx fntype operand ctx1 call ctx2,
           lookup_operator_overload (deref_mappings expr) = Some fntype ->
           emit (compile_expr (deref_expr expr)) ctx = Ok (operand, ctx1) ->
           emit (overload expr operand) ctx1 = Ok (call, ctx2) ->
           visit ctx = Ok (lowered call, ctx2)
           /\ (SLICE_TYPE_P (TREE_TYPE call) = true ->
               SLICE_TYPE_P (compile tyty) = true ->
               visit ctx = Ok (call, ctx2))).
Proof.
  intros B lookup_type lookup_operator_overload compile compile_expr overload
         expr tyty Hty visit lowered.
  split.
  - intros ctx operand ctx1 Hov Hop.
    assert (Hv : visit ctx = Ok (lowered operand, ctx1)).
    { unfold visit, visit_DereferenceExpr. rewrite Hty, Hov.
      unfold bind at 1. rewrite Hop. unfold bind, ret, lowered.
      destruct (SLICE_TYPE_P (TREE_TYPE operand) && SLICE_TYPE_P (compile tyty));
        reflexivity. }
    split; [exact Hv|]. intros H1 H2. rewrite Hv. unfold lowered.
    rewrite H1, H2. reflexivity.
  - intros ctx fntype operand ctx1 call ctx2 Hov Hop Hcall.
    assert (Hv : visit ctx = Ok (lowered call, ctx2)).
    { unfold visit, visit_DereferenceExpr. rewrite Hty, Hov.
      unfold bind at 1. rewrite Hop. unfold bind at 1. unfold bind at 1.
      rewrite Hcall. unfold ret, lowered.
      destruct (SLICE_TYPE_P (TREE_TYPE call) && SLICE_TYPE_P (compile tyty));
        reflexivity. }
    split; [exact Hv|]. intros H1 H2. rewrite Hv. unfold lowered.
    rewrite H1, H2. reflexivity.
Qed.

Lemma visit_DereferenceExpr_slice_witness :
  visit_DereferenceExpr LoweringExamples.lookup_type (fun _ => None)
    LoweringExamples.compile_type LoweringExamples.compile_expr
    (LoweringExamples.deref_call LoweringExamples.slice_tree)
    (mkDereferenceExpr 60 (PathInExpression 9) 4) LoweringExamples.empty_context
  = Ok (LoweringExamples.slice_value, LoweringExamples.empty_context)
  /\ visit_DereferenceExpr LoweringExamples.lookup_type (fun _ => None)
       LoweringExamples.compile_type LoweringExamples.compile_expr
       (LoweringExamples.deref_call LoweringExamples.slice_tree)
       (mkDereferenceExpr 100 (PathInExpression 8) 4) LoweringExamples.empty_context
     = Ok (INDIRECT_REF LoweringExamples.i32_tree
                        (VALUE LoweringExamples.i32_tree 8) true,
           LoweringExamples.empty_context)
  /\ visit_DereferenceExpr LoweringExamples.lookup_type LoweringExamples.overloaded
       LoweringExamples.compile_type LoweringExamples.compile_expr
       (LoweringExamples.deref_call LoweringExamples.slice_tree)
       (mkDereferenceExpr 60 (PathInExpression 8) 4) LoweringExamples.empty_context
     = Ok (CALL_EXPR
             (FUNCTION_DECL (FUNCTION_TYPE LoweringExamples.slice_tree) 11)
             [VALUE LoweringExamples.i32_tree 8],
           LoweringExamples.empty_context)
  /\ visit_DereferenceExpr LoweringExamples.lookup_type LoweringExamples.overloaded
       LoweringExamples.compile_type LoweringExamples.compile_expr
       (LoweringExamples.deref_call (POINTER_TYPE LoweringExamples.i32_tree))
       (mkDereferenceExpr 100 (PathInExpression 8) 4) LoweringExamples.empty_context
     = Ok (INDIRECT_REF LoweringExamples.i32_tree
             (CALL_EXPR
                (FUNCTION_DECL
                   (FUNCTION_TYPE (POINTER_TYPE LoweringExamples.i32_tree)) 11)
                [VALUE LoweringExamples.i32_tree 8]) true,
           LoweringExamples.empty_context).
Proof.
  split; [|split; [|split]].
  - destruct (visit_DereferenceExpr_slice tree_backend LoweringExamples.lookup_type
                (fun _ => None) LoweringExamples.compile_type
                LoweringExamples.compile_expr
                (LoweringExamples.deref_call LoweringExamples.slice_tree)
                (mkDereferenceExpr 60 (PathInExpression 9) 4) eq_refl) as [H1 _].
    destruct (H1 LoweringExamples.empty_context LoweringExamples.slice_value
                 LoweringExamples.empty_context eq_refl eq_refl) as [_ H].
    apply H; reflexivity.
  - destruct (visit_DereferenceExpr_slice tree_backend LoweringExamples.lookup_type
                (fun _ => None) LoweringExamples.compile_type
                LoweringExamples.compile_expr
                (LoweringExamples.deref_call LoweringExamples.slice_tree)
                (mkDereferenceExpr 100 (PathInExpression 8) 4) eq_refl) as [H1 _].
    destruct (H1 LoweringExamples.empty_context (VALUE LoweringExamples.i32_tree 8)
                 LoweringExamples.empty_context eq_refl eq_refl) as [H _].
    exact H.
  - destruct (visit_DereferenceExpr_slice tree_backend LoweringExamples.lookup_type
                LoweringExamples.overloaded LoweringExamples.compile_type
                LoweringExamples.compile_expr
                (LoweringExamples.deref_call LoweringExamples.slice_tree)
                (mkDereferenceExpr 60 (PathInExpression 8) 4) eq_refl) as [_ H2].
    destruct (H2 LoweringExamples.empty_context LoweringExamples.f1
                 (VALUE LoweringExamples.i32_tree 8) LoweringExamples.empty_context
                 (CALL_EXPR
                    (FUNCTION_DECL (FUNCTION_TYPE LoweringExamples.slice_tree) 11)
                    [VALUE LoweringExamples.i32_tree 8])
                 LoweringExamples.empty_context eq_refl eq_refl eq_refl) as [_ H].
    apply H; reflexivity.
  - destruct (visit_DereferenceExpr_slice tree_backend LoweringExamples.lookup_type
                LoweringExamples.overloaded LoweringExamples.compile_type
                LoweringExamples.compile_expr
                (LoweringExamples.deref_call (POINTER_TYPE LoweringExamples.i32_tree))
                (mkDereferenceExpr 100 (PathInExpression 8) 4) eq_refl) as [_ H2].
    destruct (H2 LoweringExamples.empty_context LoweringExamples.f1
                 (VALUE LoweringExamples.i32_tree 8) LoweringExamples.empty_context
                 (CALL_EXPR
                    (FUNCTION_DECL
                       (FUNCTION_TYPE (POINTER_TYPE LoweringExamples.i32_tree)) 11)
                    [VALUE LoweringExamples.i32_tree 8])
                 LoweringExamples.empty_context eq_refl eq_refl eq_refl) as [H _].
    exact H.
Defined.

(** ** C8: direct lowering of a match *)

Lemma bind_Ok_inv (A B : Type) (m : M A) (k : A -> M B) (ctx : Context)
      (r : B) (ctx' : Context) :
  bind m k ctx = Ok (r, ctx') ->
  exists a c, m ctx = Ok (a, c) /\ k a c = Ok (r, ctx').
Proof.
  unfold bind. destruct (m ctx) as [[a c]| |]; intros Hk; try discriminate Hk.
  exists a, c. split; [reflexivity|exact Hk].
Qed.

Lemma appended_refl (ctx : Context) : appended ctx ctx [].
Proof.
  split; [reflexivity|]. destruct (scope_stack ctx) as [|[b l] rest].
  - split; reflexivity.
  - rewrite app_nil_r. reflexivity.
Qed.

Lemma appended_trans (c1 c2 c3 : Context) (s1 s2 : list tree) :
  appended c1 c2 s1 -> appended c2 c3 s2 -> appended c1 c3 (s1 ++ s2).
Proof.
  intros [Hf1 H1] [Hf2 H2]. split; [congruence|].
  destruct (scope_stack c1) as [|[b l] rest].
  - destruct H1 as [-> H1]. rewrite H1 in H2. exact H2.
  - rewrite H1 in H2. rewrite H2, app_assoc. reflexivity.
Qed.

Lemma ret_Ok_inv (A : Type) (a r : A) (ctx ctx' : Context) :
  ret a ctx = Ok (r, ctx') -> r = a /\ ctx' = ctx.
Proof. unfold ret. intros E. inversion E. split; reflexivity. Qed.

Lemma assert_Ok_inv (b : bool) (ctx ctx' : Context) (u : unit) :
  assert_ b ctx = Ok (u, ctx') -> b = true /\ ctx' = ctx.
Proof.
  unfold assert_. destruct b; intros E; [|discriminate E].
  apply ret_Ok_inv in E. destruct E as [_ ->]. split; reflexivity.
Qed.

Lemma add_statements_appended (stmts : list tree) (ctx ctx' : Context) (u : unit) :
  add_statements stmts ctx = Ok (u, ctx') -> appended ctx ctx' stmts.
Proof.
  unfold add_statements, appended.
  destruct stmts as [|s stmts].
  - intros E. inversion E; subst. apply appended_refl.
  - destruct (scope_stack ctx) as [|[b l] rest] eqn:Es; intros E;
      [discriminate E|]. inversion E; subst. cbn. split; reflexivity.
Qed.

Lemma add_statement_appended (stmt : tree) (ctx ctx' : Context) (u : unit) :
  add_statement stmt ctx = Ok (u, ctx') -> appended ctx ctx' [stmt].
Proof. apply add_statements_appended. Qed.

Lemma fresh_uid_appended (ctx ctx' : Context) (uid : nat) :
  fresh_uid ctx = Ok (uid, ctx') -> uid = next_uid ctx /\ appended ctx ctx' [].
Proof.
  unfold fresh_uid. intros E. inversion E; subst. split; [reflexivity|].
  unfold appended. cbn. split; [reflexivity|].
  destruct (scope_stack ctx) as [|[b l] rest]; [split; reflexivity|].
  rewrite app_nil_r. reflexivity.
Qed.

Lemma emit_appended (A : Type) (e : Emitter A) (ctx ctx' : Context) (a : A) :
  emit e ctx = Ok (a, ctx') ->
  exists stmts reports uid',
    e (next_uid ctx) = Ok (a, stmts, reports, uid')
    /\ appended ctx ctx' stmts.
Proof.
  unfold emit. destruct (e (next_uid ctx)) as [[[[a0 stmts] reports] uid']| |];
    intros E; try discriminate E.
  apply bind_Ok_inv in E. destruct E as [u [c [Hadd Hret]]].
  apply ret_Ok_inv in Hret. destruct Hret as [-> ->].
  exists stmts, reports, uid'. split; [reflexivity|].
  apply add_statements_appended in Hadd. exact Hadd.
Qed.

Lemma peek_fn_Ok_inv (ctx ctx' : Context) (f : fncontext) :
  peek_fn ctx = Ok (f, ctx') -> ctx' = ctx /\ hd_error (fn_stack ctx) = Some f.
Proof.
  unfold peek_fn. destruct (fn_stack ctx) as [|g fs]; intros E;
    [discriminate E|]. inversion E; subst. split; reflexivity.
Qed.

Lemma peek_enclosing_scope_Ok_inv (ctx ctx' : Context) (b : tree) :
  peek_enclosing_scope ctx = Ok (b, ctx') -> ctx' = ctx.
Proof.
  unfold peek_enclosing_scope. destruct (scope_stack ctx) as [|[b0 l] rest];
    intros E; inversion E; reflexivity.
Qed.

Lemma appended_same_start (c c' d : Context) (stmts : list tree) :
  scope_stack c' = scope_stack c -> fn_stack c' = fn_stack c ->
  appended c' d stmts -> appended c d stmts.
Proof.
  unfold appended. intros Hs Hf [H1 H2]. rewrite Hs, Hf in *. split; assumption.
Qed.

Lemma same_stacks_appended (c c' : Context) :
  scope_stack c' = scope_stack c -> fn_stack c' = fn_stack c -> appended c c' [].
Proof.
  intros Hs Hf. eapply appended_same_start; [exact Hs|exact Hf|apply appended_refl].
Qed.

(** *** Running a collaborator *)

Lemma emit_emitted (A : Type) (e : Emitter A) (ctx : Context) (a : A)
      (stmts : list tree) (reports : list diagnostic) (uid' : nat) :
  scope_stack ctx <> [] ->
  e (next_uid ctx) = Ok (a, stmts, reports, uid') ->
  emit e ctx = Ok (a, emitted ctx stmts reports uid').
Proof.
  intros Hs He. unfold emit, emitted. rewrite He.
  unfold bind, add_statements, ret. cbn [scope_stack].
  destruct stmts as [|s stmts]; [reflexivity|].
  destruct (scope_stack ctx) as [|[b l] rest]; [contradiction|]. reflexivity.
Qed.

Lemma bind_emit (A B : Type) (e : Emitter A) (k : A -> M B) (ctx : Context) (a : A)
      (stmts : list tree) (reports : list diagnostic) (uid' : nat) :
  scope_stack ctx <> [] ->
  e (next_uid ctx) = Ok (a, stmts, reports, uid') ->
  bind (emit e) k ctx = k a (emitted ctx stmts reports uid').
Proof.
  intros Hs He. unfold bind. rewrite (emit_emitted e ctx Hs He). reflexivity.
Qed.

Lemma emitted_scope (ctx : Context) (stmts : list tree) (reports : list diagnostic)
      (uid' : nat) :
  scope_stack ctx <> [] -> scope_stack (emitted ctx stmts reports uid') <> [].
Proof.
  intros Hs. unfold emitted. cbn [scope_stack].
  destruct stmts as [|s stmts]; [exact Hs|].
  destruct (scope_stack ctx) as [|[b l] rest]; [contradiction|discriminate].
Qed.

Lemma emitted_appended (ctx : Context) (stmts : list tree)
      (reports : list diagnostic) (uid' : nat) :
  scope_stack ctx <> [] -> appended ctx (emitted ctx stmts reports uid') stmts.
Proof.
  intros Hs. unfold appended, emitted. cbn [scope_stack fn_stack].
  split; [reflexivity|].
  destruct (scope_stack ctx) as [|[b l] rest]; [contradiction|].
  destruct stmts as [|s stmts]; [rewrite app_nil_r|]; reflexivity.
Qed.

Lemma emitted_reported (ctx : Context) (stmts : list tree)
      (reports : list diagnostic) (uid' : nat) :
  reported ctx (emitted ctx stmts reports uid') reports.
Proof. reflexivity. Qed.

(** A statement added to an open block: the context after it. *)
Lemma add_statement_returns (stmt : tree) (ctx : Context) :
  scope_stack ctx <> [] ->
  exists ctx',
    add_statement stmt ctx = Ok (tt, ctx')
    /\ appended ctx ctx' [stmt]
    /\ diagnostics ctx' = diagnostics ctx
    /\ next_uid ctx' = next_uid ctx.
Proof.
  intros Hs. unfold add_statement, add_statements, appended.
  destruct (scope_stack ctx) as [|[b l] rest]; [contradiction|].
  eexists. split; [reflexivity|]. cbn. repeat split.
Qed.

Lemma emit_inv (A : Type) (e : Emitter A) (ctx ctx' : Context) (a : A) :
  emit e ctx = Ok (a, ctx') ->
  exists stmts reports,
    e (next_uid ctx) = Ok (a, stmts, reports, next_uid ctx')
    /\ appended ctx ctx' stmts
    /\ reported ctx ctx' reports
    /\ ctx' = emitted ctx stmts reports (next_uid ctx').
Proof.
  intros E. unfold emit in E.
  destruct (e (next_uid ctx)) as [[[[a0 stmts] reports] uid']| |] eqn:He;
    try discriminate E.
  apply bind_Ok_inv in E. destruct E as [u [c [Hadd Hret]]].
  apply ret_Ok_inv in Hret. destruct Hret as [-> ->].
  exists stmts, reports.
  assert (Hc : c = emitted ctx stmts reports uid').
  { unfold add_statements in Hadd. unfold emitted.
    destruct stmts as [|s stmts].
    - inversion Hadd. reflexivity.
    - cbn [scope_stack] in Hadd.
      destruct (scope_stack ctx) as [|[b l] rest]; inversion Hadd. reflexivity. }
  assert (Hu : next_uid c = uid') by (rewrite Hc; reflexivity).
  rewrite Hu. split; [reflexivity|].
  split; [|split; [rewrite Hc; reflexivity|exact Hc]].
  apply add_statements_appended in Hadd.
  eapply appended_same_start; [| |exact Hadd]; reflexivity.
Qed.

(** *** The lowering returns *)

Lemma runs_ret (A : Type) (d : nat) (a : A) : runs d d (ret a).
Proof. intros ctx Hd. exists a, ctx. split; [reflexivity|exact Hd]. Qed.

Lemma runs_bind (A B : Type) (d d' d'' : nat) (m : M A) (k : A -> M B) :
  runs d d' m -> (forall a, runs d' d'' (k a)) -> runs d d'' (bind m k).
Proof.
  intros Hm Hk ctx Hd. destruct (Hm ctx Hd) as [a [c [Em Hc]]].
  destruct (Hk a c Hc) as [b [c' [Ek Hc']]].
  exists b, c'. split; [|exact Hc']. unfold bind. rewrite Em. exact Ek.
Qed.

Lemma runs_to_ret (A : Type) (d : nat) (P : A -> Prop) (a : A) :
  P a -> runs_to d d P (ret a).
Proof.
  intros Ha ctx Hd. exists a, ctx. split; [reflexivity|]. split; assumption.
Qed.

Lemma runs_to_bind (A B : Type) (d d' d'' : nat) (P : A -> Prop) (m : M A)
      (k : A -> M B) :
  runs_to d d' P m -> (forall a, P a -> runs d' d'' (k a)) -> runs d d'' (bind m k).
Proof.
  intros Hm Hk ctx Hd. destruct (Hm ctx Hd) as [a [c [Em [Hc Ha]]]].
  destruct (Hk a Ha c Hc) as [b [c' [Ek Hc']]].
  exists b, c'. split; [|exact Hc']. unfold bind. rewrite Em. exact Ek.
Qed.

Lemma runs_assert (d : nat) (b : bool) : b = true -> runs d d (assert_ b).
Proof. intros ->. apply runs_ret. Qed.

Lemma runs_report (d : nat) (x : diagnostic) : runs d d (report x).
Proof.
  intros ctx Hd. eexists. eexists. split; [reflexivity|exact Hd].
Qed.

Lemma runs_fresh_uid (d : nat) : runs d d fresh_uid.
Proof.
  intros ctx Hd. eexists. eexists. split; [reflexivity|exact Hd].
Qed.

Lemma runs_peek_fn (d : nat) : runs d d peek_fn.
Proof.
  intros ctx [Hl Hf]. unfold peek_fn.
  destruct (fn_stack ctx) as [|f fs] eqn:E; [contradiction|].
  exists f, ctx. split; [reflexivity|]. split; [exact Hl|]. rewrite E. discriminate.
Qed.

Lemma runs_peek_enclosing_scope (d : nat) : runs d d peek_enclosing_scope.
Proof.
  intros ctx Hd. unfold peek_enclosing_scope.
  destruct (scope_stack ctx) as [|[b l] rest]; eexists; eexists;
    (split; [reflexivity|exact Hd]).
Qed.

Lemma runs_add_statements (d : nat) (stmts : list tree) :
  runs (S d) (S d) (add_statements stmts).
Proof.
  intros ctx [Hl Hf]. unfold add_statements.
  destruct stmts as [|s stmts].
  - exists tt, ctx. split; [reflexivity|]. split; assumption.
  - destruct (scope_stack ctx) as [|[b l] rest] eqn:E; [discriminate Hl|].
    eexists. eexists. split; [reflexivity|]. split; [exact Hl|exact Hf].
Qed.

Lemma runs_add_statement (d : nat) (stmt : tree) :
  runs (S d) (S d) (add_statement stmt).
Proof. apply runs_add_statements. Qed.

Lemma runs_emit (A : Type) (d : nat) (e : Emitter A) :
  total e -> runs (S d) (S d) (emit e).
Proof.
  intros He ctx Hd. unfold emit.
  destruct (He (next_uid ctx)) as [a [stmts [reports [uid' E]]]]. rewrite E.
  assert (R : runs (S d) (S d)
                (bind (add_statements stmts) (fun _ : unit => ret a)))
    by (eapply runs_bind; [apply runs_add_statements|intros; apply runs_ret]).
  apply R. exact Hd.
Qed.

Lemma runs_push_block (d : nat) (b : tree) : runs d (S d) (push_block b).
Proof.
  intros ctx [Hl Hf]. eexists. eexists. split; [reflexivity|].
  split; [cbn; rewrite Hl; reflexivity|exact Hf].
Qed.

Lemma runs_pop_block `{Backend} (d : nat) : runs (S d) d pop_block.
Proof.
  intros ctx [Hl Hf]. unfold pop_block.
  destruct (scope_stack ctx) as [|[b l] rest] eqn:E; [discriminate Hl|].
  eexists. eexists. split; [reflexivity|].
  split; [cbn in *; lia|exact Hf].
Qed.

Section MatchFacts.

Import TyTy.
Context `{Backend}.

Variable new_addr : nat -> addr.
Variable lookup_type : NodeMapping -> option BaseType.
Variable is_primitive_type_kind : TypeKind -> bool.
Variable is_unit : BaseType -> bool.
Variable compile : BaseType -> tree.
Variable compile_expr : Expr -> Emitter tree.
Variable compile_case_label : Pattern -> tree -> Emitter tree.
Variable compile_bindings : Pattern -> tree -> Emitter unit.

Lemma compile_patterns_segment (patterns : list Pattern) (case_label mse : tree) :
  forall ctx ctx' u,
    compile_patterns compile_case_label compile_bindings patterns case_label mse ctx
    = Ok (u, ctx') ->
    exists seg,
      appended ctx ctx' seg
      /\ patterns_segment compile_case_label compile_bindings case_label mse
                          patterns seg.
Proof.
  induction patterns as [|p patterns IH]; intros ctx ctx' u E;
    cbn [compile_patterns] in E.
  - apply ret_Ok_inv in E. destruct E as [_ ->]. exists [].
    split; [apply appended_refl|reflexivity].
  - apply bind_Ok_inv in E. destruct E as [k [c1 [E1 E]]].
    apply bind_Ok_inv in E. destruct E as [u2 [c2 [E2 E]]].
    apply bind_Ok_inv in E. destruct E as [[] [c3 [E3 E]]].
    apply emit_appended in E1. destruct E1 as [s1 [d1 [uid1 [H1 A1]]]].
    apply add_statement_appended in E2.
    apply emit_appended in E3. destruct E3 as [s3 [d3 [uid3 [H3 A3]]]].
    apply IH in E. destruct E as [s4 [A4 P4]].
    exists (s1 ++ [k] ++ s3 ++ s4). split.
    + eapply appended_trans; [exact A1|].
      eapply appended_trans; [exact E2|].
      eapply appended_trans; [exact A3|exact A4].
    + cbn [patterns_segment]. exists k, s1, s3, s4.
      split; [reflexivity|].
      split; [do 3 eexists; exact H1|].
      split; [do 3 eexists; exact H3|exact P4].
Qed.

Lemma compile_case_segment (fn : tree) (tmp : option Bvariable) (end_label mse : tree)
      (kase : MatchCase) (ctx ctx' : Context) (u : unit) :
  compile_case compile_expr compile_case_label compile_bindings
               fn tmp end_label mse kase ctx = Ok (u, ctx') ->
  exists seg, appended ctx ctx' seg
              /\ case_segment compile_expr compile_case_label compile_bindings
                              fn tmp end_label mse kase seg.
Proof.
  unfold compile_case. intros E.
  apply bind_Ok_inv in E. destruct E as [u1 [c1 [E1 E]]].
  apply assert_Ok_inv in E1. destruct E1 as [_ ->].
  apply bind_Ok_inv in E. destruct E as [uid [c2 [E2 E]]].
  apply fresh_uid_appended in E2. destruct E2 as [_ A2].
  apply bind_Ok_inv in E. destruct E as [u3 [c3 [E3 E]]].
  apply compile_patterns_segment in E3. destruct E3 as [s3 [A3 P3]].
  apply bind_Ok_inv in E. destruct E as [kase_expr_tree [c4 [E4 E]]].
  apply emit_appended in E4. destruct E4 as [s4 [d4 [uid4 [Hc A4]]]].
  apply bind_Ok_inv in E. destruct E as [u5 [c5 [E5 E]]].
  apply add_statement_appended in E.
  assert (A5 : appended c4 c5
                 match tmp with
                 | Some tmp =>
                     [assignment_statement
                        (var_expression tmp (arm_locus (get_arm kase)))
                        kase_expr_tree (arm_locus (get_arm kase))]
                 | None => []
                 end).
  { destruct tmp as [v|].
    - apply add_statement_appended in E5. exact E5.
    - apply ret_Ok_inv in E5. destruct E5 as [_ ->]. apply appended_refl. }
  eexists. split.
  - eapply appended_trans; [exact A2|].
    eapply appended_trans; [exact A3|].
    eapply appended_trans; [exact A4|].
    eapply appended_trans; [exact A5|exact E].
  - exists uid, s3, kase_expr_tree, s4. split; [reflexivity|].
    split; [exact P3|]. do 3 eexists. exact Hc.
Qed.

Lemma compile_cases_segments (fn : tree) (tmp : option Bvariable) (end_label mse : tree)
      (cases : list MatchCase) :
  forall ctx ctx' u,
    compile_cases compile_expr compile_case_label compile_bindings
                  fn tmp end_label mse cases ctx = Ok (u, ctx') ->
    exists segs,
      appended ctx ctx' (concat segs)
      /\ Forall2 (case_segment compile_expr compile_case_label compile_bindings
                               fn tmp end_label mse) cases segs.
Proof.
  induction cases as [|kase cases IH]; intros ctx ctx' u E;
    cbn [compile_cases] in E.
  - apply ret_Ok_inv in E. destruct E as [_ ->]. exists []. split.
    + apply appended_refl.
    + constructor.
  - apply bind_Ok_inv in E. destruct E as [u1 [c1 [E1 E]]].
    apply compile_case_segment in E1. destruct E1 as [seg [A1 S1]].
    apply IH in E. destruct E as [segs [A2 S2]].
    exists (seg :: segs). split.
    + cbn [concat]. eapply appended_trans; eassumption.
    + constructor; assumption.
Qed.

Lemma appended_enclosing_scope (c c' : Context) (stmts : list tree) :
  appended c c' stmts -> enclosing_scope_of c' = enclosing_scope_of c.
Proof.
  unfold appended, enclosing_scope_of. intros [_ Hs].
  destruct (scope_stack c) as [|[b l] rest].
  - destruct Hs as [_ ->]. reflexivity.
  - rewrite Hs. reflexivity.
Qed.

Lemma peek_enclosing_scope_value (ctx ctx' : Context) (b : tree) :
  peek_enclosing_scope ctx = Ok (b, ctx') -> b = enclosing_scope_of ctx.
Proof.
  unfold peek_enclosing_scope, enclosing_scope_of.
  destruct (scope_stack ctx) as [|[b0 l] rest]; intros E; inversion E; reflexivity.
Qed.

Lemma fresh_uid_next (ctx ctx' : Context) (uid : nat) :
  fresh_uid ctx = Ok (uid, ctx') -> next_uid ctx' = S (next_uid ctx).
Proof. unfold fresh_uid. intros E. inversion E. reflexivity. Qed.

Lemma add_statement_next_uid (stmt : tree) (ctx ctx' : Context) (u : unit) :
  add_statement stmt ctx = Ok (u, ctx') -> next_uid ctx' = next_uid ctx.
Proof.
  unfold add_statement, add_statements.
  destruct (scope_stack ctx) as [|[b l] rest]; intros E; inversion E; reflexivity.
Qed.

Lemma visit_MatchExpr_steps (expr : MatchExpr) (translated : tree)
      (ctx ctx' : Context) (t : tree) (sty ety : BaseType) :
  lookup_type (expr_mappings (get_scrutinee_expr expr)) = Some sty ->
  lookup_type (get_mappings expr) = Some ety ->
  visit_MatchExpr new_addr lookup_type is_primitive_type_kind is_unit compile
                  compile_expr compile_case_label compile_bindings
                  expr translated ctx = Ok (t, ctx') ->
  exists fnctx,
    hd_error (fn_stack ctx) = Some fnctx
    /\ let tmp_decl :=
         temporary_variable (fndecl fnctx) (enclosing_scope_of ctx) (compile ety)
                            NULL_TREE false (get_locus expr) (next_uid ctx) in
       let tmp := if is_unit ety then None else Some (fst tmp_decl) in
       exists lowered mse s1 d1 uid1 bindings_scrutinee qualifier s2 uid_label segs,
         let end_label :=
           label (fndecl fnctx) EmptyString (get_locus expr) uid_label in
         let body_block :=
           block (fndecl fnctx) (enclosing_scope_of ctx) [] UNKNOWN_LOCATION
                 UNKNOWN_LOCATION (S uid_label) in
         appended ctx ctx'
           ((if is_unit ety then [] else [snd tmp_decl])
            ++ s1 ++ s2
            ++ [SWITCH_EXPR (get_locus expr) (TREE_TYPE qualifier) qualifier
                  (block_add_statements body_block (concat segs));
                label_definition_statement end_label])
         /\ compile_expr (get_scrutinee_expr expr)
                         (if is_unit ety then next_uid ctx else S (next_uid ctx))
            = Ok (mse, s1, d1, uid1)
         /\ (if is_primitive_type_kind (get_kind sty)
             then lowered = expr /\ bindings_scrutinee = mse
                  /\ qualifier = mse /\ s2 = [] /\ uid_label = uid1
             else if TypeKind_eqb (get_kind sty) ADT
             then lowered = expr /\ bindings_scrutinee = mse
                  /\ qualifier
                     = struct_field_expression
                         (struct_field_expression mse 0
                            (expr_locus (get_scrutinee_expr expr)))
                         0 (expr_locus (get_scrutinee_expr expr))
                  /\ s2 = [] /\ uid_label = uid1
             else (exists k k',
                      simplify_tuple_match new_addr
                        (expr_size (get_scrutinee_expr expr)) expr k
                      = Ok (lowered, k'))
                  /\ (exists d2,
                         compile_expr (get_scrutinee_expr lowered) uid1
                         = Ok (bindings_scrutinee, s2, d2, uid_label))
                  /\ qualifier = bindings_scrutinee)
         /\ Forall2 (case_segment compile_expr compile_case_label compile_bindings
                                  (fndecl fnctx) tmp end_label bindings_scrutinee)
                    (get_match_cases lowered) segs
         /\ t = match tmp with
                | Some v => var_expression v (get_locus expr)
                | None => translated
                end.
Proof.
  intros Hsty Hety E. unfold visit_MatchExpr in E. rewrite Hsty in E.
  apply bind_Ok_inv in E. destruct E as [u0 [c0 [E0 E]]].
  apply assert_Ok_inv in E0. destruct E0 as [_ ->].
  apply bind_Ok_inv in E. destruct E as [u1 [c1 [E1 E]]].
  assert (Hc1 : scope_stack c1 = scope_stack ctx
                /\ fn_stack c1 = fn_stack ctx /\ next_uid c1 = next_uid ctx).
  { destruct (TypeKind_eqb (get_kind sty) ADT).
    - destruct sty; try discriminate E1.
      apply bind_Ok_inv in E1. destruct E1 as [u2 [c2 [E2 E1]]].
      apply assert_Ok_inv in E2. destruct E2 as [_ ->].
      apply assert_Ok_inv in E1. destruct E1 as [_ ->]. repeat split.
    - destruct (TypeKind_eqb (get_kind sty) FLOAT).
      + unfold report in E1. inversion E1; subst. repeat split.
      + apply ret_Ok_inv in E1. destruct E1 as [_ ->]. repeat split. }
  clear E1. destruct Hc1 as [Hs1 [Hf1 Hu1]].
  rewrite Hety in E.
  apply bind_Ok_inv in E. destruct E as [fnctx [c2 [E2 E]]].
  apply peek_fn_Ok_inv in E2. destruct E2 as [-> Hfn]. rewrite Hf1 in Hfn.
  exists fnctx. split; [exact Hfn|].
  apply bind_Ok_inv in E. destruct E as [tmp [c3 [E3 E]]].
  assert (Htmp :
            tmp = (if is_unit ety then None
                   else Some (fst (temporary_variable (fndecl fnctx)
                                     (enclosing_scope_of ctx) (compile ety)
                                     NULL_TREE false (get_locus expr)
                                     (next_uid ctx))))
            /\ appended ctx c3
                 (if is_unit ety then []
                  else [snd (temporary_variable (fndecl fnctx)
                               (enclosing_scope_of ctx) (compile ety)
                               NULL_TREE false (get_locus expr)
                               (next_uid ctx))])
            /\ next_uid c3
               = (if is_unit ety then next_uid ctx else S (next_uid ctx))).
  { destruct (is_unit ety); cbn [negb] in E3.
    - apply ret_Ok_inv in E3. destruct E3 as [-> ->]. split; [reflexivity|].
      split; [apply same_stacks_appended; assumption|exact Hu1].
    - apply bind_Ok_inv in E3. destruct E3 as [scope [c4 [E4 E3]]].
      assert (Hscope : scope = enclosing_scope_of ctx).
      { apply peek_enclosing_scope_value in E4. rewrite E4.
        unfold enclosing_scope_of. rewrite Hs1. reflexivity. }
      apply peek_enclosing_scope_Ok_inv in E4. subst c4.
      apply bind_Ok_inv in E3. destruct E3 as [uid [c5 [E5 E3]]].
      pose proof (fresh_uid_next E5) as Hn5.
      apply fresh_uid_appended in E5. destruct E5 as [-> A5].
      rewrite Hu1, Hscope in E3.
      destruct (temporary_variable (fndecl fnctx) (enclosing_scope_of ctx)
                  (compile ety) NULL_TREE false (get_locus expr) (next_uid ctx))
        as [v stmt].
      apply bind_Ok_inv in E3. destruct E3 as [u6 [c6 [E6 E3]]].
      apply ret_Ok_inv in E3. destruct E3 as [-> ->].
      pose proof (add_statement_next_uid _ _ E6) as Hn6.
      apply add_statement_appended in E6. split; [reflexivity|].
      cbn [snd]. split; [|rewrite Hn6, Hn5, Hu1; reflexivity].
      eapply appended_same_start; [exact Hs1|exact Hf1|].
      exact (appended_trans A5 E6). }
  clear E3. destruct Htmp as [Htmp [A3 Hn3]].
  apply bind_Ok_inv in E. destruct E as [mse [c4 [E4 E]]].
  apply emit_inv in E4. destruct E4 as [s1 [d1 [Hmse [A4 _]]]].
  rewrite Hn3 in Hmse.
  apply bind_Ok_inv in E. destruct E as [[[lowered mse'] qualifier] [c5 [E5 E]]].
  assert (Hlow :
            get_locus lowered = get_locus expr
            /\ exists s2,
                 appended c4 c5 s2
                 /\ if is_primitive_type_kind (get_kind sty)
                    then lowered = expr /\ mse' = mse /\ qualifier = mse /\ s2 = []
                         /\ next_uid c5 = next_uid c4
                    else if TypeKind_eqb (get_kind sty) ADT
                    then lowered = expr /\ mse' = mse
                         /\ qualifier
                            = struct_field_expression
                                (struct_field_expression mse 0
                                   (expr_locus (get_scrutinee_expr expr)))
                                0 (expr_locus (get_scrutinee_expr expr))
                         /\ s2 = [] /\ next_uid c5 = next_uid c4
                    else (exists k k',
                             simplify_tuple_match new_addr
                               (expr_size (get_scrutinee_expr expr)) expr k
                             = Ok (lowered, k'))
                         /\ (exists d2,
                                compile_expr (get_scrutinee_expr lowered)
                                             (next_uid c4)
                                = Ok (mse', s2, d2, next_uid c5))
                         /\ qualifier = mse').
  { destruct (is_primitive_type_kind (get_kind sty)).
    - apply ret_Ok_inv in E5. destruct E5 as [E5 ->]. inversion E5; subst.
      split; [reflexivity|]. exists []. split; [apply appended_refl|].
      repeat split.
    - destruct (TypeKind_eqb (get_kind sty) ADT).
      + apply ret_Ok_inv in E5. destruct E5 as [E5 ->]. inversion E5; subst.
        split; [reflexivity|]. exists []. split; [apply appended_refl|].
        repeat split.
      + destruct (TypeKind_eqb (get_kind sty) TUPLE); [|discriminate E5].
        destruct (get_expression_type (get_scrutinee_expr expr)) eqn:Et;
          try discriminate E5.
        apply bind_Ok_inv in E5. destruct E5 as [outer [c6 [E6 E5]]].
        apply bind_Ok_inv in E5. destruct E5 as [mse2 [c7 [E7 E5]]].
        apply ret_Ok_inv in E5. destruct E5 as [E5 ->]. inversion E5; subst.
        unfold simplify in E6.
        destruct (simplify_tuple_match new_addr
                    (expr_size (get_scrutinee_expr expr)) expr (next_key c4))
          as [[m k]| |] eqn:Esim; try discriminate E6.
        inversion E6; subst.
        split; [apply simplify_tuple_match_locus in Esim; apply Esim|].
        apply emit_inv in E7. destruct E7 as [s2 [d2 [Hq [A7 _]]]].
        exists s2. split.
        * eapply appended_same_start; [| |exact A7]; reflexivity.
        * split; [exists (next_key c4), k; exact Esim|].
          split; [exists d2; exact Hq|reflexivity]. }
  clear E5. destruct Hlow as [Hloc [s2 [A5 Hlow]]].
  apply bind_Ok_inv in E. destruct E as [uid6 [c6 [E6 E]]].
  pose proof (fresh_uid_next E6) as Hn6.
  apply fresh_uid_appended in E6. destruct E6 as [-> A6].
  apply bind_Ok_inv in E. destruct E as [scope7 [c7 [E7 E]]].
  assert (Hscope7 : scope7 = enclosing_scope_of ctx).
  { apply peek_enclosing_scope_value in E7. rewrite E7.
    rewrite (appended_enclosing_scope A6).
    rewrite (appended_enclosing_scope A5).
    rewrite (appended_enclosing_scope A4).
    exact (appended_enclosing_scope A3). }
  apply peek_enclosing_scope_Ok_inv in E7. subst c7.
  apply bind_Ok_inv in E. destruct E as [uid8 [c8 [E8 E]]].
  apply fresh_uid_appended in E8. destruct E8 as [-> A8].
  apply bind_Ok_inv in E. destruct E as [u9 [c9 [E9 E]]].
  unfold push_block in E9. inversion E9; subst c9. clear E9.
  apply bind_Ok_inv in E. destruct E as [u10 [c10 [E10 E]]].
  apply compile_cases_segments in E10. destruct E10 as [segs [A10 S10]].
  destruct A10 as [Hf10 Hs10]. cbn [scope_stack fn_stack app] in Hf10, Hs10.
  apply bind_Ok_inv in E. destruct E as [match_body [c11 [E11 E]]].
  unfold pop_block in E11. rewrite Hs10 in E11.
  injection E11 as Hmb Hc11. subst match_body c11.
  apply bind_Ok_inv in E. destruct E as [u12 [c12 [E12 E]]].
  apply add_statement_appended in E12.
  apply bind_Ok_inv in E. destruct E as [u13 [c13 [E13 E]]].
  apply add_statement_appended in E13.
  assert (Hfin : ctx' = c13
                 /\ t = match tmp with
                        | Some v => var_expression v (get_locus expr)
                        | None => translated
                        end).
  { destruct tmp as [v|]; apply ret_Ok_inv in E; destruct E as [-> ->];
      rewrite ?Hloc; split; reflexivity. }
  destruct Hfin as [-> Ht].
  cbv zeta. rewrite <- Htmp. rewrite Hloc, Hscope7, Hn6 in *.
  exists lowered, mse, s1, d1, (next_uid c4), mse', qualifier, s2, (next_uid c5), segs.
  split; [|split; [exact Hmse|split; [|split; [exact S10|exact Ht]]]].
  - eapply appended_trans; [exact A3|].
    eapply appended_trans; [exact A4|].
    eapply appended_trans; [exact A5|].
    refine (appended_trans (appended_trans A6 A8) _).
    match type of E12 with
    | appended ?c _ _ =>
        assert (A11 : appended c8 c [])
          by (apply same_stacks_appended; cbn [scope_stack fn_stack];
              [reflexivity|exact Hf10])
    end.
    exact (appended_trans A11 (appended_trans E12 E13)).
  - destruct (is_primitive_type_kind (get_kind sty));
      [|destruct (TypeKind_eqb (get_kind sty) ADT)]; exact Hlow.
Qed.

Hypothesis compile_expr_total : forall e, total (compile_expr e).
Hypothesis compile_case_label_total : forall p l, total (compile_case_label p l).
Hypothesis compile_bindings_total : forall p t, total (compile_bindings p t).

Lemma runs_compile_patterns (d : nat) (patterns : list Pattern) (case_label mse : tree) :
  runs (S d) (S d)
       (compile_patterns compile_case_label compile_bindings patterns case_label mse).
Proof.
  induction patterns as [|p patterns IH]; cbn [compile_patterns].
  - apply runs_ret.
  - eapply runs_bind; [apply runs_emit, compile_case_label_total|intros k].
    eapply runs_bind; [apply runs_add_statement|intros _].
    eapply runs_bind; [apply runs_emit, compile_bindings_total|intros _].
    exact IH.
Qed.

Lemma runs_compile_case (d : nat) (fn : tree) (tmp : option Bvariable)
      (end_label mse : tree) (kase : MatchCase) :
  get_patterns (get_arm kase) <> [] ->
  runs (S d) (S d)
       (compile_case compile_expr compile_case_label compile_bindings
                     fn tmp end_label mse kase).
Proof.
  intros Hne. unfold compile_case.
  eapply runs_bind.
  { apply runs_assert. destruct (get_patterns (get_arm kase));
      [contradiction|reflexivity]. }
  intros _. eapply runs_bind; [apply runs_fresh_uid|intros uid].
  eapply runs_bind; [apply runs_compile_patterns|intros _].
  eapply runs_bind; [apply runs_emit, compile_expr_total|intros kase_expr_tree].
  eapply runs_bind; [|intros _; apply runs_add_statement].
  destruct tmp as [v|]; [apply runs_add_statement|apply runs_ret].
Qed.

Lemma runs_compile_cases (d : nat) (fn : tree) (tmp : option Bvariable)
      (end_label mse : tree) (cases : list MatchCase) :
  Forall (fun kase => get_patterns (get_arm kase) <> []) cases ->
  runs (S d) (S d)
       (compile_cases compile_expr compile_case_label compile_bindings
                      fn tmp end_label mse cases).
Proof.
  induction 1 as [|kase cases Hk Hcs IH]; cbn [compile_cases].
  - apply runs_ret.
  - eapply runs_bind; [apply runs_compile_case; exact Hk|intros _; exact IH].
Qed.

(** With resolved types, a scrutinee of a primitive type or of an
    enumeration, arms that have a pattern and compilers of the parts that
    return, the lowering of the match returns. *)
Lemma visit_MatchExpr_returns (d : nat) (expr : MatchExpr) (translated : tree)
      (sty ety : BaseType) :
  lookup_type (expr_mappings (get_scrutinee_expr expr)) = Some sty ->
  lookup_type (get_mappings expr) = Some ety ->
  (is_primitive_type_kind (get_kind sty) = true
   /\ TypeKind_eqb (get_kind sty) NEVER = false
   /\ TypeKind_eqb (get_kind sty) ADT = false)
  \/ (exists name n, sty = ADTType name true (S n)) ->
  Forall (fun kase => get_patterns (get_arm kase) <> []) (get_match_cases expr) ->
  runs (S d) (S d)
       (visit_MatchExpr new_addr lookup_type is_primitive_type_kind is_unit compile
                        compile_expr compile_case_label compile_bindings
                        expr translated).
Proof.
  intros Hsty Hety Hkind Hcases. unfold visit_MatchExpr. rewrite Hsty. cbv zeta.
  eapply runs_bind.
  { apply runs_assert. destruct Hkind as [[Hp [Hn _]]|[name [n ->]]].
    - rewrite Hp, Hn. reflexivity.
    - cbn. apply orb_true_iff. left. apply orb_true_r. }
  intros _. eapply runs_bind.
  { destruct Hkind as [[_ [_ Ha]]|[name [n ->]]].
    - rewrite Ha. destruct (TypeKind_eqb (get_kind sty) FLOAT);
        [apply runs_report|apply runs_ret].
    - cbn [get_kind TypeKind_eqb].
      eapply runs_bind; [apply runs_assert; reflexivity|intros _].
      apply runs_assert. reflexivity. }
  intros _. rewrite Hety.
  eapply runs_bind; [apply runs_peek_fn|intros fnctx].
  eapply runs_bind.
  { destruct (is_unit ety); cbn [negb]; [apply runs_ret|].
    eapply runs_bind; [apply runs_peek_enclosing_scope|intros scope].
    eapply runs_bind; [apply runs_fresh_uid|intros uid].
    destruct (temporary_variable (fndecl fnctx) scope (compile ety) NULL_TREE
                false (get_locus expr) uid) as [v stmt].
    eapply runs_bind; [apply runs_add_statement|intros _; apply runs_ret]. }
  intros tmp.
  eapply runs_bind; [apply runs_emit, compile_expr_total|intros mse].
  eapply (runs_to_bind (P := fun l => fst (fst l) = expr)).
  { destruct Hkind as [[Hp _]|[name [n ->]]].
    - rewrite Hp. apply runs_to_ret. reflexivity.
    - cbn. destruct (is_primitive_type_kind ADT); apply runs_to_ret; reflexivity. }
  intros [[lowered mse'] qualifier] Hl. cbn [fst] in Hl. subst lowered.
  eapply runs_bind; [apply runs_fresh_uid|intros uid1].
  eapply runs_bind; [apply runs_peek_enclosing_scope|intros scope].
  eapply runs_bind; [apply runs_fresh_uid|intros uid2].
  eapply runs_bind; [apply runs_push_block|intros _].
  eapply runs_bind; [apply runs_compile_cases; exact Hcases|intros _].
  eapply runs_bind; [apply runs_pop_block|intros match_body].
  eapply runs_bind; [apply runs_add_statement|intros _].
  eapply runs_bind; [apply runs_add_statement|intros _].
  destruct tmp as [v|]; apply runs_ret.
Qed.

End MatchFacts.

(** C8 (counterexample).  [match x { 1 => 10, 2 => 20 }] of unit type is
    lowered without a temporary, and the value of the match is the result
    register of the visitor as it was on entry: the error value when it held
    the error value, the null tree when it held the null tree, never the unit
    value of the backend. *)
Lemma visit_MatchExpr_unit_is_not_unit_value :
  (exists ctx',
      visit_MatchExpr Examples.bump_up LoweringExamples.lookup_type
        LoweringExamples.is_primitive_type_kind LoweringExamples.is_unit
        LoweringExamples.compile_type LoweringExamples.compile_expr
        LoweringExamples.compile_case_label LoweringExamples.compile_bindings
        (LoweringExamples.small_match 300) error_mark_node
        LoweringExamples.empty_context
      = Ok (error_mark_node, ctx'))
  /\ (exists ctx',
         visit_MatchExpr Examples.bump_up LoweringExamples.lookup_type
           LoweringExamples.is_primitive_type_kind LoweringExamples.is_unit
           LoweringExamples.compile_type LoweringExamples.compile_expr
           LoweringExamples.compile_case_label LoweringExamples.compile_bindings
           (LoweringExamples.small_match 300) NULL_TREE
           LoweringExamples.empty_context
         = Ok (NULL_TREE, ctx'))
  /\ LoweringExamples.is_unit LoweringExamples.unit_type = true
  /\ error_mark_node <> unit_expression
  /\ NULL_TREE <> unit_expression.
Proof.
  split; [eexists; vm_compute; reflexivity|].
  split; [eexists; vm_compute; reflexivity|].
  split; [reflexivity|]. split; discriminate.
Qed.

(** C8 (amended).  With resolved types, a scrutinee of a primitive type or
    of an enumeration, arms that have a pattern and compilers of the parts
    that return, the lowering returns.  Whenever the types of the scrutinee
    and of the match are resolved and the lowering returns, what it has
    appended to the current block is, in this order and nothing else: the
    declaration of a temporary, exactly when the type of the match is not the
    unit type; the statements of the compiled scrutinee (and, for a tuple, of
    the compiled scrutinee of the nested match); the switch; the definition
    of the end label.  The body of the switch is, for the cases in source
    order and nothing else, the statements of the patterns of the case with
    their case labels, the statements of its compiled result, the assignment
    of that result to the temporary, exactly when there is one, and a jump to
    that one end label.  The value of the match is the temporary when there
    is one, and otherwise the result register is left as it was. *)
Theorem visit_MatchExpr_lowering :
  forall (B : Backend) (new_addr : nat -> addr)
         (lookup_type : NodeMapping -> option TyTy.BaseType)
         (is_primitive_type_kind : TyTy.TypeKind -> bool)
         (is_unit : TyTy.BaseType -> bool)
         (compile : TyTy.BaseType -> tree)
         (compile_expr : Expr -> Emitter tree)
         (compile_case_label : Pattern -> tree -> Emitter tree)
         (compile_bindings : Pattern -> tree -> Emitter unit)
         (expr : MatchExpr) (translated : tree) (sty ety : TyTy.BaseType),
    lookup_type (expr_mappings (get_scrutinee_expr expr)) = Some sty ->
    lookup_type (get_mappings expr) = Some ety ->
    let visit :=
      visit_MatchExpr new_addr lookup_type is_primitive_type_kind is_unit compile
                      compile_expr compile_case_label compile_bindings
                      expr translated in
    ((forall e, total (compile_expr e)) ->
     (forall p l, total (compile_case_label p l)) ->
     (forall p s, total (compile_bindings p s)) ->
     (is_primitive_type_kind (TyTy.get_kind sty) = true
      /\ TyTy.TypeKind_eqb (TyTy.get_kind sty) TyTy.NEVER = false
      /\ TyTy.TypeKind_eqb (TyTy.get_kind sty) TyTy.ADT = false)
     \/ (exists name n, sty = TyTy.ADTType name true (S n)) ->
     Forall (fun kase => get_patterns (get_arm kase) <> []) (get_match_cases expr) ->
     forall ctx,
       scope_stack ctx <> [] -> fn_stack ctx <> [] ->
       exists t ctx', visit ctx = Ok (t, ctx'))
    /\ (forall ctx ctx' t,
          visit ctx = Ok (t, ctx') ->
          exists fnctx,
            hd_error (fn_stack ctx) = Some fnctx
            /\ let tmp_decl :=
                 temporary_variable (fndecl fnctx) (enclosing_scope_of ctx)
                                    (compile ety) NULL_TREE false (get_locus expr)
                                    (next_uid ctx) in
               let tmp := if is_unit ety then None else Some (fst tmp_decl) in
               exists lowered mse s1 d1 uid1 bindings_scrutinee qualifier s2
                      uid_label segs,
                 let end_label :=
                   label (fndecl fnctx) EmptyString (get_locus expr) uid_label in
                 let body_block :=
                   block (fndecl fnctx) (enclosing_scope_of ctx) []
                         UNKNOWN_LOCATION UNKNOWN_LOCATION (S uid_label) in
                 appended ctx ctx'
                   ((if is_unit ety then [] else [snd tmp_decl])
                    ++ s1 ++ s2
                    ++ [SWITCH_EXPR (get_locus expr) (TREE_TYPE qualifier) qualifier
                          (block_add_statements body_block (concat segs));
                        label_definition_statement end_label])
                 /\ compile_expr (get_scrutinee_expr expr)
                                 (if is_unit ety then next_uid ctx
                                  else S (next_uid ctx))
                    = Ok (mse, s1, d1, uid1)
                 /\ (if is_primitive_type_kind (TyTy.get_kind sty)
                     then lowered = expr /\ bindings_scrutinee = mse
                          /\ qualifier = mse /\ s2 = [] /\ uid_label = uid1
                     else if TyTy.TypeKind_eqb (TyTy.get_kind sty) TyTy.ADT
                     then lowered = expr /\ bindings_scrutinee = mse
                          /\ qualifier
                             = struct_field_expression
                                 (struct_field_expression mse 0
                                    (expr_locus (get_scrutinee_expr expr)))
                                 0 (expr_locus (get_scrutinee_expr expr))
                          /\ s2 = [] /\ uid_label = uid1
                     else (exists k k',
                              simplify_tuple_match new_addr
                                (expr_size (get_scrutinee_expr expr)) expr k
                              = Ok (lowered, k'))
                          /\ (exists d2,
                                 compile_expr (get_scrutinee_expr lowered) uid1
                                 = Ok (bindings_scrutinee, s2, d2, uid_label))
                          /\ qualifier = bindings_scrutinee)
                 /\ Forall2 (case_segment compile_expr compile_case_label
                                          compile_bindings (fndecl fnctx) tmp
                                          end_label bindings_scrutinee)
                            (get_match_cases lowered) segs
                 /\ t = match tmp with
                        | Some v => var_expression v (get_locus expr)
                        | None => translated
                        end).
Proof.
  intros B new_addr lookup_type is_primitive_type_kind is_unit compile compile_expr
         compile_case_label compile_bindings expr translated sty ety
         Hsty Hety visit.
  split.
  - intros He Hl Hb Hkind Hcases ctx Hs Hf.
    destruct (scope_stack ctx) as [|b rest] eqn:Es; [contradiction|].
    assert (Hd : at_depth (S (length rest)) ctx).
    { split; [rewrite Es; reflexivity|exact Hf]. }
    assert (R : runs (S (length rest)) (S (length rest)) visit)
      by (unfold visit; eapply visit_MatchExpr_returns; eassumption).
    destruct (R ctx Hd) as [t [ctx' [Hrun _]]].
    exists t, ctx'. exact Hrun.
  - intros ctx ctx' t Hrun.
    eapply visit_MatchExpr_steps; eassumption.
Qed.

Lemma example_compilers_total :
  (forall e, total (LoweringExamples.compile_expr e))
  /\ (forall p l, total (LoweringExamples.compile_case_label p l))
  /\ (forall p s, total (LoweringExamples.compile_bindings p s)).
Proof.
  split; [|split].
  - intros e uid. unfold LoweringExamples.compile_expr.
    destruct e as [lm k|m|rm elems rl|mm s cs ml];
      try destruct (Nat.eqb m 9); do 4 eexists; reflexivity.
  - intros p l uid. unfold LoweringExamples.compile_case_label.
    destruct p; do 4 eexists; reflexivity.
  - intros p s uid. do 4 eexists. reflexivity.
Qed.

Lemma visit_MatchExpr_lowering_witness :
  (exists t ctx',
      visit_MatchExpr Examples.bump_up LoweringExamples.lookup_type
        LoweringExamples.is_primitive_type_kind LoweringExamples.is_unit
        LoweringExamples.compile_type LoweringExamples.compile_expr
        LoweringExamples.compile_case_label LoweringExamples.compile_bindings
        (LoweringExamples.small_match 100) error_mark_node
        LoweringExamples.empty_context
      = Ok (t, ctx'))
  /\ (exists ctx' segs,
         visit_MatchExpr Examples.bump_up LoweringExamples.lookup_type
           LoweringExamples.is_primitive_type_kind LoweringExamples.is_unit
           LoweringExamples.compile_type LoweringExamples.compile_expr
           LoweringExamples.compile_case_label LoweringExamples.compile_bindings
           (LoweringExamples.small_match 100) error_mark_node
           LoweringExamples.empty_context
         = Ok (VAR_DECL LoweringExamples.i32_tree 1, ctx')
         /\ appended LoweringExamples.empty_context ctx'
              ([DECL_EXPR (VAR_DECL LoweringExamples.i32_tree 1)]
               ++ [SWITCH_EXPR 5 LoweringExamples.i32_tree
                     (VALUE LoweringExamples.i32_tree 1)
                     (BIND_EXPR 3 (concat segs));
                   LABEL_EXPR (LABEL_DECL 2)])
         /\ Forall2 (case_segment LoweringExamples.compile_expr
                       LoweringExamples.compile_case_label
                       LoweringExamples.compile_bindings
                       (FUNCTION_DECL (FUNCTION_TYPE LoweringExamples.i32_tree) 0)
                       (Some (VAR_DECL LoweringExamples.i32_tree 1))
                       (LABEL_DECL 2) (VALUE LoweringExamples.i32_tree 1))
                    (get_match_cases (LoweringExamples.small_match 100)) segs)
  /\ (exists ctx' segs,
         visit_MatchExpr Examples.bump_up LoweringExamples.lookup_type
           LoweringExamples.is_primitive_type_kind LoweringExamples.is_unit
           LoweringExamples.compile_type LoweringExamples.compile_expr
           LoweringExamples.compile_case_label LoweringExamples.compile_bindings
           (LoweringExamples.small_match 300) NULL_TREE
           LoweringExamples.empty_context
         = Ok (NULL_TREE, ctx')
         /\ appended LoweringExamples.empty_context ctx'
              [SWITCH_EXPR 5 LoweringExamples.i32_tree
                 (VALUE LoweringExamples.i32_tree 1)
                 (BIND_EXPR 2 (concat segs));
               LABEL_EXPR (LABEL_DECL 1)]
         /\ Forall2 (case_segment LoweringExamples.compile_expr
                       LoweringExamples.compile_case_label
                       LoweringExamples.compile_bindings
                       (FUNCTION_DECL (FUNCTION_TYPE LoweringExamples.i32_tree) 0)
                       None (LABEL_DECL 1) (VALUE LoweringExamples.i32_tree 1))
                    (get_match_cases (LoweringExamples.small_match 300)) segs).
Proof.
  destruct (visit_MatchExpr_lowering tree_backend Examples.bump_up
              LoweringExamples.lookup_type LoweringExamples.is_primitive_type_kind
              LoweringExamples.is_unit LoweringExamples.compile_type
              LoweringExamples.compile_expr LoweringExamples.compile_case_label
              LoweringExamples.compile_bindings
              (LoweringExamples.small_match 100) error_mark_node
              (sty := LoweringExamples.i32) (ety := LoweringExamples.i32)
              eq_refl eq_refl) as [Hreturns Hsteps].
  destruct (visit_MatchExpr_lowering tree_backend Examples.bump_up
              LoweringExamples.lookup_type LoweringExamples.is_primitive_type_kind
              LoweringExamples.is_unit LoweringExamples.compile_type
              LoweringExamples.compile_expr LoweringExamples.compile_case_label
              LoweringExamples.compile_bindings
              (LoweringExamples.small_match 300) NULL_TREE
              (sty := LoweringExamples.i32) (ety := LoweringExamples.unit_type)
              eq_refl eq_refl) as [_ Hunit].
  split; [|split].
  - destruct example_compilers_total as [He [Hl Hb]].
    apply (Hreturns He Hl Hb).
    + left. repeat split.
    + repeat constructor; discriminate.
    + discriminate.
    + discriminate.
  - destruct (visit_MatchExpr Examples.bump_up LoweringExamples.lookup_type
                LoweringExamples.is_primitive_type_kind LoweringExamples.is_unit
                LoweringExamples.compile_type LoweringExamples.compile_expr
                LoweringExamples.compile_case_label LoweringExamples.compile_bindings
                (LoweringExamples.small_match 100) error_mark_node
                LoweringExamples.empty_context)
      as [[t ctx']| |] eqn:Hrun; try (vm_compute in Hrun; discriminate Hrun).
    destruct (Hsteps LoweringExamples.empty_context ctx' t Hrun)
      as [fnctx [Hfn [lowered [mse [s1 [d1 [uid1 [bs [q [s2 [ul [segs
           [Happ [Hmse [Hkind [Hsegs Ht]]]]]]]]]]]]]]]].
    cbn in Hfn. injection Hfn as <-.
    cbn in Hkind. destruct Hkind as [-> [-> [-> [-> ->]]]].
    cbn in Hmse. injection Hmse as <- <- _ <-.
    exists ctx', segs. cbn in Ht. subst t.
    split; [reflexivity|]. split; [exact Happ|exact Hsegs].
  - destruct (visit_MatchExpr Examples.bump_up LoweringExamples.lookup_type
                LoweringExamples.is_primitive_type_kind LoweringExamples.is_unit
                LoweringExamples.compile_type LoweringExamples.compile_expr
                LoweringExamples.compile_case_label LoweringExamples.compile_bindings
                (LoweringExamples.small_match 300) NULL_TREE
                LoweringExamples.empty_context)
      as [[t ctx']| |] eqn:Hrun; try (vm_compute in Hrun; discriminate Hrun).
    destruct (Hunit LoweringExamples.empty_context ctx' t Hrun)
      as [fnctx [Hfn [lowered [mse [s1 [d1 [uid1 [bs [q [s2 [ul [segs
           [Happ [Hmse [Hkind [Hsegs Ht]]]]]]]]]]]]]]]].
    cbn in Hfn. injection Hfn as <-.
    cbn in Hkind. destruct Hkind as [-> [-> [-> [-> ->]]]].
    cbn in Hmse. injection Hmse as <- <- _ <-.
    exists ctx', segs. cbn in Ht. subst t.
    split; [reflexivity|]. split; [exact Happ|exact Hsegs].
Defined.

(** * Further properties of the tuple-match decomposition *)

Section DecompositionFacts.

Variable new_addr : nat -> addr.

Lemma organize_case_unguarded (st : PatternMap * nat) (c : MatchCase) :
  organize_case new_addr st (first_alternative_unguarded c)
  = organize_case new_addr st c.
Proof.
  destruct st as [m n]. unfold organize_case, first_alternative_unguarded; cbn.
  destruct (get_patterns (get_arm c)) as [|pat pats]; reflexivity.
Qed.

Lemma organize_loop_unguarded (cases : list MatchCase) :
  forall st,
    organize_loop new_addr (map first_alternative_unguarded cases) st
    = organize_loop new_addr cases st.
Proof.
  induction cases as [|c cases IH]; intros st; cbn [map organize_loop];
    [reflexivity|].
  rewrite organize_case_unguarded.
  destruct (organize_case new_addr st c); cbn [obind]; auto.
Qed.

Lemma simplify_tuple_match_unguarded (fuel : nat) (expr : MatchExpr) (n : nat) :
  is_tuple_expr (get_scrutinee_expr expr) = true ->
  simplify_tuple_match new_addr fuel
    (with_cases expr (map first_alternative_unguarded (get_match_cases expr))) n
  = simplify_tuple_match new_addr fuel expr n.
Proof.
  intros Ht. apply simplify_tuple_match_cases; [exact Ht|].
  unfold organize_tuple_patterns, with_cases;
    cbn [get_scrutinee_expr get_match_cases].
  destruct (rust_assert (is_tuple_expr (get_scrutinee_expr expr)));
    cbn [obind]; try reflexivity.
  apply organize_loop_unguarded.
Qed.

Lemma case_entry_decomposable (c : MatchCase) :
  case_entry c = Abort <-> decomposable c = false.
Proof.
  unfold case_entry, decomposable.
  destruct (get_patterns (get_arm c)) as [|[| | | |pm [[|f ps]|lo up] loc] pats];
    split; intros E; try reflexivity; discriminate E.
Qed.

(** Whether the loop of [organize_tuple_patterns] aborts does not depend on
    the addresses. *)
Lemma organize_loop_aborts (cases : list MatchCase) :
  forall st,
    organize_loop new_addr cases st = Abort
    <-> existsb (fun c => negb (decomposable c)) cases = true.
Proof.
  induction cases as [|c cases IH]; intros [m n]; cbn [organize_loop existsb].
  - split; discriminate.
  - rewrite organize_case_entry.
    pose proof (case_entry_decomposable c) as Hc.
    destruct (case_entry c) as [[[first new_case]|]| |] eqn:E.
    + destruct (decomposable c); [|destruct Hc as [_ Hc]; discriminate Hc; reflexivity].
      cbn [negb orb].
      destruct (map_find (new_addr n) m); cbn [obind]; apply IH.
    + destruct (decomposable c); [|destruct Hc as [_ Hc]; discriminate Hc; reflexivity].
      cbn [negb orb obind]. apply IH.
    + destruct Hc as [Hc _]. rewrite (Hc eq_refl). cbn [negb orb obind].
      split; reflexivity.
    + exfalso. exact (case_entry_fuel c E).
Qed.

(** The arms that [outer_cases] builds. *)
Lemma outer_cases_shape (fuel : nat) (expr : MatchExpr) (remaining : Expr) :
  forall entries n cases n',
    outer_cases (simplify_tuple_match new_addr fuel) expr remaining entries n
    = Ok (cases, n') ->
    map outer_pattern cases = map fst (contents entries)
    /\ Forall (outer_arm_of expr) cases.
Proof.
  induction entries as [|[[a first] second] entries IH]; intros n cases n' E;
    cbn [outer_cases] in E.
  - inversion E; subst. split; [reflexivity|constructor].
  - match type of E with
    | obind ?o _ = _ => destruct o as [[inner k]| |] eqn:Ei
    end; cbn [obind] in E; try discriminate E.
    match type of E with
    | obind ?o _ = _ => destruct o as [[cs k']| |] eqn:Er
    end; cbn [obind] in E; try discriminate E.
    inversion E; subst. destruct (IH _ _ _ Er) as [Hp Hf].
    apply simplify_tuple_match_locus in Ei.
    cbn [get_locus get_mappings] in Ei. destruct Ei as [Hl Hm].
    split.
    + cbn [map contents outer_pattern get_arm get_patterns fst snd].
      f_equal. exact Hp.
    + constructor; [|exact Hf].
      exists first, inner. repeat split; assumption.
Qed.

Hypothesis new_addr_injective : injective new_addr.

(** The nested match of a match all of whose cases are plain tries, on the
    head of the scrutinee, the first elements of the cases kept, in the order
    of the map. *)
Lemma simplify_plain_pick (expr : MatchExpr) (rm : NodeMapping) (head : Expr)
      (tail : list Expr) (rl : Location) :
  get_scrutinee_expr expr = TupleExpr rm (head :: tail) rl ->
  tail <> [] ->
  Forall (plain_case (get_scrutinee_expr expr)) (get_match_cases expr) ->
  forall fuel n,
    expr_size (get_scrutinee_expr expr) <= fuel ->
    exists m' n' entries,
      simplify_tuple_match new_addr fuel expr n = Ok (m', n')
      /\ Permutation entries (flat_map kept_entry (get_match_cases expr))
      /\ forall env,
           reach env (clone_expr m')
           = pick (eval env head)
                  (map (entry_branch env (remaining_of rm tail rl)) entries).
Proof.
  intros Es Ht Hplain fuel n Hsize.
  rewrite Es in Hplain.
  destruct (kept_entries_plain Hplain) as [Hkept [_ Hok]].
  destruct fuel as [|fuel].
  { pose proof (expr_size_pos (get_scrutinee_expr expr)). lia. }
  cbn [simplify_tuple_match]. rewrite Es.
  assert (Hlen : Nat.ltb 1 (length (head :: tail)) = true).
  { destruct tail; [contradiction|reflexivity]. }
  rewrite Hlen. cbn [rust_assert obind].
  unfold organize_tuple_patterns. rewrite Es. cbn [is_tuple_expr rust_assert obind].
  pose proof (organize_loop_contents new_addr_injective (get_match_cases expr)
                (keys_before_nil new_addr n)) as Horg.
  match type of Horg with
  | match ?o with _ => _ end =>
      match goal with
      | |- context [obind ?o' _] => change o' with o
      end;
      destruct o as [[m1 n1]| |]; [| |exfalso; exact Horg]
  end.
  2:{ exfalso. apply Exists_exists in Horg. destruct Horg as [c [Hin Hc]].
      rewrite Forall_forall in Hok. exact (Hok c Hin Hc). }
  destruct Horg as [_ [Hperm _]]. cbn [contents map app] in Hperm.
  cbn [obind].
  assert (Hrem : expr_size (remaining_of rm tail rl) <= fuel).
  { rewrite Es in Hsize. pose proof (expr_size_remaining rm head tail rl). lia. }
  assert (Hentries :
            Forall (fun e => exists nc,
                        plain_case (remaining_of rm tail rl) nc /\ snd e = [nc]) m1).
  { assert (Hc : Forall (fun e => exists nc,
                             plain_case (remaining_of rm tail rl) nc
                             /\ snd e = [nc]) (contents m1)).
    { eapply Permutation_Forall; [apply Permutation_sym; exact Hperm|exact Hkept]. }
    unfold contents in Hc. rewrite Forall_map in Hc. exact Hc. }
  destruct (outer_cases_plain new_addr expr head Hrem n1 Hentries)
    as [cases [n2 [Hrun Hpick]]].
  rewrite Hrun. cbn [obind].
  exists (mkMatchExpr (get_mappings expr) head cases (get_locus expr)), n2,
         (contents m1).
  split; [reflexivity|]. split; [exact Hperm|].
  intros env. rewrite reach_clone_expr.
  cbn [get_scrutinee_expr get_match_cases]. apply Hpick.
Qed.

End DecompositionFacts.

(** X1.  The nested match never reaches the body of a case whose first
    alternative does not match: when the cases, read as the decomposition
    reads them (first alternative, no guard), follow the shape of the tuple
    scrutinee, a body reached through the nested match is the body of a case
    of the match whose first alternative matches the value of the
    scrutinee. *)
Theorem nested_match_reaches_only_matching_cases :
  forall new_addr : nat -> addr,
    injective new_addr ->
    forall (expr : MatchExpr) rm head tail rl,
      get_scrutinee_expr expr = TupleExpr rm (head :: tail) rl ->
      tail <> [] ->
      Forall (plain_case (get_scrutinee_expr expr))
             (map first_alternative_unguarded (get_match_cases expr)) ->
      forall fuel n,
        expr_size (get_scrutinee_expr expr) <= fuel ->
        exists m' n',
          simplify_tuple_match new_addr fuel expr n = Ok (m', n')
          /\ forall env body,
               reach env (clone_expr m') = Some body ->
               exists c,
                 In c (get_match_cases expr)
                 /\ arm_matches env (get_arm (first_alternative_unguarded c))
                                (eval env (get_scrutinee_expr expr)) = true
                 /\ reach env (get_expr c) = Some body.
Proof.
  intros new_addr Hinj expr rm head tail rl Es Ht Hplain fuel n Hsize.
  set (read := map first_alternative_unguarded (get_match_cases expr)) in *.
  destruct (@simplify_plain_pick new_addr Hinj (with_cases expr read)
              rm head tail rl Es Ht Hplain fuel n Hsize)
    as [m' [n' [entries [Hrun [Hperm Hpick]]]]].
  unfold read in Hrun. rewrite simplify_tuple_match_unguarded in Hrun
    by (rewrite Es; reflexivity).
  exists m', n'. split; [exact Hrun|].
  intros env body Hreach. rewrite Hpick in Hreach. unfold pick in Hreach.
  destruct (find (fun b => matches (fst b) (eval env head))
                 (map (entry_branch env (remaining_of rm tail rl)) entries))
    as [br|] eqn:Ef; [|discriminate Hreach].
  apply find_some in Ef. destruct Ef as [Hin Hm].
  apply in_map_iff in Hin. destruct Hin as [e [He Hine]]. subst br.
  apply (Permutation_in _ Hperm) in Hine.
  cbn [with_cases get_match_cases] in Hine.
  apply in_flat_map in Hine. destruct Hine as [c' [Hc' Hk]].
  apply in_map_iff in Hc'. destruct Hc' as [c [Hc Hinc]]. subst c'.
  exists c. split; [exact Hinc|].
  rewrite Forall_forall in Hplain.
  assert (Hpc : plain_case (TupleExpr rm (head :: tail) rl)
                           (first_alternative_unguarded c)).
  { rewrite <- Es. apply Hplain. apply in_map. exact Hinc. }
  destruct (plain_case_entry Hpc) as [p1 [rp [Hce [_ [_ [_ Harm]]]]]].
  unfold kept_entry in Hk. rewrite Hce in Hk. destruct Hk as [<-|[]].
  unfold entry_branch in Hm, Hreach. cbn [fst snd first_reach get_arm get_expr] in *.
  rewrite arm_matches_single in Hreach.
  rewrite Es, Harm, Hm. cbn [andb].
  destruct (matches rp (eval env (remaining_of rm tail rl)));
    [|discriminate Hreach].
  split; [reflexivity|exact Hreach].
Qed.

Lemma literal_pairs_plain (mp : NodeMapping) (a b : Expr) (l : Location)
      (c : MatchCase) (p q : Pattern) :
  get_patterns (get_arm c) = [Examples.tuple_pat [p; q]] ->
  get_guard (get_arm c) = None ->
  shaped b q = true ->
  plain_case (TupleExpr mp [a; b] l) c.
Proof.
  intros Hp Hg Hs. exists (Examples.tuple_pat [p; q]).
  split; [exact Hp|]. split; [exact Hg|]. exact Hs.
Qed.

Lemma guarded_read_plain :
  Forall (plain_case (get_scrutinee_expr MoreExamples.guarded))
         (map first_alternative_unguarded (get_match_cases MoreExamples.guarded)).
Proof.
  repeat constructor; eapply literal_pairs_plain; reflexivity.
Qed.

Lemma nested_match_reaches_only_matching_cases_witness :
  exists m' n',
    simplify_tuple_match Examples.bump_up 3 MoreExamples.guarded 0 = Ok (m', n')
    /\ forall env body,
         reach env (clone_expr m') = Some body ->
         exists c,
           In c (get_match_cases MoreExamples.guarded)
           /\ arm_matches env (get_arm (first_alternative_unguarded c))
                          (eval env (get_scrutinee_expr MoreExamples.guarded)) = true
           /\ reach env (get_expr c) = Some body.
Proof.
  apply (@nested_match_reaches_only_matching_cases Examples.bump_up bump_up_injective
           MoreExamples.guarded 101 Examples.x [Examples.y] 0).
  - reflexivity.
  - discriminate.
  - exact guarded_read_plain.
  - vm_compute. lia.
Defined.

(** X2.  Guards and further alternatives are lost: for a match on a tuple
    expression whose cases, read as the decomposition reads them (first
    alternative, no guard), follow the shape of the scrutinee and have
    pairwise disjoint first elements, the nested match reaches what the
    reference matcher reaches on the match with every guard removed and every
    alternative but the first deleted. *)
Theorem nested_match_drops_guards_and_alternatives :
  forall new_addr : nat -> addr,
    injective new_addr ->
    forall (expr : MatchExpr) rm head tail rl,
      get_scrutinee_expr expr = TupleExpr rm (head :: tail) rl ->
      tail <> [] ->
      Forall (plain_case (get_scrutinee_expr expr))
             (map first_alternative_unguarded (get_match_cases expr)) ->
      ForallOrdPairs disjoint_patterns
        (map case_first (map first_alternative_unguarded (get_match_cases expr))) ->
      forall fuel n,
        expr_size (get_scrutinee_expr expr) <= fuel ->
        exists m' n',
          simplify_tuple_match new_addr fuel expr n = Ok (m', n')
          /\ forall env,
               reach env (clone_expr m')
               = reference_reach env
                   (with_cases expr
                      (map first_alternative_unguarded (get_match_cases expr))).
Proof.
  intros new_addr Hinj expr rm head tail rl Es Ht Hplain Hdis fuel n Hsize.
  set (read := map first_alternative_unguarded (get_match_cases expr)) in *.
  destruct (@simplify_plain_pick new_addr Hinj (with_cases expr read)
              rm head tail rl Es Ht Hplain fuel n Hsize)
    as [m' [n' [entries [Hrun [Hperm Hpick]]]]].
  unfold read in Hrun. rewrite simplify_tuple_match_unguarded in Hrun
    by (rewrite Es; reflexivity).
  exists m', n'. split; [exact Hrun|].
  intros env. rewrite Hpick, reference_reach_first_reach.
  cbn [with_cases get_scrutinee_expr get_match_cases] in *.
  rewrite Es in Hplain |- *.
  destruct (kept_entries_plain Hplain) as [_ [Hfirsts _]].
  rewrite (reference_pick env Hplain); [|exact Hdis].
  apply pick_permutation.
  - apply Permutation_map. exact Hperm.
  - rewrite map_map. cbn [entry_branch fst].
    change (map (fun x => fst x) (flat_map kept_entry read))
      with (map fst (flat_map kept_entry read)).
    rewrite Hfirsts. exact Hdis.
Qed.

(** On [match (x, y) { (1, 2) | (7, 7) if g => 10, (2, 3) => 20 }] the nested
    match is that of [match (x, y) { (1, 2) => 10, (2, 3) => 20 }]: with
    [x = 1], [y = 2] and a guard that fails it reaches the first body, and
    with [x = 7], [y = 7] it reaches nothing. *)
Lemma nested_match_drops_guards_and_alternatives_witness :
  exists m' n',
    simplify_tuple_match Examples.bump_up 3 MoreExamples.guarded 0 = Ok (m', n')
    /\ forall env,
         reach env (clone_expr m')
         = reference_reach env
             (with_cases MoreExamples.guarded
                (map first_alternative_unguarded
                     (get_match_cases MoreExamples.guarded))).
Proof.
  apply (@nested_match_drops_guards_and_alternatives Examples.bump_up
           bump_up_injective MoreExamples.guarded 101 Examples.x [Examples.y] 0).
  - reflexivity.
  - discriminate.
  - exact guarded_read_plain.
  - repeat constructor; apply literal_patterns_disjoint; discriminate.
  - vm_compute. lia.
Defined.

(** X3.  The outer match built for a tuple scrutinee tests the head of the
    tuple; it has one arm for every case that is not dropped, cases whose
    first elements are equal included, each with the first element of that
    case as its only pattern, no guard, and a match as its body. *)
Theorem simplify_tuple_match_outer_arms :
  forall new_addr : nat -> addr,
    injective new_addr ->
    forall fuel (expr : MatchExpr) rm head tail rl n m' n',
      get_scrutinee_expr expr = TupleExpr rm (head :: tail) rl ->
      simplify_tuple_match new_addr fuel expr n = Ok (m', n') ->
      get_scrutinee_expr m' = head
      /\ Permutation (map outer_pattern (get_match_cases m'))
                     (map fst (flat_map kept_entry (get_match_cases expr)))
      /\ length (get_match_cases m')
         = length (flat_map kept_entry (get_match_cases expr))
      /\ Forall (outer_arm_of expr) (get_match_cases m').
Proof.
  intros new_addr Hinj fuel expr rm head tail rl n m' n' Es E.
  destruct fuel as [|fuel]; cbn [simplify_tuple_match] in E; rewrite Es in E;
    [discriminate E|].
  destruct (rust_assert (Nat.ltb 1 (length (head :: tail)))); cbn [obind] in E;
    try discriminate E.
  unfold organize_tuple_patterns in E. rewrite Es in E.
  cbn [is_tuple_expr rust_assert obind] in E.
  pose proof (organize_loop_contents Hinj (get_match_cases expr)
                (keys_before_nil new_addr n)) as Horg.
  match type of Horg with
  | match ?o with _ => _ end =>
      match type of E with
      | context [obind ?o' _] => change o' with o in E
      end;
      destruct o as [[m1 n1]| |]; cbn [obind] in E; try discriminate E
  end.
  destruct Horg as [_ [Hperm _]]. cbn [contents map app] in Hperm.
  match type of E with
  | obind ?o _ = _ => destruct o as [[cases n2]| |] eqn:Eo
  end; cbn [obind] in E; try discriminate E.
  inversion E; subst. cbn [get_scrutinee_expr get_match_cases].
  apply outer_cases_shape in Eo. destruct Eo as [Hp Hf].
  assert (Hpp : Permutation (map outer_pattern cases)
                  (map fst (flat_map kept_entry (get_match_cases expr)))).
  { rewrite Hp. apply Permutation_map. exact Hperm. }
  split; [reflexivity|]. split; [exact Hpp|]. split; [|exact Hf].
  apply Permutation_length in Hpp. rewrite !length_map in Hpp. exact Hpp.
Qed.

Lemma simplify_tuple_match_outer_arms_witness :
  exists m' n',
    simplify_tuple_match Examples.bump_up 3 Examples.scenario1 0 = Ok (m', n')
    /\ get_scrutinee_expr m' = Examples.x
    /\ length (get_match_cases m') = 2
    /\ Forall (outer_arm_of Examples.scenario1) (get_match_cases m').
Proof.
  destruct (simplify_tuple_match Examples.bump_up 3 Examples.scenario1 0)
    as [[m' n']| |] eqn:E; try (vm_compute in E; discriminate E).
  exists m', n'. split; [reflexivity|].
  destruct (@simplify_tuple_match_outer_arms Examples.bump_up bump_up_injective
              3 Examples.scenario1 101 Examples.x [Examples.y] 0 0 m' n'
              eq_refl E) as [H1 [_ [H3 H4]]].
  split; [exact H1|]. split; [exact H3|exact H4].
Defined.

(** X4.  [organize_tuple_patterns] aborts exactly when the scrutinee is not
    a tuple expression or some case has no pattern, or a first pattern that
    is neither a wildcard nor a tuple pattern with items: an identifier
    pattern that binds the whole tuple aborts the decomposition.  So does a
    tuple scrutinee of fewer than two elements. *)
Theorem organize_tuple_patterns_aborts :
  forall new_addr : nat -> addr,
    (forall expr n,
        organize_tuple_patterns new_addr expr n = Abort
        <-> is_tuple_expr (get_scrutinee_expr expr) = false
            \/ existsb (fun c => negb (decomposable c)) (get_match_cases expr) = true)
    /\ (forall fuel expr n mappings elems locus,
           get_scrutinee_expr expr = TupleExpr mappings elems locus ->
           existsb (fun c => negb (decomposable c)) (get_match_cases expr) = true
           \/ length elems < 2 ->
           simplify_tuple_match new_addr (S fuel) expr n = Abort).
Proof.
  intros new_addr.
  assert (Horg : forall expr n,
             organize_tuple_patterns new_addr expr n = Abort
             <-> is_tuple_expr (get_scrutinee_expr expr) = false
                 \/ existsb (fun c => negb (decomposable c))
                            (get_match_cases expr) = true).
  { intros expr n. unfold organize_tuple_patterns, rust_assert.
    destruct (is_tuple_expr (get_scrutinee_expr expr)); cbn [obind].
    - rewrite organize_loop_aborts. split; [intros E; right; exact E|].
      intros [E|E]; [discriminate E|exact E].
    - split; [intros _; left; reflexivity|reflexivity]. }
  split; [exact Horg|].
  - intros fuel expr n mappings elems locus Es Hbad.
    cbn [simplify_tuple_match]. rewrite Es.
    destruct (Nat.ltb 1 (length elems)) eqn:El; cbn [rust_assert obind];
      [|reflexivity].
    apply Nat.ltb_lt in El. destruct Hbad as [Hbad|Hbad]; [|lia].
    destruct elems as [|head tail]; [reflexivity|].
    assert (Ho : organize_tuple_patterns new_addr expr n = Abort).
    { apply Horg. right. exact Hbad. }
    rewrite Ho. reflexivity.
Qed.

(** [match (x, y) { z => 10 }] and [match (x,) { (1,) => 10 }] abort. *)
Lemma organize_tuple_patterns_aborts_witness :
  simplify_tuple_match Examples.bump_up 1 MoreExamples.bound_whole 0 = Abort
  /\ simplify_tuple_match Examples.bump_up 1
       (mkMatchExpr 100 (TupleExpr 101 [Examples.x] 0)
          [Examples.kase 1 (Examples.tuple_pat [LiteralPattern 1]) 10] 0) 0
     = Abort.
Proof.
  destruct (organize_tuple_patterns_aborts Examples.bump_up) as [_ H].
  split.
  - eapply H; [reflexivity|]. left. reflexivity.
  - eapply H; [reflexivity|]. right. cbn. lia.
Defined.

(** * Further properties of the adjustment engine, of literals and of dynamic
      dispatch *)

Lemma TypeKind_eqb_eq (a b : TyTy.TypeKind) : TyTy.TypeKind_eqb a b = true <-> a = b.
Proof.
  destruct a, b; split; intros E; try reflexivity; discriminate E.
Qed.

Lemma to_uhwi_small (v : Z) : (0 <= v < 2 ^ 64)%Z -> to_uhwi v = v.
Proof. intros Hv. unfold to_uhwi. apply Z.mod_small. exact Hv. Qed.

Lemma wi_ext_in_range (type : tree) (v : Z) :
  (type_min type <= v <= type_max type)%Z ->
  wi_ext v (TYPE_PRECISION type) (TYPE_UNSIGNED type) = v.
Proof. intros Hv. exact (mpz_get_double_int_in_range type Hv). Qed.

(** X5.  An unsize adjustment of an array turns it into the fat pointer
    whose second field is the number of elements of the array, counted from
    the bounds of its domain.  On an expression that is not of array type,
    or when the expected type is not a slice, the adjustment aborts, whatever
    follows it in the list. *)
Theorem unsize_adjustment_size :
  forall (B : Backend) (compile : TyTy.BaseType -> tree)
         (compile_impl : nat -> option TyTy.FnType -> bool -> Location -> Emitter tree)
         (a : Adjustment.t) (expression : tree) (locus : Location) (ctx : Context),
    Adjustment.get_type a = Adjustment.UNSIZE ->
    (forall elem domain lo hi,
        TREE_TYPE expression = ARRAY_TYPE elem domain lo hi ->
        TyTy.get_kind (Adjustment.get_expected a) = TyTy.SLICE ->
        (type_min domain <= hi - lo + 1 <= type_max domain)%Z ->
        (0 <= hi - lo + 1 < 2 ^ 64)%Z ->
        resolve_adjustements compile compile_impl [a] expression locus ctx
        = Ok (constructor_expression (compile (Adjustment.get_expected a)) false
                [address_expression expression
                   (build_reference_type (ARRAY_TYPE elem domain lo hi)) locus;
                 build_int_cst size_type_node (hi - lo + 1)] (-1) locus,
              ctx))
    /\ ((forall elem domain lo hi,
            TREE_TYPE expression <> ARRAY_TYPE elem domain lo hi) ->
        forall rest,
          resolve_adjustements compile compile_impl (a :: rest) expression locus ctx
          = Abort)
    /\ (TyTy.get_kind (Adjustment.get_expected a) <> TyTy.SLICE ->
        forall rest,
          resolve_adjustements compile compile_impl (a :: rest) expression locus ctx
          = Abort).
Proof.
  intros B compile compile_impl a expression locus ctx Ha.
  split; [|split].
  - intros elem domain lo hi Ht Hk Hr H64.
    cbn [resolve_adjustements]. rewrite Ha.
    unfold resolve_unsized_adjustment, bind. rewrite Ht.
    apply TypeKind_eqb_eq in Hk. rewrite Hk. cbn [assert_ ret].
    rewrite (wi_ext_in_range domain Hr), (to_uhwi_small H64). reflexivity.
  - intros Hna rest. cbn [resolve_adjustements]. rewrite Ha.
    unfold resolve_unsized_adjustment, bind.
    destruct (TREE_TYPE expression) eqn:Et; try reflexivity.
    exfalso. eapply Hna. reflexivity.
  - intros Hk rest. cbn [resolve_adjustements]. rewrite Ha.
    unfold resolve_unsized_adjustment, bind.
    destruct (TREE_TYPE expression) eqn:Et; try reflexivity.
    destruct (TyTy.TypeKind_eqb (TyTy.get_kind (Adjustment.get_expected a)) TyTy.SLICE)
      eqn:Ek; [|reflexivity].
    apply TypeKind_eqb_eq in Ek. contradiction.
Qed.

Lemma unsize_adjustment_size_witness :
  resolve_adjustements LoweringExamples.compile_type LoweringExamples.compile_impl_item
    [MoreLoweringExamples.unsize LoweringExamples.slice_of_i32]
    MoreLoweringExamples.array4_value 3 LoweringExamples.empty_context
  = Ok (CONSTRUCTOR LoweringExamples.slice_tree
          [ADDR_EXPR (REFERENCE_TYPE MoreLoweringExamples.array4_tree)
                     MoreLoweringExamples.array4_value;
           INTEGER_CST size_type_node 4],
        LoweringExamples.empty_context)
  /\ resolve_adjustements LoweringExamples.compile_type
       LoweringExamples.compile_impl_item
       [MoreLoweringExamples.unsize LoweringExamples.slice_of_i32;
        LoweringExamples.error_adjustment]
       LoweringExamples.int_value 3 LoweringExamples.empty_context
     = Abort.
Proof.
  destruct (@unsize_adjustment_size tree_backend LoweringExamples.compile_type
              LoweringExamples.compile_impl_item
              (MoreLoweringExamples.unsize LoweringExamples.slice_of_i32)
              MoreLoweringExamples.array4_value 3 LoweringExamples.empty_context
              eq_refl) as [H1 _].
  destruct (@unsize_adjustment_size tree_backend LoweringExamples.compile_type
              LoweringExamples.compile_impl_item
              (MoreLoweringExamples.unsize LoweringExamples.slice_of_i32)
              LoweringExamples.int_value 3 LoweringExamples.empty_context
              eq_refl) as [_ [H2 _]].
  split.
  - apply (H1 LoweringExamples.i32_tree size_type_node 0%Z 3%Z).
    + reflexivity.
    + reflexivity.
    + vm_compute. split; discriminate.
    + vm_compute. split; [discriminate|reflexivity].
  - apply H2. intros elem domain lo hi. discriminate.
Defined.

(** A list of adjustments that are resolved without a call returns in the
    context it was given; it returns the error value when the list has an
    error entry. *)
Lemma call_free_resolves `{Backend} (compile : TyTy.BaseType -> tree)
      (locus : Location) (ctx : Context) (adjustments : list Adjustment.t) :
  Forall (fun a => call_free a = true) adjustments ->
  forall e,
    exists e',
      (forall compile_impl,
          resolve_adjustements compile compile_impl adjustments e locus ctx
          = Ok (e', ctx))
      /\ (Exists (fun a => Adjustment.get_type a = Adjustment.ERROR) adjustments ->
          e' = error_mark_node).
Proof.
  induction 1 as [|a l Ha Hl IH]; intros e.
  - exists e. split; [reflexivity|]. intros Hex. inversion Hex.
  - unfold call_free in Ha. cbn [resolve_adjustements].
    destruct (Adjustment.get_type a) eqn:Et; try discriminate Ha.
    + exists error_mark_node. split; reflexivity.
    + match goal with
      | |- context [resolve_adjustements _ _ l ?x _ _] =>
          destruct (IH x) as [e' [He Herr]]
      end.
      exists e'. split; [exact He|]. intros Hex.
      inversion Hex as [x xs Hx|x xs Hx]; subst; [congruence|exact (Herr Hx)].
    + match goal with
      | |- context [resolve_adjustements _ _ l ?x _ _] =>
          destruct (IH x) as [e' [He Herr]]
      end.
      exists e'. split; [exact He|]. intros Hex.
      inversion Hex as [x xs Hx|x xs Hx]; subst; [congruence|exact (Herr Hx)].
    + match goal with
      | |- context [resolve_adjustements _ _ l ?x _ _] =>
          destruct (IH x) as [e' [He Herr]]
      end.
      exists e'. split; [exact He|]. intros Hex.
      inversion Hex as [x xs Hx|x xs Hx]; subst; [congruence|exact (Herr Hx)].
Qed.

(** X6.  Error entries, borrows and indirections are resolved without a
    call: a list of such adjustments always returns, leaves the context as it
    was and does not depend on the compiler of implementation items.  Any
    number of borrows of a value of slice type returns the value itself. *)
Theorem call_free_adjustments_keep_context :
  forall (B : Backend) (compile : TyTy.BaseType -> tree)
         (compile_impl : nat -> option TyTy.FnType -> bool -> Location -> Emitter tree)
         (adjustments : list Adjustment.t) (locus : Location) (ctx : Context),
    Forall (fun a => call_free a = true) adjustments ->
    (forall e,
        exists e',
          forall compile_impl',
            resolve_adjustements compile compile_impl' adjustments e locus ctx
            = Ok (e', ctx))
    /\ (forall e,
           Forall (fun a => Adjustment.is_borrow a = true) adjustments ->
           SLICE_TYPE_P (TREE_TYPE e) = true ->
           resolve_adjustements compile compile_impl adjustments e locus ctx
           = Ok (e, ctx)).
Proof.
  intros B compile compile_impl adjustments locus ctx Hfree. split.
  - intros e. destruct (call_free_resolves compile locus ctx Hfree e) as [e' [He _]].
    exists e'. exact He.
  - intros e Hb. revert e.
    induction Hb as [|a l Ha Hl IH]; intros e Hs; [reflexivity|].
    inversion Hfree as [|a' l' Hfa Hfl]; subst.
    cbn [resolve_adjustements]. unfold Adjustment.is_borrow in Ha.
    destruct (Adjustment.get_type a); try discriminate Ha;
      rewrite Hs; cbn [negb]; apply IH; assumption.
Qed.

Lemma call_free_adjustments_keep_context_witness :
  resolve_adjustements LoweringExamples.compile_type LoweringExamples.compile_impl_item
    [LoweringExamples.borrow LoweringExamples.slice_of_i32;
     LoweringExamples.borrow LoweringExamples.i32;
     LoweringExamples.borrow LoweringExamples.slice_of_i32]
    LoweringExamples.slice_value 3 LoweringExamples.empty_context
  = Ok (LoweringExamples.slice_value, LoweringExamples.empty_context).
Proof.
  destruct (@call_free_adjustments_keep_context tree_backend
              LoweringExamples.compile_type LoweringExamples.compile_impl_item
              [LoweringExamples.borrow LoweringExamples.slice_of_i32;
               LoweringExamples.borrow LoweringExamples.i32;
               LoweringExamples.borrow LoweringExamples.slice_of_i32]
              3 LoweringExamples.empty_context) as [_ H].
  - repeat constructor.
  - apply H; [repeat constructor|reflexivity].
Defined.

(** X7.  What [compile_integer_literal] can return.  A literal that is not
    an integer literal aborts; a text that is not a number is reported as
    such; and whenever the routine returns, either it returns the error value
    and has reported one error at the location of the literal, or it returns
    the parsed value as a constant of the type, the value lies within the
    bounds of the type (so that the conversion never wraps) and nothing was
    reported. *)
Theorem compile_integer_literal_outcomes :
  forall (compile : TyTy.BaseType -> tree) (open_quote close_quote : string)
         (expr : Literal.LiteralExprNode) (tyty : TyTy.BaseType) (ctx : Context),
    (Literal.get_lit_type expr <> Literal.INT ->
     compile_integer_literal compile open_quote close_quote expr tyty ctx = Abort)
    /\ (Literal.get_lit_type expr = Literal.INT ->
        Literal.mpz_init_set_str (Literal.as_string expr) = None ->
        compile_integer_literal compile open_quote close_quote expr tyty ctx
        = Ok (error_mark_node,
              with_diagnostic ctx
                (error_at (Literal.get_locus expr) "bad number in literal")))
    /\ (forall t ctx',
           compile_integer_literal compile open_quote close_quote expr tyty ctx = Ok (t, ctx') ->
           (t = error_mark_node
            /\ exists message,
                 ctx' = with_diagnostic ctx
                          (error_at (Literal.get_locus expr) message))
           \/ (exists v,
                  t = INTEGER_CST (compile tyty) v
                  /\ Literal.mpz_init_set_str (Literal.as_string expr) = Some v
                  /\ (type_min (compile tyty) <= v <= type_max (compile tyty))%Z
                  /\ ctx' = ctx)).
Proof.
  intros compile open_quote close_quote expr tyty ctx. split; [|split].
  - intros Hl. unfold compile_integer_literal, bind, assert_.
    destruct (Literal.get_lit_type expr); try reflexivity. contradiction.
  - intros Hl Hp. unfold compile_integer_literal, bind, assert_.
    rewrite Hl, Hp. reflexivity.
  - intros t ctx'. unfold compile_integer_literal, bind, assert_.
    destruct (Literal.LitType_eqb (Literal.get_lit_type expr) Literal.INT);
      [|discriminate].
    cbn [ret].
    destruct (Literal.mpz_init_set_str (Literal.as_string expr)) as [ival|].
    + unfold get_type_static_bounds.
      destruct (Z.ltb ival (type_min (compile tyty))
                || Z.gtb ival (type_max (compile tyty))) eqn:Eb.
      * intros E. inversion E; subst. left. split; [reflexivity|].
        eexists. reflexivity.
      * intros E. apply orb_false_iff in Eb. destruct Eb as [E1 E2].
        apply Z.ltb_ge in E1. rewrite Z.gtb_ltb in E2. apply Z.ltb_ge in E2.
        unfold ret, double_int_to_tree in E.
        rewrite mpz_get_double_int_in_range in E by lia.
        inversion E; subst. right. exists ival.
        split; [reflexivity|]. split; [reflexivity|]. split; [lia|reflexivity].
    + intros E. inversion E; subst. left. split; [reflexivity|].
      eexists. reflexivity.
Qed.

Lemma compile_integer_literal_outcomes_witness :
  compile_integer_literal LoweringExamples.compile_type "'" "'"
    (LoweringExamples.lit "12a") LoweringExamples.i8 LoweringExamples.empty_context
  = Ok (error_mark_node,
        with_diagnostic LoweringExamples.empty_context
          (error_at 7 "bad number in literal"))
  /\ compile_integer_literal LoweringExamples.compile_type "'" "'"
       (Literal.mkLiteralExprNode Literal.BOOL "1" 7) LoweringExamples.i8
       LoweringExamples.empty_context
     = Abort.
Proof.
  destruct (compile_integer_literal_outcomes LoweringExamples.compile_type "'" "'"
              (LoweringExamples.lit "12a") LoweringExamples.i8
              LoweringExamples.empty_context) as [_ [H _]].
  destruct (compile_integer_literal_outcomes LoweringExamples.compile_type "'" "'"
              (Literal.mkLiteralExprNode Literal.BOOL "1" 7) LoweringExamples.i8
              LoweringExamples.empty_context) as [H' _].
  split; [apply H; reflexivity|apply H'; discriminate].
Defined.

Section MoreDynFacts.

Import TyTy.

Lemma find_object_item_inv (items : list TraitItemReference) (fntype : FnType) :
  forall offs r k,
    find_object_item items fntype offs = Ok (r, k) ->
    (r = None /\ k = offs + length items /\ Forall (other_function fntype) items)
    \/ (exists pre item ft post,
           items = pre ++ item :: post
           /\ Forall (other_function fntype) pre
           /\ get_tyty item = FnDefType ft
           /\ get_id ft = get_id fntype
           /\ r = Some item
           /\ k = offs + length pre).
Proof.
  induction items as [|item items IH]; intros offs r k E; cbn [find_object_item] in E.
  - inversion E; subst. left. cbn. split; [reflexivity|]. split; [lia|constructor].
  - destruct (get_tyty item) as [kd nm|nm en nv|base|ft|its] eqn:Et;
      try discriminate E.
    destruct (Nat.eqb (get_id ft) (get_id fntype)) eqn:Eid.
    + inversion E; subst. right. exists [], item, ft, items.
      apply Nat.eqb_eq in Eid. cbn.
      repeat split; try assumption; try reflexivity; try constructor. lia.
    + apply Nat.eqb_neq in Eid.
      assert (Hitem : other_function fntype item).
      { exists ft. split; assumption. }
      destruct (IH _ _ _ E) as [[-> [-> Hall]]|[pre [it [ft' [post H]]]]].
      * left. split; [reflexivity|]. split; [cbn; lia|].
        constructor; assumption.
      * destruct H as [-> [Hpre [Hty [Hid [-> ->]]]]].
        right. exists (item :: pre), it, ft', post.
        split; [reflexivity|]. split; [constructor; assumption|].
        split; [exact Hty|]. split; [exact Hid|]. split; [reflexivity|].
        cbn. lia.
Qed.

End MoreDynFacts.

(** X8.  Whenever [get_fn_addr_from_dyn] returns, either no item of the
    object is the method and the result is the error value, or the result is
    the slot of the first item that is the method: every item before it is
    another function, and the index of the slot is less than the number of
    items of the object. *)
Theorem get_fn_addr_from_dyn_slot_in_table :
  forall (B : Backend) (compile : TyTy.BaseType -> bool -> tree)
         (items : list TyTy.TraitItemReference) (receiver : TyTy.BaseType)
         (fntype : TyTy.FnType) (receiver_ref : tree) (locus : Location) (t : tree),
    get_fn_addr_from_dyn compile items receiver fntype receiver_ref locus = Ok t ->
    (t = error_mark_node /\ Forall (other_function fntype) items)
    \/ (exists pre item ft post self,
           items = pre ++ item :: post
           /\ Forall (other_function fntype) pre
           /\ TyTy.get_tyty item = TyTy.FnDefType ft
           /\ TyTy.get_id ft = TyTy.get_id fntype
           /\ length pre < length items
           /\ indirect_receiver compile receiver receiver_ref locus = Ok self
           /\ t = let idx := build_int_cst size_type_node (Z.of_nat (length pre)) in
                  let vtable_ptr := struct_field_expression self 1 locus in
                  OBJ_TYPE_REF (compile (TyTy.FnDefType fntype) true)
                    (ARRAY_REF (TREE_TYPE (TREE_TYPE vtable_ptr)) vtable_ptr idx)
                    self idx).
Proof.
  intros B compile items receiver fntype receiver_ref locus t E.
  unfold get_fn_addr_from_dyn in E.
  destruct (find_object_item items fntype 0) as [[r k]| |] eqn:Ef;
    cbn [obind] in E; try discriminate E.
  apply find_object_item_inv in Ef.
  destruct Ef as [[-> [-> Hall]]|[pre [item [ft [post H]]]]].
  - inversion E; subst. left. split; [reflexivity|exact Hall].
  - destruct H as [-> [Hpre [Hty [Hid [-> ->]]]]].
    destruct (indirect_receiver compile receiver receiver_ref locus)
      as [self| |] eqn:Ei; cbn [obind] in E; try discriminate E.
    inversion E; subst. right. exists pre, item, ft, post, self.
    split; [reflexivity|]. split; [exact Hpre|]. split; [exact Hty|].
    split; [exact Hid|]. split; [rewrite length_app; cbn; lia|].
    split; reflexivity.
Qed.

Lemma get_fn_addr_from_dyn_slot_in_table_witness :
  exists pre item ft post,
    LoweringExamples.dyn_items = pre ++ item :: post
    /\ Forall (other_function LoweringExamples.f2) pre
    /\ TyTy.get_tyty item = TyTy.FnDefType ft
    /\ TyTy.get_id ft = TyTy.get_id LoweringExamples.f2
    /\ length pre < length LoweringExamples.dyn_items.
Proof.
  destruct (@get_fn_addr_from_dyn_slot_in_table tree_backend
              LoweringExamples.compile_type_mode LoweringExamples.dyn_items
              (TyTy.ReferenceType (TyTy.DynamicObjectType LoweringExamples.dyn_items))
              LoweringExamples.f2 LoweringExamples.fat_object 3 _ eq_refl)
    as [[E _]|[pre [item [ft [post [self [Hi [Hpre [Hty [Hid [Hlen _]]]]]]]]]]].
  - discriminate E.
  - exists pre, item, ft, post. repeat split; assumption.
Defined.

(** * Further properties of the lowering of match expressions *)

(** ** Routines that report nothing of their own *)

Lemma reported_refl (ctx : Context) : reported ctx ctx [].
Proof. unfold reported. rewrite app_nil_r. reflexivity. Qed.

Lemma reported_trans (c1 c2 c3 : Context) (r1 r2 : list diagnostic) :
  reported c1 c2 r1 -> reported c2 c3 r2 -> reported c1 c3 (r1 ++ r2).
Proof.
  unfold reported. intros H1 H2. rewrite H2, H1, app_assoc. reflexivity.
Qed.

Section Discreet.

Variable P : diagnostic -> Prop.

Lemma discreet_same (A : Type) (m : M A) :
  (forall ctx a ctx', m ctx = Ok (a, ctx') -> diagnostics ctx' = diagnostics ctx) ->
  discreet P m.
Proof.
  intros Hm ctx a ctx' E. exists []. split; [|constructor].
  unfold reported. rewrite app_nil_r. exact (Hm ctx a ctx' E).
Qed.

Lemma discreet_ret (A : Type) (a : A) : discreet P (ret a).
Proof. apply discreet_same. intros ctx r ctx' E. inversion E. reflexivity. Qed.

Lemma discreet_abort (A : Type) : discreet P (@abort A).
Proof. intros ctx r ctx' E. discriminate E. Qed.

Lemma discreet_bind (A B : Type) (m : M A) (k : A -> M B) :
  discreet P m -> (forall a, discreet P (k a)) -> discreet P (bind m k).
Proof.
  intros Hm Hk ctx r ctx' E. unfold bind in E.
  destruct (m ctx) as [[a c]| |] eqn:Em; try discriminate E.
  destruct (Hm ctx a c Em) as [r1 [H1 P1]].
  destruct (Hk a c r ctx' E) as [r2 [H2 P2]].
  exists (r1 ++ r2). split; [exact (reported_trans H1 H2)|].
  apply Forall_app. split; assumption.
Qed.

Lemma discreet_assert (b : bool) : discreet P (assert_ b).
Proof. destruct b; [apply discreet_ret|apply discreet_abort]. Qed.

Lemma discreet_fresh_uid : discreet P fresh_uid.
Proof. apply discreet_same. intros ctx r ctx' E. inversion E. reflexivity. Qed.

Lemma discreet_peek_fn : discreet P peek_fn.
Proof.
  apply discreet_same. intros ctx r ctx' E. unfold peek_fn in E.
  destruct (fn_stack ctx); inversion E. reflexivity.
Qed.

Lemma discreet_peek_enclosing_scope : discreet P peek_enclosing_scope.
Proof.
  apply discreet_same. intros ctx r ctx' E. unfold peek_enclosing_scope in E.
  destruct (scope_stack ctx) as [|[b l] rest]; inversion E; reflexivity.
Qed.

Lemma discreet_push_block (b : tree) : discreet P (push_block b).
Proof. apply discreet_same. intros ctx r ctx' E. inversion E. reflexivity. Qed.

Lemma discreet_pop_block `{Backend} : discreet P pop_block.
Proof.
  apply discreet_same. intros ctx r ctx' E. unfold pop_block in E.
  destruct (scope_stack ctx) as [|[b l] rest]; inversion E; reflexivity.
Qed.

Lemma add_statements_diagnostics (stmts : list tree) (ctx ctx' : Context) (u : unit) :
  add_statements stmts ctx = Ok (u, ctx') -> diagnostics ctx' = diagnostics ctx.
Proof.
  unfold add_statements. intros E.
  destruct stmts as [|s stmts]; [inversion E; reflexivity|].
  destruct (scope_stack ctx) as [|[b l] rest]; inversion E; reflexivity.
Qed.

Lemma discreet_add_statements (stmts : list tree) : discreet P (add_statements stmts).
Proof.
  apply discreet_same. intros ctx r ctx'. apply add_statements_diagnostics.
Qed.

Lemma discreet_add_statement (stmt : tree) : discreet P (add_statement stmt).
Proof. apply discreet_add_statements. Qed.

Lemma discreet_emit (A : Type) (e : Emitter A) :
  (forall d, reports_of e d -> P d) -> discreet P (emit e).
Proof.
  intros He ctx r ctx' E. unfold emit in E.
  destruct (e (next_uid ctx)) as [[[[a stmts] reports] uid']| |] eqn:Ee;
    try discriminate E.
  apply bind_Ok_inv in E. destruct E as [u [c [Hadd Hret]]].
  apply ret_Ok_inv in Hret. destruct Hret as [_ ->].
  apply add_statements_diagnostics in Hadd.
  exists reports. split; [exact Hadd|].
  apply Forall_forall. intros d Hd. apply He.
  exists (next_uid ctx), a, stmts, reports, uid'. split; [exact Ee|exact Hd].
Qed.

Lemma discreet_lift (A : Type) (o : outcome A) : discreet P (lift o).
Proof.
  apply discreet_same. intros ctx r ctx' E. unfold lift in E.
  destruct o; cbn [obind] in E; inversion E. reflexivity.
Qed.

End Discreet.

Ltac discreet_step :=
  first [ apply discreet_ret | apply discreet_abort | apply discreet_assert
        | apply discreet_fresh_uid | apply discreet_peek_fn
        | apply discreet_peek_enclosing_scope | apply discreet_push_block
        | apply discreet_pop_block | apply discreet_add_statement
        | apply discreet_add_statements | apply discreet_lift
        | (apply discreet_bind; [|intros ?]) ].

Section MoreMatchFacts.

Import TyTy.
Context `{Backend}.

Variable new_addr : nat -> addr.
Variable lookup_type : NodeMapping -> option BaseType.
Variable is_primitive_type_kind : TypeKind -> bool.
Variable is_unit : BaseType -> bool.
Variable compile : BaseType -> tree.
Variable compile_expr : Expr -> Emitter tree.
Variable compile_case_label : Pattern -> tree -> Emitter tree.
Variable compile_bindings : Pattern -> tree -> Emitter unit.

Lemma discreet_simplify (expr : MatchExpr) :
  discreet (reported_by_compilers compile_expr compile_case_label compile_bindings) (simplify new_addr expr).
Proof.
  apply discreet_same. intros ctx r ctx' E. unfold simplify in E.
  destruct (simplify_tuple_match new_addr (expr_size (get_scrutinee_expr expr))
              expr (next_key ctx)) as [[m k]| |]; inversion E.
  reflexivity.
Qed.

Lemma discreet_compile_expr (e : Expr) :
  discreet (reported_by_compilers compile_expr compile_case_label compile_bindings) (emit (compile_expr e)).
Proof. apply discreet_emit. intros d Hd. left. exists e. exact Hd. Qed.

Lemma discreet_compile_patterns (patterns : list Pattern) (case_label mse : tree) :
  discreet (reported_by_compilers compile_expr compile_case_label compile_bindings)
    (compile_patterns compile_case_label compile_bindings patterns case_label mse).
Proof.
  induction patterns as [|p patterns IH]; cbn [compile_patterns].
  - apply discreet_ret.
  - apply discreet_bind.
    { apply discreet_emit. intros d Hd. right. left. exists p, case_label.
      exact Hd. }
    intros k. apply discreet_bind; [apply discreet_add_statement|intros _].
    apply discreet_bind; [|intros _; exact IH].
    apply discreet_emit. intros d Hd. right. right. exists p, mse. exact Hd.
Qed.

Lemma discreet_compile_cases (fn : tree) (tmp : option Bvariable) (end_label mse : tree)
      (cases : list MatchCase) :
  discreet (reported_by_compilers compile_expr compile_case_label compile_bindings)
    (compile_cases compile_expr compile_case_label compile_bindings
                   fn tmp end_label mse cases).
Proof.
  induction cases as [|kase cases IH]; cbn [compile_cases].
  - apply discreet_ret.
  - apply discreet_bind; [|intros _; exact IH].
    unfold compile_case.
    discreet_step; [discreet_step|].
    discreet_step; [discreet_step|].
    discreet_step; [apply discreet_compile_patterns|].
    discreet_step; [apply discreet_compile_expr|].
    discreet_step; [|discreet_step].
    destruct tmp; discreet_step.
Qed.

Lemma simplify_tuple_match_head (fuel : nat) (expr m : MatchExpr) (n k : nat) :
  get_expression_type (get_scrutinee_expr expr) = ET_Tuple ->
  simplify_tuple_match new_addr fuel expr n = Ok (m, k) ->
  get_scrutinee_expr m = tuple_head (get_scrutinee_expr expr).
Proof.
  intros Ht E. destruct fuel as [|fuel]; cbn [simplify_tuple_match] in E;
    destruct (get_scrutinee_expr expr) as [lm lit|id|rm elems rl|mm s cs ml];
    try discriminate Ht; try discriminate E.
  destruct (rust_assert (Nat.ltb 1 (length elems))); cbn [obind] in E;
    try discriminate E.
  destruct elems as [|head tail]; [discriminate E|].
  destruct (organize_tuple_patterns new_addr expr n) as [[map n1]| |];
    cbn [obind] in E; try discriminate E.
  match type of E with
  | obind ?o _ = _ => destruct o as [[cases n2]| |]
  end; cbn [obind] in E; try discriminate E.
  inversion E; subst. reflexivity.
Qed.

(** What the switch of a lowered match tests. *)
Lemma visit_MatchExpr_scrutinee (expr : MatchExpr) (translated : tree)
      (ctx ctx' : Context) (t : tree) (sty ety : BaseType) :
  lookup_type (expr_mappings (get_scrutinee_expr expr)) = Some sty ->
  lookup_type (get_mappings expr) = Some ety ->
  visit_MatchExpr new_addr lookup_type is_primitive_type_kind is_unit compile
                  compile_expr compile_case_label compile_bindings
                  expr translated ctx = Ok (t, ctx') ->
  exists mse s1 d1 uid1 uid1',
    compile_expr (get_scrutinee_expr expr) uid1 = Ok (mse, s1, d1, uid1')
    /\ exists q s2 pre body end_label,
         appended ctx ctx'
           (pre ++ s1 ++ s2
            ++ [SWITCH_EXPR (get_locus expr) (TREE_TYPE q) q body;
                label_definition_statement end_label])
         /\ if is_primitive_type_kind (get_kind sty)
            then q = mse /\ s2 = []
            else if TypeKind_eqb (get_kind sty) ADT
            then q = struct_field_expression
                       (struct_field_expression mse 0
                          (expr_locus (get_scrutinee_expr expr)))
                       0 (expr_locus (get_scrutinee_expr expr))
                 /\ s2 = []
            else exists d2 uid2 uid2',
                   compile_expr (tuple_head (get_scrutinee_expr expr)) uid2
                   = Ok (q, s2, d2, uid2').
Proof.
  intros Hsty Hety E. unfold visit_MatchExpr in E. rewrite Hsty in E.
  apply bind_Ok_inv in E. destruct E as [u0 [c0 [E0 E]]].
  apply assert_Ok_inv in E0. destruct E0 as [_ ->].
  apply bind_Ok_inv in E. destruct E as [u1 [c1 [E1 E]]].
  assert (Hc1 : scope_stack c1 = scope_stack ctx /\ fn_stack c1 = fn_stack ctx).
  { destruct (TypeKind_eqb (get_kind sty) ADT).
    - destruct sty; try discriminate E1.
      apply bind_Ok_inv in E1. destruct E1 as [u2 [c2 [E2 E1]]].
      apply assert_Ok_inv in E2. destruct E2 as [_ ->].
      apply assert_Ok_inv in E1. destruct E1 as [_ ->]. split; reflexivity.
    - destruct (TypeKind_eqb (get_kind sty) FLOAT).
      + unfold report in E1. inversion E1; subst. split; reflexivity.
      + apply ret_Ok_inv in E1. destruct E1 as [_ ->]. split; reflexivity. }
  clear E1. destruct Hc1 as [Hs1 Hf1].
  rewrite Hety in E.
  apply bind_Ok_inv in E. destruct E as [fnctx [c2 [E2 E]]].
  apply peek_fn_Ok_inv in E2. destruct E2 as [-> _].
  apply bind_Ok_inv in E. destruct E as [tmp [c3 [E3 E]]].
  assert (A3 : exists pre, appended ctx c3 pre).
  { destruct (is_unit ety); cbn [negb] in E3.
    - apply ret_Ok_inv in E3. destruct E3 as [_ ->]. exists [].
      apply same_stacks_appended; assumption.
    - apply bind_Ok_inv in E3. destruct E3 as [scope [c4 [E4 E3]]].
      apply peek_enclosing_scope_Ok_inv in E4. subst c4.
      apply bind_Ok_inv in E3. destruct E3 as [uid [c5 [E5 E3]]].
      apply fresh_uid_appended in E5. destruct E5 as [_ A5].
      match type of E3 with
      | context [temporary_variable ?a ?b ?c ?d ?e ?f ?g] =>
          destruct (temporary_variable a b c d e f g) as [v stmt]
      end.
      apply bind_Ok_inv in E3. destruct E3 as [u6 [c6 [E6 E3]]].
      apply ret_Ok_inv in E3. destruct E3 as [_ ->].
      apply add_statement_appended in E6. exists [stmt].
      eapply appended_same_start; [exact Hs1|exact Hf1|].
      exact (appended_trans A5 E6). }
  clear E3. destruct A3 as [pre A3].
  apply bind_Ok_inv in E. destruct E as [mse [c4 [E4 E]]].
  apply emit_appended in E4. destruct E4 as [s1 [d1 [uid1 [Hmse A4]]]].
  exists mse, s1, d1, (next_uid c3), uid1. split; [exact Hmse|].
  apply bind_Ok_inv in E. destruct E as [[[lowered mse'] q] [c5 [E5 E]]].
  assert (Hlow :
            get_locus lowered = get_locus expr
            /\ exists s2,
                 appended c4 c5 s2
                 /\ if is_primitive_type_kind (get_kind sty)
                    then q = mse /\ s2 = []
                    else if TypeKind_eqb (get_kind sty) ADT
                    then q = struct_field_expression
                               (struct_field_expression mse 0
                                  (expr_locus (get_scrutinee_expr expr)))
                               0 (expr_locus (get_scrutinee_expr expr))
                         /\ s2 = []
                    else exists d2 uid2 uid2',
                           compile_expr (tuple_head (get_scrutinee_expr expr)) uid2
                           = Ok (q, s2, d2, uid2')).
  { destruct (is_primitive_type_kind (get_kind sty)).
    - apply ret_Ok_inv in E5. destruct E5 as [E5 ->]. inversion E5; subst.
      split; [reflexivity|]. exists []. split; [apply appended_refl|].
      split; reflexivity.
    - destruct (TypeKind_eqb (get_kind sty) ADT).
      + apply ret_Ok_inv in E5. destruct E5 as [E5 ->]. inversion E5; subst.
        split; [reflexivity|]. exists []. split; [apply appended_refl|].
        split; reflexivity.
      + destruct (TypeKind_eqb (get_kind sty) TUPLE); [|discriminate E5].
        destruct (get_expression_type (get_scrutinee_expr expr)) eqn:Et;
          try discriminate E5.
        apply bind_Ok_inv in E5. destruct E5 as [outer [c6 [E6 E5]]].
        apply bind_Ok_inv in E5. destruct E5 as [mse2 [c7 [E7 E5]]].
        apply ret_Ok_inv in E5. destruct E5 as [E5 ->]. inversion E5; subst.
        unfold simplify in E6.
        destruct (simplify_tuple_match new_addr
                    (expr_size (get_scrutinee_expr expr)) expr (next_key c4))
          as [[m k]| |] eqn:Esim; try discriminate E6.
        inversion E6; subst.
        split; [apply simplify_tuple_match_locus in Esim; apply Esim|].
        apply emit_appended in E7. destruct E7 as [s2 [d2 [uid2 [Hq A7]]]].
        exists s2. split.
        * eapply appended_same_start; [| |exact A7]; reflexivity.
        * rewrite (@simplify_tuple_match_head _ _ _ _ _ Et Esim) in Hq.
          do 3 eexists. exact Hq. }
  clear E5. destruct Hlow as [Hloc [s2 [A5 Hq]]].
  apply bind_Ok_inv in E. destruct E as [uid6 [c6 [E6 E]]].
  apply fresh_uid_appended in E6. destruct E6 as [_ A6].
  apply bind_Ok_inv in E. destruct E as [scope7 [c7 [E7 E]]].
  apply peek_enclosing_scope_Ok_inv in E7. subst c7.
  apply bind_Ok_inv in E. destruct E as [uid8 [c8 [E8 E]]].
  apply fresh_uid_appended in E8. destruct E8 as [_ A8].
  apply bind_Ok_inv in E. destruct E as [u9 [c9 [E9 E]]].
  unfold push_block in E9. inversion E9; subst c9. clear E9.
  apply bind_Ok_inv in E. destruct E as [u10 [c10 [E10 E]]].
  apply compile_cases_segments in E10. destruct E10 as [segs [A10 _]].
  destruct A10 as [Hf10 Hs10]. cbn [scope_stack fn_stack app] in Hf10, Hs10.
  apply bind_Ok_inv in E. destruct E as [match_body [c11 [E11 E]]].
  unfold pop_block in E11. rewrite Hs10 in E11.
  injection E11 as Hmb Hc11. subst match_body c11.
  apply bind_Ok_inv in E. destruct E as [u12 [c12 [E12 E]]].
  apply add_statement_appended in E12.
  apply bind_Ok_inv in E. destruct E as [u13 [c13 [E13 E]]].
  apply add_statement_appended in E13.
  assert (Hfin : ctx' = c13).
  { destruct tmp as [v|]; apply ret_Ok_inv in E; destruct E as [_ ->];
      reflexivity. }
  subst ctx'.
  eexists q, s2, pre, _, _. split; [|exact Hq].
  eapply appended_trans; [exact A3|].
  eapply appended_trans; [exact A4|].
  eapply appended_trans; [exact A5|].
  rewrite <- Hloc.
  refine (appended_trans (appended_trans A6 A8) _).
  match type of E12 with
  | appended ?c _ _ =>
      assert (A11 : appended c8 c [])
        by (apply same_stacks_appended; cbn [scope_stack fn_stack];
            [reflexivity|exact Hf10])
  end.
  exact (appended_trans A11 (appended_trans E12 E13)).
Qed.

(** [visit (HIR::MatchExpr &)] reports the unsupported match on a
    floating-point scrutinee before anything else, and nothing else of its
    own. *)
Lemma visit_MatchExpr_reports (expr : MatchExpr) (translated : tree)
      (ctx ctx' : Context) (t : tree) :
  visit_MatchExpr new_addr lookup_type is_primitive_type_kind is_unit compile
                  compile_expr compile_case_label compile_bindings
                  expr translated ctx = Ok (t, ctx') ->
  exists reports,
    diagnostics ctx'
    = diagnostics ctx
      ++ match lookup_type (expr_mappings (get_scrutinee_expr expr)) with
         | Some sty =>
             if TypeKind_eqb (get_kind sty) FLOAT
             then [sorry_at (get_locus expr)
                     "match on floating-point types is not yet supported"]
             else []
         | None => []
         end
      ++ reports
    /\ Forall (reported_by_compilers compile_expr compile_case_label
                                     compile_bindings) reports.
Proof.
  intros E. unfold visit_MatchExpr in E.
  destruct (lookup_type (expr_mappings (get_scrutinee_expr expr))) as [sty|].
  2:{ inversion E. exists []. rewrite !app_nil_r. split; [reflexivity|constructor]. }
  apply bind_Ok_inv in E. destruct E as [u0 [c0 [E0 E]]].
  apply assert_Ok_inv in E0. destruct E0 as [_ ->].
  apply bind_Ok_inv in E. destruct E as [u1 [c1 [E1 E]]].
  assert (Hc1 : diagnostics c1
                = diagnostics ctx
                  ++ (if TypeKind_eqb (get_kind sty) FLOAT
                      then [sorry_at (get_locus expr)
                              "match on floating-point types is not yet supported"]
                      else [])).
  { destruct (TypeKind_eqb (get_kind sty) ADT) eqn:Ea.
    - apply TypeKind_eqb_eq in Ea. rewrite Ea. cbn [TypeKind_eqb].
      rewrite app_nil_r.
      destruct sty; try discriminate E1.
      apply bind_Ok_inv in E1. destruct E1 as [u2 [c2 [E2 E1]]].
      apply assert_Ok_inv in E2. destruct E2 as [_ ->].
      apply assert_Ok_inv in E1. destruct E1 as [_ ->]. reflexivity.
    - destruct (TypeKind_eqb (get_kind sty) FLOAT).
      + unfold report in E1. inversion E1; subst. reflexivity.
      + apply ret_Ok_inv in E1. destruct E1 as [_ ->].
        rewrite app_nil_r. reflexivity. }
  clear E1.
  match type of E with
  | ?m c1 = Ok (t, ctx') => assert (Q : discreet (reported_by_compilers compile_expr compile_case_label compile_bindings) m)
  end.
  2:{ destruct (Q _ _ _ E) as [reports [Hr HS]]. exists reports.
      split; [|exact HS]. unfold reported in Hr.
      rewrite Hr, Hc1, <- app_assoc. reflexivity. }
  clear E Hc1.
  destruct (lookup_type (get_mappings expr)) as [ety|]; [|apply discreet_ret].
  discreet_step; [discreet_step|].
  discreet_step.
  { destruct (negb (is_unit ety)); [|discreet_step].
    discreet_step; [discreet_step|]. discreet_step; [discreet_step|].
    match goal with
    | |- context [temporary_variable ?a ?b ?c ?d ?e ?f ?g] =>
        destruct (temporary_variable a b c d e f g) as [v stmt]
    end.
    discreet_step; [discreet_step|discreet_step]. }
  discreet_step; [apply discreet_compile_expr|].
  discreet_step.
  { destruct (is_primitive_type_kind (get_kind sty)); [discreet_step|].
    destruct (TypeKind_eqb (get_kind sty) ADT); [discreet_step|].
    destruct (TypeKind_eqb (get_kind sty) TUPLE); [|discreet_step].
    destruct (get_expression_type (get_scrutinee_expr expr)); try discreet_step.
    - apply discreet_simplify.
    - discreet_step; [apply discreet_compile_expr|discreet_step]. }
  match goal with a : (MatchExpr * tree * tree)%type |- _ =>
    destruct a as [[lowered mse'] q]
  end.
  discreet_step; [discreet_step|].
  discreet_step; [discreet_step|].
  discreet_step; [discreet_step|].
  discreet_step; [discreet_step|].
  discreet_step; [apply discreet_compile_cases|].
  discreet_step; [discreet_step|].
  discreet_step; [discreet_step|].
  discreet_step; [discreet_step|].
  destruct a0; discreet_step.
Qed.

(** Silent compilers report nothing. *)
Lemma silent_compilers_report_nothing (reports : list diagnostic) :
  silent_compilers compile_expr compile_case_label compile_bindings ->
  Forall (reported_by_compilers compile_expr compile_case_label compile_bindings)
         reports ->
  reports = [].
Proof.
  intros [He [Hl Hb]] Hall. destruct reports as [|d reports]; [reflexivity|].
  inversion Hall as [|d0 l0 Hd _]; subst.
  assert (Hnone : forall (A : Type) (e : Emitter A), silent e -> ~ reports_of e d).
  { intros A e Hs [uid [a [stmts [r [uid' [Ee Hin]]]]]].
    rewrite (Hs _ _ _ _ _ Ee) in Hin. exact Hin. }
  destruct Hd as [[e Hd]|[[p [l Hd]]|[p [s Hd]]]]; exfalso.
  - exact (Hnone _ _ (He e) Hd).
  - exact (Hnone _ _ (Hl p l) Hd).
  - exact (Hnone _ _ (Hb p s) Hd).
Qed.

(** A match that is lowered on a scrutinee of floating-point type is a match
    on a primitive type. *)
Lemma visit_MatchExpr_float_primitive (expr : MatchExpr) (translated : tree)
      (ctx ctx' : Context) (t : tree) (sty : BaseType) :
  lookup_type (expr_mappings (get_scrutinee_expr expr)) = Some sty ->
  get_kind sty = FLOAT ->
  visit_MatchExpr new_addr lookup_type is_primitive_type_kind is_unit compile
                  compile_expr compile_case_label compile_bindings
                  expr translated ctx = Ok (t, ctx') ->
  is_primitive_type_kind FLOAT = true.
Proof.
  intros Hsty Hk E. unfold visit_MatchExpr in E. rewrite Hsty in E.
  apply bind_Ok_inv in E. destruct E as [u0 [c0 [E0 _]]].
  apply assert_Ok_inv in E0. destruct E0 as [E0 _].
  rewrite Hk in E0. cbn [TypeKind_eqb negb] in E0.
  rewrite andb_true_r, !orb_false_r in E0. exact E0.
Qed.

End MoreMatchFacts.

(** X9.  What the switch of a lowered match tests.  The scrutinee is
    compiled; when its type is primitive the switch is on the compiled
    scrutinee; when it is an enumeration the switch is on field 0 of field 0
    of the compiled scrutinee; when it is a tuple the first element of the
    tuple expression is compiled as well, after the whole tuple, and the
    switch is on it alone.  The switch is followed by the definition of the
    end label, and these are the last two statements added. *)
Theorem visit_MatchExpr_switch_operand :
  forall (B : Backend) (new_addr : nat -> addr)
         (lookup_type : NodeMapping -> option TyTy.BaseType)
         (is_primitive_type_kind : TyTy.TypeKind -> bool)
         (is_unit : TyTy.BaseType -> bool)
         (compile : TyTy.BaseType -> tree)
         (compile_expr : Expr -> Emitter tree)
         (compile_case_label : Pattern -> tree -> Emitter tree)
         (compile_bindings : Pattern -> tree -> Emitter unit)
         (expr : MatchExpr) (translated : tree) (sty ety : TyTy.BaseType)
         (ctx ctx' : Context) (t : tree),
    lookup_type (expr_mappings (get_scrutinee_expr expr)) = Some sty ->
    lookup_type (get_mappings expr) = Some ety ->
    visit_MatchExpr new_addr lookup_type is_primitive_type_kind is_unit compile
                    compile_expr compile_case_label compile_bindings
                    expr translated ctx = Ok (t, ctx') ->
    exists mse s1 d1 uid1 uid1',
      compile_expr (get_scrutinee_expr expr) uid1 = Ok (mse, s1, d1, uid1')
      /\ exists q s2 pre body end_label,
           appended ctx ctx'
             (pre ++ s1 ++ s2
              ++ [SWITCH_EXPR (get_locus expr) (TREE_TYPE q) q body;
                  label_definition_statement end_label])
           /\ if is_primitive_type_kind (TyTy.get_kind sty)
              then q = mse /\ s2 = []
              else if TyTy.TypeKind_eqb (TyTy.get_kind sty) TyTy.ADT
              then q = struct_field_expression
                         (struct_field_expression mse 0
                            (expr_locus (get_scrutinee_expr expr)))
                         0 (expr_locus (get_scrutinee_expr expr))
                   /\ s2 = []
              else exists d2 uid2 uid2',
                     compile_expr (tuple_head (get_scrutinee_expr expr)) uid2
                     = Ok (q, s2, d2, uid2').
Proof.
  intros. eapply visit_MatchExpr_scrutinee; eassumption.
Qed.

Lemma visit_MatchExpr_switch_operand_witness :
  exists t ctx' q pre s1 body end_label,
    visit_MatchExpr Examples.bump_up MoreLoweringExamples.lookup_type_tuple
      LoweringExamples.is_primitive_type_kind LoweringExamples.is_unit
      LoweringExamples.compile_type LoweringExamples.compile_expr
      LoweringExamples.compile_case_label LoweringExamples.compile_bindings
      Examples.shared_first error_mark_node LoweringExamples.empty_context
    = Ok (t, ctx')
    /\ appended LoweringExamples.empty_context ctx'
         (pre ++ s1 ++ []
          ++ [SWITCH_EXPR 0 (TREE_TYPE q) q body;
              label_definition_statement end_label])
    /\ q = VALUE LoweringExamples.i32_tree 1.
Proof.
  destruct (visit_MatchExpr Examples.bump_up MoreLoweringExamples.lookup_type_tuple
              LoweringExamples.is_primitive_type_kind LoweringExamples.is_unit
              LoweringExamples.compile_type LoweringExamples.compile_expr
              LoweringExamples.compile_case_label LoweringExamples.compile_bindings
              Examples.shared_first error_mark_node LoweringExamples.empty_context)
    as [[t ctx']| |] eqn:E; try (vm_compute in E; discriminate E).
  destruct (@visit_MatchExpr_switch_operand tree_backend Examples.bump_up
              MoreLoweringExamples.lookup_type_tuple
              LoweringExamples.is_primitive_type_kind LoweringExamples.is_unit
              LoweringExamples.compile_type LoweringExamples.compile_expr
              LoweringExamples.compile_case_label LoweringExamples.compile_bindings
              Examples.shared_first error_mark_node
              (TyTy.BaseTy TyTy.TUPLE "(i32, i32)") LoweringExamples.i32
              LoweringExamples.empty_context ctx' t eq_refl eq_refl E)
    as [mse [s1 [d1 [uid1 [uid1' [_ [q [s2 [pre [body [end_label [Happ Hq]]]]]]]]]]]].
  cbn in Hq. destruct Hq as [d2 [uid2 [uid2' Hq]]].
  injection Hq as Hq Hs2 _ _. subst s2.
  exists t, ctx', q, pre, s1, body, end_label.
  split; [reflexivity|]. split; [exact Happ|]. symmetry. exact Hq.
Defined.

(** X10.  What the lowering of a match reports.  For a scrutinee of
    floating-point type it reports, before anything else, that such a match
    is not supported; it reports nothing else of its own: every other
    diagnostic is one that a compiler of the parts returns, and there is
    none when these are silent.  After that report a match on a floating-point
    scrutinee is lowered as a match on a primitive type: it returns when the
    compilers of the parts do, and the switch on the compiled scrutinee and
    the end label are appended. *)
Theorem visit_MatchExpr_diagnostics :
  forall (B : Backend) (new_addr : nat -> addr)
         (lookup_type : NodeMapping -> option TyTy.BaseType)
         (is_primitive_type_kind : TyTy.TypeKind -> bool)
         (is_unit : TyTy.BaseType -> bool)
         (compile : TyTy.BaseType -> tree)
         (compile_expr : Expr -> Emitter tree)
         (compile_case_label : Pattern -> tree -> Emitter tree)
         (compile_bindings : Pattern -> tree -> Emitter unit)
         (expr : MatchExpr) (translated : tree),
    let visit :=
      visit_MatchExpr new_addr lookup_type is_primitive_type_kind is_unit compile
                      compile_expr compile_case_label compile_bindings
                      expr translated in
    let unsupported :=
      sorry_at (get_locus expr)
               "match on floating-point types is not yet supported" in
    (forall ctx ctx' t,
        visit ctx = Ok (t, ctx') ->
        exists reports,
          diagnostics ctx'
          = diagnostics ctx
            ++ match lookup_type (expr_mappings (get_scrutinee_expr expr)) with
               | Some sty =>
                   if TyTy.TypeKind_eqb (TyTy.get_kind sty) TyTy.FLOAT
                   then [unsupported] else []
               | None => []
               end
            ++ reports
          /\ Forall (reported_by_compilers compile_expr compile_case_label
                                           compile_bindings) reports
          /\ (silent_compilers compile_expr compile_case_label compile_bindings ->
              reports = []))
    /\ (forall sty ety,
           lookup_type (expr_mappings (get_scrutinee_expr expr)) = Some sty ->
           TyTy.get_kind sty = TyTy.FLOAT ->
           lookup_type (get_mappings expr) = Some ety ->
           (is_primitive_type_kind TyTy.FLOAT = true ->
            (forall e, total (compile_expr e)) ->
            (forall p l, total (compile_case_label p l)) ->
            (forall p s, total (compile_bindings p s)) ->
            Forall (fun kase => get_patterns (get_arm kase) <> [])
                   (get_match_cases expr) ->
            forall ctx,
              scope_stack ctx <> [] -> fn_stack ctx <> [] ->
              exists t ctx', visit ctx = Ok (t, ctx'))
           /\ (forall ctx ctx' t,
                  visit ctx = Ok (t, ctx') ->
                  exists mse s1 pre body end_label,
                    compiled compile_expr (get_scrutinee_expr expr) (mse, s1)
                    /\ appended ctx ctx'
                         (pre ++ s1
                          ++ [SWITCH_EXPR (get_locus expr) (TREE_TYPE mse) mse body;
                              label_definition_statement end_label]))).
Proof.
  intros B new_addr lookup_type is_primitive_type_kind is_unit compile compile_expr
         compile_case_label compile_bindings expr translated visit unsupported.
  split.
  - intros ctx ctx' t E.
    apply visit_MatchExpr_reports in E. destruct E as [reports [Hd Hall]].
    exists reports. split; [exact Hd|]. split; [exact Hall|].
    intros Hsilent. exact (silent_compilers_report_nothing Hsilent Hall).
  - intros sty ety Hsty Hk Hety. split.
    + intros Hp He Hl Hb Hcases ctx Hs Hf.
      destruct (scope_stack ctx) as [|b rest] eqn:Es; [contradiction|].
      assert (Hd : at_depth (S (length rest)) ctx).
      { split; [rewrite Es; reflexivity|exact Hf]. }
      assert (R : runs (S (length rest)) (S (length rest)) visit).
      { unfold visit. eapply visit_MatchExpr_returns; try eassumption.
        left. rewrite Hk. split; [exact Hp|]. split; reflexivity. }
      destruct (R ctx Hd) as [t [ctx' [Hrun _]]].
      exists t, ctx'. exact Hrun.
    + intros ctx ctx' t E.
      pose proof (@visit_MatchExpr_float_primitive _ _ _ _ _ _ _ _ _ _ _ _ _ _ _
                    Hsty Hk E) as Hp.
      destruct (@visit_MatchExpr_scrutinee _ _ _ _ _ _ _ _ _ _ _ _ _ _ _ _
                  Hsty Hety E)
        as [mse [s1 [d1 [uid1 [uid1' [Hmse [q [s2 [pre [body [end_label
             [Happ Hq]]]]]]]]]]]].
      rewrite Hk, Hp in Hq. destruct Hq as [-> ->].
      exists mse, s1, pre, body, end_label.
      split; [do 3 eexists; exact Hmse|exact Happ].
Qed.

Lemma example_compilers_silent :
  silent_compilers LoweringExamples.compile_expr LoweringExamples.compile_case_label
                   LoweringExamples.compile_bindings.
Proof.
  split; [|split].
  - intros e uid a stmts reports uid'. unfold LoweringExamples.compile_expr.
    destruct e as [lm k|m|rm elems rl|mm s cs ml];
      try destruct (Nat.eqb m 9); intros E; inversion E; reflexivity.
  - intros p l uid a stmts reports uid'. unfold LoweringExamples.compile_case_label.
    destruct p; intros E; inversion E; reflexivity.
  - intros p s uid a stmts reports uid' E. inversion E. reflexivity.
Qed.

Lemma visit_MatchExpr_diagnostics_witness :
  exists t ctx' pre body end_label,
    visit_MatchExpr Examples.bump_up MoreLoweringExamples.lookup_type_float
      LoweringExamples.is_primitive_type_kind LoweringExamples.is_unit
      LoweringExamples.compile_type LoweringExamples.compile_expr
      LoweringExamples.compile_case_label LoweringExamples.compile_bindings
      (LoweringExamples.small_match 100) error_mark_node
      LoweringExamples.empty_context
    = Ok (t, ctx')
    /\ diagnostics ctx'
       = [sorry_at 5 "match on floating-point types is not yet supported"]
    /\ appended LoweringExamples.empty_context ctx'
         (pre ++ []
          ++ [SWITCH_EXPR 5 LoweringExamples.i32_tree
                (VALUE LoweringExamples.i32_tree 1) body;
              label_definition_statement end_label]).
Proof.
  destruct (@visit_MatchExpr_diagnostics tree_backend Examples.bump_up
              MoreLoweringExamples.lookup_type_float
              LoweringExamples.is_primitive_type_kind LoweringExamples.is_unit
              LoweringExamples.compile_type LoweringExamples.compile_expr
              LoweringExamples.compile_case_label LoweringExamples.compile_bindings
              (LoweringExamples.small_match 100) error_mark_node)
    as [Hreports Hfloat].
  destruct (Hfloat (TyTy.BaseTy TyTy.FLOAT "f32") LoweringExamples.i32
                   eq_refl eq_refl eq_refl) as [Hreturns Hlowered].
  destruct example_compilers_total as [He [Hl Hb]].
  destruct (Hreturns eq_refl He Hl Hb) with (ctx := LoweringExamples.empty_context)
    as [t [ctx' Hrun]].
  - repeat constructor; discriminate.
  - discriminate.
  - discriminate.
  - destruct (Hreports _ _ _ Hrun) as [reports [Hd [_ Hsilent]]].
    rewrite (Hsilent example_compilers_silent) in Hd.
    destruct (Hlowered _ _ _ Hrun) as [mse [s1 [pre [body [end_label [Hmse Happ]]]]]].
    destruct Hmse as [uid [d [uid' Hmse]]]. cbn in Hmse.
    injection Hmse as <- <- _ _.
    exists t, ctx', pre, body, end_label.
    split; [exact Hrun|]. split; [exact Hd|exact Happ].
Defined.

(** * Properties of the lowering of further expressions *)

Lemma is_error_mark_node_eq (t : tree) :
  is_error_mark_node t = true <-> t = error_mark_node.
Proof. destruct t; split; intros E; try reflexivity; discriminate E. Qed.

(** X11.  A borrow expression compiles its operand; a value of slice type is
    the result as it is, and the type of the borrow is not looked up; else,
    when the type of the borrow is not resolved the result register is left
    as it was; else the result is what a borrow adjustment to that type makes
    of the compiled operand. *)
Theorem visit_BorrowExpr_result :
  forall (B : Backend) (lookup_type : NodeMapping -> option TyTy.BaseType)
         (compile : TyTy.BaseType -> tree) (compile_expr : Expr -> Emitter tree)
         (compile_impl : nat -> option TyTy.FnType -> bool -> Location -> Emitter tree)
         (expr : BorrowExpr) (translated : tree) (ctx ctx' : Context) (t : tree),
    visit_BorrowExpr lookup_type compile compile_expr expr translated ctx
    = Ok (t, ctx') ->
    exists main_expr stmts reports,
      compile_expr (borrow_expr expr) (next_uid ctx)
      = Ok (main_expr, stmts, reports, next_uid ctx')
      /\ appended ctx ctx' stmts
      /\ reported ctx ctx' reports
      /\ (SLICE_TYPE_P (TREE_TYPE main_expr) = true -> t = main_expr)
      /\ (SLICE_TYPE_P (TREE_TYPE main_expr) = false ->
          lookup_type (borrow_mappings expr) = None -> t = translated)
      /\ (forall tyty adjustment,
             lookup_type (borrow_mappings expr) = Some tyty ->
             Adjustment.is_borrow adjustment = true ->
             Adjustment.get_expected adjustment = tyty ->
             resolve_adjustements compile compile_impl [adjustment] main_expr
                                  (borrow_locus expr) ctx'
             = Ok (t, ctx')).
Proof.
  intros B lookup_type compile compile_expr compile_impl expr translated
         ctx ctx' t E.
  unfold visit_BorrowExpr in E.
  apply bind_Ok_inv in E. destruct E as [main_expr [c [Hemit E]]].
  apply emit_inv in Hemit. destruct Hemit as [stmts [reports [Hc [Happ [Hrep _]]]]].
  assert (Hctx : ctx' = c).
  { destruct (SLICE_TYPE_P (TREE_TYPE main_expr));
      [|destruct (lookup_type (borrow_mappings expr))];
      apply ret_Ok_inv in E; destruct E as [_ ->]; reflexivity. }
  subst c. exists main_expr, stmts, reports.
  split; [exact Hc|]. split; [exact Happ|]. split; [exact Hrep|].
  destruct (SLICE_TYPE_P (TREE_TYPE main_expr)) eqn:Es.
  - apply ret_Ok_inv in E. destruct E as [-> _].
    split; [reflexivity|]. split; [discriminate|].
    intros tyty a _ Ha _. cbn [resolve_adjustements].
    unfold Adjustment.is_borrow in Ha.
    destruct (Adjustment.get_type a); try discriminate Ha;
      rewrite Es; reflexivity.
  - split; [discriminate|].
    destruct (lookup_type (borrow_mappings expr)) as [tyty|];
      apply ret_Ok_inv in E; destruct E as [-> _].
    + split; [discriminate|].
      intros tyty' a Ht Ha He. injection Ht as Ht.
      cbn [resolve_adjustements]. unfold Adjustment.is_borrow in Ha.
      destruct (Adjustment.get_type a); try discriminate Ha;
        rewrite Es, He, <- Ht; reflexivity.
    + split; [reflexivity|]. discriminate.
Qed.

Lemma visit_BorrowExpr_result_witness :
  exists t ctx',
    visit_BorrowExpr LoweringExamples.lookup_type LoweringExamples.compile_type
      LoweringExamples.compile_expr (mkBorrowExpr 60 (PathInExpression 9) 4)
      error_mark_node LoweringExamples.empty_context
    = Ok (t, ctx')
    /\ t = LoweringExamples.slice_value.
Proof.
  destruct (visit_BorrowExpr LoweringExamples.lookup_type LoweringExamples.compile_type
              LoweringExamples.compile_expr (mkBorrowExpr 60 (PathInExpression 9) 4)
              error_mark_node LoweringExamples.empty_context)
    as [[t ctx']| |] eqn:E; try (vm_compute in E; discriminate E).
  exists t, ctx'. split; [reflexivity|].
  destruct (@visit_BorrowExpr_result tree_backend LoweringExamples.lookup_type
              LoweringExamples.compile_type LoweringExamples.compile_expr
              LoweringExamples.compile_impl_item
              (mkBorrowExpr 60 (PathInExpression 9) 4) error_mark_node
              LoweringExamples.empty_context ctx' t E)
    as [main_expr [stmts [reports [Hc [_ [_ [Hslice _]]]]]]].
  cbn in Hc. injection Hc as Hm _ _ _. subst main_expr.
  apply Hslice. reflexivity.
Defined.

(** X12.  A range expression compiles both bounds, the lower bound first,
    whatever they compile to.  When one of them compiles to the error value
    the range is the error value, and the type of the range is not looked up;
    else the range is the constructor of its compiled type over the two
    bounds, and an unresolved type aborts.  An inclusive range is lowered as
    the exclusive range of the same parts. *)
Theorem visit_RangeFromToExpr_result :
  forall (B : Backend) (lookup_type : NodeMapping -> option TyTy.BaseType)
         (compile : TyTy.BaseType -> tree) (compile_expr : Expr -> Emitter tree)
         (expr : RangeFromToExpr) (ctx : Context) (from to : tree)
         (s1 s2 : list tree) (d1 d2 : list diagnostic)
         (uid1 uid2 : nat),
    scope_stack ctx <> [] ->
    compile_expr (range_from_to_from expr) (next_uid ctx) = Ok (from, s1, d1, uid1) ->
    compile_expr (range_from_to_to expr) uid1 = Ok (to, s2, d2, uid2) ->
    let ctx' := emitted (emitted ctx s1 d1 uid1) s2 d2 uid2 in
    appended ctx ctx' (s1 ++ s2)
    /\ (from = error_mark_node \/ to = error_mark_node ->
        visit_RangeFromToExpr lookup_type compile compile_expr expr ctx
        = Ok (error_mark_node, ctx'))
    /\ (from <> error_mark_node -> to <> error_mark_node ->
        visit_RangeFromToExpr lookup_type compile compile_expr expr ctx
        = match lookup_type (range_from_to_mappings expr) with
          | Some tyty =>
              Ok (constructor_expression (compile tyty) false [from; to] (-1)
                                         (range_from_to_locus expr), ctx')
          | None => Abort
          end)
    /\ visit_RangeFromToInclExpr lookup_type compile compile_expr
         (mkRangeFromToInclExpr (range_from_to_mappings expr)
            (range_from_to_from expr) (range_from_to_to expr)
            (range_from_to_locus expr)) ctx
       = visit_RangeFromToExpr lookup_type compile compile_expr expr ctx.
Proof.
  intros B lookup_type compile compile_expr expr ctx from to s1 s2 d1 d2 uid1 uid2
         Hs H1 H2 ctx'.
  assert (Hs1 : scope_stack (emitted ctx s1 d1 uid1) <> [])
    by (apply emitted_scope; exact Hs).
  assert (Hrun : forall k : tree -> tree -> M tree,
             bind (emit (compile_expr (range_from_to_from expr)))
                  (fun f => bind (emit (compile_expr (range_from_to_to expr)))
                                 (fun t => k f t)) ctx
             = k from to ctx').
  { intros k. rewrite (bind_emit _ _ _ Hs H1).
    rewrite (bind_emit _ _ _ Hs1 H2). reflexivity. }
  split; [|split; [|split]].
  - eapply appended_trans; [apply emitted_appended; exact Hs|].
    apply emitted_appended. exact Hs1.
  - intros Herr. unfold visit_RangeFromToExpr. rewrite Hrun.
    assert (Hb : is_error_mark_node from || is_error_mark_node to = true).
    { apply orb_true_iff. rewrite !is_error_mark_node_eq. exact Herr. }
    rewrite Hb. reflexivity.
  - intros Hf Ht. unfold visit_RangeFromToExpr. rewrite Hrun.
    assert (Hb : is_error_mark_node from || is_error_mark_node to = false).
    { apply orb_false_iff. split.
      - destruct (is_error_mark_node from) eqn:E; [|reflexivity].
        apply is_error_mark_node_eq in E. contradiction.
      - destruct (is_error_mark_node to) eqn:E; [|reflexivity].
        apply is_error_mark_node_eq in E. contradiction. }
    rewrite Hb. destruct (lookup_type (range_from_to_mappings expr)); reflexivity.
  - reflexivity.
Qed.

Lemma visit_RangeFromToExpr_result_witness :
  visit_RangeFromToExpr (fun _ => None) LoweringExamples.compile_type
    (fun e uid => match e with
                  | PathInExpression 1 => Ok (error_mark_node, [], [], uid)
                  | _ => LoweringExamples.compile_expr e uid
                  end)
    (mkRangeFromToExpr 5 (PathInExpression 1) (PathInExpression 2) 0)
    LoweringExamples.empty_context
  = Ok (error_mark_node, LoweringExamples.empty_context).
Proof.
  destruct (@visit_RangeFromToExpr_result tree_backend (fun _ => None)
              LoweringExamples.compile_type
              (fun e uid => match e with
                            | PathInExpression 1 => Ok (error_mark_node, [], [], uid)
                            | _ => LoweringExamples.compile_expr e uid
                            end)
              (mkRangeFromToExpr 5 (PathInExpression 1) (PathInExpression 2) 0)
              LoweringExamples.empty_context error_mark_node
              (VALUE LoweringExamples.i32_tree 2) [] [] [] [] 1 1)
    as [_ [H _]].
  - discriminate.
  - reflexivity.
  - reflexivity.
  - apply H. left. reflexivity.
Defined.

(** ** Operators *)

(** When the function of the method is compiled already its address is
    taken and nothing else is looked up. *)
Lemma resolve_method_address_compiled `{Backend} `{Tables} `{TypeMethods} `{Compilers}
      (fntype : TyTy.FnType) (ref : nat) (receiver : TyTy.BaseType)
      (segment : string) (mappings : NodeMapping) (locus : Location)
      (ctx : Context) (fn : tree) :
  lookup_function_decl (get_ty_ref fntype) = Some fn ->
  resolve_method_address fntype ref receiver segment mappings locus ctx
  = Ok (address_expression fn (build_pointer_type (TREE_TYPE fn)) locus, ctx).
Proof.
  intros Hfn. unfold resolve_method_address. rewrite Hfn. reflexivity.
Qed.

(** X13.  A compound assignment that is not overloaded compiles the left
    operand, then the right operand, and appends one statement: the
    assignment, to the compiled left operand, of what the arithmetic
    expression of the same operator and operands is lowered to.  The result
    register is left as it was. *)
Theorem visit_CompoundAssignmentExpr_assigns :
  forall (B : Backend) (O : Operators) (T : Tables) (Y : TypeMethods) (C : Compilers)
         (expr : CompoundAssignmentExpr ArithmeticOrLogicalOperator)
         (translated : tree) (ctx : Context) (lhs rhs : tree)
         (s1 s2 : list tree) (d1 d2 : list diagnostic)
         (uid1 uid2 : nat),
    scope_stack ctx <> [] ->
    lookup_operator_overload (compound_mappings expr) = None ->
    CompileExpr_Compile (compound_left_expr expr) (next_uid ctx)
    = Ok (lhs, s1, d1, uid1) ->
    CompileExpr_Compile (compound_right_expr expr) uid1 = Ok (rhs, s2, d2, uid2) ->
    exists value ctx1 ctx2,
      visit_ArithmeticOrLogicalExpr
        (mkArithmeticOrLogicalExpr (compound_expr_type expr)
           (compound_left_expr expr) (compound_right_expr expr)
           (compound_mappings expr) (compound_locus expr)) ctx
      = Ok (value, ctx1)
      /\ visit_CompoundAssignmentExpr expr translated ctx = Ok (translated, ctx2)
      /\ appended ctx ctx1 (s1 ++ s2)
      /\ appended ctx1 ctx2
           [assignment_statement lhs value (compound_locus expr)].
Proof.
  intros B O T Y C expr translated ctx lhs rhs s1 s2 d1 d2 uid1 uid2 Hs Hno H1 H2.
  assert (Hs1 : scope_stack (emitted ctx s1 d1 uid1) <> [])
    by (apply emitted_scope; exact Hs).
  assert (Hs2 : scope_stack (emitted (emitted ctx s1 d1 uid1) s2 d2 uid2) <> [])
    by (apply emitted_scope; exact Hs1).
  destruct (@add_statement_returns
              (assignment_statement lhs
                 (arithmetic_or_logical_expression (compound_expr_type expr)
                    lhs rhs (compound_locus expr))
                 (compound_locus expr)) _ Hs2) as [ctx2 [Hadd [A2 _]]].
  exists (arithmetic_or_logical_expression (compound_expr_type expr) lhs rhs
            (compound_locus expr)),
         (emitted (emitted ctx s1 d1 uid1) s2 d2 uid2), ctx2.
  split; [|split; [|split]].
  - unfold visit_ArithmeticOrLogicalExpr.
    cbn [arith_lhs arith_rhs arith_mappings arith_expr_type arith_locus].
    rewrite (bind_emit _ _ _ Hs H1).
    rewrite (bind_emit _ _ _ Hs1 H2).
    rewrite Hno. reflexivity.
  - unfold visit_CompoundAssignmentExpr.
    rewrite (bind_emit _ _ _ Hs H1).
    rewrite (bind_emit _ _ _ Hs1 H2).
    rewrite Hno. unfold bind. rewrite Hadd. reflexivity.
  - eapply appended_trans; [apply emitted_appended; exact Hs|].
    apply emitted_appended. exact Hs1.
  - exact A2.
Qed.

Lemma visit_CompoundAssignmentExpr_assigns_witness :
  exists ctx2,
    @visit_CompoundAssignmentExpr tree_backend MoreLoweringExamples.operators
      MoreLoweringExamples.tables MoreLoweringExamples.type_methods
      MoreLoweringExamples.compilers
      (mkCompoundAssignmentExpr (3 : @ArithmeticOrLogicalOperator
                                       MoreLoweringExamples.operators)
         (PathInExpression 1) (PathInExpression 2) 5 6)
      NULL_TREE LoweringExamples.empty_context
    = Ok (NULL_TREE, ctx2)
    /\ appended LoweringExamples.empty_context ctx2
         [MODIFY_EXPR (VALUE LoweringExamples.i32_tree 1)
            (CALL_EXPR (VALUE (FUNCTION_TYPE LoweringExamples.i32_tree) 3)
               [VALUE LoweringExamples.i32_tree 1;
                VALUE LoweringExamples.i32_tree 2])].
Proof.
  destruct (@visit_CompoundAssignmentExpr_assigns tree_backend
              MoreLoweringExamples.operators MoreLoweringExamples.tables
              MoreLoweringExamples.type_methods MoreLoweringExamples.compilers
              (mkCompoundAssignmentExpr (3 : @ArithmeticOrLogicalOperator
                                               MoreLoweringExamples.operators)
                 (PathInExpression 1) (PathInExpression 2) 5 6)
              NULL_TREE LoweringExamples.empty_context
              (VALUE LoweringExamples.i32_tree 1) (VALUE LoweringExamples.i32_tree 2)
              [] [] [] [] 1 1)
    as [value [ctx1 [ctx2 [Hv [Hc [A1 A2]]]]]].
  - discriminate.
  - reflexivity.
  - reflexivity.
  - reflexivity.
  - exists ctx2. split; [exact Hc|].
    vm_compute in Hv. injection Hv as Hv _. subst value.
    exact (appended_trans A1 A2).
Defined.

(** X14.  The call of an overloaded operator whose function is compiled
    already and whose receiver is adjusted without calls: the function is
    called by its address, on the adjusted left operand followed by the right
    operand when there is one.  An error entry among the adjustments does not
    stop the lowering: the call is made on the error value. *)
Theorem resolve_operator_overload_call :
  forall (B : Backend) (O : Operators) (T : Tables) (Y : TypeMethods) (C : Compilers)
         (lang_item_type : ItemType) (expr : OperatorExprMeta) (lhs rhs : tree)
         (lhs_expr : Expr) (ctx : Context) (fntype : TyTy.FnType)
         (resolved ref : nat) (receiver : TyTy.BaseType) (fn : tree)
         (adjustments : list Adjustment.t),
    lookup_operator_overload (meta_mappings expr) = Some fntype ->
    lookup_resolved_name (meta_mappings expr) = Some resolved ->
    lookup_node_to_hir (meta_mappings expr) resolved = Some ref ->
    lookup_receiver (meta_mappings expr) = Some receiver ->
    lookup_function_decl (get_ty_ref fntype) = Some fn ->
    lookup_autoderef_mappings (meta_mappings expr) = Some adjustments ->
    Forall (fun a => call_free a = true) adjustments ->
    exists self,
      resolve_adjustements (fun ty => TyTyResolveCompile_compile ty false)
        CompileInherentImplItem_Compile adjustments lhs (expr_locus lhs_expr) ctx
      = Ok (self, ctx)
      /\ resolve_operator_overload lang_item_type expr lhs rhs lhs_expr ctx
         = Ok (call_expression
                 (address_expression fn (build_pointer_type (TREE_TYPE fn))
                                     (meta_locus expr))
                 (self :: (if is_NULL_TREE rhs then [] else [rhs]))
                 NULL_TREE (meta_locus expr),
               ctx)
      /\ (Exists (fun a => Adjustment.get_type a = Adjustment.ERROR) adjustments ->
          self = error_mark_node).
Proof.
  intros B O T Y C lang_item_type expr lhs rhs lhs_expr ctx fntype resolved ref
         receiver fn adjustments Ho Hn Hr Hrec Hfn Ha Hfree.
  destruct (call_free_resolves (fun ty => TyTyResolveCompile_compile ty false)
              (expr_locus lhs_expr) ctx Hfree lhs) as [self [Hself Herr]].
  exists self. split; [apply Hself|]. split; [|exact Herr].
  unfold resolve_operator_overload. rewrite Ho, Hn, Hr, Hrec. cbv zeta.
  unfold bind at 1. rewrite resolve_method_address_compiled with (fn := fn) by exact Hfn.
  rewrite Ha. unfold bind. rewrite Hself. reflexivity.
Qed.

Lemma resolve_operator_overload_call_witness :
  @resolve_operator_overload tree_backend MoreLoweringExamples.operators
    MoreLoweringExamples.tables MoreLoweringExamples.type_methods
    MoreLoweringExamples.compilers
    (1 : @ItemType MoreLoweringExamples.operators) (mkOperatorExprMeta 80 6)
    LoweringExamples.int_value NULL_TREE (PathInExpression 1)
    LoweringExamples.empty_context
  = Ok (CALL_EXPR
          (ADDR_EXPR (POINTER_TYPE (FUNCTION_TYPE LoweringExamples.i32_tree))
                     MoreLoweringExamples.first_decl)
          [error_mark_node],
        LoweringExamples.empty_context).
Proof.
  destruct (@resolve_operator_overload_call tree_backend
              MoreLoweringExamples.operators MoreLoweringExamples.tables
              MoreLoweringExamples.type_methods MoreLoweringExamples.compilers
              (1 : @ItemType MoreLoweringExamples.operators)
              (mkOperatorExprMeta 80 6) LoweringExamples.int_value NULL_TREE
              (PathInExpression 1) LoweringExamples.empty_context
              LoweringExamples.f1 1080 1080 LoweringExamples.i32
              MoreLoweringExamples.first_decl
              [LoweringExamples.borrow (TyTy.ReferenceType LoweringExamples.i32);
               LoweringExamples.error_adjustment]
              eq_refl eq_refl eq_refl eq_refl eq_refl eq_refl)
    as [self [_ [Hcall Herr]]].
  - repeat constructor.
  - rewrite Hcall. rewrite Herr; [reflexivity|].
    apply Exists_cons_tl. apply Exists_cons_hd. reflexivity.
Defined.

(** X15.  When the function of a method is not compiled yet and the method
    is not an item of an implementation but an item of a trait, the path
    probe on the root of the receiver decides what is compiled for its
    address.  With one candidate, which must be an item of an implementation
    and of function type, it is the item of that implementation, not the item
    of the trait: with no type when the candidate has no substitutions
    defined, else with the type of the candidate, unified with the type of
    the method when it needs generic substitutions.  With no candidate it is
    the item that the trait reference knows for the item of the trait, which
    must have a default body.  In every other case, more than one candidate
    included, no address is returned. *)
Theorem resolve_method_address_probe :
  forall (B : Backend) (T : Tables) (Y : TypeMethods) (C : Compilers)
         (fntype : TyTy.FnType) (ref : nat) (receiver : TyTy.BaseType)
         (segment : string) (mappings : NodeMapping) (locus : Location)
         (ctx : Context) (trait_item trait trait_ref : nat),
    lookup_function_decl (get_ty_ref fntype) = None ->
    lookup_hir_implitem mappings ref = None ->
    lookup_hir_trait_item mappings ref = Some trait_item ->
    lookup_trait_item_mapping trait_item = Some trait ->
    lookup_trait_reference trait = Some trait_ref ->
    let address :=
      resolve_method_address fntype ref receiver segment mappings locus ctx in
    let candidates := PathProbeType_Probe (get_root receiver) segment in
    (forall candidate call,
        candidates = [candidate] ->
        is_impl_candidate candidate = true ->
        candidate_ty candidate = TyTy.FnDefType call ->
        address
        = emit (CompileInherentImplItem_Compile_default
                  (candidate_impl_item candidate)
                  (if TyTy.has_subsititions_defined call
                   then Some (if needs_generic_substitutions call
                              then unify (infer_substitions call locus)
                                         (TyTy.FnDefType fntype)
                              else TyTy.FnDefType call)
                   else None)) ctx)
    /\ (forall item_ref,
           candidates = [] ->
           trait_reference_lookup_hir_trait_item trait_ref trait_item
           = Some item_ref ->
           is_optional item_ref = true ->
           address
           = emit (CompileTraitItem_Compile (get_hir_trait_item item_ref)
                                            fntype true locus) ctx)
    /\ (forall t ctx',
           address = Ok (t, ctx') ->
           (exists candidate call,
               candidates = [candidate]
               /\ is_impl_candidate candidate = true
               /\ candidate_ty candidate = TyTy.FnDefType call)
           \/ (candidates = []
               /\ exists item_ref,
                    trait_reference_lookup_hir_trait_item trait_ref trait_item
                    = Some item_ref
                    /\ is_optional item_ref = true))
    /\ (2 <= length candidates -> address = Abort).
Proof.
  intros B T Y C fntype ref receiver segment mappings locus ctx trait_item trait
         trait_ref Hfn Himpl Hitem Htrait Href address candidates.
  assert (Haddr :
            address
            = match candidates with
              | [] =>
                  match trait_reference_lookup_hir_trait_item
                          trait_ref trait_item with
                  | None => Abort
                  | Some trait_item_ref =>
                      bind (assert_ (is_optional trait_item_ref))
                           (fun _ => emit (CompileTraitItem_Compile
                                             (get_hir_trait_item trait_item_ref)
                                             fntype true locus)) ctx
                  end
              | candidate :: _ =>
                  bind (assert_ (Nat.eqb (length candidates) 1))
                    (fun _ =>
                       bind (assert_ (is_impl_candidate candidate))
                         (fun _ =>
                            match candidate_ty candidate with
                            | TyTy.FnDefType call =>
                                emit (CompileInherentImplItem_Compile_default
                                        (candidate_impl_item candidate)
                                        (if TyTy.has_subsititions_defined call
                                         then Some
                                                (if needs_generic_substitutions call
                                                 then unify
                                                        (infer_substitions call locus)
                                                        (TyTy.FnDefType fntype)
                                                 else TyTy.FnDefType call)
                                         else None))
                            | _ => abort
                            end)) ctx
              end).
  { unfold address, resolve_method_address.
    rewrite Hfn, Himpl, Hitem, Htrait, Href. fold candidates.
    destruct candidates as [|candidate rest].
    - destruct (trait_reference_lookup_hir_trait_item trait_ref trait_item);
        reflexivity.
    - unfold bind.
      destruct (assert_ (Nat.eqb (length (candidate :: rest)) 1) ctx)
        as [[u c]| |]; try reflexivity.
      destruct (assert_ (is_impl_candidate candidate) c) as [[u' c']| |];
        try reflexivity.
      destruct (candidate_ty candidate) as [k n|n en nv|base|call|items];
        try reflexivity.
      destruct (TyTy.has_subsititions_defined call); reflexivity. }
  split; [|split; [|split]].
  - intros candidate call Hc Himplc Hty. rewrite Haddr, Hc.
    cbn [length Nat.eqb]. unfold bind, assert_. cbn [ret].
    rewrite Himplc, Hty. reflexivity.
  - intros item_ref Hc Hfound Hopt. rewrite Haddr, Hc, Hfound.
    unfold bind, assert_. rewrite Hopt. reflexivity.
  - intros t ctx' E. rewrite Haddr in E.
    destruct candidates as [|candidate [|second rest]].
    + right. split; [reflexivity|].
      destruct (trait_reference_lookup_hir_trait_item trait_ref trait_item)
        as [item_ref|]; [|discriminate E].
      apply bind_Ok_inv in E. destruct E as [u [c [Hopt _]]].
      apply assert_Ok_inv in Hopt. destruct Hopt as [Hopt _].
      exists item_ref. split; [reflexivity|exact Hopt].
    + left. apply bind_Ok_inv in E. destruct E as [u [c [_ E]]].
      apply bind_Ok_inv in E. destruct E as [u' [c' [Hi E]]].
      apply assert_Ok_inv in Hi. destruct Hi as [Hi _].
      destruct (candidate_ty candidate) as [k n|n en nv|base|call|items] eqn:Hty;
        try discriminate E.
      exists candidate, call. repeat split; assumption.
    + discriminate E.
  - intros Hlen. rewrite Haddr.
    destruct candidates as [|candidate [|second rest]]; cbn in Hlen; try lia.
    reflexivity.
Qed.

Lemma resolve_method_address_probe_witness :
  @resolve_method_address tree_backend MoreLoweringExamples.trait_tables
    MoreLoweringExamples.type_methods MoreLoweringExamples.compilers
    LoweringExamples.f3 0 LoweringExamples.i32 "once" 5 6
    LoweringExamples.empty_context
  = Ok (FUNCTION_DECL (FUNCTION_TYPE LoweringExamples.i32_tree) 1,
        LoweringExamples.empty_context)
  /\ @resolve_method_address tree_backend MoreLoweringExamples.trait_tables
       MoreLoweringExamples.type_methods MoreLoweringExamples.compilers
       LoweringExamples.f3 0 LoweringExamples.i32 "never" 5 6
       LoweringExamples.empty_context
     = Ok (FUNCTION_DECL (FUNCTION_TYPE LoweringExamples.i32_tree) 7,
           LoweringExamples.empty_context)
  /\ @resolve_method_address tree_backend MoreLoweringExamples.trait_tables
       MoreLoweringExamples.type_methods MoreLoweringExamples.compilers
       LoweringExamples.f3 0 LoweringExamples.i32 "twice" 5 6
       LoweringExamples.empty_context
     = Abort.
Proof.
  split; [|split].
  - destruct (@resolve_method_address_probe tree_backend
                MoreLoweringExamples.trait_tables MoreLoweringExamples.type_methods
                MoreLoweringExamples.compilers
                LoweringExamples.f3 0 LoweringExamples.i32 "once" 5 6
                LoweringExamples.empty_context 7 3 4
                eq_refl eq_refl eq_refl eq_refl eq_refl) as [H _].
    rewrite (H (mkPathProbeCandidate true (TyTy.FnDefType LoweringExamples.f1) 1)
               LoweringExamples.f1 eq_refl eq_refl eq_refl).
    reflexivity.
  - destruct (@resolve_method_address_probe tree_backend
                MoreLoweringExamples.trait_tables MoreLoweringExamples.type_methods
                MoreLoweringExamples.compilers
                LoweringExamples.f3 0 LoweringExamples.i32 "never" 5 6
                LoweringExamples.empty_context 7 3 4
                eq_refl eq_refl eq_refl eq_refl eq_refl) as [_ [H _]].
    rewrite (H (mkResolverTraitItemReference true 7) eq_refl eq_refl eq_refl).
    reflexivity.
  - destruct (@resolve_method_address_probe tree_backend
                MoreLoweringExamples.trait_tables MoreLoweringExamples.type_methods
                MoreLoweringExamples.compilers
                LoweringExamples.f3 0 LoweringExamples.i32 "twice" 5 6
                LoweringExamples.empty_context 7 3 4
                eq_refl eq_refl eq_refl eq_refl eq_refl) as [_ [_ [_ H]]].
    apply H. cbn. lia.
Defined.

(** X16.  Indexing that is not overloaded compiles the array, then the
    index; an array whose type is a reference is first read through the
    reference, at the compiled type referred to, and the element is then
    taken of the array itself. *)
Theorem visit_ArrayIndexExpr_indirection :
  forall (B : Backend) (O : Operators) (T : Tables) (Y : TypeMethods) (C : Compilers)
         (expr : ArrayIndexExpr) (ctx : Context) (array_reference index : tree)
         (s1 s2 : list tree) (d1 d2 : list diagnostic)
         (uid1 uid2 : nat) (array_expr_ty : TyTy.BaseType),
    scope_stack ctx <> [] ->
    CompileExpr_Compile (index_array_expr expr) (next_uid ctx)
    = Ok (array_reference, s1, d1, uid1) ->
    CompileExpr_Compile (index_index_expr expr) uid1 = Ok (index, s2, d2, uid2) ->
    lookup_operator_overload (index_mappings expr) = None ->
    lookup_type (expr_mappings (index_array_expr expr)) = Some array_expr_ty ->
    TyTy.reference_has_base array_expr_ty = true ->
    visit_ArrayIndexExpr expr ctx
    = Ok (array_index_expression
            (match array_expr_ty with
             | TyTy.ReferenceType base =>
                 indirect_expression (TyTyResolveCompile_compile base false)
                                     array_reference true (index_locus expr)
             | _ => array_reference
             end)
            index (index_locus expr),
          emitted (emitted ctx s1 d1 uid1) s2 d2 uid2).
Proof.
  intros B O T Y C expr ctx array_reference index s1 s2 d1 d2 uid1 uid2 array_expr_ty
         Hs H1 H2 Hno Hty Hbase.
  assert (Hs1 : scope_stack (emitted ctx s1 d1 uid1) <> [])
    by (apply emitted_scope; exact Hs).
  unfold visit_ArrayIndexExpr.
  rewrite (bind_emit _ _ _ Hs H1).
  rewrite (bind_emit _ _ _ Hs1 H2).
  rewrite Hno, Hty.
  destruct array_expr_ty as [k n|n en nv|base|f|items];
    cbn [TyTy.get_kind TyTy.TypeKind_eqb]; try reflexivity.
  destruct k; try reflexivity. discriminate Hbase.
Qed.

Lemma visit_ArrayIndexExpr_indirection_witness :
  @visit_ArrayIndexExpr tree_backend MoreLoweringExamples.operators
    MoreLoweringExamples.tables MoreLoweringExamples.type_methods
    MoreLoweringExamples.compilers
    (mkArrayIndexExpr (PathInExpression 70) (PathInExpression 2) 5 6)
    LoweringExamples.empty_context
  = Ok (ARRAY_REF LoweringExamples.i32_tree
          (INDIRECT_REF MoreLoweringExamples.array4_tree
                        (VALUE LoweringExamples.i32_tree 70) true)
          (VALUE LoweringExamples.i32_tree 2),
        LoweringExamples.empty_context).
Proof.
  exact (@visit_ArrayIndexExpr_indirection tree_backend
           MoreLoweringExamples.operators MoreLoweringExamples.tables
           MoreLoweringExamples.type_methods MoreLoweringExamples.compilers
           (mkArrayIndexExpr (PathInExpression 70) (PathInExpression 2) 5 6)
           LoweringExamples.empty_context (VALUE LoweringExamples.i32_tree 70)
           (VALUE LoweringExamples.i32_tree 2) [] [] [] [] 1 1
           (TyTy.ReferenceType MoreLoweringExamples.array_of_i32)
           ltac:(discriminate) eq_refl eq_refl eq_refl eq_refl eq_refl).
Defined.

(** * Properties of the lowering of string literals and of array expressions *)

(** X17.  A string literal is the fat pointer of the address of the string
    constant and of the number of characters of the literal, as a constant of
    the compiled type [usize]; it aborts when the literal is not a string
    literal or when [usize] is not a builtin type. *)
Theorem compile_string_literal_length :
  forall (B : Backend) (string_constant_expression : string -> tree)
         (lookup_builtin : string -> option TyTy.BaseType)
         (compile : TyTy.BaseType -> tree)
         (expr : Literal.LiteralExprNode) (tyty : TyTy.BaseType),
    (forall usize,
        Literal.get_lit_type expr = Literal.STRING ->
        lookup_builtin "usize"%string = Some usize ->
        (type_min (compile usize) <= 0)%Z ->
        (Z.of_nat (String.length (Literal.as_string expr))
         <= type_max (compile usize))%Z ->
        compile_string_literal string_constant_expression lookup_builtin compile
                               expr tyty
        = let base := string_constant_expression (Literal.as_string expr) in
          Ok (constructor_expression (compile tyty) false
                [address_expression base (build_pointer_type (TREE_TYPE base))
                                    (Literal.get_locus expr);
                 INTEGER_CST (compile usize)
                   (Z.of_nat (String.length (Literal.as_string expr)))]
                (-1) (Literal.get_locus expr)))
    /\ (Literal.get_lit_type expr <> Literal.STRING ->
        compile_string_literal string_constant_expression lookup_builtin compile
                               expr tyty = Abort)
    /\ (lookup_builtin "usize"%string = None ->
        compile_string_literal string_constant_expression lookup_builtin compile
                               expr tyty = Abort).
Proof.
  intros B string_constant_expression lookup_builtin compile expr tyty.
  split; [|split].
  - intros usize Hl Hu Hmin Hmax. unfold compile_string_literal.
    rewrite Hl, Hu. cbn [Literal.LitType_eqb rust_assert obind].
    unfold double_int_to_tree.
    rewrite mpz_get_double_int_in_range by lia. reflexivity.
  - intros Hl. unfold compile_string_literal.
    destruct (Literal.get_lit_type expr); try reflexivity. contradiction.
  - intros Hu. unfold compile_string_literal. rewrite Hu.
    destruct (Literal.LitType_eqb (Literal.get_lit_type expr) Literal.STRING);
      reflexivity.
Qed.

Lemma compile_string_literal_length_witness :
  compile_string_literal
    (fun s => VALUE (ARRAY_TYPE (INTEGER_TYPE 8 true) size_type_node 0 2) 9)
    (fun _ => Some (TyTy.BaseTy TyTy.USIZE "usize"))
    (fun t => match t with
              | TyTy.BaseTy TyTy.USIZE _ => size_type_node
              | _ => LoweringExamples.slice_tree
              end)
    (Literal.mkLiteralExprNode Literal.STRING "abc" 7) (TyTy.BaseTy TyTy.STR "str")
  = Ok (CONSTRUCTOR LoweringExamples.slice_tree
          [ADDR_EXPR (POINTER_TYPE (ARRAY_TYPE (INTEGER_TYPE 8 true) size_type_node 0 2))
                     (VALUE (ARRAY_TYPE (INTEGER_TYPE 8 true) size_type_node 0 2) 9);
           INTEGER_CST size_type_node 3]).
Proof.
  destruct (@compile_string_literal_length tree_backend
              (fun s => VALUE (ARRAY_TYPE (INTEGER_TYPE 8 true) size_type_node 0 2) 9)
              (fun _ => Some (TyTy.BaseTy TyTy.USIZE "usize"))
              (fun t => match t with
                        | TyTy.BaseTy TyTy.USIZE _ => size_type_node
                        | _ => LoweringExamples.slice_tree
                        end)
              (Literal.mkLiteralExprNode Literal.STRING "abc" 7)
              (TyTy.BaseTy TyTy.STR "str")) as [H _].
  apply (H (TyTy.BaseTy TyTy.USIZE "usize")).
  - reflexivity.
  - reflexivity.
  - vm_compute. discriminate.
  - vm_compute. discriminate.
Defined.

Section ByteStringFacts.

Variable char_constant_expression : ascii -> tree.

Lemma byte_string_elements_spec (value_str : string) :
  forall i vals indexes,
    byte_string_elements char_constant_expression value_str i vals indexes
    = (vals ++ map char_constant_expression (list_ascii_of_string value_str),
       indexes ++ seq i (String.length value_str)).
Proof.
  induction value_str as [|b rest IH]; intros i vals indexes;
    cbn [byte_string_elements list_ascii_of_string map String.length seq].
  - rewrite !app_nil_r. reflexivity.
  - rewrite IH, <- !app_assoc. reflexivity.
Qed.

End ByteStringFacts.

(** X18.  A byte-string literal of type reference to array is the address of
    an array constructor with one character constant for each byte of the
    literal, in order, at the indexes 0, 1, 2, ...; the length of the array
    type is not consulted.  It aborts when the type is not a reference to an
    array. *)
Theorem compile_byte_string_literal_elements :
  forall (B : Backend) (char_constant_expression : ascii -> tree)
         (array_constructor_expression :
            tree -> list nat -> list tree -> Location -> tree)
         (compile : TyTy.BaseType -> tree)
         (expr : Literal.LiteralExprNode),
    Literal.get_lit_type expr = Literal.BYTE_STRING ->
    (forall base_tyty,
        TyTy.get_kind base_tyty = TyTy.ARRAY ->
        compile_byte_string_literal char_constant_expression
          array_constructor_expression compile expr (TyTy.ReferenceType base_tyty)
        = Ok (address_expression
                (array_constructor_expression (compile base_tyty)
                   (seq 0 (String.length (Literal.as_string expr)))
                   (map char_constant_expression
                        (list_ascii_of_string (Literal.as_string expr)))
                   (Literal.get_locus expr))
                (build_pointer_type (compile base_tyty))
                (Literal.get_locus expr)))
    /\ (forall tyty,
           TyTy.get_kind tyty <> TyTy.REF ->
           compile_byte_string_literal char_constant_expression
             array_constructor_expression compile expr tyty = Abort)
    /\ (forall base_tyty,
           TyTy.get_kind base_tyty <> TyTy.ARRAY ->
           compile_byte_string_literal char_constant_expression
             array_constructor_expression compile expr (TyTy.ReferenceType base_tyty)
           = Abort).
Proof.
  intros B char_constant_expression array_constructor_expression compile expr Hl.
  split; [|split].
  - intros base_tyty Hk. unfold compile_byte_string_literal.
    rewrite Hl. cbn [Literal.LitType_eqb rust_assert obind TyTy.get_kind
                     TyTy.TypeKind_eqb].
    apply TypeKind_eqb_eq in Hk. rewrite Hk. cbn [rust_assert obind].
    rewrite byte_string_elements_spec. reflexivity.
  - intros tyty Hk. unfold compile_byte_string_literal.
    rewrite Hl. cbn [Literal.LitType_eqb rust_assert obind].
    destruct (TyTy.TypeKind_eqb (TyTy.get_kind tyty) TyTy.REF) eqn:E;
      [|reflexivity].
    apply TypeKind_eqb_eq in E. contradiction.
  - intros base_tyty Hk. unfold compile_byte_string_literal.
    rewrite Hl. cbn [Literal.LitType_eqb rust_assert obind TyTy.get_kind
                     TyTy.TypeKind_eqb].
    destruct (TyTy.TypeKind_eqb (TyTy.get_kind base_tyty) TyTy.ARRAY) eqn:E;
      [|reflexivity].
    apply TypeKind_eqb_eq in E. contradiction.
Qed.

Lemma compile_byte_string_literal_elements_witness :
  compile_byte_string_literal (fun b => INTEGER_CST (INTEGER_TYPE 8 true)
                                          (Z.of_nat (nat_of_ascii b)))
    (fun type indexes vals _ => CONSTRUCTOR type vals)
    MoreLoweringExamples.compile_type
    (Literal.mkLiteralExprNode Literal.BYTE_STRING "hi" 7)
    (TyTy.ReferenceType MoreLoweringExamples.array_of_i32)
  = Ok (ADDR_EXPR (POINTER_TYPE MoreLoweringExamples.array4_tree)
          (CONSTRUCTOR MoreLoweringExamples.array4_tree
             [INTEGER_CST (INTEGER_TYPE 8 true) 104;
              INTEGER_CST (INTEGER_TYPE 8 true) 105])).
Proof.
  destruct (@compile_byte_string_literal_elements tree_backend
              (fun b => INTEGER_CST (INTEGER_TYPE 8 true) (Z.of_nat (nat_of_ascii b)))
              (fun type indexes vals _ => CONSTRUCTOR type vals)
              MoreLoweringExamples.compile_type
              (Literal.mkLiteralExprNode Literal.BYTE_STRING "hi" 7) eq_refl)
    as [H _].
  exact (H MoreLoweringExamples.array_of_i32 eq_refl).
Defined.

Section ArrayFacts.

Context `{Backend}.

Variable array_constructor_expression :
  tree -> list nat -> list tree -> Location -> tree.
Variable lookup_type : NodeMapping -> option TyTy.BaseType.
Variable compile : TyTy.BaseType -> tree.
Variable compile_expr : Expr -> Emitter tree.

Lemma array_value_elements_inv (values : list Expr) :
  forall i indexes constructor ctx indexes' constructor' ctx',
    array_value_elements compile_expr values i indexes constructor ctx
    = Ok ((indexes', constructor'), ctx') ->
    exists results,
      Forall2 (compiled compile_expr) values results
      /\ indexes' = indexes ++ seq i (length values)
      /\ constructor' = constructor ++ map fst results
      /\ appended ctx ctx' (concat (map snd results)).
Proof.
  induction values as [|elem values IH];
    intros i indexes constructor ctx indexes' constructor' ctx' E;
    cbn [array_value_elements] in E.
  - apply ret_Ok_inv in E. destruct E as [E ->]. inversion E; subst.
    exists []. cbn. rewrite !app_nil_r.
    split; [constructor|]. split; [reflexivity|]. split; [reflexivity|].
    apply appended_refl.
  - apply bind_Ok_inv in E. destruct E as [v [c [Hemit E]]].
    apply emit_inv in Hemit. destruct Hemit as [stmts [reports [Hc [Happ _]]]].
    apply IH in E. destruct E as [results [Hall [Hi [Hv Hrest]]]].
    exists ((v, stmts) :: results). cbn [length seq map fst snd concat].
    split; [|split; [|split]].
    + constructor; [|exact Hall]. do 3 eexists. exact Hc.
    + rewrite Hi, <- app_assoc. reflexivity.
    + rewrite Hv, <- app_assoc. reflexivity.
    + exact (appended_trans Happ Hrest).
Qed.

End ArrayFacts.

(** X19.  An array expression that lists its elements compiles them in
    order and builds the array constructor of their values at the indexes
    0, 1, 2, ..., one index for each element; the statements of the elements
    are appended in the same order.  When the compiled type of the
    expression is not an array type the result is the error value and no
    element is compiled. *)
Theorem visit_ArrayExpr_values :
  forall (B : Backend)
         (array_constructor_expression :
            tree -> list nat -> list tree -> Location -> tree)
         (lookup_type : NodeMapping -> option TyTy.BaseType)
         (compile : TyTy.BaseType -> tree) (compile_expr : Expr -> Emitter tree)
         (array_copied_expr :
            Location -> TyTy.BaseType -> tree -> Expr -> Expr -> M tree)
         (expr : ArrayExpr) (tyty : TyTy.BaseType) (ctx : Context),
    lookup_type (array_mappings expr) = Some tyty ->
    ((forall elem domain lo hi, compile tyty <> ARRAY_TYPE elem domain lo hi) ->
     visit_ArrayExpr array_constructor_expression lookup_type compile compile_expr
                     array_copied_expr expr ctx
     = Ok (error_mark_node, ctx))
    /\ (forall elems t ctx',
           array_internal_elements expr = ArrayElemsValues elems ->
           (exists elem domain lo hi, compile tyty = ARRAY_TYPE elem domain lo hi) ->
           visit_ArrayExpr array_constructor_expression lookup_type compile
                           compile_expr array_copied_expr expr ctx
           = Ok (t, ctx') ->
           exists results,
             Forall2 (compiled compile_expr) elems results
             /\ t = array_constructor_expression (compile tyty)
                      (seq 0 (length elems)) (map fst results) (array_locus expr)
             /\ appended ctx ctx' (concat (map snd results))).
Proof.
  intros B array_constructor_expression lookup_type compile compile_expr
         array_copied_expr expr tyty ctx Hty.
  split.
  - intros Hna. unfold visit_ArrayExpr. rewrite Hty.
    destruct (compile tyty) eqn:Ec; try reflexivity.
    exfalso. eapply Hna. reflexivity.
  - intros elems t ctx' He [elem [domain [lo [hi Ha]]]] E.
    unfold visit_ArrayExpr in E. rewrite Hty, Ha, He in E.
    apply bind_Ok_inv in E. destruct E as [u [c [Hassert E]]].
    apply assert_Ok_inv in Hassert. destruct Hassert as [_ ->].
    unfold array_value_expr in E.
    apply bind_Ok_inv in E. destruct E as [[indexes constructor] [c [Hloop E]]].
    apply ret_Ok_inv in E. destruct E as [-> ->].
    apply array_value_elements_inv in Hloop.
    destruct Hloop as [results [Hall [Hi [Hv Happ]]]].
    exists results. cbn [app] in Hi, Hv. subst indexes constructor.
    split; [exact Hall|]. split; [rewrite Ha; reflexivity|exact Happ].
Qed.

Lemma visit_ArrayExpr_values_witness :
  exists t ctx' (results : list (tree * list tree)),
    visit_ArrayExpr (fun type indexes vals _ => CONSTRUCTOR type vals)
      (fun _ => Some MoreLoweringExamples.array_of_i32)
      MoreLoweringExamples.compile_type LoweringExamples.compile_expr
      (fun _ _ _ _ _ => abort)
      (mkArrayExpr 5 (ArrayElemsValues [PathInExpression 1; PathInExpression 2]) 6)
      LoweringExamples.empty_context
    = Ok (t, ctx')
    /\ t = CONSTRUCTOR MoreLoweringExamples.array4_tree (map fst results)
    /\ length results = 2.
Proof.
  destruct (visit_ArrayExpr (fun type indexes vals _ => CONSTRUCTOR type vals)
              (fun _ => Some MoreLoweringExamples.array_of_i32)
              MoreLoweringExamples.compile_type LoweringExamples.compile_expr
              (fun _ _ _ _ _ => abort)
              (mkArrayExpr 5 (ArrayElemsValues [PathInExpression 1;
                                                PathInExpression 2]) 6)
              LoweringExamples.empty_context)
    as [[t ctx']| |] eqn:E; try (vm_compute in E; discriminate E).
  destruct (@visit_ArrayExpr_values tree_backend
              (fun type indexes vals _ => CONSTRUCTOR type vals)
              (fun _ => Some MoreLoweringExamples.array_of_i32)
              MoreLoweringExamples.compile_type LoweringExamples.compile_expr
              (fun _ _ _ _ _ => abort)
              (mkArrayExpr 5 (ArrayElemsValues [PathInExpression 1;
                                                PathInExpression 2]) 6)
              MoreLoweringExamples.array_of_i32 LoweringExamples.empty_context
              eq_refl) as [_ H].
  destruct (H [PathInExpression 1; PathInExpression 2] t ctx' eq_refl)
    as [results [Hall [Ht _]]].
  - do 4 eexists. reflexivity.
  - exact E.
  - exists t, ctx', results. split; [reflexivity|]. split; [exact Ht|].
    apply Forall2_length in Hall. symmetry. exact Hall.
Defined.

(** * Properties of the lowering of calls and of identifiers *)

Lemma lift_Ok_inv (A : Type) (o : outcome A) (ctx ctx' : Context) (a : A) :
  lift o ctx = Ok (a, ctx') -> o = Ok a /\ ctx' = ctx.
Proof.
  unfold lift. destruct o as [a0| |]; cbn [obind]; intros E; inversion E.
  split; reflexivity.
Qed.

Lemma report_Ok_inv (d : diagnostic) (ctx ctx' : Context) (u : unit) :
  report d ctx = Ok (u, ctx') -> ctx' = with_diagnostic ctx d.
Proof. unfold report. intros E. inversion E. reflexivity. Qed.

Section CallFacts.

Import TyTy.
Context `{Backend} `{Operators} `{Tables} `{TypeMethods} `{Compilers}.

Lemma coerced_arguments_length (expected_at : nat -> option BaseType)
      (arguments : list Expr) :
  forall i values,
    coerced_arguments expected_at i arguments values ->
    length values = length arguments.
Proof.
  induction arguments as [|a arguments IH]; intros i [|v values] Hp;
    cbn [coerced_arguments] in Hp; try contradiction; [reflexivity|].
  destruct Hp as [_ Hp]. cbn. f_equal. exact (IH _ _ Hp).
Qed.

Lemma method_call_arguments_inv (fntype : FnType) (arguments : list Expr) :
  forall i args ctx args' ctx',
    method_call_arguments fntype arguments i args ctx = Ok (args', ctx') ->
    exists rest stmts,
      args' = args ++ rest
      /\ coerced_arguments (fun j => param_at fntype (j + 1)) i arguments rest
      /\ appended ctx ctx' stmts.
Proof.
  induction arguments as [|argument arguments IH]; intros i args ctx args' ctx' E;
    cbn [method_call_arguments] in E.
  - apply ret_Ok_inv in E. destruct E as [-> ->].
    exists [], []. rewrite app_nil_r.
    split; [reflexivity|]. split; [exact I|apply appended_refl].
  - apply bind_Ok_inv in E. destruct E as [rvalue [c [Hemit E]]].
    apply emit_inv in Hemit. destruct Hemit as [s1 [r1 [Hc [A1 _]]]].
    destruct (param_at fntype (i + 1)) as [expected|] eqn:Ep; [|discriminate E].
    destruct (lookup_type (expr_mappings argument)) as [actual|] eqn:Ea;
      [|discriminate E].
    apply bind_Ok_inv in E. destruct E as [coerced [c' [Hco E]]].
    apply emit_inv in Hco. destruct Hco as [s2 [r2 [Hco [A2 _]]]].
    apply IH in E. destruct E as [rest [s3 [-> [Hp A3]]]].
    exists (coerced :: rest), ((s1 ++ s2) ++ s3).
    split; [rewrite <- app_assoc; reflexivity|].
    split; [|exact (appended_trans (appended_trans A1 A2) A3)].
    cbn [coerced_arguments]. split; [|exact Hp].
    exists expected. split; [exact Ep|].
    exists rvalue, s1, actual. do 4 eexists.
    split; [do 3 eexists; exact Hc|]. split; [exact Ea|exact Hco].
Qed.

Lemma constructor_arguments_inv (variant : VariantDef) (arguments : list Expr) :
  forall i acc ctx acc' ctx',
    constructor_arguments variant arguments i acc ctx = Ok (acc', ctx') ->
    exists rest stmts,
      acc' = acc ++ rest
      /\ coerced_arguments (nth_error (variant_fields variant)) i arguments rest
      /\ (i <= length (variant_fields variant) ->
          i + length arguments <= length (variant_fields variant))
      /\ appended ctx ctx' stmts.
Proof.
  induction arguments as [|argument arguments IH]; intros i acc ctx acc' ctx' E;
    cbn [constructor_arguments] in E.
  - apply ret_Ok_inv in E. destruct E as [-> ->].
    exists [], []. rewrite app_nil_r.
    split; [reflexivity|]. split; [exact I|].
    split; [cbn; lia|apply appended_refl].
  - apply bind_Ok_inv in E. destruct E as [rvalue [c [Hemit E]]].
    apply emit_inv in Hemit. destruct Hemit as [s1 [r1 [Hc [A1 _]]]].
    assert (Hi : i < length (variant_fields variant)).
    { apply nth_error_Some. destruct (nth_error (variant_fields variant) i);
        [discriminate|discriminate E]. }
    destruct (nth_error (variant_fields variant) i) as [expected|] eqn:En;
      [|discriminate E].
    destruct (lookup_type (expr_mappings argument)) as [actual|] eqn:Ea;
      [|discriminate E].
    apply bind_Ok_inv in E. destruct E as [coerced [c' [Hco E]]].
    apply emit_inv in Hco. destruct Hco as [s2 [r2 [Hco [A2 _]]]].
    apply IH in E. destruct E as [rest [s3 [-> [Hp [Hfields A3]]]]].
    exists (coerced :: rest), ((s1 ++ s2) ++ s3).
    split; [rewrite <- app_assoc; reflexivity|].
    split.
    { cbn [coerced_arguments]. split; [|exact Hp].
      exists expected. split; [exact En|].
      exists rvalue, s1, actual. do 4 eexists.
      split; [do 3 eexists; exact Hc|]. split; [exact Ea|exact Hco]. }
    split; [intros _; cbn [length]; lia|].
    exact (appended_trans (appended_trans A1 A2) A3).
Qed.

Lemma function_arguments_inv (tyty : BaseType) (varadic : bool) (required : nat)
      (arguments : list Expr) :
  forall i args ctx args' ctx',
    function_arguments tyty varadic required arguments i args ctx
    = Ok (args', ctx') ->
    exists rest stmts,
      args' = args ++ rest
      /\ passed_arguments tyty varadic required i arguments rest
      /\ appended ctx ctx' stmts.
Proof.
  induction arguments as [|argument arguments IH]; intros i args ctx args' ctx' E;
    cbn [function_arguments] in E.
  - apply ret_Ok_inv in E. destruct E as [-> ->].
    exists [], []. rewrite app_nil_r.
    split; [reflexivity|]. split; [exact I|apply appended_refl].
  - apply bind_Ok_inv in E. destruct E as [rvalue [c [Hemit E]]].
    apply emit_inv in Hemit. destruct Hemit as [s1 [r1 [Hc [A1 _]]]].
    destruct (varadic && Nat.leb required i) eqn:Ev.
    + apply IH in E. destruct E as [rest [s3 [-> [Hp A3]]]].
      exists (rvalue :: rest), (s1 ++ s3).
      split; [rewrite <- app_assoc; reflexivity|].
      split; [|exact (appended_trans A1 A3)].
      cbn [passed_arguments]. split; [|exact Hp].
      unfold passed_argument. rewrite Ev.
      exists s1. do 3 eexists; exact Hc.
    + apply bind_Ok_inv in E. destruct E as [expected [c0 [Hex E]]].
      apply lift_Ok_inv in Hex. destruct Hex as [Hex ->].
      destruct (lookup_type (expr_mappings argument)) as [actual|] eqn:Ea;
        [|discriminate E].
      apply bind_Ok_inv in E. destruct E as [coerced [c' [Hco E]]].
      apply emit_inv in Hco. destruct Hco as [s2 [r2 [Hco [A2 _]]]].
      apply IH in E. destruct E as [rest [s3 [-> [Hp A3]]]].
      exists (coerced :: rest), ((s1 ++ s2) ++ s3).
      split; [rewrite <- app_assoc; reflexivity|].
      split; [|exact (appended_trans (appended_trans A1 A2) A3)].
      cbn [passed_arguments]. split; [|exact Hp].
      unfold passed_argument. rewrite Ev. exists expected.
      split; [exact Hex|].
      exists rvalue, s1, actual. do 4 eexists.
      split; [do 3 eexists; exact Hc|]. split; [exact Ea|exact Hco].
Qed.

Lemma passed_arguments_length (tyty : BaseType) (varadic : bool) (required : nat)
      (arguments : list Expr) :
  forall i values,
    passed_arguments tyty varadic required i arguments values ->
    length values = length arguments.
Proof.
  induction arguments as [|a arguments IH]; intros i [|v values] Hp;
    cbn [passed_arguments] in Hp; try contradiction; [reflexivity|].
  destruct Hp as [_ Hp]. cbn. f_equal. exact (IH _ _ Hp).
Qed.

End CallFacts.

(** X20.  A method call whose name is not resolved reports it, after the
    receiver has been compiled, and leaves the result register as it was.
    Otherwise the value is a call whose
    first argument is the receiver, adjusted by the adjustments recorded for
    the call, and whose other arguments are the arguments of the expression,
    each coerced to the type of the parameter after its position (the first
    parameter is the receiver); for a receiver whose root is a dynamic object the function
    called and the receiver adjusted are those of [get_fn_addr_from_dyn] and
    [get_receiver_from_dyn] on the compiled receiver, and otherwise the
    function is that of [resolve_method_address] and the receiver adjusted is
    the compiled receiver. *)
Theorem visit_MethodCallExpr_call :
  forall (B : Backend) (T : Tables) (Y : TypeMethods) (C : Compilers)
         (expr : MethodCallExpr) (translated : tree) (ctx ctx' : Context)
         (t : tree),
    visit_MethodCallExpr expr translated ctx = Ok (t, ctx') ->
    (lookup_resolved_name (method_mappings expr) = None
     /\ t = translated
     /\ exists self0 stmts0 reports0 uid0,
          CompileExpr_Compile (method_receiver expr) (next_uid ctx)
          = Ok (self0, stmts0, reports0, uid0)
          /\ ctx'
             = with_diagnostic (emitted ctx stmts0 reports0 uid0)
                 (error_at (method_locus expr)
                           "failed to lookup resolved MethodCall"))
    \/ exists fntype receiver self0 stmts0 fn_expr self1 self rest adjustments,
         lookup_type (method_name_mappings expr) = Some (TyTy.FnDefType fntype)
         /\ lookup_receiver (method_mappings expr) = Some receiver
         /\ compiled CompileExpr_Compile (method_receiver expr) (self0, stmts0)
         /\ lookup_autoderef_mappings (method_mappings expr) = Some adjustments
         /\ (exists c c',
                resolve_adjustements
                  (fun ty => TyTyResolveCompile_compile ty false)
                  CompileInherentImplItem_Compile adjustments self1
                  (expr_locus (method_receiver expr)) c
                = Ok (self, c'))
         /\ t = call_expression fn_expr (self :: rest) NULL_TREE (method_locus expr)
         /\ coerced_arguments (fun i => param_at fntype (i + 1)) 0
                              (method_arguments expr) rest
         /\ length rest = length (method_arguments expr)
         /\ let resolved :=
              if TyTy.TypeKind_eqb (TyTy.get_kind receiver) TyTy.PARAM
              then ParamType_resolve receiver else receiver in
            if TyTy.TypeKind_eqb (TyTy.get_kind (get_root receiver)) TyTy.DYNAMIC
            then exists dyn,
                   get_root resolved = TyTy.DynamicObjectType dyn
                   /\ get_fn_addr_from_dyn TyTyResolveCompile_compile dyn resolved
                        fntype self0 (method_locus expr) = Ok fn_expr
                   /\ get_receiver_from_dyn TyTyResolveCompile_compile dyn resolved
                        fntype self0 (method_locus expr) = Ok self1
            else self1 = self0
                 /\ exists ref c c',
                      resolve_method_address fntype ref resolved
                        (method_name_segment expr) (method_mappings expr)
                        (method_locus expr) c
                      = Ok (fn_expr, c').
Proof.
  intros B T Y C expr translated ctx ctx' t E.
  unfold visit_MethodCallExpr in E.
  apply bind_Ok_inv in E. destruct E as [self0 [c0 [Hemit E]]].
  apply emit_inv in Hemit.
  destruct Hemit as [stmts0 [reports0 [Hself0 [_ [_ Hc0]]]]].
  destruct (lookup_resolved_name (method_mappings expr)) as [resolved_node_id|].
  2:{ left. apply bind_Ok_inv in E. destruct E as [u [c1 [Hrep E]]].
      apply report_Ok_inv in Hrep. apply ret_Ok_inv in E. destruct E as [-> ->].
      subst c1. split; [reflexivity|]. split; [reflexivity|].
      exists self0, stmts0, reports0, (next_uid c0).
      split; [exact Hself0|]. rewrite <- Hc0. reflexivity. }
  right.
  destruct (lookup_node_to_hir (method_mappings expr) resolved_node_id) as [ref|];
    [|discriminate E].
  destruct (lookup_type (method_name_mappings expr))
    as [[kd nm|nm en nv|base|fntype|its]|]; try discriminate E.
  destruct (lookup_receiver (method_mappings expr)) as [receiver|];
    [|discriminate E].
  cbv zeta in E.
  apply bind_Ok_inv in E. destruct E as [[fn_expr self1] [c1 [Hres E]]].
  destruct (lookup_autoderef_mappings (method_mappings expr)) as [adjustments|];
    [|discriminate E].
  apply bind_Ok_inv in E. destruct E as [self [c2 [Hadj E]]].
  apply bind_Ok_inv in E. destruct E as [args [c3 [Hargs E]]].
  apply ret_Ok_inv in E. destruct E as [-> ->].
  apply method_call_arguments_inv in Hargs.
  destruct Hargs as [rest [s3 [-> [Hco _]]]].
  pose proof (coerced_arguments_length _ _ _ _ Hco) as Hlen.
  exists fntype, receiver, self0, stmts0, fn_expr, self1, self, rest, adjustments.
  split; [reflexivity|]. split; [reflexivity|].
  split; [do 3 eexists; exact Hself0|]. split; [reflexivity|].
  split; [exists c1, c2; exact Hadj|]. split; [reflexivity|].
  split; [exact Hco|]. split; [exact Hlen|]. cbv zeta.
  destruct (TyTy.TypeKind_eqb (TyTy.get_kind (get_root receiver)) TyTy.DYNAMIC).
  - match type of Hres with
    | context [get_root ?r] => destruct (get_root r) as [kd nm|nm en nv|base|f|dyn]
    end; try discriminate Hres.
    apply bind_Ok_inv in Hres. destruct Hres as [fe [c4 [Hfe Hres]]].
    apply lift_Ok_inv in Hfe. destruct Hfe as [Hfe ->].
    apply bind_Ok_inv in Hres. destruct Hres as [se [c5 [Hse Hres]]].
    apply lift_Ok_inv in Hse. destruct Hse as [Hse ->].
    apply ret_Ok_inv in Hres. destruct Hres as [Hres _]. inversion Hres; subst.
    exists dyn. split; [reflexivity|]. split; assumption.
  - apply bind_Ok_inv in Hres. destruct Hres as [fe [c4 [Hfe Hres]]].
    apply ret_Ok_inv in Hres. destruct Hres as [Hres _]. inversion Hres; subst.
    split; [reflexivity|]. exists ref, c0, c4. exact Hfe.
Qed.

Lemma visit_MethodCallExpr_call_witness :
  exists t ctx',
    @visit_MethodCallExpr tree_backend MoreLoweringExamples.tables
      MoreLoweringExamples.type_methods MoreLoweringExamples.compilers
      (mkMethodCallExpr (PathInExpression 1) 91 "second" [PathInExpression 2] 90 6)
      NULL_TREE LoweringExamples.empty_context
    = Ok (t, ctx')
    /\ exists fn_expr self rest,
         t = CALL_EXPR fn_expr (self :: rest)
         /\ length rest = 1
         /\ get_fn_addr_from_dyn MoreLoweringExamples.compile_type_mode
              LoweringExamples.dyn_items
              (TyTy.ReferenceType MoreLoweringExamples.dyn_object)
              LoweringExamples.f2 (VALUE LoweringExamples.i32_tree 1) 6
            = Ok fn_expr.
Proof.
  destruct (@visit_MethodCallExpr tree_backend MoreLoweringExamples.tables
              MoreLoweringExamples.type_methods MoreLoweringExamples.compilers
              (mkMethodCallExpr (PathInExpression 1) 91 "second"
                                [PathInExpression 2] 90 6)
              NULL_TREE LoweringExamples.empty_context)
    as [[t ctx']| |] eqn:E; try (vm_compute in E; discriminate E).
  exists t, ctx'. split; [reflexivity|].
  destruct (@visit_MethodCallExpr_call tree_backend MoreLoweringExamples.tables
              MoreLoweringExamples.type_methods MoreLoweringExamples.compilers
              _ _ _ _ _ E)
    as [[Hn _]|[fntype [receiver [self0 [stmts0 [fn_expr [self1 [self [rest
         [adjustments [Hf [Hr [Hs [_ [_ [Ht [_ [Hlen Hd]]]]]]]]]]]]]]]]]].
  - discriminate Hn.
  - exists fn_expr, self, rest. split; [exact Ht|]. split; [exact Hlen|].
    cbn in Hf, Hr. injection Hf as <-. injection Hr as <-.
    destruct Hs as [uid [reports [uid' Hs]]]. cbn in Hs. injection Hs as <- _ _ _.
    cbn in Hd. destruct Hd as [dyn [Hdyn [Hfn _]]]. injection Hdyn as <-.
    exact Hfn.
Defined.

(** X21.  A call whose callee has no type reports it and leaves the result
    register as it was.  A call of a function passes as many values as the
    expression has arguments: each argument coerced to the type of the
    parameter of its position, except that for a variadic function the
    arguments past its parameters are passed as they were compiled.  The
    callee is compiled after the arguments: its statements are the last
    appended. *)
Theorem visit_CallExpr_function :
  forall (B : Backend) (T : Tables) (Y : TypeMethods) (C : Compilers)
         (expr : CallExpr) (translated : tree) (ctx : Context),
    (lookup_type (expr_mappings (call_fnexpr expr)) = None ->
     visit_CallExpr expr translated ctx
     = Ok (translated,
           with_diagnostic ctx (error_at (call_locus expr) "unknown type")))
    /\ (forall fn ctx' t,
           lookup_type (expr_mappings (call_fnexpr expr))
           = Some (TyTy.FnDefType fn) ->
           visit_CallExpr expr translated ctx = Ok (t, ctx') ->
           exists args fn_address s_args s_fn,
             t = call_expression fn_address args NULL_TREE (call_locus expr)
             /\ passed_arguments (TyTy.FnDefType fn) (is_varadic fn) (num_params fn)
                                 0 (call_arguments expr) args
             /\ length args = length (call_arguments expr)
             /\ compiled CompileExpr_Compile (call_fnexpr expr) (fn_address, s_fn)
             /\ appended ctx ctx' (s_args ++ s_fn)).
Proof.
  intros B T Y C expr translated ctx. split.
  - intros Hty. unfold visit_CallExpr. rewrite Hty. reflexivity.
  - intros fn ctx' t Hty E. unfold visit_CallExpr in E. rewrite Hty in E.
    cbn [TyTy.get_kind TyTy.TypeKind_eqb orb negb] in E.
    apply bind_Ok_inv in E. destruct E as [[varadic required] [c0 [Hshape E]]].
    apply ret_Ok_inv in Hshape. destruct Hshape as [Hshape ->].
    inversion Hshape; subst varadic required.
    apply bind_Ok_inv in E. destruct E as [args [c1 [Hargs E]]].
    apply bind_Ok_inv in E. destruct E as [fn_address [c2 [Hfn E]]].
    apply ret_Ok_inv in E. destruct E as [-> ->].
    apply function_arguments_inv in Hargs.
    destruct Hargs as [rest [s_args [-> [Hp A1]]]].
    apply emit_inv in Hfn. destruct Hfn as [s_fn [r_fn [Hc [A2 _]]]].
    exists rest, fn_address, s_args, s_fn. cbn [app].
    split; [reflexivity|]. split; [exact Hp|].
    split; [exact (passed_arguments_length _ _ _ _ _ _ Hp)|].
    split; [do 3 eexists; exact Hc|exact (appended_trans A1 A2)].
Qed.

Lemma visit_CallExpr_function_witness :
  exists t ctx',
    @visit_CallExpr tree_backend MoreLoweringExamples.tables
      MoreLoweringExamples.type_methods MoreLoweringExamples.compilers
      (mkCallExpr (PathInExpression 74) [PathInExpression 1; PathInExpression 2] 5 6)
      NULL_TREE LoweringExamples.empty_context
    = Ok (t, ctx')
    /\ t = CALL_EXPR (VALUE LoweringExamples.i32_tree 74)
             [CALL_EXPR (VALUE (FUNCTION_TYPE LoweringExamples.i32_tree) 77)
                        [VALUE LoweringExamples.i32_tree 1];
              VALUE LoweringExamples.i32_tree 2].
Proof.
  destruct (@visit_CallExpr tree_backend MoreLoweringExamples.tables
              MoreLoweringExamples.type_methods MoreLoweringExamples.compilers
              (mkCallExpr (PathInExpression 74)
                          [PathInExpression 1; PathInExpression 2] 5 6)
              NULL_TREE LoweringExamples.empty_context)
    as [[t ctx']| |] eqn:E; try (vm_compute in E; discriminate E).
  exists t, ctx'. split; [reflexivity|].
  destruct (@visit_CallExpr_function tree_backend MoreLoweringExamples.tables
              MoreLoweringExamples.type_methods MoreLoweringExamples.compilers
              (mkCallExpr (PathInExpression 74)
                          [PathInExpression 1; PathInExpression 2] 5 6)
              NULL_TREE LoweringExamples.empty_context) as [_ Hcall].
  destruct (Hcall LoweringExamples.f2 ctx' t eq_refl E)
    as [args [fn_address [s_args [s_fn [Ht _]]]]].
  vm_compute in E. injection E as E _. symmetry. exact E.
Defined.

(** X22.  A call that constructs a value of an algebraic data type coerces
    each compiled argument to the type of the field of its position in the
    variant constructed, which has at least as many fields as there are
    arguments.  For a structure, which must have one variant, the
    constructor is built over these values with the discriminant -1.  For an
    enumeration the variant is the one named by the callee; its discriminant
    expression is compiled after the arguments, its statements are the last
    appended, and its folded value is put before the arguments. *)
Theorem visit_CallExpr_constructor :
  forall (B : Backend) (T : Tables) (Y : TypeMethods) (C : Compilers)
         (expr : CallExpr) (translated : tree) (ctx ctx' : Context) (t : tree)
         (name : string) (adt_is_enum : bool) (number_of_variants : nat),
    lookup_type (expr_mappings (call_fnexpr expr))
    = Some (TyTy.ADTType name adt_is_enum number_of_variants) ->
    visit_CallExpr expr translated ctx = Ok (t, ctx') ->
    let tyty := TyTy.ADTType name adt_is_enum number_of_variants in
    exists variant arguments s_args s_discriminant,
      coerced_arguments (nth_error (variant_fields variant)) 0
                        (call_arguments expr) arguments
      /\ length arguments = length (call_arguments expr)
      /\ length (call_arguments expr) <= length (variant_fields variant)
      /\ appended ctx ctx' (s_args ++ s_discriminant)
      /\ if adt_is_enum
         then exists variant_id discriminator qualifier,
                lookup_variant_definition (expr_mappings (call_fnexpr expr))
                = Some variant_id
                /\ lookup_variant_by_id tyty variant_id
                   = Some (variant, discriminator)
                /\ compiled CompileExpr_Compile (get_discriminant variant)
                            (qualifier, s_discriminant)
                /\ t = constructor_expression
                         (TyTyResolveCompile_compile tyty false) true
                         (fold_expr qualifier :: arguments) discriminator
                         (call_locus expr)
         else number_of_variants = 1
              /\ hd_error (get_variants tyty) = Some variant
              /\ s_discriminant = []
              /\ t = constructor_expression
                       (TyTyResolveCompile_compile tyty false) false
                       arguments (-1) (call_locus expr).
Proof.
  intros B T Y C expr translated ctx ctx' t name adt_is_enum number_of_variants
         Hty E tyty.
  unfold visit_CallExpr in E. rewrite Hty in E.
  cbn [TyTy.get_kind TyTy.TypeKind_eqb orb negb] in E.
  apply bind_Ok_inv in E. destruct E as [u [c [Hassert E]]].
  apply assert_Ok_inv in Hassert. destruct Hassert as [_ ->].
  apply bind_Ok_inv in E. destruct E as [[variant discriminator] [c0 [Hv E]]].
  apply bind_Ok_inv in E. destruct E as [arguments [c1 [Hargs E]]].
  apply bind_Ok_inv in E. destruct E as [ctor_arguments [c2 [Hctor E]]].
  apply ret_Ok_inv in E. destruct E as [-> ->].
  apply constructor_arguments_inv in Hargs.
  destruct Hargs as [rest [s_args [-> [Hco [Hfields A1]]]]]. cbn [app] in *.
  pose proof (coerced_arguments_length _ _ _ _ Hco) as Hlen.
  specialize (Hfields (Nat.le_0_l _)). cbn [Nat.add] in Hfields.
  destruct adt_is_enum; cbn [negb] in Hv.
  - destruct (lookup_variant_definition (expr_mappings (call_fnexpr expr)))
      as [variant_id|] eqn:Evd; [|discriminate Hv].
    destruct (lookup_variant_by_id (TyTy.ADTType name true number_of_variants)
                                   variant_id) as [found|] eqn:Evi;
      [|discriminate Hv].
    apply ret_Ok_inv in Hv. destruct Hv as [Hv ->]. subst found.
    apply bind_Ok_inv in Hctor. destruct Hctor as [qualifier [c3 [Hq Hctor]]].
    apply emit_inv in Hq. destruct Hq as [s_d [r_d [Hq [A2 _]]]].
    apply ret_Ok_inv in Hctor. destruct Hctor as [-> ->].
    exists variant, rest, s_args, s_d.
    split; [exact Hco|]. split; [exact Hlen|]. split; [exact Hfields|].
    split; [exact (appended_trans A1 A2)|].
    exists variant_id, discriminator, qualifier.
    split; [reflexivity|]. split; [exact Evi|].
    split; [do 3 eexists; exact Hq|reflexivity].
  - apply bind_Ok_inv in Hv. destruct Hv as [u1 [c3 [Hone Hv]]].
    apply assert_Ok_inv in Hone. destruct Hone as [Hone ->].
    apply Nat.eqb_eq in Hone.
    destruct (get_variants (TyTy.ADTType name false number_of_variants))
      as [|v vs] eqn:Egv; [discriminate Hv|].
    apply ret_Ok_inv in Hv. destruct Hv as [Hv ->].
    injection Hv as Hvariant Hdisc.
    apply ret_Ok_inv in Hctor. destruct Hctor as [-> ->].
    exists variant, rest, s_args, [].
    split; [exact Hco|]. split; [exact Hlen|]. split; [exact Hfields|].
    split; [rewrite app_nil_r; exact A1|].
    unfold tyty. rewrite Egv, Hvariant, <- Hdisc.
    split; [exact Hone|]. split; [reflexivity|]. split; reflexivity.
Qed.

Lemma visit_CallExpr_constructor_witness :
  exists t ctx',
    @visit_CallExpr tree_backend MoreLoweringExamples.tables
      MoreLoweringExamples.type_methods MoreLoweringExamples.compilers
      (mkCallExpr (PathInExpression 72) [PathInExpression 1] 5 6)
      NULL_TREE LoweringExamples.empty_context
    = Ok (t, ctx')
    /\ exists arguments,
         t = CONSTRUCTOR (RECORD_TYPE false [LoweringExamples.i32_tree;
                                             LoweringExamples.i32_tree])
               (INTEGER_CST LoweringExamples.i32_tree 1 :: arguments)
         /\ length arguments = 1.
Proof.
  destruct (@visit_CallExpr tree_backend MoreLoweringExamples.tables
              MoreLoweringExamples.type_methods MoreLoweringExamples.compilers
              (mkCallExpr (PathInExpression 72) [PathInExpression 1] 5 6)
              NULL_TREE LoweringExamples.empty_context)
    as [[t ctx']| |] eqn:E; try (vm_compute in E; discriminate E).
  exists t, ctx'. split; [reflexivity|].
  destruct (@visit_CallExpr_constructor tree_backend MoreLoweringExamples.tables
              MoreLoweringExamples.type_methods MoreLoweringExamples.compilers
              (mkCallExpr (PathInExpression 72) [PathInExpression 1] 5 6)
              NULL_TREE LoweringExamples.empty_context ctx' t
              "Option" true 2 eq_refl E)
    as [variant [arguments [s_args [s_d [_ [Hlen [_ [_ Henum]]]]]]]].
  destruct Henum as [variant_id [discriminator [qualifier [_ [Hv [Hq Ht]]]]]].
  cbn in Hv. injection Hv as <- <-.
  destruct Hq as [uid [reports [uid' Hq]]]. cbn in Hq. injection Hq as <- _ _ _.
  exists arguments. split; [exact Ht|exact Hlen].
Defined.

(** X23.  An identifier that is lowered either reports one error and
    leaves the result register as it was, or leaves the context as it was,
    or compiles the item it names on demand: the last only when its
    declaration is in none of the tables of constants, functions, variables
    and pattern bindings; the context is then as the compiler of the item
    leaves it, with the statements it appends and the diagnostics it
    reports. *)
Theorem visit_IdentifierExpr_effects :
  forall (B : Backend) (T : Tables) (Y : TypeMethods) (C : Compilers)
         (expr : IdentifierExpr) (translated : tree) (ctx ctx' : Context)
         (t : tree),
    visit_IdentifierExpr expr translated ctx = Ok (t, ctx') ->
    (exists message,
        t = translated
        /\ ctx' = with_diagnostic ctx (error_at (ident_locus expr) message))
    \/ ctx' = ctx
    \/ (exists ref item substitution stmts reports,
           lookup_const_decl ref = None
           /\ lookup_function_decl ref = None
           /\ lookup_var_decl ref = None
           /\ lookup_pattern_binding ref = None
           /\ lookup_hir_item (ident_mappings expr) ref = Some item
           /\ CompileItem_compile item substitution true (ident_locus expr)
                                  (next_uid ctx)
              = Ok (t, stmts, reports, next_uid ctx')
           /\ ctx' = emitted ctx stmts reports (next_uid ctx')
           /\ appended ctx ctx' stmts).
Proof.
  intros B T Y C expr translated ctx ctx' t E.
  unfold visit_IdentifierExpr in E.
  destruct (resolve_identifier expr) as [message|[ref_node_id is_value]].
  { left. exists message.
    apply bind_Ok_inv in E. destruct E as [u [c [Hrep E]]].
    apply report_Ok_inv in Hrep. apply ret_Ok_inv in E. destruct E as [-> ->].
    split; [reflexivity|exact Hrep]. }
  destruct (Nat.eqb ref_node_id UNKNOWN_NODEID); [discriminate E|].
  destruct (lookup_node_to_hir (ident_mappings expr) ref_node_id) as [ref|].
  2:{ left. exists "reverse lookup failure"%string.
      apply bind_Ok_inv in E. destruct E as [u [c [Hrep E]]].
      apply report_Ok_inv in Hrep. apply ret_Ok_inv in E. destruct E as [-> ->].
      split; [reflexivity|exact Hrep]. }
  destruct (lookup_type ref) as [lookup|]; [|discriminate E].
  cbv zeta in E.
  destruct (negb is_value).
  { destruct (is_unit lookup); [|discriminate E].
    apply ret_Ok_inv in E. right. left. apply E. }
  destruct (lookup_const_decl ref) as [decl|] eqn:Ec.
  { apply ret_Ok_inv in E. right. left. apply E. }
  destruct (lookup_function_decl ref) as [fn|] eqn:Ef.
  { apply ret_Ok_inv in E. right. left. apply E. }
  destruct (lookup_var_decl ref) as [var|] eqn:Ev.
  { apply ret_Ok_inv in E. right. left. apply E. }
  destruct (lookup_pattern_binding ref) as [binding|] eqn:Eb.
  { apply ret_Ok_inv in E. right. left. apply E. }
  destruct (lookup_hir_item (ident_mappings expr) ref) as [item|] eqn:Ei.
  2:{ apply ret_Ok_inv in E. right. left. apply E. }
  right. right.
  destruct (negb (type_has_subsititions_defined lookup));
    apply emit_inv in E; destruct E as [stmts [reports [Hc [Ha [_ Hctx]]]]];
    [exists ref, item, None, stmts, reports
    |exists ref, item, (Some lookup), stmts, reports];
    repeat (split; [assumption|]); exact Ha.
Qed.

Lemma visit_IdentifierExpr_effects_witness :
  (exists t ctx',
      @visit_IdentifierExpr tree_backend MoreLoweringExamples.tables
        MoreLoweringExamples.type_methods MoreLoweringExamples.compilers
        (mkIdentifierExpr 21 "x" 6) NULL_TREE LoweringExamples.empty_context
      = Ok (t, ctx')
      /\ t = INTEGER_CST LoweringExamples.i32_tree 5
      /\ ctx' = LoweringExamples.empty_context)
  /\ (exists t ctx',
         @visit_IdentifierExpr tree_backend MoreLoweringExamples.tables
           MoreLoweringExamples.type_methods MoreLoweringExamples.compilers
           (mkIdentifierExpr 30 "g" 6) NULL_TREE LoweringExamples.empty_context
         = Ok (t, ctx')
         /\ t = FUNCTION_DECL (FUNCTION_TYPE LoweringExamples.i32_tree) 55
         /\ ctx' = emitted LoweringExamples.empty_context
                     [DECL_EXPR (VAR_DECL LoweringExamples.i32_tree 1)]
                     [error_at 6 "unused variable"] 2).
Proof.
  split.
  - destruct (@visit_IdentifierExpr tree_backend MoreLoweringExamples.tables
                MoreLoweringExamples.type_methods MoreLoweringExamples.compilers
                (mkIdentifierExpr 21 "x" 6) NULL_TREE
                LoweringExamples.empty_context)
      as [[t ctx']| |] eqn:E; try (vm_compute in E; discriminate E).
    exists t, ctx'. split; [reflexivity|].
    assert (Ht : t = INTEGER_CST LoweringExamples.i32_tree 5)
      by (vm_compute in E; injection E as <- _; reflexivity).
    split; [exact Ht|].
    destruct (@visit_IdentifierExpr_effects tree_backend
                MoreLoweringExamples.tables MoreLoweringExamples.type_methods
                MoreLoweringExamples.compilers _ _ _ _ _ E)
      as [[message [Hm _]]|[Hctx|[ref [item [substitution [stmts [reports
           [_ [_ [_ [_ [_ [Hc _]]]]]]]]]]]]].
    + rewrite Ht in Hm. discriminate Hm.
    + exact Hctx.
    + rewrite Ht in Hc. cbn in Hc. discriminate Hc.
  - destruct (@visit_IdentifierExpr tree_backend MoreLoweringExamples.tables
                MoreLoweringExamples.type_methods MoreLoweringExamples.compilers
                (mkIdentifierExpr 30 "g" 6) NULL_TREE
                LoweringExamples.empty_context)
      as [[t ctx']| |] eqn:E; try (vm_compute in E; discriminate E).
    exists t, ctx'. split; [reflexivity|].
    assert (Ht : t = FUNCTION_DECL (FUNCTION_TYPE LoweringExamples.i32_tree) 55)
      by (vm_compute in E; injection E as <- _; reflexivity).
    split; [exact Ht|].
    destruct (@visit_IdentifierExpr_effects tree_backend
                MoreLoweringExamples.tables MoreLoweringExamples.type_methods
                MoreLoweringExamples.compilers _ _ _ _ _ E)
      as [[message [Hm _]]|[Hctx|[ref [item [substitution [stmts [reports
           [_ [_ [_ [_ [_ [Hc [Hctx _]]]]]]]]]]]]]].
    + rewrite Ht in Hm. discriminate Hm.
    + rewrite Hctx in E. vm_compute in E. discriminate E.
    + cbn in Hc. injection Hc as _ <- <- Hu. rewrite <- Hu in Hctx. exact Hctx.
Defined.

(** X24.  A negation compiles its operand once.  When the operator is not
    overloaded the result is the negation of the compiled operand.  When it
    is overloaded by a function compiled already, and the receiver is
    adjusted without calls, the result is a call of that function by its
    address with one argument, the adjusted operand. *)
Theorem visit_NegationExpr_result :
  forall (B : Backend) (O : Operators) (T : Tables) (Y : TypeMethods) (C : Compilers)
         (expr : NegationExpr NegationOperator) (ctx : Context)
         (operand : tree) (stmts : list tree) (reports : list diagnostic)
         (uid' : nat),
    scope_stack ctx <> [] ->
    CompileExpr_Compile (negation_expr expr) (next_uid ctx)
    = Ok (operand, stmts, reports, uid') ->
    let ctx' := emitted ctx stmts reports uid' in
    appended ctx ctx' stmts
    /\ (lookup_operator_overload (negation_mappings expr) = None ->
        visit_NegationExpr expr ctx
        = Ok (negation_expression (negation_expr_type expr) operand
                                  (negation_locus expr), ctx'))
    /\ (forall fntype resolved ref receiver fn adjustments,
           lookup_operator_overload (negation_mappings expr) = Some fntype ->
           lookup_resolved_name (negation_mappings expr) = Some resolved ->
           lookup_node_to_hir (negation_mappings expr) resolved = Some ref ->
           lookup_receiver (negation_mappings expr) = Some receiver ->
           lookup_function_decl (get_ty_ref fntype) = Some fn ->
           lookup_autoderef_mappings (negation_mappings expr) = Some adjustments ->
           Forall (fun a => call_free a = true) adjustments ->
           exists self,
             resolve_adjustements (fun ty => TyTyResolveCompile_compile ty false)
               CompileInherentImplItem_Compile adjustments operand
               (expr_locus (negation_expr expr)) ctx'
             = Ok (self, ctx')
             /\ visit_NegationExpr expr ctx
                = Ok (call_expression
                        (address_expression fn (build_pointer_type (TREE_TYPE fn))
                                            (negation_locus expr))
                        [self] NULL_TREE (negation_locus expr), ctx')).
Proof.
  intros B O T Y C expr ctx operand stmts reports uid' Hs Hc ctx'.
  split; [apply emitted_appended; exact Hs|]. split.
  - intros Hno. unfold visit_NegationExpr. cbv zeta.
    rewrite (bind_emit _ _ _ Hs Hc). rewrite Hno. reflexivity.
  - intros fntype resolved ref receiver fn adjustments Ho Hn Hr Hrec Hfn Ha Hfree.
    destruct (call_free_resolves (fun ty => TyTyResolveCompile_compile ty false)
                (expr_locus (negation_expr expr)) ctx' Hfree operand)
      as [self [Hself _]].
    exists self. split; [apply Hself|].
    unfold visit_NegationExpr. cbv zeta.
    rewrite (bind_emit _ _ _ Hs Hc). rewrite Ho.
    unfold resolve_operator_overload.
    cbn [meta_mappings meta_locus]. rewrite Ho, Hn, Hr, Hrec. cbv zeta.
    unfold bind at 1.
    rewrite resolve_method_address_compiled with (fn := fn) by exact Hfn.
    rewrite Ha. unfold bind. fold ctx'. rewrite Hself. reflexivity.
Qed.

Lemma visit_NegationExpr_result_witness :
  @visit_NegationExpr tree_backend MoreLoweringExamples.operators
    MoreLoweringExamples.tables MoreLoweringExamples.type_methods
    MoreLoweringExamples.compilers
    (mkNegationExpr (4 : @NegationOperator MoreLoweringExamples.operators)
                    (PathInExpression 1) 5 6)
    LoweringExamples.empty_context
  = Ok (CALL_EXPR (VALUE (FUNCTION_TYPE LoweringExamples.i32_tree) 4)
                  [VALUE LoweringExamples.i32_tree 1],
        LoweringExamples.empty_context).
Proof.
  destruct (@visit_NegationExpr_result tree_backend MoreLoweringExamples.operators
              MoreLoweringExamples.tables MoreLoweringExamples.type_methods
              MoreLoweringExamples.compilers
              (mkNegationExpr (4 : @NegationOperator MoreLoweringExamples.operators)
                              (PathInExpression 1) 5 6)
              LoweringExamples.empty_context
              (VALUE LoweringExamples.i32_tree 1) [] [] 1)
    as [_ [Hplain _]].
  - discriminate.
  - reflexivity.
  - exact (Hplain eq_refl).
Defined.
